(** * AssetGraph: the asset graph of the bundler core

    A shallow embedding of [packages/core/core/src/AssetGraph.js].

    JavaScript node records are mutable objects that the graph, the
    traversals and the resolvers share by reference.  The embedding keeps
    that sharing: node objects live in a store ([heap]) and are named by
    their location; the graph's [nodes] map sends an id to the location of
    the object stored under it.  A freshly built node is a new location, and
    becomes visible through the graph only if it is inserted. *)

From stdpp Require Import base option list gmap strings.
From Stdlib Require Import Lia.

Open Scope string_scope.
Open Scope list_scope.
Open Scope nat_scope.

(** ** JavaScript collections *)

(** [Set<string>]: iteration follows insertion order, so a set is the list of
    its members in the order they were first added. *)
Module JsSet.
Definition t : Type := list string.
Definition empty : t := [].
Definition has (x : string) (s : list string) : bool := bool_decide (x ∈ s).
Definition add (x : string) (s : list string) : t :=
    if has x s then s else s ++ [x].
Definition delete (x : string) (s : list string) : t := filter (λ y, y ≠ x) s.
Definition size (s : list string) : nat := length s.
End JsSet.

(** [Map<string, V>]: an association list in insertion order; [set] on a key
    already present overwrites the value in place. *)
Module JsMap.
Section WithValue.
Context {V : Type}.
Definition t : Type := list (string * V).

Fixpoint get (k : string) (m : list (string * V)) : option V :=
      match m with
      | [] => None
      | (k', v) :: m' => if decide (k' = k) then Some v else get k m'
      end.

Definition has (k : string) (m : list (string * V)) : bool :=
      match get k m with Some _ => true | None => false end.

Fixpoint set (k : string) (v : V) (m : list (string * V)) : t :=
      match m with
      | [] => [(k, v)]
      | (k', v') :: m' =>
          if decide (k' = k) then (k, v) :: m' else (k', v') :: set k v m'
      end.

Definition values (m : list (string * V)) : list V := m.*2.

(** [new Map(entries)] *)
Definition of_entries (es : list (string * V)) : t :=
      foldl (λ m e, set e.1 e.2 m) [] es.
End WithValue.
Arguments t : clear implicits.
End JsMap.

(** ** Payload types (from [./types]) *)

Record Environment := { isLibrary : bool }.

Record Target := { target_name : string; target_env : Environment }.

(** A dependency's symbol table maps the imported (exported-by-the-target)
    name to the local binding; [weakSymbols] is the set of names the
    dependency only re-exports. *)
Record Dependency := {
  dep_id : string;
  moduleSpecifier : string;
  dep_pipeline : option string;
  dep_target : option Target;
  dep_env : Environment;
  isEntry : bool;
  dep_symbols : JsMap.t string;
  weakSymbols : JsSet.t
}.

Record AssetGroup := {
  group_filePath : string;
  sideEffects : option bool
}.

Record Entry := { filePath : string; packagePath : string }.

(** An asset's symbol table maps an exported name to its local binding; the
    table may be absent. *)
Record Asset := {
  asset_id : string;
  uniqueKey : option string;
  dependencies : JsMap.t Dependency;
  asset_symbols : option (JsMap.t string);
  outputHash : option string
}.

(** ** Graph nodes *)

Inductive NodeType :=
  | root | entry_specifier | entry_file | dependency | asset_group | asset.

Global Instance NodeType_eq_dec : EqDecision NodeType.
Proof. solve_decision. Defined.

Inductive NodeValue :=
  | RootValue
  | EntrySpecifierValue (entry : string)
  | EntryFileValue (entry : Entry)
  | DependencyValue (dep : Dependency)
  | AssetGroupValue (assetGroup : AssetGroup)
  | AssetValue (a : Asset).

(** A node object.  The optional fields are the properties a node may or may
    not carry ([None] is [undefined], and [delete] resets to [None]). *)
Record Node := {
  id : string;
  value : NodeValue;
  usedSymbols : JsSet.t;
  correspondingRequest : option string;
  complete : option bool;
  hasDeferred : option bool;
  deferred : option bool
}.

(** [node.type]: the tag goes with the payload. *)
Definition type (n : Node) : NodeType :=
  match value n with
  | RootValue => root
  | EntrySpecifierValue _ => entry_specifier
  | EntryFileValue _ => entry_file
  | DependencyValue _ => dependency
  | AssetGroupValue _ => asset_group
  | AssetValue _ => asset
  end.

Definition mkNode (i : string) (v : NodeValue) : Node :=
  {| id := i; value := v; usedSymbols := JsSet.empty;
     correspondingRequest := None; complete := None;
     hasDeferred := None; deferred := None |}.

Definition set_usedSymbols (s : JsSet.t) (n : Node) : Node :=
  {| id := id n; value := value n; usedSymbols := s;
     correspondingRequest := correspondingRequest n; complete := complete n;
     hasDeferred := hasDeferred n; deferred := deferred n |}.

Definition set_correspondingRequest (r : option string) (n : Node) : Node :=
  {| id := id n; value := value n; usedSymbols := usedSymbols n;
     correspondingRequest := r; complete := complete n;
     hasDeferred := hasDeferred n; deferred := deferred n |}.

Definition set_complete (c : option bool) (n : Node) : Node :=
  {| id := id n; value := value n; usedSymbols := usedSymbols n;
     correspondingRequest := correspondingRequest n; complete := c;
     hasDeferred := hasDeferred n; deferred := deferred n |}.

Definition set_hasDeferred (h : option bool) (n : Node) : Node :=
  {| id := id n; value := value n; usedSymbols := usedSymbols n;
     correspondingRequest := correspondingRequest n; complete := complete n;
     hasDeferred := h; deferred := deferred n |}.

Definition set_deferred (d : option bool) (n : Node) : Node :=
  {| id := id n; value := value n; usedSymbols := usedSymbols n;
     correspondingRequest := correspondingRequest n; complete := complete n;
     hasDeferred := hasDeferred n; deferred := d |}.

(** ** The graph state *)

(** Locations of the store. *)
Abbreviation loc := nat (only parsing).

(** [heap] is the store of node objects.  [nodes] is [Graph.nodes]
    ([Map<id, node>]); [edges] lists the parent-to-child edges in the order
    they were added; [hash] is the cached digest; [removedLog] records the
    nodes handed to the [onNodeRemoved] observer, latest last. *)
Record AssetGraph := {
  heap : list Node;
  nodes : gmap string loc;
  edges : list (string * string);
  rootNodeId : option string;
  hash : option string;
  removedLog : list loc
}.

Definition set_heap (h : list Node) (g : AssetGraph) : AssetGraph :=
  {| heap := h; nodes := nodes g; edges := edges g;
     rootNodeId := rootNodeId g; hash := hash g; removedLog := removedLog g |}.

Definition set_nodes (m : gmap string loc) (g : AssetGraph) : AssetGraph :=
  {| heap := heap g; nodes := m; edges := edges g;
     rootNodeId := rootNodeId g; hash := hash g; removedLog := removedLog g |}.

Definition set_edges (es : list (string * string)) (g : AssetGraph) : AssetGraph :=
  {| heap := heap g; nodes := nodes g; edges := es;
     rootNodeId := rootNodeId g; hash := hash g; removedLog := removedLog g |}.

Definition set_rootNodeId (r : option string) (g : AssetGraph) : AssetGraph :=
  {| heap := heap g; nodes := nodes g; edges := edges g;
     rootNodeId := r; hash := hash g; removedLog := removedLog g |}.

Definition set_hash (h : option string) (g : AssetGraph) : AssetGraph :=
  {| heap := heap g; nodes := nodes g; edges := edges g;
     rootNodeId := rootNodeId g; hash := h; removedLog := removedLog g |}.

Definition set_removedLog (l : list loc) (g : AssetGraph) : AssetGraph :=
  {| heap := heap g; nodes := nodes g; edges := edges g;
     rootNodeId := rootNodeId g; hash := hash g; removedLog := l |}.

Definition emptyGraph : AssetGraph :=
  {| heap := []; nodes := ∅; edges := []; rootNodeId := None;
     hash := None; removedLog := [] |}.

(** ** Methods as state transformers that may throw

    A method call either returns a value or throws; in both cases the
    mutations made so far stay. *)

Inductive Outcome (A : Type) :=
  | Returned (a : A)
  | Threw.
Arguments Returned {A} a.
Arguments Threw {A}.

Definition Js (A : Type) : Type := AssetGraph → Outcome A * AssetGraph.

Definition ret {A} (a : A) : Js A := λ g, (Returned a, g).
Definition throw {A} : Js A := λ g, (Threw, g).
Definition bind {A B} (m : Js A) (k : A → Js B) : Js B :=
  λ g, match m g with
       | (Returned a, g') => k a g'
       | (Threw, g') => (Threw, g')
       end.

Declare Scope js_scope.
Delimit Scope js_scope with js.
Bind Scope js_scope with Js.
Notation "'let*' x ':=' m 'in' k" := (bind m (λ x, k))
  (at level 10, x pattern, m at level 100, k at level 200) : js_scope.
Notation "m '>>' k" := (bind m (λ _, k))
  (at level 100, k at level 200, right associativity) : js_scope.
Open Scope js_scope.

Definition get_state : Js AssetGraph := λ g, (Returned g, g).
Definition update_state (f : AssetGraph → AssetGraph) : Js unit :=
  λ g, (Returned tt, f g).

(** [nullthrows(x)] and [invariant(cond)] *)
Definition nullthrows {A} (x : option A) : Js A :=
  match x with Some a => ret a | None => throw end.
Definition invariant (cond : bool) : Js unit :=
  if cond then ret tt else throw.

(** Object creation, field reads and field writes. *)
Definition alloc (n : Node) : Js loc :=
  λ g, (Returned (length (heap g)), set_heap (heap g ++ [n]) g).
Definition read (l : loc) : Js Node :=
  λ g, match heap g !! l with
       | Some n => (Returned n, g)
       | None => (Threw, g)
       end.
Definition write (l : loc) (f : Node → Node) : Js unit :=
  λ g, match heap g !! l with
       | Some n => (Returned tt, set_heap (<[l := f n]> (heap g)) g)
       | None => (Threw, g)
       end.

Fixpoint forEach {A} (xs : list A) (body : A → Js unit) : Js unit :=
  match xs with
  | [] => ret tt
  | x :: xs' => body x >> forEach xs' body
  end.

Fixpoint mapM {A B} (f : A → Js B) (xs : list A) : Js (list B) :=
  match xs with
  | [] => ret []
  | x :: xs' => let* y := f x in let* ys := mapM f xs' in ret (y :: ys)
  end.

(** ** The generic graph

    [AssetGraph] extends [Graph] from [./Graph], which is not among the
    sources at hand.  The definitions of this part are written from the
    design document. *)

(** Modelled from the spec: [./Graph] is missing.  Edges are directed
    parent-to-child pairs of ids; the children (parents) of a node are read
    off the edge list in the order the edges were added. *)
Definition childIds (i : string) (g : AssetGraph) : list string :=
  (filter (λ e : string * string, e.1 = i) (edges g)).*2.

Definition parentIds (i : string) (g : AssetGraph) : list string :=
  (filter (λ e : string * string, e.2 = i) (edges g)).*1.

(** Modelled from the spec: [./Graph] is missing.  "Existence/lookup
    queries" of the node store. *)
Definition getNode (i : string) : Js (option loc) :=
  λ g, (Returned (nodes g !! i), g).

Definition hasNode (i : string) : Js bool :=
  λ g, (Returned (bool_decide (is_Some (nodes g !! i))), g).

(** Modelled from the spec: [./Graph] is missing.  The stored node objects
    at the far end of the outgoing (incoming) edges of a node; an edge whose
    far end is not stored contributes nothing. *)
Definition getNodesConnectedFrom (l : loc) (g : AssetGraph) : list loc :=
  match heap g !! l with
  | Some n => omap (λ c, nodes g !! c) (childIds (id n) g)
  | None => []
  end.

Definition getNodesConnectedTo (l : loc) (g : AssetGraph) : list loc :=
  match heap g !! l with
  | Some n => omap (λ p, nodes g !! p) (parentIds (id n) g)
  | None => []
  end.

(** Modelled from the spec: [./Graph] is missing.  "[addNode(node)] inserts
    (idempotent on id collision -- callers must check existence first where
    reuse matters)": the object is stored under its id, taking the place of
    any object stored there. *)
Definition Graph_addNode (node : loc) : Js loc :=
  let* n := read node in
  update_state (λ g, set_nodes (<[id n := node]> (nodes g)) g) >>
  ret node.

(** [addNode], lines 125-128. *)
Definition addNode (node : loc) : Js loc :=
  update_state (set_hash None) >>
  Graph_addNode node.

(** Modelled from the spec: [./Graph] is missing.  "[removeNode(node)]
    deletes the node and all its edges, cascades removal to any child left
    with no remaining parent".  The cascade goes through the method of the
    object ([self]), so that a subclass override sees every removed node. *)
Definition Graph_removeNode (self : loc → Js unit) (node : loc) : Js unit :=
  let* n := read node in
  let* g := get_state in
  let children := childIds (id n) g in
  update_state (λ g,
    set_edges (filter (λ e : string * string, e.1 ≠ id n ∧ e.2 ≠ id n) (edges g))
      (set_nodes (delete (id n) (nodes g)) g)) >>
  forEach children (λ c,
    let* g := get_state in
    match nodes g !! c with
    | Some child =>
        if bool_decide (parentIds c g = []) then self child else ret tt
    | None => ret tt
    end).

(** [removeNode], lines 130-134.  [this.onNodeRemoved(node)] is the
    observer's record of the call.  The recursion is the cascade; every step
    deletes a stored node, so the number of stored nodes bounds it. *)
Fixpoint removeNode_upto (fuel : nat) (node : loc) : Js unit :=
  match fuel with
  | 0 => ret tt
  | S fuel' =>
      update_state (set_hash None) >>
      update_state (λ g, set_removedLog (removedLog g ++ [node]) g) >>
      Graph_removeNode (removeNode_upto fuel') node
  end.

Definition removeNode (node : loc) : Js unit :=
  λ g, removeNode_upto (S (size (nodes g))) node g.

(** Modelled from the spec: [./Graph] is missing.
    "[replaceNodesConnectedTo(parent, desiredChildren)] computes the
    symmetric difference between parent's current direct children (by id)
    and [desiredChildren]: children present in both are left untouched;
    children only in the current set have their edge removed and, if now
    parentless, are cascade-removed; children only in [desiredChildren] are
    added (inserting the node if new) with a fresh edge."  The additions are
    made before the removals, so that a subtree shared between an old and a
    new child survives; the parent has to be stored. *)
Definition removeEdge (from to : string) (g : AssetGraph) : AssetGraph :=
  set_edges (filter (λ e : string * string, e ≠ (from, to)) (edges g)) g.

Definition addEdge (from to : string) (g : AssetGraph) : AssetGraph :=
  if bool_decide ((from, to) ∈ edges g) then g
  else set_edges (edges g ++ [(from, to)]) g.

Definition replaceNodesConnectedTo (fromNode : loc) (toNodes : list loc)
  : Js unit :=
  let* from := read fromNode in
  let* stored := hasNode (id from) in
  invariant stored >>
  let* g := get_state in
  let current := childIds (id from) g in
  let* toIds := mapM (λ l, let* n := read l in ret (id n)) toNodes in
  forEach toNodes (λ toNode,
    let* n := read toNode in
    let* existing := getNode (id n) in
    match existing with
    | Some _ => ret tt
    | None => addNode toNode >> ret tt
    end >>
    update_state (addEdge (id from) (id n))) >>
  forEach (filter (λ c, c ∉ toIds) current) (λ c,
    update_state (removeEdge (id from) c) >>
    let* g := get_state in
    match nodes g !! c with
    | Some child =>
        if bool_decide (parentIds c g = []) then removeNode child else ret tt
    | None => ret tt
    end).

(** Modelled from the spec: [./Graph] is missing.  "Root-node
    designation". *)
Definition setRootNode (node : loc) : Js unit :=
  let* n := read node in
  addNode node >>
  update_state (set_rootNodeId (Some (id n))).

Definition getRootNode : Js (option loc) :=
  λ g, (Returned (rootNodeId g ≫= λ i, nodes g !! i), g).

(** ** Traversal *)

(** What a visitor hands back: the context for the children of the node (if
    it returned one), whether it called [actions.skipChildren()] or
    [actions.stop()], and the new value of the variables it closes over. *)
Record Visit (C X : Type) := {
  newContext : option C;
  skipChildren : bool;
  stop : bool;
  captured : X
}.
Arguments newContext {C X} v.
Arguments skipChildren {C X} v.
Arguments stop {C X} v.
Arguments captured {C X} v.

Definition continue {C X} (x : X) : Visit C X :=
  {| newContext := None; skipChildren := false; stop := false; captured := x |}.
Definition skip {C X} (x : X) : Visit C X :=
  {| newContext := None; skipChildren := true; stop := false; captured := x |}.

(** The state of a walk in progress. *)
Record Walk (X : Type) := {
  visited : list loc;
  stopped : bool;
  closure : X;
  graph : AssetGraph
}.
Arguments visited {X} w.
Arguments stopped {X} w.
Arguments closure {X} w.
Arguments graph {X} w.

Inductive WalkResult (X : Type) :=
  | Done (w : Walk X)
  | Thrown (g : AssetGraph)
  | OutOfFuel.
Arguments Done {X} w.
Arguments Thrown {X} g.
Arguments OutOfFuel {X}.

Section Dfs.
Context {C X : Type}.
Variable getChildren : loc → AssetGraph → list loc.
Variable visit : loc → option C → X → Js (Visit C X).

(** The loop over the children of a node; [walk] is the recursive call. *)
Fixpoint walkChildren (walk : loc → option C → Walk X → WalkResult X)
      (context : option C) (children : list loc) (w : Walk X) : WalkResult X :=
    match children with
    | [] => Done w
    | child :: rest =>
        if bool_decide (child ∈ visited w) then
          walkChildren walk context rest w
        else
          match walk child context w with
          | Done w' =>
              if stopped w' then Done w'
              else walkChildren walk context rest w'
          | r => r
          end
    end.

(** Modelled from the spec: [./Graph] is missing.  "Pre-order depth-first
      walk [...], visiting each reachable node exactly once via a
      visited-set guard; visitor may signal [skipChildren] (prune current
      subtree) or [stop] (abort traversal); a visitor may return a context
      value passed as input to its children's visits."  [fuel] bounds the
      depth of the recursion. *)
Fixpoint walk (fuel : nat) (node : loc) (context : option C) (w : Walk X)
    : WalkResult X :=
    match fuel with
    | 0 => OutOfFuel
    | S fuel' =>
        match visit node context (closure w) (graph w) with
        | (Threw, g') => Thrown g'
        | (Returned v, g') =>
            let context' :=
              match newContext v with Some c => Some c | None => context end in
            let w' := {| visited := visited w ++ [node];
                         stopped := stopped w || stop v;
                         closure := captured v;
                         graph := g' |} in
            if skipChildren v then Done w'
            else if stopped w' then Done w'
            else walkChildren (walk fuel') context' (getChildren node g') w'
        end
    end.

(** A walk never nests deeper than the number of node objects it can
      reach: the start node and the stored ones. *)
Definition dfs (startNode : loc) (x : X) : Js X :=
    λ g, match walk (S (size (nodes g))) startNode None
                 {| visited := []; stopped := false; closure := x; graph := g |}
         with
         | Done w => (Returned (closure w), graph w)
         | Thrown g' => (Threw, g')
         | OutOfFuel => (Threw, g)
         end.
End Dfs.

(** Modelled from the spec: [./Graph] is missing.
    "[traverse(visitor, startNode = root)]: [...] walk over descendant
    edges". *)
Definition traverse {C X} (visit : loc → option C → X → Js (Visit C X))
    (startNode : option loc) (x : X) : Js X :=
  let* start :=
    match startNode with
    | Some l => ret l
    | None => let* r := getRootNode in nullthrows r
    end in
  dfs getNodesConnectedFrom visit start x.

(** Modelled from the spec: [./Graph] is missing.
    "[traverseAncestors(node, visitor)]: same contract over reverse
    (incoming) edges". *)
Definition traverseAncestors {C X} (startNode : loc)
    (visit : loc → option C → X → Js (Visit C X)) (x : X) : Js X :=
  dfs getNodesConnectedTo visit startNode x.

(** Modelled from the spec: [./Graph] is missing.
    "[findAncestors(node, predicate)]: walks all ancestors, collecting those
    matching [predicate]; traversal continues past a match". *)
Definition collectVisitor (fn : Node → bool) (l : loc) (_ : option unit)
    (res : list loc) : Js (Visit unit (list loc)) :=
  let* n := read l in
  ret (continue (if fn n then res ++ [l] else res)).

Definition findAncestors (node : loc) (fn : Node → bool) : Js (list loc) :=
  traverseAncestors node (collectVisitor fn) [].

(** Modelled from the spec: [./Graph] is missing.
    "[filteredTraverse(map, visitor, startNode)]: like [traverse], but each
    node is first passed through [map]; nodes mapping to an empty result are
    excluded from the visitor call but their descendants are still
    walked". *)
Definition filteredTraverse {V C X} (filter : Node → option V)
    (visit : V → option C → X → Js (Visit C X))
    (startNode : option loc) (x : X) : Js X :=
  traverse
    (λ l context x,
       let* n := read l in
       match filter n with
       | Some v => visit v context x
       | None => ret (continue x)
       end)
    startNode x.

(** ** External functions

    [md5FromObject] ([@parcel/utils]), [createDependency] ([./Dependency]),
    [JSON.stringify] and the MD5 digest of [crypto] are used as given. *)

Class Md5FromObject (A : Type) := md5FromObject : A → string.

Record DependencyOpts := {
  opts_moduleSpecifier : string;
  opts_pipeline : option string;
  opts_target : option Target;
  opts_env : Environment;
  opts_isEntry : bool
}.

Class CreateDependency := createDependency : DependencyOpts → Dependency.

Class JsonStringify (A : Type) := JSON_stringify : A → string.

(** [crypto.createHash('md5')], fed the given chunks by [update], then
    [digest('hex')]. *)
Class Md5Digest := md5_digest_hex : list string → string.

(** ** AssetGraph *)

Section AssetGraph.
Context `{!Md5FromObject AssetGroup, !Md5FromObject Entry}.
Context `{!CreateDependency, !JsonStringify Target, !Md5Digest}.

(** Lines 39-79: the node records.  The object itself is created where the
      record is handed to the graph ([alloc]). *)
Definition nodeFromDep (dep : Dependency) : Node :=
    mkNode (dep_id dep) (DependencyValue dep).

Definition nodeFromAssetGroup (assetGroup : AssetGroup) : Node :=
    mkNode (md5FromObject assetGroup) (AssetGroupValue assetGroup).

Definition nodeFromAsset (a : Asset) : Node :=
    mkNode (asset_id a) (AssetValue a).

Definition nodeFromEntrySpecifier (entry : string) : Node :=
    mkNode (String.append "entry_specifier:" entry) (EntrySpecifierValue entry).

Definition nodeFromEntryFile (entry : Entry) : Node :=
    mkNode (String.append "entry_file:" (md5FromObject entry))
           (EntryFileValue entry).

(** [initialize], lines 107-123. *)
Definition initialize (entries : option (list string))
      (assetGroups : option (list AssetGroup)) : Js unit :=
    let* rootNode := alloc (mkNode "@@root" RootValue) in
    setRootNode rootNode >>
    let* nodes :=
      match entries, assetGroups with
      | Some entries, _ =>
          mapM (λ entry, alloc (nodeFromEntrySpecifier entry)) entries
      | None, Some assetGroups =>
          mapM (λ assetGroup, alloc (nodeFromAssetGroup assetGroup)) assetGroups
      | None, None => ret []
      end in
    replaceNodesConnectedTo rootNode nodes.

(** [resolveEntry], lines 136-148. *)
Definition resolveEntry (entry : string) (resolved : list Entry)
      (request : string) : Js unit :=
    let* found := getNode (id (nodeFromEntrySpecifier entry)) in
    let* entrySpecifierNode := nullthrows found in
    let* n := read entrySpecifierNode in
    invariant (bool_decide (type n = entry_specifier)) >>
    write entrySpecifierNode (set_correspondingRequest (Some request)) >>
    let* entryFileNodes :=
      mapM (λ file, alloc (nodeFromEntryFile file)) resolved in
    replaceNodesConnectedTo entrySpecifierNode entryFileNodes.

(** [resolveTargets], lines 150-178: the dependency node of one target, then
    the method. *)
Definition targetNode (entry : Entry) (target : Target) : Js loc :=
  let* node := alloc (nodeFromDep (createDependency
    {| opts_moduleSpecifier := filePath entry;
       opts_pipeline := Some (target_name target);
       opts_target := Some target;
       opts_env := target_env target;
       opts_isEntry := true |})) in
  (if isLibrary (target_env target) then
     (* in library mode, all of the entry's symbols are "used" *)
     write node (λ n, set_usedSymbols (JsSet.add "*" (usedSymbols n)) n)
   else ret tt) >>
  ret node.

Definition resolveTargets (entry : Entry) (targets : list Target)
    (request : string) : Js unit :=
  let* depNodes := mapM (targetNode entry) targets in
  let* found := getNode (id (nodeFromEntryFile entry)) in
  let* entryNode := nullthrows found in
  let* n := read entryNode in
  invariant (bool_decide (type n = entry_file)) >>
  write entryNode (set_correspondingRequest (Some request)) >>
  let* stored := hasNode (id n) in
  if stored then replaceNodesConnectedTo entryNode depNodes else ret tt.

(** [resolveDependency], lines 180-196.  [nullthrows] comes first, so the
      test [if (!depNode) return;] of line 187 only ever sees a node
      object and never returns. *)
Definition resolveDependency (dep : Dependency)
      (assetGroup : option AssetGroup) (request : string) : Js unit :=
    let* found := getNode (dep_id dep) in
    let* depNode := nullthrows found in
    let* n := read depNode in
    invariant (bool_decide (type n = dependency)) >>
    write depNode (set_correspondingRequest (Some request)) >>
    match assetGroup with
    | None => ret tt
    | Some assetGroup =>
        let* groupNode := alloc (nodeFromAssetGroup assetGroup) in
        replaceNodesConnectedTo depNode [groupNode]
    end.

(** [shouldDeferDependency], lines 262-264. *)
Definition shouldDeferDependency (dep : Node) (sideEffects : option bool)
    : bool :=
    bool_decide (sideEffects = Some false)
    && bool_decide (JsSet.size (usedSymbols dep) = 0).

(** [markParentsWithHasDeferred], lines 223-234: the visitor, then the
    method. *)
Definition markVisitor (node : loc) (_node : loc) (_ : option unit) (_ : unit)
  : Js (Visit unit unit) :=
  let* n := read _node in
  if bool_decide (type n = asset) then
    write _node (set_hasDeferred (Some true)) >> ret (continue tt)
  else if bool_decide (type n = asset_group) then
    write _node (set_hasDeferred (Some true)) >> ret (skip tt)
  else if bool_decide (node ≠ _node) then ret (skip tt)
  else ret (continue tt).

Definition markParentsWithHasDeferred (node : loc) : Js unit :=
  traverseAncestors node (markVisitor node) tt.

(** [_childNode.hasDeferred == null ? false : _childNode.hasDeferred] *)
Definition childHasDeferred (g : AssetGraph) (child : loc) : bool :=
    match heap g !! child with
    | Some c => default false (hasDeferred c)
    | None => false
    end.

(** [unmarkParentsWithHasDeferred], lines 236-255: the visitor, then the
    method.  The context is the [hasDeferred] field of the object an asset
    visit returns. *)
Definition unmarkVisitor (node : loc) (_node : loc) (ctx : option bool)
    (_ : unit) : Js (Visit bool unit) :=
  let* n := read _node in
  if bool_decide (type n = asset) then
    let* g := get_state in
    let hasDeferred :=
      existsb (childHasDeferred g) (getNodesConnectedFrom _node g) in
    (if hasDeferred then ret tt
     else write _node (set_hasDeferred None)) >>
    ret {| newContext := Some hasDeferred; skipChildren := false;
           stop := false; captured := tt |}
  else if bool_decide (type n = asset_group) then
    (if default false ctx then ret tt
     else write _node (set_hasDeferred None)) >>
    ret (skip tt)
  else if bool_decide (node ≠ _node) then ret (skip tt)
  else ret (continue tt).

Definition unmarkParentsWithHasDeferred (node : loc) : Js unit :=
  traverseAncestors node (unmarkVisitor node) tt.

(** A value used as a condition. *)
Definition truthy (b : option bool) : bool := default false b.

(** [shouldVisitChild], lines 198-221. *)
Definition shouldVisitChild (node childNode : loc) : Js bool :=
    let* n := read node in
    let* c := read childNode in
    if bool_decide (type n ≠ dependency)
       || bool_decide (type c ≠ asset_group)
       || bool_decide (deferred c = Some false)
    then ret true
    else
      let sideEffects :=
        match value c with
        | AssetGroupValue assetGroup => sideEffects assetGroup
        | _ => None
        end in
      let previouslyDeferred := deferred c in
      let defer := shouldDeferDependency n sideEffects in
      write node (set_hasDeferred (Some defer)) >>
      write childNode (set_deferred (Some defer)) >>
      (if negb (truthy previouslyDeferred) && defer then
         markParentsWithHasDeferred node
       else if truthy previouslyDeferred && negb defer then
         unmarkParentsWithHasDeferred node
       else ret tt) >>
      ret (negb defer).

(** [getIncomingDependencies], lines 406-418. *)
Definition getIncomingDependencies (a : Asset) : Js (list Dependency) :=
    let* found := getNode (asset_id a) in
    match found with
    | None => ret []
    | Some node =>
        let* ancestors :=
          findAncestors node (λ n, bool_decide (type n = dependency)) in
        mapM (λ l,
          let* n := read l in
          match value n with
          | DependencyValue dep => ret dep
          | _ => throw
          end) ancestors
    end.

(** The demand of one incoming dependency (lines 286-305): the names it
      uses, in order, up to and including the first wildcard.  The pair is
      ([assetUsedSymbols], [reexportedSymbols]). *)
Fixpoint incomingDemand (assetSymbols : option (JsMap.t string))
      (exportSymbols : list string) (acc : JsSet.t * JsSet.t)
    : JsSet.t * JsSet.t :=
    match exportSymbols with
    | [] => acc
    | exportSymbol :: rest =>
        if bool_decide (exportSymbol = "*") then
          (JsSet.add "*" acc.1, JsSet.add "*" acc.2)
        else if match assetSymbols with
                | Some symbols => JsMap.has exportSymbol symbols
                | None => false
                end
        then
          (* own symbol or non-namespace reexport *)
          incomingDemand assetSymbols rest (JsSet.add exportSymbol acc.1, acc.2)
        else
          (* export namespace *)
          incomingDemand assetSymbols rest (acc.1, JsSet.add exportSymbol acc.2)
    end.

(** One binding [symbol -> local] of an outgoing dependency without a
      namespace re-export (lines 315-328).  The pair is
      ([assetUsedSymbols], [dep.usedSymbols]). *)
Definition bindingStep (assetSymbolsInverse : option (JsMap.t string))
      (weak : JsSet.t) (acc : JsSet.t * JsSet.t) (binding : string * string)
    : JsSet.t * JsSet.t :=
    let '(symbol, local) := binding in
    match assetSymbolsInverse with
    | Some inverse =>
        if negb (JsSet.has symbol weak) then (acc.1, JsSet.add symbol acc.2)
        else
          match JsMap.get local inverse with
          | None => (acc.1, JsSet.add symbol acc.2)
          | Some reexport =>
              if JsSet.has "*" acc.1 || JsSet.has reexport acc.1 then
                (JsSet.delete reexport acc.1, JsSet.add symbol acc.2)
              else acc
          end
    | None => (acc.1, JsSet.add symbol acc.2)
    end.

(** [dep.value.symbols.get('*')?.local === '*'] *)
Definition reexportsNamespace (dep : Dependency) : bool :=
    bool_decide (JsMap.get "*" (dep_symbols dep) = Some "*").

(** The body of the loop over [outgoingDeps] (lines 308-331);
      [assetUsedSymbols] is threaded through. *)
Definition forwardDemand (assetSymbolsInverse : option (JsMap.t string))
      (reexportedSymbols : JsSet.t) (depNode : loc)
      (assetUsedSymbols : JsSet.t) : Js JsSet.t :=
    let* n := read depNode in
    match value n with
    | DependencyValue dep =>
        if reexportsNamespace dep then
          (* we need the reexportedSymbols to all namespace dependencies *)
          write depNode (λ n,
            set_usedSymbols
              (foldl (λ used s, JsSet.add s used) (usedSymbols n)
                     reexportedSymbols) n) >>
          ret assetUsedSymbols
        else
          let r := foldl (bindingStep assetSymbolsInverse (weakSymbols dep))
                         (assetUsedSymbols, usedSymbols n) (dep_symbols dep) in
          write depNode (set_usedSymbols r.2) >>
          ret r.1
    | _ => throw
    end.

Fixpoint forwardDemands (assetSymbolsInverse : option (JsMap.t string))
      (reexportedSymbols : JsSet.t) (outgoingDeps : list loc)
      (assetUsedSymbols : JsSet.t) : Js JsSet.t :=
    match outgoingDeps with
    | [] => ret assetUsedSymbols
    | dep :: rest =>
        let* used := forwardDemand assetSymbolsInverse reexportedSymbols dep
                       assetUsedSymbols in
        forwardDemands assetSymbolsInverse reexportedSymbols rest used
    end.

(** [new Map([...symbols].map(([key, val]) => [val.local, key]))] *)
Definition inverseSymbols (symbols : JsMap.t string) : JsMap.t string :=
    JsMap.of_entries (map (λ kv : string * string, (kv.2, kv.1)) symbols).

(** The loop over [incomingDeps] (lines 283-306). *)
Definition incomingDemands (assetSymbols : option (JsMap.t string))
      (incomingDeps : list Node) : JsSet.t * JsSet.t :=
    foldl (λ acc incomingDep,
             incomingDemand assetSymbols (usedSymbols incomingDep) acc)
          (JsSet.empty, JsSet.empty) incomingDeps.

(** [setUsedSymbolsAsset], lines 266-333. *)
Definition setUsedSymbolsAsset (assetNode : loc) (outgoingDeps : list loc)
    : Js unit :=
    let* an := read assetNode in
    match value an with
    | AssetValue a =>
        let* deps := getIncomingDependencies a in
        let* incomingDeps :=
          mapM (λ d,
            let* found := getNode (dep_id d) in
            let* l := nullthrows found in
            let* n := read l in
            invariant (bool_decide (type n = dependency)) >>
            ret n) deps in
        let assetSymbols := asset_symbols a in
        let assetSymbolsInverse := inverseSymbols <$> asset_symbols a in
        let demand := incomingDemands assetSymbols incomingDeps in
        let* assetUsedSymbols :=
          forwardDemands assetSymbolsInverse demand.2 outgoingDeps demand.1 in
        write assetNode (set_usedSymbols assetUsedSymbols)
    | _ => throw
    end.

(** [resolveAsset], lines 383-404. *)
Fixpoint dependencyNodes (dependentAssets : list Asset)
      (deps : list Dependency) : Js (list loc * list (loc * loc)) :=
    match deps with
    | [] => ret ([], [])
    | dep :: rest =>
        let* depNode := alloc (nodeFromDep dep) in
        let* withAsset :=
          match find (λ a, bool_decide (uniqueKey a = Some (moduleSpecifier dep)))
                     dependentAssets with
          | Some dependentAsset =>
              write depNode (set_complete (Some true)) >>
              let* assetNode := alloc (nodeFromAsset dependentAsset) in
              ret [(depNode, assetNode)]
          | None => ret []
          end in
        let* r := dependencyNodes dependentAssets rest in
        ret (depNode :: r.1, withAsset ++ r.2)
    end.

Definition resolveAsset (assetNode : loc) (dependentAssets : list Asset)
    : Js unit :=
    let* an := read assetNode in
    match value an with
    | AssetValue a =>
        let* r := dependencyNodes dependentAssets
                    (JsMap.values (dependencies a)) in
        let depNodes := r.1 in
        let depNodesWithAssets := r.2 in
        replaceNodesConnectedTo assetNode depNodes >>
        setUsedSymbolsAsset assetNode depNodes >>
        forEach depNodesWithAssets (λ p,
          replaceNodesConnectedTo p.1 [p.2])
    | _ => throw
    end.

(** [resolveAssetGroup], lines 335-381. *)
Record AssetObject := {
    assetNode : loc;
    dependentAssets : list Asset;
    isDirect : bool
  }.

Definition dependentAssetsOf (assets : list Asset) (a : Asset) : list Asset :=
    omap (λ dep,
            find (λ a', bool_decide (uniqueKey a' = Some (moduleSpecifier dep)))
                 assets)
         (JsMap.values (dependencies a)).

Fixpoint assetObjectsOf (assets : list Asset)
      (dependentAssetKeys : list (option string)) (todo : list Asset)
    : Js (list AssetObject) :=
    match todo with
    | [] => ret []
    | a :: rest =>
        let isDirect := negb (bool_decide (uniqueKey a ∈ dependentAssetKeys)) in
        let dependentAssets := dependentAssetsOf assets a in
        let* node := alloc (nodeFromAsset a) in
        let* objects :=
          assetObjectsOf assets
            (dependentAssetKeys ++ map uniqueKey dependentAssets) rest in
        ret ({| assetNode := node; dependentAssets := dependentAssets;
                isDirect := isDirect |} :: objects)
    end.

Definition resolveAssetGroup (assetGroup : AssetGroup) (assets : list Asset)
      (request : string) : Js unit :=
    let* found := getNode (id (nodeFromAssetGroup assetGroup)) in
    match found with
    | None => ret tt
    | Some assetGroupNode =>
        let* n := read assetGroupNode in
        invariant (bool_decide (type n = asset_group)) >>
        write assetGroupNode (set_correspondingRequest (Some request)) >>
        let* assetObjects := assetObjectsOf assets [] assets in
        replaceNodesConnectedTo assetGroupNode
          (map assetNode (filter (λ o, isDirect o = true) assetObjects)) >>
        forEach assetObjects (λ o,
          resolveAsset (assetNode o) (dependentAssets o))
    end.

(** [traverseAssets], lines 420-429. *)
Definition traverseAssets {C X}
      (visit : Asset → option C → X → Js (Visit C X))
      (startNode : option loc) (x : X) : Js X :=
    filteredTraverse
      (λ n, match value n with AssetValue a => Some a | _ => None end)
      visit startNode x.

(** [getEntryAssetGroupNodes], lines 431-440. *)
Definition getEntryAssetGroupNodes : Js (list loc) :=
    traverse (C := unit)
      (λ node _ entryNodes,
         let* n := read node in
         if bool_decide (type n = asset_group)
         then ret (skip (entryNodes ++ [node]))
         else ret (continue entryNodes))
      None [].

(** [getEntryAssets], lines 442-450. *)
Definition getEntryAssets : Js (list Asset) :=
    traverseAssets (C := unit)
      (λ a _ entries, ret (skip (entries ++ [a])))
      None [].

(** The visitor of [getHash] (lines 459-465); the variable it closes over
      is the hash object, here the chunks it has been fed. *)
Definition hashVisitor (node : loc) (_ : option unit) (chunks : list string)
    : Js (Visit unit (list string)) :=
    let* n := read node in
    match value n with
    | AssetValue a =>
        let* outputHash := nullthrows (outputHash a) in
        ret (continue (chunks ++ [outputHash]))
    | DependencyValue dep =>
        match dep_target dep with
        | Some target => ret (continue (chunks ++ [JSON_stringify target]))
        | None => ret (continue chunks)
        end
    | _ => ret (continue chunks)
    end.

(** [getHash], lines 452-469. *)
Definition getHash : Js string :=
    let* g := get_state in
    match hash g with
    | Some h => ret h
    | None =>
        let* chunks := traverse hashVisitor None [] in
        let digest := md5_digest_hex chunks in
        update_state (set_hash (Some digest)) >>
        ret digest
    end.
End AssetGraph.


(** ** Vocabulary of the statements *)

(** The walk state right after [node] has been visited. *)
Definition entered {C X} (node : loc) (v : Visit C X) (g' : AssetGraph)
    (w : Walk X) : Walk X :=
  {| visited := visited w ++ [node];
     stopped := stopped w || stop v;
     closure := captured v;
     graph := g' |}.

(** [P] holds of the graph a walk leaves behind, however the walk ends. *)
Definition holds_after {X} (P : AssetGraph → Prop) (r : WalkResult X) : Prop :=
  match r with
  | Done w => P (graph w)
  | Thrown g => P g
  | OutOfFuel => True
  end.

(** The node objects of [U] a walk has not visited yet. *)
Definition unvisited (U vis : list loc) : list loc :=
  filter (λ l, l ∉ vis) U.

(** The node objects stored in the graph. *)
Definition storedNodes (g : AssetGraph) : list loc :=
  (map_to_list (nodes g)).*2.

(** A walk that came to an end: it returned or threw. *)
Definition completes {X} (r : WalkResult X) : Prop :=
  match r with OutOfFuel => False | _ => True end.

(** The state a walk starts from. *)
Definition start_of {X} (x : X) (g : AssetGraph) : Walk X :=
  {| visited := []; stopped := false; closure := x; graph := g |}.

(** What a finished walk guarantees about the state it started from: the
    graph is still in a state [Inv], and nothing was dropped from the
    visited set; running out of fuel is excluded. *)
Definition walked {X} (Inv : AssetGraph → Prop) (vis : list loc)
    (r : WalkResult X) : Prop :=
  match r with
  | Done w' => Inv (graph w') ∧ vis ⊆ visited w'
  | Thrown _ => True
  | OutOfFuel => False
  end.

(** Every stored node is an object of the store. *)
Definition storedObjects (g : AssetGraph) : Prop :=
  ∀ i l, nodes g !! i = Some l → l < length (heap g).

(** [n'] is [n] up to the [hasDeferred] flag, which differs at most on an
    asset or asset-group node. *)
Definition sameButHasDeferred (n n' : Node) : Prop :=
  n' = set_hasDeferred (hasDeferred n') n
  ∧ (type n ≠ asset → type n ≠ asset_group → n' = n).

(** [g'] is [g] up to [hasDeferred] flags of asset and asset-group nodes. *)
Definition flagsOnly (g g' : AssetGraph) : Prop :=
  nodes g' = nodes g ∧ edges g' = edges g ∧ rootNodeId g' = rootNodeId g
  ∧ hash g' = hash g ∧ removedLog g' = removedLog g
  ∧ Forall2 sameButHasDeferred (heap g) (heap g').

(** A sequence of [shouldVisitChild] calls, each on a (node, child) pair. *)
Definition visitAll (calls : list (loc * loc)) (g : AssetGraph) : AssetGraph :=
  foldl (λ g call, (shouldVisitChild call.1 call.2 g).2) g calls.

(** The deferral condition: the side-effects flag is explicitly [false] and
    the dependency uses no symbol. *)
Definition deferralCondition (dep : Node) (assetGroup : AssetGroup) : Prop :=
  sideEffects assetGroup = Some false ∧ usedSymbols dep = [].

(** The object at [l] carries [deferred === false]. *)
Definition deferredIsFalse (l : loc) (g : AssetGraph) : Prop :=
  ∃ c, heap g !! l = Some c ∧ deferred c = Some false.

(** The graph is well formed: every stored node is an object of the store,
    stored under its own id, and a dependency node has the id of its
    dependency (as [nodeFromDep] builds it). *)
Definition wellFormed (g : AssetGraph) : Prop :=
  ∀ i l, nodes g !! i = Some l →
    ∃ n, heap g !! l = Some n ∧ id n = i
         ∧ ∀ dep, value n = DependencyValue dep → dep_id dep = i.

(** The nodes of the incoming dependencies of an asset, as
    [setUsedSymbolsAsset] looks them up (lines 270-274). *)
Definition incomingNodes (a : Asset) (g : AssetGraph) : list Node :=
  match getIncomingDependencies a g with
  | (Returned deps, _) =>
      omap (λ d, nodes g !! dep_id d ≫= λ l, heap g !! l) deps
  | (Threw, _) => []
  end.

(** Every outgoing dependency handed to [setUsedSymbolsAsset] is a
    dependency node. *)
Definition dependencyNodesAt (g : AssetGraph) (ls : list loc) : Prop :=
  ∀ l, l ∈ ls → ∃ n dep, heap g !! l = Some n ∧ value n = DependencyValue dep.

(** [n'] is [n] with a [usedSymbols] set that has only grown, and that
    differs at most on a dependency node. *)
Definition usedSymbolsGrown (n n' : Node) : Prop :=
  n' = set_usedSymbols (usedSymbols n') n
  ∧ usedSymbols n ⊆ usedSymbols n'
  ∧ (type n ≠ dependency → n' = n).

(** The asset exports nothing under the name ['*']. *)
Definition noWildcardExport (a : Asset) : Prop :=
  ∀ symbols, asset_symbols a = Some symbols → "*" ∉ symbols.*1.

(** A visitor that, next to its own work, records the nodes it is called
    on, in order. *)
Definition logged {C X} (visit : loc → option C → X → Js (Visit C X))
    (node : loc) (context : option C) (xl : X * list loc)
  : Js (Visit C (X * list loc)) :=
  let* v := visit node context xl.1 in
  ret {| newContext := newContext v; skipChildren := skipChildren v;
         stop := stop v; captured := (captured v, xl.2 ++ [node]) |}.

(** A visitor that returns on every node object and neither adds nodes to
    the graph nor removes any; it may change the nodes themselves. *)
Definition wellBehaved {C X} (visit : loc → option C → X → Js (Visit C X))
  : Prop :=
  ∀ node context x g,
    node < length (heap g) →
    ∃ v g', visit node context x g = (Returned v, g')
            ∧ nodes g' = nodes g ∧ length (heap g') = length (heap g).

(** The same for a visitor of assets. *)
Definition wellBehavedOnAssets {C X}
    (visit : Asset → option C → X → Js (Visit C X)) : Prop :=
  ∀ a context x g,
    ∃ v g', visit a context x g = (Returned v, g')
            ∧ nodes g' = nodes g ∧ length (heap g') = length (heap g).

(** The node a traversal starts from: the given one, or the root. *)
Definition startsAt (startNode : option loc) (g : AssetGraph) (start : loc)
  : Prop :=
  match startNode with
  | Some l => l = start
  | None => ∃ r, rootNodeId g = Some r ∧ nodes g !! r = Some start
  end.

(** Depth-first pre-order from [node], given the nodes [seen] so far: the
    node goes first, then, for each child in edge order that has not been
    seen by then, its own pre-order. *)
Fixpoint preorder (fuel : nat) (children : loc → list loc) (node : loc)
    (seen : list loc) : list loc :=
  match fuel with
  | 0 => seen
  | S fuel' =>
      foldl (λ seen child,
               if bool_decide (child ∈ seen) then seen
               else preorder fuel' children child seen)
            (seen ++ [node]) (children node)
  end.

(** The descendants of [start] in traversal order. *)
Definition descendants (g : AssetGraph) (start : loc) : list loc :=
  preorder (S (size (nodes g))) (λ l, getNodesConnectedFrom l g) start [].

(** What a node contributes to the graph hash: an asset its output hash, a
    dependency with a target the serialized target, any other node
    nothing. *)
Definition hashInput `{!JsonStringify Target} (n : Node) : list string :=
  match value n with
  | AssetValue a =>
      match outputHash a with Some h => [h] | None => [] end
  | DependencyValue dep =>
      match dep_target dep with
      | Some target => [JSON_stringify target]
      | None => []
      end
  | _ => []
  end.

Definition hashInputs `{!JsonStringify Target} (g : AssetGraph)
    (ls : list loc) : list string :=
  ls ≫= λ l, match heap g !! l with Some n => hashInput n | None => [] end.

(** Every asset node of the store has an output hash. *)
Definition assetsHashed (g : AssetGraph) : Prop :=
  ∀ l n a, heap g !! l = Some n → value n = AssetValue a →
           is_Some (outputHash a).

Definition assetsHashedb (g : AssetGraph) : bool :=
  forallb (λ n, match value n with
                | AssetValue a => bool_decide (is_Some (outputHash a))
                | _ => true
                end) (heap g).

(** Among the nodes visited since [before], every node that a walk
    expands ([expands]) has all its neighbours ([kids]) visited. *)
Definition closedSince (expands : loc → bool) (kids : loc → list loc)
    (before now : list loc) : Prop :=
  ∀ l, l ∈ now → l ∉ before → expands l = true →
       ∀ c, c ∈ kids l → c ∈ now.

(** The nodes at which the deferral walks from [start] go on to the
    parents: the assets, and the start node itself (unless it is an asset
    group). *)
Definition ascends (g : AssetGraph) (start l : loc) : bool :=
  match heap g !! l with
  | Some n =>
      bool_decide (type n = asset)
      || (negb (bool_decide (type n = asset_group)) && bool_decide (l = start))
  | None => false
  end.

(** [i] has [j] among its descendants (or is [j]). *)
Definition descends (g : AssetGraph) (i j : string) : Prop :=
  rtc (λ x y, (x, y) ∈ edges g) i j.

(** Some import edge below node [i] is currently deferred: an edge from a
    dependency node to an asset-group node that carries
    [deferred === true]. *)
Definition deferredEdgeBelow (g : AssetGraph) (i : string) : Prop :=
  ∃ d c ld lc nd nc,
    descends g i d ∧ (d, c) ∈ edges g
    ∧ nodes g !! d = Some ld ∧ heap g !! ld = Some nd ∧ type nd = dependency
    ∧ nodes g !! c = Some lc ∧ heap g !! lc = Some nc ∧ type nc = asset_group
    ∧ deferred nc = Some true.

(** The invariant of C3 as stated: an asset or asset-group node carries
    [hasDeferred === true] exactly when a deferred import edge lies below
    it. *)
Definition hasDeferredConsistent (g : AssetGraph) : Prop :=
  ∀ i l n,
    nodes g !! i = Some l → heap g !! l = Some n →
    type n = asset ∨ type n = asset_group →
    (hasDeferred n = Some true ↔ deferredEdgeBelow g i).

(** What the graph shows of its state: the node stored under each id, with
    all its fields, and the edges.  Node objects that are not stored in the
    graph do not count. *)
Definition view (g : AssetGraph)
  : gmap string (option Node) * list (string * string) :=
  ((λ l, heap g !! l) <$> nodes g, edges g).

(** A node is stored under id [i]. *)
Definition stored (i : string) (g : AssetGraph) : Prop :=
  is_Some (nodes g !! i).

(** Decision procedures for the well-formedness conditions. *)
Definition wellFormedb (g : AssetGraph) : bool :=
  forallb (λ il : string * loc,
             match heap g !! il.2 with
             | Some n =>
                 bool_decide (id n = il.1)
                 && match value n with
                    | DependencyValue dep => bool_decide (dep_id dep = il.1)
                    | _ => true
                    end
             | None => false
             end)
          (map_to_list (nodes g)).

Definition dependencyNodesAtb (g : AssetGraph) (ls : list loc) : bool :=
  forallb (λ l, match heap g !! l with
                | Some n => bool_decide (type n = dependency)
                | None => false
                end) ls.

(** ** Example graphs *)

Module Example.

(** Stand-ins for the external functions. *)
Definition md5Group : Md5FromObject AssetGroup :=
  λ assetGroup, String.append "group:" (group_filePath assetGroup).
Definition md5Entry : Md5FromObject Entry :=
  λ entry, String.append "entry:" (filePath entry).
Definition newDependency : CreateDependency :=
  λ opts,
    {| dep_id := String.append "dep:" (opts_moduleSpecifier opts);
       moduleSpecifier := opts_moduleSpecifier opts;
       dep_pipeline := opts_pipeline opts;
       dep_target := opts_target opts;
       dep_env := opts_env opts;
       isEntry := opts_isEntry opts;
       dep_symbols := [];
       weakSymbols := [] |}.
Definition json : JsonStringify Target := target_name.
Definition digest : Md5Digest := String.concat ",".

Definition env : Environment := {| isLibrary := false |}.

Definition dep (i specifier : string) (symbols : JsMap.t string)
    (weak : JsSet.t) : Dependency :=
  {| dep_id := i; moduleSpecifier := specifier; dep_pipeline := None;
     dep_target := None; dep_env := env; isEntry := false;
     dep_symbols := symbols; weakSymbols := weak |}.

Definition graphOf (objects : list Node) (es : list (string * string))
  : AssetGraph :=
  {| heap := objects;
     nodes := list_to_map (imap (λ l n, (id n, l)) objects);
     edges := es; rootNodeId := None; hash := None; removedLog := [] |}.

(** An import chain over two asset groups:
    [a0 -> d0 -> g1 -> a1 -> d1 -> g2], where [d0] uses a symbol, [d1] uses
    none and [g2] is free of side effects. *)
Definition a0 : Asset :=
  {| asset_id := "a0"; uniqueKey := None;
     dependencies := [("d0", dep "d0" "./one" [] [])];
     asset_symbols := None; outputHash := Some "hash-a0" |}.
Definition a1 : Asset :=
  {| asset_id := "a1"; uniqueKey := None;
     dependencies := [("d1", dep "d1" "./two" [] [])];
     asset_symbols := None; outputHash := Some "hash-a1" |}.
Definition g1 : AssetGroup :=
  {| group_filePath := "/one.js"; sideEffects := None |}.
Definition g2 : AssetGroup :=
  {| group_filePath := "/two.js"; sideEffects := Some false |}.

Definition chainNodes (deferred2 : option bool) : list Node :=
  [ mkNode "a0" (AssetValue a0);
    set_usedSymbols ["x"] (mkNode "d0" (DependencyValue (dep "d0" "./one" [] [])));
    mkNode "g1" (AssetGroupValue g1);
    mkNode "a1" (AssetValue a1);
    mkNode "d1" (DependencyValue (dep "d1" "./two" [] []));
    set_deferred deferred2 (mkNode "g2" (AssetGroupValue g2)) ].

Definition chain (deferred2 : option bool) : AssetGraph :=
  graphOf (chainNodes deferred2)
    [("a0", "d0"); ("d0", "g1"); ("g1", "a1"); ("a1", "d1"); ("d1", "g2")].

(** An asset [lib] that exports [a], imported by one dependency that uses
    [a] and by another that uses the namespace; [lib] re-exports a namespace
    through its own dependency [out]. *)
Definition out : Dependency := dep "out" "./more" [("*", "*")] [].
Definition lib : Asset :=
  {| asset_id := "lib"; uniqueKey := None;
     dependencies := [("out", out)];
     asset_symbols := Some [("a", "a")]; outputHash := Some "hash-lib" |}.
Definition libGroup : AssetGroup :=
  {| group_filePath := "/lib.js"; sideEffects := None |}.

Definition namedImport : Node :=
  set_usedSymbols ["a"]
    (mkNode "named" (DependencyValue (dep "named" "./lib" [("a", "a")] []))).
Definition starImport : Node :=
  set_usedSymbols ["*"]
    (mkNode "star" (DependencyValue (dep "star" "./lib" [("*", "ns")] []))).

Definition library : AssetGraph :=
  graphOf
    [ namedImport;
      starImport;
      mkNode "group" (AssetGroupValue libGroup);
      mkNode "lib" (AssetValue lib);
      mkNode "out" (DependencyValue out) ]
    [("named", "group"); ("star", "group"); ("group", "lib"); ("lib", "out")].

(** An import cycle: [a -> da -> ga -> b -> db -> gb -> a], below a root. *)
Definition cycleA : Asset :=
  {| asset_id := "a"; uniqueKey := None;
     dependencies := [("da", dep "da" "./b" [] [])];
     asset_symbols := None; outputHash := Some "hash-a" |}.
Definition cycleB : Asset :=
  {| asset_id := "b"; uniqueKey := None;
     dependencies := [("db", dep "db" "./a" [] [])];
     asset_symbols := None; outputHash := Some "hash-b" |}.

Definition cycle : AssetGraph :=
  set_rootNodeId (Some "@@root")
    (graphOf
       [ mkNode "@@root" RootValue;
         mkNode "a" (AssetValue cycleA);
         mkNode "da" (DependencyValue (dep "da" "./b" [] []));
         mkNode "ga" (AssetGroupValue g1);
         mkNode "b" (AssetValue cycleB);
         mkNode "db" (DependencyValue (dep "db" "./a" [] []));
         mkNode "gb" (AssetGroupValue g2) ]
       [("@@root", "a"); ("a", "da"); ("da", "ga"); ("ga", "b");
        ("b", "db"); ("db", "gb"); ("gb", "a")]).

(** An asset that imports itself: its dependency [d] names the asset's own
    key.  [selfWired] is the graph in which [resolveAssetGroup] (line 374)
    has just made the asset a child of its group. *)
Definition selfDep : Dependency := dep "d" "self-key" [("a", "a")] [].
Definition selfAsset : Asset :=
  {| asset_id := "self"; uniqueKey := Some "self-key";
     dependencies := [("d", selfDep)];
     asset_symbols := Some [("a", "a")]; outputHash := Some "hash-self" |}.
Definition selfGroup : AssetGroup :=
  {| group_filePath := "/self.js"; sideEffects := None |}.

Definition selfWired : AssetGraph :=
  ((initialize (Md5FromObject0 := md5Group) None (Some [selfGroup]) >>
    let* a := alloc (nodeFromAsset selfAsset) in
    replaceNodesConnectedTo 1 [a]) emptyGraph).2.

Definition selfOnce : AssetGraph := (resolveAsset 2 [selfAsset] selfWired).2.
Definition selfTwice : AssetGraph := (resolveAsset 2 [selfAsset] selfOnce).2.

(** A visitor that does nothing. *)
Definition idle (_ : loc) (_ : option unit) (_ : unit) : Js (Visit unit unit) :=
  ret (continue tt).
Definition idleOnAssets (_ : Asset) (_ : option unit) (_ : unit)
  : Js (Visit unit unit) :=
  ret (continue tt).

End Example.

(** [g'] has the nodes and edges of [g]; node objects may differ in their
    mutable fields only. *)
Definition sameShape (g g' : AssetGraph) : Prop :=
  nodes g' = nodes g ∧ edges g' = edges g
  ∧ Forall2 (λ n n', id n' = id n ∧ value n' = value n) (heap g) (heap g').

(** ** Calling a resolver twice: vocabulary *)

(** ** Vocabulary for re-resolution *)

(** Both ends of every edge are stored. *)
Definition edgesClosed (g : AssetGraph) : Prop :=
  ∀ p c, (p, c) ∈ edges g → stored p g ∧ stored c g.

Definition consistent (g : AssetGraph) : Prop :=
  wellFormed g ∧ edgesClosed g.

(** The removals logged between [g] and [g']. *)
Definition removedSince (g g' : AssetGraph) : list loc :=
  drop (length (removedLog g)) (removedLog g').

(** [g'] is [g] after some orphans have been removed, with all their edges:
    node objects are untouched, what is still stored is stored as before and
    keeps its outgoing edges, and what is no longer stored has been
    logged. *)
Definition shrunk (g g' : AssetGraph) : Prop :=
  heap g' = heap g
  ∧ (∀ i l, nodes g' !! i = Some l → nodes g !! i = Some l)
  ∧ (∀ e, e ∈ edges g' → e ∈ edges g)
  ∧ (∀ q c, (q, c) ∈ edges g → stored q g' → (q, c) ∈ edges g')
  ∧ removedLog g `prefix_of` removedLog g'
  ∧ (∀ i l, nodes g !! i = Some l → nodes g' !! i = None →
            l ∈ removedSince g g').

(** A node record whose id goes with its payload, as the [nodeFrom...]
    functions build them. *)
Definition wfNode (n : Node) : Prop :=
  ∀ dep, value n = DependencyValue dep → dep_id dep = id n.

(** The node objects [ls] carry the ids [T], in order. *)
Definition nodesAt (g : AssetGraph) (ls : list loc) (T : list string) : Prop :=
  Forall2 (λ l t, ∃ n, heap g !! l = Some n ∧ id n = t ∧ wfNode n) ls T.

(** The first loop of [replaceNodesConnectedTo]: the desired children [T] of
    [f] are stored and connected; nothing else has changed. *)
Definition connected (f : string) (T : list string) (g g' : AssetGraph)
  : Prop :=
  heap g' = heap g ∧ consistent g' ∧ removedLog g' = removedLog g
  ∧ (∀ i l, nodes g !! i = Some l → nodes g' !! i = Some l)
  ∧ (∀ i, stored i g' → stored i g ∨ i ∈ T)
  ∧ (∀ e, e ∈ edges g' ↔ e ∈ edges g ∨ (e.1 = f ∧ e.2 ∈ T))
  ∧ (∀ t, t ∈ T → stored t g').

(** The second loop: the edges from [f] to the children [cs] are gone, and
    so are the nodes this orphaned. *)
Definition disconnected (f : string) (cs : list string) (g g' : AssetGraph)
  : Prop :=
  heap g' = heap g ∧ consistent g'
  ∧ (∀ i l, nodes g' !! i = Some l → nodes g !! i = Some l)
  ∧ (∀ e, e ∈ edges g' → e ∈ edges g ∧ ¬ (e.1 = f ∧ e.2 ∈ cs))
  ∧ (∀ q c, (q, c) ∈ edges g → stored q g' → ¬ (q = f ∧ c ∈ cs) →
            (q, c) ∈ edges g')
  ∧ removedLog g `prefix_of` removedLog g'
  ∧ (∀ i l, nodes g !! i = Some l → nodes g' !! i = None →
            l ∈ removedSince g g').

(** What a call [replaceNodesConnectedTo(f, T)] that returned has done. *)
Definition rewired (f : string) (T : list string) (g g' : AssetGraph)
  : Prop :=
  heap g' = heap g ∧ consistent g'
  ∧ (∀ i l l', nodes g !! i = Some l → nodes g' !! i = Some l' → l' = l)
  ∧ (stored f g' → ∀ c, (f, c) ∈ edges g' ↔ c ∈ T)
  ∧ (∀ q c, q ≠ f → stored q g' → ((q, c) ∈ edges g' ↔ (q, c) ∈ edges g))
  ∧ removedLog g `prefix_of` removedLog g'
  ∧ (∀ i l, nodes g !! i = Some l → nodes g' !! i = None →
            l ∈ removedSince g g').

(** [n'] is [n] with another [usedSymbols] set. *)
Definition sameButUsedSymbols (n n' : Node) : Prop :=
  n' = set_usedSymbols (usedSymbols n') n.

(** What field writes may have done to the objects of a heap: every object
    keeps its id and its payload; outside [W] only [usedSymbols] may differ,
    and outside [W] and [U] nothing does. *)
Definition touched (U W : loc → Prop) (h h' : list Node) : Prop :=
  ∀ l n, h !! l = Some n →
    ∃ n', h' !! l = Some n' ∧ id n' = id n ∧ value n' = value n
          ∧ (¬ W l → sameButUsedSymbols n n')
          ∧ (¬ W l → ¬ U l → n' = n).

(** A step that creates objects or writes fields, and leaves the graph's
    nodes and edges alone. *)
Definition quiet (U W : loc → Prop) (g g' : AssetGraph) : Prop :=
  nodes g' = nodes g ∧ edges g' = edges g ∧ removedLog g' = removedLog g
  ∧ touched U W (heap g) (heap g').

(** The ids of the node objects removed between [g] and [g']. *)
Definition removedIds (g g' : AssetGraph) (i : string) : Prop :=
  ∃ l n, l ∈ removedSince g g' ∧ heap g' !! l = Some n ∧ id n = i.

(** No id removed between [g] and [g'] is stored in [g']. *)
Definition noneRestored (g g' : AssetGraph) : Prop :=
  ∀ i, removedIds g g' i → ¬ stored i g'.

(** The children of [p], if it is stored, are exactly [T]. *)
Definition settled (p : string) (T : list string) (g : AssetGraph) : Prop :=
  stored p g →
  (∀ c, (p, c) ∈ edges g ↔ c ∈ T) ∧ (∀ t, t ∈ T → stored t g).

(** A run: field writes and object creations, and the calls
    [replaceNodesConnectedTo(p, T)] listed, in order. *)
Inductive ran (U W : loc → Prop)
  : list (string * list string) → AssetGraph → AssetGraph → Prop :=
| ran_quiet g g' : quiet U W g g' → ran U W [] g g'
| ran_replace p T g g' :
    stored p g → rewired p T g g' → ran U W [(p, T)] g g'
| ran_app ps qs g1 g2 g3 :
    ran U W ps g1 g2 → ran U W qs g2 g3 → ran U W (ps ++ qs) g1 g3.

(** The calls of a run are chained from the ids [seen]: the parent of each
    call is in [seen] or among the children of an earlier call. *)
Fixpoint chainedFrom (seen : list string) (ps : list (string * list string))
  : bool :=
  match ps with
  | [] => true
  | st :: ps' =>
      bool_decide (st.1 ∈ seen) && chainedFrom (seen ++ st.2) ps'
  end.

(** The parents of the calls [A] are stored, each with the children of its
    call. *)
Definition inPlace (A : list (string * list string)) (g : AssetGraph) : Prop :=
  ∀ q T, (q, T) ∈ A → stored q g ∧ ∀ c, (q, c) ∈ edges g ↔ c ∈ T.

(** The node of id [i] has not been removed between [g] and [g'] and stored
    again. *)
Definition notRestored (i : string) (g g' : AssetGraph) : Prop :=
  stored i g' → ¬ removedIds g g' i.

(** The dependency [resolveTargets] creates for one target (lines 156-163). *)
Definition targetDependency `{!CreateDependency} (entry : Entry)
    (target : Target) : Dependency :=
  createDependency
    {| opts_moduleSpecifier := filePath entry;
       opts_pipeline := Some (target_name target);
       opts_target := Some target;
       opts_env := target_env target;
       opts_isEntry := true |}.

(** An object of id [i] at [l]. *)
Definition objectAt (g : AssetGraph) (l : loc) (i : string) : Prop :=
  ∃ n, heap g !! l = Some n ∧ id n = i ∧ wfNode n.

(** The calls [replaceNodesConnectedTo(depNode, [dependentAssetNode])] of
    [resolveAsset] (lines 401-403), by ids. *)
Definition dependentSteps (dependentAssets : list Asset)
    (deps : list Dependency) : list (string * list string) :=
  omap (λ dep,
          (λ dependentAsset, (dep_id dep, [asset_id dependentAsset]))
          <$> find (λ a, bool_decide (uniqueKey a = Some (moduleSpecifier dep)))
                   dependentAssets)
       deps.

(** The calls of [resolveAsset] on the node of id [i] and payload [a]. *)
Definition assetSteps (i : string) (a : Asset) (dependentAssets : list Asset)
  : list (string * list string) :=
  (i, dep_id <$> JsMap.values (dependencies a))
  :: dependentSteps dependentAssets (JsMap.values (dependencies a)).

(** The loop of [resolveAssetGroup] over [assets] (lines 353-371) without the
    node objects: each asset with its dependent assets and [isDirect]. *)
Fixpoint assetPlan (assets : list Asset)
    (dependentAssetKeys : list (option string)) (todo : list Asset)
  : list (Asset * list Asset * bool) :=
  match todo with
  | [] => []
  | a :: rest =>
      let isDirect := negb (bool_decide (uniqueKey a ∈ dependentAssetKeys)) in
      let dependentAssets := dependentAssetsOf assets a in
      (a, dependentAssets, isDirect)
      :: assetPlan assets (dependentAssetKeys ++ map uniqueKey dependentAssets)
           rest
  end.

(** The calls of [resolveAssetGroup] on the group node of id [i]. *)
Definition groupSteps (i : string) (assets : list Asset)
  : list (string * list string) :=
  (i, (λ x : Asset * list Asset * bool, asset_id x.1.1)
      <$> filter (λ x : Asset * list Asset * bool, x.2 = true)
                 (assetPlan assets [] assets))
  :: concat ((λ x : Asset * list Asset * bool,
                assetSteps (asset_id x.1.1) x.1.1 x.1.2)
             <$> assetPlan assets [] assets).

(** An entry of [assetObjects] (line 366) for an entry of the plan: the node
    object is that of the asset. *)
Definition assetObjectAt (g : AssetGraph) (o : AssetObject)
    (x : Asset * list Asset * bool) : Prop :=
  dependentAssets o = x.1.2 ∧ isDirect o = x.2
  ∧ ∃ n, heap g !! assetNode o = Some n ∧ id n = asset_id x.1.1
         ∧ value n = AssetValue x.1.1.

(** A second call of [resolveAsset(assetNode, ...)] may leave another
    [usedSymbols] set on the object [a] it is called with, and nothing else
    that was there has changed. *)
Definition sameButUsedSymbolsAt (a : loc) (g g' : AssetGraph) : Prop :=
  nodes g' = nodes g ∧ edges g' = edges g
  ∧ ∀ l n, heap g !! l = Some n →
      ∃ n', heap g' !! l = Some n' ∧ sameButUsedSymbols n n'
            ∧ (l ≠ a → n' = n).

(** Boolean versions, for concrete graphs. *)
Definition edgesClosedb (g : AssetGraph) : bool :=
  forallb (λ e : string * string,
             bool_decide (is_Some (nodes g !! e.1))
             && bool_decide (is_Some (nodes g !! e.2)))
          (edges g).

Definition consistentb (g : AssetGraph) : bool :=
  wellFormedb g && edgesClosedb g.

Definition noneRestoredb (g g' : AssetGraph) : bool :=
  forallb (λ l, match heap g' !! l with
                | Some n => negb (bool_decide (is_Some (nodes g' !! id n)))
                | None => true
                end)
          (removedSince g g').

(** A build, step by step: the entry ["index"] resolves to one file, built
    for one target; the dependency resolves to an asset group, whose first
    resolution yields the asset [old], and whose second resolution yields
    [main], which imports [part]. *)
Module Pipeline.

Definition entry : Entry := {| filePath := "/index.js"; packagePath := "/" |}.
Definition target : Target :=
  {| target_name := "default"; target_env := Example.env |}.
Definition group : AssetGroup :=
  {| group_filePath := "/index.js"; sideEffects := None |}.

Definition old : Asset :=
  {| asset_id := "old"; uniqueKey := None;
     dependencies := [("old-dep", Example.dep "old-dep" "./gone" [] [])];
     asset_symbols := None; outputHash := Some "hash-old" |}.
Definition part : Asset :=
  {| asset_id := "part"; uniqueKey := Some "part-key";
     dependencies := [];
     asset_symbols := Some [("p", "p")]; outputHash := Some "hash-part" |}.
Definition main : Asset :=
  {| asset_id := "main"; uniqueKey := None;
     dependencies :=
       [("main-dep", Example.dep "main-dep" "part-key" [("p", "p")] [])];
     asset_symbols := None; outputHash := Some "hash-main" |}.

Definition started : AssetGraph :=
  (@initialize Example.md5Group (Some ["index"]) None emptyGraph).2.
Definition withEntry : AssetGraph :=
  (@resolveEntry Example.md5Entry "index" [entry] "request-1" started).2.
Definition withTargets : AssetGraph :=
  (@resolveTargets Example.md5Entry Example.newDependency entry [target]
     "request-2" withEntry).2.
Definition withGroup : AssetGraph :=
  (@resolveDependency Example.md5Group
     (@targetDependency Example.newDependency entry target)
     (Some group) "request-3" withTargets).2.
Definition withOld : AssetGraph :=
  (@resolveAssetGroup Example.md5Group group [old] "request-4" withGroup).2.
Definition withMain : AssetGraph :=
  (@resolveAssetGroup Example.md5Group group [main; part] "request-5"
     withOld).2.

End Pipeline.


(** ** Vocabulary of the further properties *)

(** The ids of the nodes [initialize] connects to the root (lines 111-121):
    the entries when they are given, else the asset groups. *)
Definition initialIds `{!Md5FromObject AssetGroup}
    (entries : option (list string)) (assetGroups : option (list AssetGroup))
  : list string :=
  match entries, assetGroups with
  | Some entries, _ => (λ entry, id (nodeFromEntrySpecifier entry)) <$> entries
  | None, Some assetGroups =>
      (λ assetGroup, id (nodeFromAssetGroup assetGroup)) <$> assetGroups
  | None, None => []
  end.

(** The node object [resolveTargets] makes for a target (lines 155-169): in
    library mode its [usedSymbols] set holds ['*']. *)
Definition targetObject `{!CreateDependency} (entry : Entry) (target : Target)
  : Node :=
  let node := nodeFromDep (targetDependency entry target) in
  if isLibrary (target_env target)
  then set_usedSymbols (JsSet.add "*" (usedSymbols node)) node
  else node.

(** What a resolver that stamps the node at [l] and then calls
    [replaceNodesConnectedTo(l, ...)] with the new objects [ns], of ids
    [T], leaves behind. *)
Definition resolvedAt (l : loc) (i : string) (request : string)
    (ns : list Node) (g g' : AssetGraph) : Prop :=
  (∃ n, heap g !! l = Some n
        ∧ heap g' = <[l := set_correspondingRequest (Some request) n]> (heap g)
                    ++ ns)
  ∧ consistent g'
  ∧ (stored i g' → ∀ c, (i, c) ∈ edges g' ↔ c ∈ id <$> ns)
  ∧ (∀ q c, q ≠ i → stored q g' → ((q, c) ∈ edges g' ↔ (q, c) ∈ edges g))
  ∧ (∀ j l', nodes g' !! j = Some l' →
       nodes g !! j = Some l'
       ∨ (nodes g !! j = None ∧ length (heap g) ≤ l'))
  ∧ (∀ j l', nodes g !! j = Some l' → nodes g' !! j = None →
       l' ∈ removedSince g g').

(** What one outgoing dependency receives (lines 308-331). *)
Definition forwardedTo (inverse : option (JsMap.t string))
    (reexported : JsSet.t) (dep : Dependency) (x : string) : Prop :=
  if reexportsNamespace dep then x ∈ reexported
  else ∃ local, (x, local) ∈ dep_symbols dep
         ∧ (inverse = None ∨ x ∉ weakSymbols dep
            ∨ ∃ inv, inverse = Some inv ∧ JsMap.get local inv = None).


(** The node objects a walk from [start] comes to when it goes on from the
    nodes accepted by [expands] only: [start], and every neighbour ([kids])
    of an accepted node it comes to. *)
Inductive reachesThrough (expands : loc → bool) (kids : loc → list loc)
    (start : loc) : loc → Prop :=
  | reaches_start : reachesThrough expands kids start start
  | reaches_next p c :
      reachesThrough expands kids start p → expands p = true → c ∈ kids p →
      reachesThrough expands kids start c.

(** [node.type === t] for the object at [l]. *)
Definition hasType (t : NodeType) (g : AssetGraph) (l : loc) : bool :=
  match heap g !! l with
  | Some n => bool_decide (type n = t)
  | None => false
  end.

(** ** Further example graphs *)

Module Samples.

(** A root with one asset that has not been given an output hash. *)
Definition pending : Asset :=
  {| asset_id := "pending"; uniqueKey := None; dependencies := [];
     asset_symbols := None; outputHash := None |}.

Definition unhashed : AssetGraph :=
  set_rootNodeId (Some "@@root")
    (Example.graphOf
       [ mkNode "@@root" RootValue; mkNode "pending" (AssetValue pending) ]
       [("@@root", "pending")]).

End Samples.

(** ** The rule of weak bindings, in the words of the specification *)

(** The rule of C5 for one pair (exportedName, localBinding) that an
    outgoing dependency declares, [weak] being the dependency's weak
    symbols, [inverse] the asset's inverse table (absent when the asset has
    no symbol table) and [used] the asset's used set at that time:
    exportedName is marked used on the dependency if the binding is not weak
    or there is no inverse table; and if it is weak, when the inverse table
    does not map localBinding, or the used set contains the wildcard, or it
    contains the mapped name. *)
Definition marksUsed (inverse : option (JsMap.t string)) (weak used : JsSet.t)
    (exportedName localBinding : string) : Prop :=
  exportedName ∉ weak ∨ inverse = None
  ∨ ∃ inv, inverse = Some inv
      ∧ (JsMap.get localBinding inv = None
         ∨ "*" ∈ used
         ∨ ∃ mapped, JsMap.get localBinding inv = Some mapped ∧ mapped ∈ used).

(** The rule of C5, second half: the name a pair takes out of the asset's
    used set, "in the satisfied mapped case that mapped name". *)
Definition creditedName (inverse : option (JsMap.t string))
    (weak used : JsSet.t) (exportedName localBinding : string)
  : option string :=
  if bool_decide (exportedName ∈ weak) then
    match inverse with
    | Some inv =>
        match JsMap.get localBinding inv with
        | Some mapped =>
            if bool_decide ("*" ∈ used ∨ mapped ∈ used) then Some mapped
            else None
        | None => None
        end
    | None => None
    end
  else None.

(** The asset's used set after the pairs [bindings] have been processed by
    the rule, one after the other; a pair comes with the node object and the
    payload of its dependency. *)
Definition usedAfter (inverse : option (JsMap.t string))
    (bindings : list (loc * Dependency * (string * string)))
    (used : JsSet.t) : JsSet.t :=
  foldl (λ used (b : loc * Dependency * (string * string)),
           match creditedName inverse (weakSymbols b.1.2) used b.2.1 b.2.2 with
           | Some mapped => JsSet.delete mapped used
           | None => used
           end) used bindings.

(** The pairs the loop of lines 308-331 processes for one outgoing
    dependency node: none for a dependency with a wildcard-to-wildcard
    binding (lines 309-313), else the entries of [dep.value.symbols] in
    order (line 315). *)
Definition bindingsOf (g : AssetGraph) (depNode : loc)
  : list (loc * Dependency * (string * string)) :=
  match heap g !! depNode with
  | Some n =>
      match value n with
      | DependencyValue dep =>
          if reexportsNamespace dep then []
          else (λ b : string * string, (depNode, dep, b)) <$> dep_symbols dep
      | _ => []
      end
  | None => []
  end.

(** All the pairs [setUsedSymbolsAsset] processes, in the order of the two
    nested loops (lines 308 and 315). *)
Definition outgoingBindings (g : AssetGraph) (outgoingDeps : list loc)
  : list (loc * Dependency * (string * string)) :=
  concat (bindingsOf g <$> outgoingDeps).

(** An asset [barrel] that exports [x] and [y] under the local names [lx]
    and [ly], used by one dependency that asks for [x]; its own dependency
    [fwd] declares four bindings, three of them weak: [a] for [lx], [b] for
    [ly], [c] for a local name the asset does not export, and [d], which is
    not weak. *)
Module Barrel.

Definition fwd : Dependency :=
  Example.dep "fwd" "./impl"
    [("a", "lx"); ("b", "ly"); ("c", "lz"); ("d", "lw")] ["a"; "b"; "c"].
Definition barrel : Asset :=
  {| asset_id := "barrel"; uniqueKey := None;
     dependencies := [("fwd", fwd)];
     asset_symbols := Some [("x", "lx"); ("y", "ly")];
     outputHash := Some "hash-barrel" |}.
Definition uses : Node :=
  set_usedSymbols ["x"]
    (mkNode "uses"
       (DependencyValue (Example.dep "uses" "./barrel" [("x", "x")] []))).

Definition graph : AssetGraph :=
  Example.graphOf
    [ uses;
      mkNode "group" (AssetGroupValue Example.libGroup);
      mkNode "barrel" (AssetValue barrel);
      mkNode "fwd" (DependencyValue fwd) ]
    [("uses", "group"); ("group", "barrel"); ("barrel", "fwd")].

End Barrel.

(** ** Vocabulary of the deferral walks *)

(** The node objects the deferral walks from [start] come to: [start], and
    every parent of a node they come to and go on from ([ascends]). *)
Definition reachedBy (g : AssetGraph) (start : loc) : loc → Prop :=
  reachesThrough (ascends g start) (λ l, getNodesConnectedTo l g) start.

(** The nodes on which the walks write [hasDeferred]: assets and asset
    groups. *)
Definition carriesFlag (m : Node) : Prop :=
  type m = asset ∨ type m = asset_group.

(** Some child of the object at [l] (children as in [shape]) carries
    [hasDeferred === true] in [flags]. *)
Definition deferredChild (shape flags : AssetGraph) (l : loc) : Prop :=
  ∃ child, child ∈ getNodesConnectedFrom l shape
           ∧ childHasDeferred flags child = true.

(** [m'] is [m] up to the two flags [hasDeferred] and [deferred]. *)
Definition sameButFlags (m m' : Node) : Prop :=
  m' = set_hasDeferred (hasDeferred m') (set_deferred (deferred m') m).

(** No child of the object at [l], [node] apart, carries
    [hasDeferred === true]. *)
Definition noOtherDeferredChild (g : AssetGraph) (node l : loc) : Prop :=
  ∀ child, child ∈ getNodesConnectedFrom l g → child ≠ node →
           childHasDeferred g child = false.

(** An asset [a1] of the group [g1] with two imports, [d1 -> g2] and
    [d2 -> g3], both deferred; [d1] has since come to use a symbol. *)
Module Deferral.

Definition g3 : AssetGroup :=
  {| group_filePath := "/three.js"; sideEffects := Some false |}.
Definition a1 : Asset :=
  {| asset_id := "a1"; uniqueKey := None;
     dependencies := [("d1", Example.dep "d1" "./two" [] []);
                      ("d2", Example.dep "d2" "./three" [] [])];
     asset_symbols := None; outputHash := Some "hash-a1" |}.

Definition siblings : AssetGraph :=
  Example.graphOf
    [ set_hasDeferred (Some true)
        (mkNode "g1" (AssetGroupValue Example.g1));
      set_hasDeferred (Some true) (mkNode "a1" (AssetValue a1));
      set_hasDeferred (Some true)
        (set_usedSymbols ["x"]
           (mkNode "d1" (DependencyValue (Example.dep "d1" "./two" [] []))));
      set_deferred (Some true) (mkNode "g2" (AssetGroupValue Example.g2));
      set_hasDeferred (Some true)
        (mkNode "d2" (DependencyValue (Example.dep "d2" "./three" [] [])));
      set_deferred (Some true) (mkNode "g3" (AssetGroupValue g3)) ]
    [("g1", "a1"); ("a1", "d1"); ("a1", "d2"); ("d1", "g2"); ("d2", "g3")].

End Deferral.

(** ** Vocabulary for the second call *)

(** The object at [l] is not an asset group. *)
Definition notGroupAt (g : AssetGraph) (l : loc) : Prop :=
  ∃ n, heap g !! l = Some n ∧ type n ≠ asset_group.

(** Every asset-group object stored in [s] was stored in [g], under the same
    id. *)
Definition groupsKept (g s : AssetGraph) : Prop :=
  ∀ i l n, nodes s !! i = Some l → heap s !! l = Some n →
           type n = asset_group → nodes g !! i = Some l.

(** [settled], for concrete graphs. *)
Definition settledb (p : string) (T : list string) (g : AssetGraph) : bool :=
  if bool_decide (is_Some (nodes g !! p)) then
    forallb (λ e : string * string,
               if bool_decide (e.1 = p) then bool_decide (e.2 ∈ T) else true)
            (edges g)
    && forallb (λ t, bool_decide ((p, t) ∈ edges g)
                     && bool_decide (is_Some (nodes g !! t))) T
  else true.

(** A batch in which two dependencies share the id [d] but name different
    assets: [b] imports [a] through [d], [c] imports [x] through [d], and
    [c2] imports [a] through [d2]. *)
Module Clash.

Definition group : AssetGroup :=
  {| group_filePath := "/g.js"; sideEffects := None |}.
Definition b : Asset :=
  {| asset_id := "b"; uniqueKey := None;
     dependencies := [("d", Example.dep "d" "k" [] [])];
     asset_symbols := None; outputHash := None |}.
Definition a : Asset :=
  {| asset_id := "a"; uniqueKey := Some "k";
     dependencies := [("e", Example.dep "e" "./e" [] [])];
     asset_symbols := None; outputHash := None |}.
Definition c : Asset :=
  {| asset_id := "c"; uniqueKey := None;
     dependencies := [("d", Example.dep "d" "k2" [] [])];
     asset_symbols := None; outputHash := None |}.
Definition x : Asset :=
  {| asset_id := "x"; uniqueKey := Some "k2";
     dependencies := [];
     asset_symbols := None; outputHash := None |}.
Definition c2 : Asset :=
  {| asset_id := "c2"; uniqueKey := None;
     dependencies := [("d2", Example.dep "d2" "k" [] [])];
     asset_symbols := None; outputHash := None |}.
Definition batch : list Asset := [b; a; c; x; c2].

Definition started : AssetGraph :=
  (@initialize Example.md5Group None (Some [group]) emptyGraph).2.
Definition once : AssetGraph :=
  (@resolveAssetGroup Example.md5Group group batch "request" started).2.
Definition twice : AssetGraph :=
  (@resolveAssetGroup Example.md5Group group batch "request" once).2.

End Clash.
(** * Properties *)

(** ** The monad *)

Lemma bind_returned {A B} (m : Js A) (k : A → Js B) g a g' :
  m g = (Returned a, g') → bind m k g = k a g'.
Proof. unfold bind. by intros ->. Qed.

Lemma bind_threw {A B} (m : Js A) (k : A → Js B) g g' :
  m g = (Threw, g') → bind m k g = (Threw, g').
Proof. unfold bind. by intros ->. Qed.

Lemma read_returned l g n :
  heap g !! l = Some n → read l g = (Returned n, g).
Proof. unfold read. by intros ->. Qed.

Lemma write_returned l f g n :
  heap g !! l = Some n →
  write l f g = (Returned tt, set_heap (<[l := f n]> (heap g)) g).
Proof. unfold write. by intros ->. Qed.

(** ** Traversal: invariants *)

Section DfsFacts.
Context {C X : Type}.
Variable getChildren : loc → AssetGraph → list loc.
Variable visit : loc → option C → X → Js (Visit C X).

Section Invariant.
Variable J : Walk X → Prop.
Variable Valid : loc → Prop.
Hypothesis J_visit : ∀ node context w v g',
  J w → Valid node → node ∉ visited w →
  visit node context (closure w) (graph w) = (Returned v, g') →
  J (entered node v g' w).
Hypothesis children_valid : ∀ node w c,
  J w → node ∈ visited w → c ∈ getChildren node (graph w) → Valid c.

Lemma walkChildren_invariant
    (rec : loc → option C → Walk X → WalkResult X) :
  (∀ c context w w',
      J w → Valid c → c ∉ visited w → rec c context w = Done w' → J w') →
  ∀ children context w w',
    J w → (∀ c, c ∈ children → Valid c) →
    walkChildren rec context children w = Done w' → J w'.
Proof.
  intros Hrec children context.
  induction children as [|c cs IH]; intros w w' HJ HV Hw; simpl in Hw.
  - by inversion Hw; subst.
  - assert (HVcs : ∀ c', c' ∈ cs → Valid c').
    { intros c' Hc'. apply HV. by apply elem_of_cons; right. }
    case_bool_decide as Hin; [by eapply IH|].
    destruct (rec c context w) as [w1| |] eqn:Hc; try done.
    assert (J w1).
    { eapply Hrec; [exact HJ| |exact Hin|exact Hc].
      apply HV, list_elem_of_here. }
    destruct (stopped w1); [by inversion Hw; subst|].
    by eapply IH.
Qed.

Lemma walk_invariant fuel : ∀ node context w w',
  J w → Valid node → node ∉ visited w →
  walk getChildren visit fuel node context w = Done w' → J w'.
Proof.
  induction fuel as [|fuel IH]; intros node context w w' HJ HV Hnew Hw;
    simpl in Hw; [done|].
  destruct (visit node context (closure w) (graph w)) as [[v|] g'] eqn:Hv;
    [|done].
  pose proof (J_visit _ _ _ _ _ HJ HV Hnew Hv) as HJ'.
  change ((if skipChildren v then Done (entered node v g' w)
           else if stopped (entered node v g' w)
                then Done (entered node v g' w)
                else walkChildren (walk getChildren visit fuel)
                       (match newContext v with
                        | Some c => Some c | None => context end)
                       (getChildren node g') (entered node v g' w))
          = Done w') in Hw.
  destruct (skipChildren v); [by inversion Hw; subst|].
  destruct (stopped (entered node v g' w)); [by inversion Hw; subst|].
  eapply walkChildren_invariant; [|exact HJ'| |exact Hw].
  - intros c context' w1 w1' ? ? ? ?. by eapply IH.
  - intros c Hc. eapply (children_valid node _ c HJ'); [|exact Hc].
    simpl. apply elem_of_app. right. apply list_elem_of_here.
Qed.
End Invariant.

(** A property of the graph that every visit keeps holds whenever the walk
      ends, also by an exception. *)
Section GraphInvariant.
Variable P : AssetGraph → Prop.
Hypothesis P_visit : ∀ node context x g r g',
      P g → visit node context x g = (r, g') → P g'.

Lemma walkChildren_graph_invariant
        (rec : loc → option C → Walk X → WalkResult X) :
      (∀ c context w, P (graph w) → holds_after P (rec c context w)) →
      ∀ children context w,
        P (graph w) → holds_after P (walkChildren rec context children w).
Proof.
      intros Hrec children context.
      induction children as [|c cs IH]; intros w HP; simpl; [done|].
      case_bool_decide; [by apply IH|].
      pose proof (Hrec c context w HP) as Hc.
      destruct (rec c context w) as [w1| |]; try done.
      destruct (stopped w1); [done|]. by apply IH.
Qed.

Lemma walk_graph_invariant fuel : ∀ node context w,
      P (graph w) → holds_after P (walk getChildren visit fuel node context w).
Proof.
      induction fuel as [|fuel IH]; intros node context w HP; simpl; [done|].
      destruct (visit node context (closure w) (graph w)) as [[v|] g'] eqn:Hv;
        pose proof (P_visit _ _ _ _ _ _ HP Hv) as HP'; [|done].
      destruct (skipChildren v); [done|].
      destruct (stopped w || stop v); [done|].
      apply walkChildren_graph_invariant; [|done].
      intros. by apply IH.
Qed.

Lemma dfs_graph_invariant start x g :
      P g → P (dfs getChildren visit start x g).2.
Proof.
      intros HP. unfold dfs.
      pose proof (walk_graph_invariant (S (size (nodes g))) start None
        {| visited := []; stopped := false; closure := x; graph := g |} HP) as H.
      by destruct (walk _ _ _ _ _ _) as [w| |].
Qed.
End GraphInvariant.
End DfsFacts.

(** ** Traversal: termination *)

Lemma unvisited_antitone (U vis vis' : list loc) :
  vis ⊆ vis' → length (unvisited U vis') ≤ length (unvisited U vis).
Proof.
  intros Hsub. unfold unvisited.
  induction U as [|u U IH]; [done|].
  rewrite !filter_cons.
  destruct (decide (u ∉ vis')) as [Hu'|Hu'];
    destruct (decide (u ∉ vis)) as [Hu|Hu]; simpl; try lia.
  exfalso. apply Hu. intros Hin. apply Hu'. by apply Hsub.
Qed.

Lemma unvisited_length (U vis : list loc) :
  length (unvisited U vis) ≤ length U.
Proof. unfold unvisited. apply length_filter. Qed.

Lemma unvisited_visit (U vis : list loc) (c : loc) :
  c ∈ U → c ∉ vis →
  length (unvisited U (vis ++ [c])) < length (unvisited U vis).
Proof.
  intros HU Hc. unfold unvisited.
  induction U as [|u U IH]; [by apply elem_of_nil in HU|].
  assert (Hle : length (filter (λ l, l ∉ vis ++ [c]) U)
                ≤ length (filter (λ l, l ∉ vis) U)).
  { apply (unvisited_antitone U vis (vis ++ [c])).
    intros y Hy. apply elem_of_app. by left. }
  rewrite !filter_cons.
  destruct (decide (u = c)) as [->|Hne].
  - destruct (decide (c ∉ vis ++ [c])) as [Hn|_].
    + exfalso. apply Hn. apply elem_of_app. right. by apply list_elem_of_singleton.
    + destruct (decide (c ∉ vis)); [simpl; lia|done].
  - apply elem_of_cons in HU as [->|HU]; [done|].
    specialize (IH HU).
    destruct (decide (u ∉ vis ++ [c])) as [Hu'|Hu'];
      destruct (decide (u ∉ vis)) as [Hu|Hu]; simpl; try lia.
    exfalso. apply Hu. intros Hin. apply Hu'. apply elem_of_app. by left.
Qed.

Section DfsTermination.
Context {C X : Type}.
Variable getChildren : loc → AssetGraph → list loc.
Variable visit : loc → option C → X → Js (Visit C X).

Lemma walk_S fuel node context w :
  walk getChildren visit (S fuel) node context w =
  match visit node context (closure w) (graph w) with
  | (Threw, g') => Thrown g'
  | (Returned v, g') =>
      if skipChildren v then Done (entered node v g' w)
      else if stopped (entered node v g' w) then Done (entered node v g' w)
      else walkChildren (walk getChildren visit fuel)
             (match newContext v with Some c => Some c | None => context end)
             (getChildren node g') (entered node v g' w)
  end.
Proof. reflexivity. Qed.

(** [U] is a finite set of node objects that holds the children of every
    node in every graph state [Inv] the visitor can produce; [Valid] are the
    node objects the walk can be handed. *)
Variable U : list loc.
Variable Inv : AssetGraph → Prop.
Variable Valid : loc → Prop.
Hypothesis Inv_visit : ∀ node context x g r g',
  Inv g → Valid node → visit node context x g = (r, g') → Inv g'.
Hypothesis children_in_U : ∀ node g c,
  Inv g → c ∈ getChildren node g → c ∈ U ∧ Valid c.

Lemma walkChildren_terminates
    (rec : loc → option C → Walk X → WalkResult X) (fuel : nat) :
  (∀ c context w,
      Inv (graph w) → Valid c →
      length (unvisited U (visited w ++ [c])) < fuel →
      walked Inv (visited w ++ [c]) (rec c context w)) →
  ∀ children context w,
    Inv (graph w) → (∀ c, c ∈ children → c ∈ U ∧ Valid c) →
    length (unvisited U (visited w)) ≤ fuel →
    walked Inv (visited w) (walkChildren rec context children w).
Proof.
  intros Hrec children context.
  induction children as [|c cs IH]; intros w HI HU Hfuel; simpl; [done|].
  assert (HUcs : ∀ c', c' ∈ cs → c' ∈ U ∧ Valid c').
  { intros c' Hc'. apply HU. by apply elem_of_cons; right. }
  case_bool_decide as Hin; [by apply IH|].
  destruct (HU c (list_elem_of_here _ _)) as [HcU HcV].
  assert (Hc : length (unvisited U (visited w ++ [c])) < fuel).
  { pose proof (unvisited_visit U (visited w) c HcU Hin). lia. }
  pose proof (Hrec c context w HI HcV Hc) as Hw.
  destruct (rec c context w) as [w1| |]; [|done|done].
  destruct Hw as [HI1 Hsub].
  assert (Hsub' : visited w ⊆ visited w1).
  { intros y Hy. apply Hsub, elem_of_app. by left. }
  destruct (stopped w1); [done|].
  assert (Hw1 : walked Inv (visited w1) (walkChildren rec context cs w1)).
  { apply IH; [done|done|].
    pose proof (unvisited_antitone U _ _ Hsub'). lia. }
  destruct (walkChildren rec context cs w1) as [w2| |]; [|done|done].
  destruct Hw1 as [HI2 Hsub2]. split; [done|]. by etrans.
Qed.

Lemma walk_terminates fuel : ∀ node context w,
  Inv (graph w) → Valid node →
  length (unvisited U (visited w ++ [node])) < fuel →
  walked Inv (visited w ++ [node]) (walk getChildren visit fuel node context w).
Proof.
  induction fuel as [|fuel IH]; intros node context w HI HV Hfuel; [lia|].
  rewrite walk_S.
  destruct (visit node context (closure w) (graph w)) as [[v|] g'] eqn:Hv;
    [|done].
  pose proof (Inv_visit _ _ _ _ _ _ HI HV Hv) as HI'.
  destruct (skipChildren v); [done|].
  destruct (stopped (entered node v g' w)); [done|].
  apply (walkChildren_terminates _ fuel); [| done | | simpl; lia].
  - intros c context' w1 ? ? ?. by apply IH.
  - intros c Hc. by eapply children_in_U.
Qed.
End DfsTermination.

(** A walk does not throw when the visitor returns on every node it can be
    handed. *)
Section DfsNoThrow.
Context {C X : Type}.
Variable getChildren : loc → AssetGraph → list loc.
Variable visit : loc → option C → X → Js (Visit C X).
Variable Inv : AssetGraph → Prop.
Variable Valid : loc → Prop.
Hypothesis Inv_visit : ∀ node context x g r g',
  Inv g → Valid node → visit node context x g = (r, g') → Inv g'.
Hypothesis children_valid : ∀ node g c,
  Inv g → c ∈ getChildren node g → Valid c.
Hypothesis visit_returns : ∀ node context x g,
  Inv g → Valid node → (visit node context x g).1 ≠ Threw.

Lemma walkChildren_not_thrown
    (rec : loc → option C → Walk X → WalkResult X) :
  (∀ c context w, Inv (graph w) → Valid c →
     holds_after Inv (rec c context w) ∧ ∀ g', rec c context w ≠ Thrown g') →
  ∀ children context w,
    Inv (graph w) → (∀ c, c ∈ children → Valid c) →
    holds_after Inv (walkChildren rec context children w)
    ∧ ∀ g', walkChildren rec context children w ≠ Thrown g'.
Proof.
  intros Hrec children context.
  induction children as [|c cs IH]; intros w HI HV; simpl; [done|].
  assert (HVcs : ∀ c', c' ∈ cs → Valid c').
  { intros c' Hc'. apply HV. by apply elem_of_cons; right. }
  case_bool_decide; [by apply IH|].
  destruct (Hrec c context w HI (HV c (list_elem_of_here _ _))) as [Hh Hn].
  destruct (rec c context w) as [w1|g1|]; [|by specialize (Hn g1)|done].
  destruct (stopped w1); [done|]. by apply IH.
Qed.

Lemma walk_not_thrown fuel : ∀ node context w,
  Inv (graph w) → Valid node →
  holds_after Inv (walk getChildren visit fuel node context w)
  ∧ ∀ g', walk getChildren visit fuel node context w ≠ Thrown g'.
Proof.
  induction fuel as [|fuel IH]; intros node context w HI HV; [done|].
  rewrite walk_S.
  pose proof (visit_returns node context (closure w) (graph w) HI HV) as Hr.
  destruct (visit node context (closure w) (graph w)) as [[v|] g'] eqn:Hv;
    [|done].
  pose proof (Inv_visit _ _ _ _ _ _ HI HV Hv) as HI'.
  destruct (skipChildren v); [done|].
  destruct (stopped (entered node v g' w)); [done|].
  apply walkChildren_not_thrown; [|done|].
  - intros. by apply IH.
  - intros c Hc. by eapply children_valid.
Qed.
End DfsNoThrow.

(** ** Node objects and the store *)

Lemma storedNodes_length g : length (storedNodes g) = size (nodes g).
Proof. unfold storedNodes. by rewrite length_fmap, length_map_to_list. Qed.

Lemma storedNodes_same g g' : nodes g' = nodes g → storedNodes g' = storedNodes g.
Proof. unfold storedNodes. by intros ->. Qed.

Lemma elem_of_storedNodes g l :
  l ∈ storedNodes g ↔ ∃ i, nodes g !! i = Some l.
Proof.
  unfold storedNodes. rewrite list_elem_of_fmap. split.
  - intros [[i l'] [-> Hin]]. exists i. by apply elem_of_map_to_list.
  - intros [i Hi]. exists (i, l). split; [done|]. by apply elem_of_map_to_list.
Qed.

Lemma getNodesConnectedTo_stored l g c :
  c ∈ getNodesConnectedTo l g → c ∈ storedNodes g.
Proof.
  unfold getNodesConnectedTo. destruct (heap g !! l); [|by intros ?%elem_of_nil].
  intros (i & _ & Hi)%list_elem_of_omap. apply elem_of_storedNodes. eauto.
Qed.

Lemma getNodesConnectedFrom_stored l g c :
  c ∈ getNodesConnectedFrom l g → c ∈ storedNodes g.
Proof.
  unfold getNodesConnectedFrom. destruct (heap g !! l); [|by intros ?%elem_of_nil].
  intros (i & _ & Hi)%list_elem_of_omap. apply elem_of_storedNodes. eauto.
Qed.

Lemma sameButHasDeferred_refl n : sameButHasDeferred n n.
Proof. split; [by destruct n|done]. Qed.

Lemma sameButHasDeferred_trans n1 n2 n3 :
  sameButHasDeferred n1 n2 → sameButHasDeferred n2 n3 →
  sameButHasDeferred n1 n3.
Proof.
  intros [H12 K12] [H23 K23]. split.
  - rewrite H23, H12. by destruct n1.
  - intros Ha Hg. rewrite <- (K12 Ha Hg). apply K23; by rewrite (K12 Ha Hg).
Qed.

Lemma flagsOnly_refl g : flagsOnly g g.
Proof.
  repeat split; try done. apply Forall2_same_length_lookup_2; [done|].
  intros i x y Hx Hy. rewrite Hx in Hy. inversion Hy; subst.
  apply sameButHasDeferred_refl.
Qed.

Lemma flagsOnly_trans g1 g2 g3 :
  flagsOnly g1 g2 → flagsOnly g2 g3 → flagsOnly g1 g3.
Proof.
  intros (N1 & E1 & R1 & H1 & L1 & F1) (N2 & E2 & R2 & H2 & L2 & F2).
  repeat split; try congruence.
  eapply Forall2_trans; [|exact F1|exact F2].
  intros ???. apply sameButHasDeferred_trans.
Qed.

Lemma flagsOnly_write g l n h :
  heap g !! l = Some n → type n = asset ∨ type n = asset_group →
  flagsOnly g (set_heap (<[l := set_hasDeferred h n]> (heap g)) g).
Proof.
  intros Hl Ht. repeat split; try done. simpl.
  apply Forall2_same_length_lookup_2; [by rewrite length_insert|].
  intros i x y Hx Hy.
  destruct (decide (i = l)) as [->|Hne].
  - rewrite list_lookup_insert_eq in Hy by (by eapply lookup_lt_Some).
    rewrite Hl in Hx. inversion Hx; inversion Hy; subst.
    split; [by destruct x|]. intros Ha Hg. by destruct Ht.
  - rewrite list_lookup_insert_ne in Hy by done.
    rewrite Hx in Hy. inversion Hy; subst. apply sameButHasDeferred_refl.
Qed.

Lemma flagsOnly_lookup g g' l n :
  flagsOnly g g' → heap g !! l = Some n →
  ∃ n', heap g' !! l = Some n' ∧ sameButHasDeferred n n'.
Proof.
  intros (_ & _ & _ & _ & _ & F) Hl.
  destruct (Forall2_lookup_l _ _ _ _ _ F Hl) as (n' & Hn' & Hs). eauto.
Qed.

Lemma flagsOnly_length g g' :
  flagsOnly g g' → length (heap g') = length (heap g).
Proof. intros (_ & _ & _ & _ & _ & F). symmetry. by eapply Forall2_length. Qed.

(** ** Traversal: a walk over a well-formed graph returns *)

Lemma wellFormed_storedObjects g : wellFormed g → storedObjects g.
Proof.
  intros Hwf i l Hi. destruct (Hwf i l Hi) as (n & Hn & _).
  by eapply lookup_lt_Some.
Qed.

Section DfsTotal.
Context {C X : Type}.
Variable getChildren : loc → AssetGraph → list loc.
Variable visit : loc → option C → X → Js (Visit C X).
Variable g : AssetGraph.
Variable start : loc.
Variable Inv : AssetGraph → Prop.
Variable J : Walk X → Prop.

(** The node objects a walk from [start] can be handed. *)
Let Valid (l : loc) : Prop := l = start ∨ l ∈ storedNodes g.

Hypothesis Inv_visit : ∀ node context x g1 r g2,
  Inv g1 → Valid node → visit node context x g1 = (r, g2) → Inv g2.
Hypothesis children_stored : ∀ node g1 c,
  Inv g1 → c ∈ getChildren node g1 → c ∈ storedNodes g.
Hypothesis visit_returns : ∀ node context x g1,
  Inv g1 → Valid node → (visit node context x g1).1 ≠ Threw.
Hypothesis J_visit : ∀ node context w v g',
  J w → Inv (graph w) → Valid node → node ∉ visited w →
  visit node context (closure w) (graph w) = (Returned v, g') →
  J (entered node v g' w).

Lemma walk_total x :
  Inv g → J (start_of x g) →
  ∃ w, walk getChildren visit (S (size (nodes g))) start None (start_of x g)
       = Done w
       ∧ Inv (graph w) ∧ J w.
Proof.
  intros HI HJ.
  assert (Hkids : ∀ node g1 c,
    Inv g1 → c ∈ getChildren node g1 → c ∈ storedNodes g ∧ Valid c).
  { intros node g1 c HI1 Hc. pose proof (children_stored _ _ _ HI1 Hc).
    split; [done|by right]. }
  pose proof (walk_terminates getChildren visit (storedNodes g) Inv Valid
    Inv_visit Hkids (S (size (nodes g))) start None (start_of x g))
    as Hterm.
  assert (Hfuel : length (unvisited (storedNodes g)
                    (visited (start_of x g) ++ [start])) < S (size (nodes g))).
  { pose proof (unvisited_length (storedNodes g)
                  (visited (start_of x g) ++ [start])).
    rewrite storedNodes_length in *. lia. }
  specialize (Hterm HI (or_introl eq_refl) Hfuel).
  destruct (walk_not_thrown getChildren visit Inv Valid Inv_visit)
    with (fuel := S (size (nodes g))) (node := start)
         (context := @None C) (w := start_of x g) as [_ Hnt];
    [ | done | done | by left | ].
  { intros node g1 c HI1 Hc. right. by eapply children_stored. }
  destruct (walk _ _ _ _ _ _) as [w|g1|] eqn:Hw;
    [|by specialize (Hnt g1)|done].
  destruct Hterm as [HIw _]. exists w. split; [done|]. split; [done|].
  apply (walk_invariant getChildren visit (λ w, J w ∧ Inv (graph w)) Valid)
    with (fuel := S (size (nodes g))) (node := start) (context := @None C)
         (w := start_of x g); [| |done|by left|by intros ?%elem_of_nil|done].
  - intros node context w0 v g' [HJ0 HI0] HV Hnew Hv. split.
    + by eapply J_visit.
    + simpl. by eapply Inv_visit.
  - intros node w0 c [_ HI0] _ Hc. right. by eapply children_stored.
Qed.

Lemma dfs_total x :
  Inv g → J (start_of x g) →
  ∃ w, dfs getChildren visit start x g = (Returned (closure w), graph w)
       ∧ Inv (graph w) ∧ J w.
Proof.
  intros HI HJ. destruct (walk_total x HI HJ) as (w & Hw & ?).
  exists w. split; [|done]. unfold dfs. unfold start_of in Hw. by rewrite Hw.
Qed.
End DfsTotal.

(** ** The deferral walks *)

Ltac js_unfold :=
  unfold bind, read, write, ret, throw, get_state, update_state,
    nullthrows, invariant, getNode, hasNode, getRootNode in *;
  cbv beta in *.

Lemma markVisitor_flagsOnly node l ctx x g r g' :
  markVisitor node l ctx x g = (r, g') → flagsOnly g g'.
Proof.
  unfold markVisitor. js_unfold.
  destruct (heap g !! l) as [n|] eqn:Hl; simpl.
  - repeat case_bool_decide; simpl; rewrite ?Hl; intros [= <- <-];
      try apply flagsOnly_refl; apply flagsOnly_write; auto.
  - intros [= <- <-]. apply flagsOnly_refl.
Qed.

Lemma markVisitor_returns node l ctx x g :
  l < length (heap g) → (markVisitor node l ctx x g).1 ≠ Threw.
Proof.
  intros [n Hl]%lookup_lt_is_Some. unfold markVisitor. js_unfold.
  rewrite Hl. simpl. repeat case_bool_decide; simpl; rewrite ?Hl; done.
Qed.

Lemma unmarkVisitor_flagsOnly node l ctx x g r g' :
  unmarkVisitor node l ctx x g = (r, g') → flagsOnly g g'.
Proof.
  unfold unmarkVisitor. js_unfold.
  destruct (heap g !! l) as [n|] eqn:Hl; simpl.
  - repeat case_bool_decide; simpl.
    + destruct (existsb _ _); simpl; rewrite ?Hl; intros [= <- <-];
        try apply flagsOnly_refl; apply flagsOnly_write; auto.
    + destruct (default false ctx); simpl; rewrite ?Hl; intros [= <- <-];
        try apply flagsOnly_refl; apply flagsOnly_write; auto.
    + intros [= <- <-]. apply flagsOnly_refl.
    + intros [= <- <-]. apply flagsOnly_refl.
  - intros [= <- <-]. apply flagsOnly_refl.
Qed.

Lemma unmarkVisitor_returns node l ctx x g :
  l < length (heap g) → (unmarkVisitor node l ctx x g).1 ≠ Threw.
Proof.
  intros [n Hl]%lookup_lt_is_Some. unfold unmarkVisitor. js_unfold.
  rewrite Hl. simpl. repeat case_bool_decide; simpl; try done.
  - destruct (existsb _ _); simpl; rewrite ?Hl; done.
  - destruct (default false ctx); simpl; rewrite ?Hl; done.
Qed.

(** An ancestor walk whose visitor only touches [hasDeferred] flags and
    returns on every object returns, and has only touched such flags. *)
Lemma traverseAncestors_flagsOnly {C}
    (visit : loc → option C → unit → Js (Visit C unit)) start g :
  (∀ l ctx x g r g', visit l ctx x g = (r, g') → flagsOnly g g') →
  (∀ l ctx x g, l < length (heap g) → (visit l ctx x g).1 ≠ Threw) →
  storedObjects g → start < length (heap g) →
  ∃ g', traverseAncestors start visit tt g = (Returned tt, g')
        ∧ flagsOnly g g'.
Proof.
  intros Hflags Hret Hstored Hstart.
  unfold traverseAncestors.
  destruct (dfs_total getNodesConnectedTo visit g start
    (λ g', flagsOnly g g') (λ _, True)) with (x := tt)
    as (w & Hw & HI & _).
  - intros node ctx x g1 r g2 HI _ Hv.
    eapply flagsOnly_trans; [exact HI|]. by eapply Hflags.
  - intros node g1 c [Hn _] Hc%getNodesConnectedTo_stored.
    by rewrite <- (storedNodes_same _ _ Hn).
  - intros node ctx x g1 HI HV. apply Hret.
    rewrite (flagsOnly_length _ _ HI). destruct HV as [->|Hs]; [done|].
    apply elem_of_storedNodes in Hs as [i Hi]. by eapply Hstored.
  - done.
  - apply flagsOnly_refl.
  - done.
  - exists (graph w). split; [|done]. rewrite Hw. by destruct (closure w).
Qed.

Lemma markParentsWithHasDeferred_returns node g :
  storedObjects g → node < length (heap g) →
  ∃ g', markParentsWithHasDeferred node g = (Returned tt, g')
        ∧ flagsOnly g g'.
Proof.
  intros. apply traverseAncestors_flagsOnly; try done.
  - intros. by eapply markVisitor_flagsOnly.
  - intros. by apply markVisitor_returns.
Qed.

Lemma unmarkParentsWithHasDeferred_returns node g :
  storedObjects g → node < length (heap g) →
  ∃ g', unmarkParentsWithHasDeferred node g = (Returned tt, g')
        ∧ flagsOnly g g'.
Proof.
  intros. apply traverseAncestors_flagsOnly; try done.
  - intros. by eapply unmarkVisitor_flagsOnly.
  - intros. by apply unmarkVisitor_returns.
Qed.

(** ** [shouldVisitChild] *)

Lemma shouldDeferDependency_iff n ag :
  shouldDeferDependency n (sideEffects ag) = true ↔ deferralCondition n ag.
Proof.
  unfold shouldDeferDependency, deferralCondition, JsSet.size.
  rewrite andb_true_iff, !bool_decide_eq_true.
  split; intros [? H]; split; try done.
  - by destruct (usedSymbols n).
  - by rewrite H.
Qed.

(** Past the guard of lines 199-205, the call writes the two flags and then
    runs one of the ancestor walks. *)
Lemma shouldVisitChild_unguarded node childNode g n c ag :
  heap g !! node = Some n → heap g !! childNode = Some c →
  type n = dependency → value c = AssetGroupValue ag →
  deferred c ≠ Some false →
  let defer := shouldDeferDependency n (sideEffects ag) in
  node ≠ childNode ∧
  shouldVisitChild node childNode g =
  bind (if negb (truthy (deferred c)) && defer then
          markParentsWithHasDeferred node
        else if truthy (deferred c) && negb defer then
          unmarkParentsWithHasDeferred node
        else ret tt)
       (λ _, ret (negb defer))
       (set_heap (<[childNode := set_deferred (Some defer) c]>
                    (<[node := set_hasDeferred (Some defer) n]> (heap g))) g).
Proof.
  intros Hn Hc Htn Hvc Hdef defer.
  assert (Htc : type c = asset_group) by (unfold type; by rewrite Hvc).
  assert (Hne : node ≠ childNode).
  { intros ->. rewrite Hn in Hc. inversion Hc; subst. congruence. }
  split; [done|].
  unfold shouldVisitChild.
  rewrite (bind_returned _ _ _ _ _ (read_returned _ _ _ Hn)).
  rewrite (bind_returned _ _ _ _ _ (read_returned _ _ _ Hc)).
  rewrite (bool_decide_eq_false_2 (type n ≠ dependency)) by (by intros ?).
  rewrite (bool_decide_eq_false_2 (type c ≠ asset_group)) by (by intros ?).
  rewrite (bool_decide_eq_false_2 (deferred c = Some false)) by done.
  simpl. rewrite Hvc. fold defer.
  rewrite (bind_returned _ _ _ _ _ (write_returned _ _ _ _ Hn)).
  erewrite bind_returned; [reflexivity|].
  unfold write. simpl. rewrite list_lookup_insert_ne by done. by rewrite Hc.
Qed.

Lemma shouldVisitChild_guarded node childNode g n c :
  heap g !! node = Some n → heap g !! childNode = Some c →
  deferred c = Some false →
  shouldVisitChild node childNode g = (Returned true, g).
Proof.
  intros Hn Hc Hdef. unfold shouldVisitChild.
  rewrite (bind_returned _ _ _ _ _ (read_returned _ _ _ Hn)).
  rewrite (bind_returned _ _ _ _ _ (read_returned _ _ _ Hc)).
  rewrite (bool_decide_eq_true_2 (deferred c = Some false)) by done.
  by rewrite !orb_true_r.
Qed.

Lemma flagsOnly_deferredIsFalse l g g' :
  flagsOnly g g' → deferredIsFalse l g → deferredIsFalse l g'.
Proof.
  intros Hf (c & Hc & Hd).
  destruct (flagsOnly_lookup _ _ _ _ Hf Hc) as (c' & Hc' & [Heq _]).
  exists c'. split; [done|]. by rewrite Heq.
Qed.

Lemma type_asset_group_value c :
  type c = asset_group → ∃ ag, value c = AssetGroupValue ag.
Proof. unfold type. destruct (value c); try done. eauto. Qed.

Lemma read_threw l g : heap g !! l = None → read l g = (Threw, g).
Proof. unfold read. by intros ->. Qed.

(** A property of the graph that survives changes of [hasDeferred] flags and
    the two writes of lines 211-212 survives a [shouldVisitChild] call,
    however the call ends. *)
Lemma shouldVisitChild_invariant (P : AssetGraph → Prop) :
  (∀ g g', flagsOnly g g' → P g → P g') →
  (∀ g node childNode n c defer,
      heap g !! node = Some n → heap g !! childNode = Some c →
      type n = dependency → type c = asset_group →
      deferred c ≠ Some false → P g →
      P (set_heap (<[childNode := set_deferred (Some defer) c]>
                     (<[node := set_hasDeferred (Some defer) n]> (heap g))) g)) →
  ∀ node childNode g, P g → P (shouldVisitChild node childNode g).2.
Proof.
  intros Hflags Hwrites node childNode g HP.
  destruct (heap g !! node) as [n|] eqn:Hn; cycle 1.
  { unfold shouldVisitChild.
    by rewrite (bind_threw _ _ _ _ (read_threw _ _ Hn)). }
  destruct (heap g !! childNode) as [c|] eqn:Hc; cycle 1.
  { unfold shouldVisitChild.
    rewrite (bind_returned _ _ _ _ _ (read_returned _ _ _ Hn)).
    by rewrite (bind_threw _ _ _ _ (read_threw _ _ Hc)). }
  destruct (decide (type n = dependency)) as [Htn|Htn]; cycle 1.
  { unfold shouldVisitChild.
    rewrite (bind_returned _ _ _ _ _ (read_returned _ _ _ Hn)).
    rewrite (bind_returned _ _ _ _ _ (read_returned _ _ _ Hc)).
    by rewrite (bool_decide_eq_true_2 (type n ≠ dependency)) by done. }
  destruct (decide (type c = asset_group)) as [Htc|Htc]; cycle 1.
  { unfold shouldVisitChild.
    rewrite (bind_returned _ _ _ _ _ (read_returned _ _ _ Hn)).
    rewrite (bind_returned _ _ _ _ _ (read_returned _ _ _ Hc)).
    rewrite (bool_decide_eq_true_2 (type c ≠ asset_group)) by done.
    by rewrite orb_true_r. }
  destruct (decide (deferred c = Some false)) as [Hd|Hd].
  { by rewrite (shouldVisitChild_guarded _ _ _ _ _ Hn Hc Hd). }
  destruct (type_asset_group_value c Htc) as [ag Hag].
  destruct (shouldVisitChild_unguarded _ _ _ _ _ _ Hn Hc Htn Hag Hd)
    as [Hne ->].
  set (defer := shouldDeferDependency n (sideEffects ag)).
  pose proof (Hwrites g node childNode n c defer Hn Hc Htn Htc Hd HP) as HP1.
  set (g1 := set_heap _ g) in *.
  unfold bind.
  destruct (negb (truthy (deferred c)) && defer).
  - pose proof (dfs_graph_invariant getNodesConnectedTo (markVisitor node) P)
      as Hdfs.
    unfold markParentsWithHasDeferred, traverseAncestors.
    specialize (Hdfs (λ _ _ _ _ _ _ HQ Hv,
      Hflags _ _ (markVisitor_flagsOnly _ _ _ _ _ _ _ Hv) HQ) node tt g1 HP1).
    by destruct (dfs _ _ _ _ g1) as [[[]|] g2].
  - destruct (truthy (deferred c) && negb defer); [|done].
    pose proof (dfs_graph_invariant getNodesConnectedTo (unmarkVisitor node) P)
      as Hdfs.
    unfold unmarkParentsWithHasDeferred, traverseAncestors.
    specialize (Hdfs (λ _ _ _ _ _ _ HQ Hv,
      Hflags _ _ (unmarkVisitor_flagsOnly _ _ _ _ _ _ _ Hv) HQ) node tt g1 HP1).
    by destruct (dfs _ _ _ _ g1) as [[[]|] g2].
Qed.

Lemma shouldVisitChild_deferredIsFalse l node childNode g :
  deferredIsFalse l g →
  deferredIsFalse l (shouldVisitChild node childNode g).2.
Proof.
  apply shouldVisitChild_invariant.
  - intros ??. apply flagsOnly_deferredIsFalse.
  - clear. intros g node childNode n c defer Hn Hc Htn Htc Hd (c0 & Hc0 & Hd0).
    assert (l ≠ childNode) by (intros ->; congruence).
    unfold deferredIsFalse. simpl.
    rewrite list_lookup_insert_ne by done.
    destruct (decide (l = node)) as [->|Hln].
    + rewrite list_lookup_insert_eq by (by eapply lookup_lt_Some).
      eexists. split; [done|]. simpl. congruence.
    + rewrite list_lookup_insert_ne by done. eauto.
Qed.

Lemma shouldVisitChild_heap_length node childNode g :
  length (heap (shouldVisitChild node childNode g).2) = length (heap g).
Proof.
  apply (shouldVisitChild_invariant (λ g', length (heap g') = length (heap g)));
    [| |done].
  - intros g1 g2 Hf <-. by apply flagsOnly_length.
  - intros. simpl. by rewrite !length_insert.
Qed.

(** C10.  When the child carries [deferred === false], [shouldVisitChild]
    returns [true] at once and leaves every flag as it is; and a child whose
    [deferred] field is [false] keeps it through any sequence of later
    [shouldVisitChild] calls, whatever their arguments, so that no later call
    defers it again: a call on it still returns [true] without a change. *)
Theorem shouldVisitChild_deferred_false_is_final :
  (∀ g node childNode n c,
      heap g !! node = Some n → heap g !! childNode = Some c →
      deferred c = Some false →
      shouldVisitChild node childNode g = (Returned true, g))
  ∧ (∀ calls g node childNode n c,
      heap g !! node = Some n → heap g !! childNode = Some c →
      deferred c = Some false →
      deferredIsFalse childNode (visitAll calls g)
      ∧ shouldVisitChild node childNode (visitAll calls g)
        = (Returned true, visitAll calls g)).
Proof.
  split; [intros; by eapply shouldVisitChild_guarded|].
  intros calls g node childNode n c Hn Hc Hd.
  assert (Hinv : deferredIsFalse childNode (visitAll calls g)
                 ∧ length (heap (visitAll calls g)) = length (heap g)).
  { induction calls as [|call calls IH] using rev_ind.
    - split; [by exists c|done].
    - unfold visitAll. rewrite foldl_app. simpl. fold (visitAll calls g).
      destruct IH as [HP Hlen]. split.
      + by apply shouldVisitChild_deferredIsFalse.
      + by rewrite shouldVisitChild_heap_length. }
  destruct Hinv as [HP Hlen]. split; [done|].
  destruct HP as (c' & Hc' & Hd').
  assert (is_Some (heap (visitAll calls g) !! node)) as [n' Hn'].
  { apply lookup_lt_is_Some. rewrite Hlen. by eapply lookup_lt_Some. }
  by eapply shouldVisitChild_guarded.
Qed.

Lemma storedObjects_set_heap g h :
  length h = length (heap g) → storedObjects g → storedObjects (set_heap h g).
Proof. intros Hlen Hs i l Hi. simpl. rewrite Hlen. by eapply Hs. Qed.

(** C2, amended.  For a dependency node D and an asset-group child G: when
    G carries [deferred === false] the call returns [true] and changes
    nothing; otherwise it returns [false] exactly when G's side-effects flag
    is explicitly [false] and D uses no symbol, and D.hasDeferred and
    G.deferred are both set to the negation of the result: [true] when the
    child is deferred, [false] when it is visited. *)
Theorem shouldVisitChild_decision g node childNode n c ag :
  storedObjects g →
  heap g !! node = Some n → heap g !! childNode = Some c →
  type n = dependency → value c = AssetGroupValue ag →
  (deferred c = Some false →
     shouldVisitChild node childNode g = (Returned true, g))
  ∧ (deferred c ≠ Some false →
     ∃ r g' n' c',
       shouldVisitChild node childNode g = (Returned r, g')
       ∧ (r = false ↔ deferralCondition n ag)
       ∧ heap g' !! node = Some n' ∧ hasDeferred n' = Some (negb r)
       ∧ heap g' !! childNode = Some c' ∧ deferred c' = Some (negb r)).
Proof.
  intros Hstored Hn Hc Htn Hag.
  split; [intros Hd; by eapply shouldVisitChild_guarded|].
  intros Hd.
  destruct (shouldVisitChild_unguarded _ _ _ _ _ _ Hn Hc Htn Hag Hd)
    as [Hne ->].
  set (defer := shouldDeferDependency n (sideEffects ag)).
  set (g1 := set_heap _ g).
  assert (Hn1 : heap g1 !! node = Some (set_hasDeferred (Some defer) n)).
  { simpl. rewrite list_lookup_insert_ne by done.
    apply list_lookup_insert_eq. by eapply lookup_lt_Some. }
  assert (Hc1 : heap g1 !! childNode = Some (set_deferred (Some defer) c)).
  { simpl. apply list_lookup_insert_eq. rewrite length_insert.
    by eapply lookup_lt_Some. }
  assert (Hstored1 : storedObjects g1).
  { apply storedObjects_set_heap; [by rewrite !length_insert|done]. }
  assert (Hlt1 : node < length (heap g1)) by (by eapply lookup_lt_Some).
  assert (Hwalk : ∃ g2,
    (if negb (truthy (deferred c)) && defer then
       markParentsWithHasDeferred node
     else if truthy (deferred c) && negb defer then
       unmarkParentsWithHasDeferred node
     else ret tt) g1 = (Returned tt, g2) ∧ flagsOnly g1 g2).
  { destruct (negb (truthy (deferred c)) && defer).
    - by apply markParentsWithHasDeferred_returns.
    - destruct (truthy (deferred c) && negb defer).
      + by apply unmarkParentsWithHasDeferred_returns.
      + exists g1. split; [done|apply flagsOnly_refl]. }
  destruct Hwalk as (g2 & Hwalk & Hflags).
  rewrite (bind_returned _ _ _ _ _ Hwalk).
  destruct (flagsOnly_lookup _ _ _ _ Hflags Hn1) as (n' & Hn' & [_ Hsame]).
  destruct (flagsOnly_lookup _ _ _ _ Hflags Hc1) as (c' & Hc' & [Heq _]).
  exists (negb defer), g2, n', c'.
  rewrite negb_involutive.
  split; [done|]. split; [|split; [done|split; [|split; [done|]]]].
  - rewrite <- shouldDeferDependency_iff. fold defer. by destruct defer.
  - rewrite Hsame; [done| |]; unfold type in *; simpl;
      destruct (value n); done.
  - by rewrite Heq.
Qed.

(** ** State invariants of composed methods *)

Lemma bind_state_inv {A B} (P : AssetGraph → Prop) (m : Js A) (k : A → Js B) g :
  P (m g).2 → (∀ a g', P g' → P (k a g').2) → P (bind m k g).2.
Proof.
  intros Hm Hk. unfold bind. destruct (m g) as [[a|] g']; [|done].
  by apply Hk.
Qed.

Lemma forEach_state_inv {A} (P : AssetGraph → Prop) (body : A → Js unit) xs :
  (∀ x g, P g → P (body x g).2) → ∀ g, P g → P (forEach xs body g).2.
Proof.
  intros Hbody. induction xs as [|x xs IH]; intros g HP; simpl; [done|].
  apply bind_state_inv; [by apply Hbody|]. intros _ g' HP'. by apply IH.
Qed.

Lemma mapM_state_inv {A B} (P : AssetGraph → Prop) (f : A → Js B) xs :
  (∀ x g, P g → P (f x g).2) → ∀ g, P g → P (mapM f xs g).2.
Proof.
  intros Hf. induction xs as [|x xs IH]; intros g HP; simpl; [done|].
  apply bind_state_inv; [by apply Hf|]. intros y g' HP'.
  apply bind_state_inv; [by apply IH|]. done.
Qed.

Lemma read_state l g : (read l g).2 = g.
Proof. unfold read. by destruct (heap g !! l). Qed.

(** ** The cached hash *)

Lemma Graph_removeNode_hash self node g :
  (∀ l g, hash g = None → hash (self l g).2 = None) →
  hash g = None → hash (Graph_removeNode self node g).2 = None.
Proof.
  intros Hself Hg. unfold Graph_removeNode.
  apply (bind_state_inv (λ g, hash g = None)); [by rewrite read_state|].
  intros n g1 Hg1. unfold get_state at 1. unfold bind at 1.
  apply (bind_state_inv (λ g, hash g = None)); [done|].
  intros _ g2 Hg2. apply (forEach_state_inv (λ g, hash g = None)); [|done].
  intros c g3 Hg3. unfold bind, get_state.
  destruct (nodes g3 !! c); [|done].
  case_bool_decide; [by apply Hself|done].
Qed.

Lemma removeNode_upto_hash fuel : ∀ node g,
  hash g = None → hash (removeNode_upto fuel node g).2 = None.
Proof.
  induction fuel as [|fuel IH]; intros node g Hg; [done|].
  simpl. unfold bind at 1, update_state at 1.
  unfold bind at 1, update_state at 1.
  by apply Graph_removeNode_hash.
Qed.

Section HashFacts.
Context `{!JsonStringify Target, !Md5Digest}.

Lemma hashVisitor_state node ctx chunks g :
  (hashVisitor node ctx chunks g).2 = g.
Proof.
  unfold hashVisitor. js_unfold. destruct (heap g !! node) as [n|]; [|done].
  destruct (value n) as [| | |dep| |a]; try done.
  - by destruct (dep_target dep).
  - by destruct (outputHash a).
Qed.

Lemma traverse_hashVisitor_state start chunks g :
  (traverse hashVisitor start chunks g).2 = g.
Proof.
  unfold traverse.
  apply (bind_state_inv (λ g', g' = g)).
  - destruct start; [done|]. js_unfold.
    by destruct (rootNodeId g ≫= _).
  - intros l g' ->.
    apply (dfs_graph_invariant getNodesConnectedFrom hashVisitor (λ g', g' = g));
      [|done].
    intros node ctx x g1 r g2 -> Hv.
    pose proof (hashVisitor_state node ctx x g) as Hs. by rewrite Hv in Hs.
Qed.

Lemma getHash_cached g h : hash g = Some h → getHash g = (Returned h, g).
Proof. intros Hh. unfold getHash, bind, get_state. by rewrite Hh. Qed.

Lemma getHash_uncached g :
  hash g = None →
  getHash g =
  match (traverse hashVisitor None [] g).1 with
  | Returned chunks =>
      (Returned (md5_digest_hex chunks),
       set_hash (Some (md5_digest_hex chunks)) g)
  | Threw => (Threw, g)
  end.
Proof.
  intros Hh. unfold getHash, bind, get_state. rewrite Hh.
  pose proof (traverse_hashVisitor_state None [] g) as Hs.
  destruct (traverse hashVisitor None [] g) as [[chunks|] g'];
    simpl in *; by subst g'.
Qed.

(** C7.  [getHash] called twice in a row returns the same value both times
    (the second call also leaves the state as the first left it), and every
    [addNode] and [removeNode] call leaves the cached hash unset. *)
Theorem getHash_stable_and_invalidated :
  (∀ g, getHash (getHash g).2 = getHash g)
  ∧ (∀ node g, hash (addNode node g).2 = None)
  ∧ (∀ node g, hash (removeNode node g).2 = None).
Proof.
  split; [|split].
  - intros g. destruct (hash g) as [h|] eqn:Hh.
    + rewrite (getHash_cached g h Hh). simpl. by apply getHash_cached.
    + rewrite (getHash_uncached g Hh).
      destruct (traverse hashVisitor None [] g).1 as [chunks|] eqn:Ht; simpl.
      * by apply getHash_cached.
      * rewrite (getHash_uncached g Hh). by rewrite Ht.
  - intros node g. unfold addNode, Graph_addNode.
    unfold bind at 1, update_state at 1.
    apply (bind_state_inv (λ g, hash g = None)); [by rewrite read_state|].
    intros n g1 Hg1. by unfold bind, update_state, ret.
  - intros node g. unfold removeNode. simpl.
    unfold bind at 1, update_state at 1.
    unfold bind at 1, update_state at 1.
    apply Graph_removeNode_hash; [|done].
    intros. by apply removeNode_upto_hash.
Qed.
End HashFacts.

(** ** Resolvers whose target node is missing *)

Section MissingNode.
Context `{!Md5FromObject AssetGroup, !Md5FromObject Entry}.
Context `{!CreateDependency}.

Lemma alloc_returned n g :
  alloc n g = (Returned (length (heap g)), set_heap (heap g ++ [n]) g).
Proof. done. Qed.

Lemma targetNode_returned (entry : Entry) target g :
  ∃ g', targetNode entry target g = (Returned (length (heap g)), g')
        ∧ nodes g' = nodes g.
Proof.
  unfold targetNode. rewrite (bind_returned _ _ _ _ _ (alloc_returned _ _)).
  set (n := nodeFromDep _). set (g1 := set_heap (heap g ++ [n]) g).
  assert (Hn : heap g1 !! length (heap g) = Some n).
  { simpl. by rewrite lookup_app_r, Nat.sub_diag by lia. }
  destruct (isLibrary (target_env target)).
  - rewrite (bind_returned _ _ _ _ _ (write_returned _ _ _ _ Hn)).
    by eexists.
  - by exists g1.
Qed.

(** Building the dependency nodes of [resolveTargets] returns and stores
    nothing in the graph. *)
Lemma targetNodes_returned (entry : Entry) targets : ∀ g,
  ∃ ls g', mapM (targetNode entry) targets g = (Returned ls, g')
           ∧ nodes g' = nodes g.
Proof.
  induction targets as [|t ts IH]; intros g; simpl; [by exists [], g|].
  destruct (targetNode_returned entry t g) as (g1 & Ht & Hg1).
  rewrite (bind_returned _ _ _ _ _ Ht).
  destruct (IH g1) as (ls & g2 & Hls & Hg2).
  rewrite (bind_returned _ _ _ _ _ Hls).
  exists (length (heap g) :: ls), g2. split; [done|congruence].
Qed.

(** C1.  What each resolver does when the node it is called for is not
    stored: [resolveDependency] throws and [resolveAssetGroup] returns, both
    leaving the graph as it is; [resolveEntry] and [resolveTargets]
    throw. *)
Theorem resolvers_on_missing_node :
  (∀ g dep assetGroup request,
      nodes g !! dep_id dep = None →
      resolveDependency dep assetGroup request g = (Threw, g))
  ∧ (∀ g assetGroup assets request,
      nodes g !! md5FromObject assetGroup = None →
      resolveAssetGroup assetGroup assets request g = (Returned tt, g))
  ∧ (∀ g entry resolved request,
      nodes g !! String.append "entry_specifier:" entry = None →
      resolveEntry entry resolved request g = (Threw, g))
  ∧ (∀ g entry targets request,
      nodes g !! String.append "entry_file:" (md5FromObject entry) = None →
      (resolveTargets entry targets request g).1 = Threw).
Proof.
  split; [|split; [|split]].
  - intros g dep assetGroup request Hmissing.
    unfold resolveDependency, bind, getNode, nullthrows, throw.
    by rewrite Hmissing.
  - intros g assetGroup assets request Hmissing.
    unfold resolveAssetGroup, bind, getNode. simpl. by rewrite Hmissing.
  - intros g entry resolved request Hmissing.
    unfold resolveEntry, bind, getNode, nullthrows, throw. simpl.
    by rewrite Hmissing.
  - intros g entry targets request Hmissing.
    unfold resolveTargets.
    destruct (targetNodes_returned entry targets g) as (ls & g' & Hls & Hg').
    rewrite (bind_returned _ _ _ _ _ Hls).
    unfold bind, getNode, nullthrows, throw. simpl.
    by rewrite Hg', Hmissing.
Qed.
End MissingNode.

(** ** JavaScript sets and maps *)

Lemma JsSet_has_true x (s : list string) : JsSet.has x s = true ↔ x ∈ s.
Proof. unfold JsSet.has. apply bool_decide_eq_true. Qed.

Lemma JsSet_has_false x (s : list string) : JsSet.has x s = false ↔ x ∉ s.
Proof. unfold JsSet.has. apply bool_decide_eq_false. Qed.

Lemma elem_of_JsSet_add x y (s : list string) :
  x ∈ JsSet.add y s ↔ x = y ∨ x ∈ s.
Proof.
  unfold JsSet.add. destruct (JsSet.has y s) eqn:Hy.
  - apply JsSet_has_true in Hy. split; [by right|]. by intros [->|].
  - rewrite elem_of_app, list_elem_of_singleton. tauto.
Qed.

Lemma elem_of_JsSet_delete x y (s : list string) :
  x ∈ JsSet.delete y s ↔ x ∈ s ∧ x ≠ y.
Proof. unfold JsSet.delete. rewrite list_elem_of_filter. tauto. Qed.

Lemma elem_of_JsSet_add_all x (init l : list string) :
  x ∈ foldl (λ used s, JsSet.add s used) init l ↔ x ∈ init ∨ x ∈ l.
Proof.
  revert init. induction l as [|y l IH]; intros init; simpl.
  - rewrite elem_of_nil. tauto.
  - rewrite IH, elem_of_JsSet_add, elem_of_cons. tauto.
Qed.

Lemma JsMap_get_set_eq {V} k (v : V) m : JsMap.get k (JsMap.set k v m) = Some v.
Proof.
  induction m as [|[k' v'] m IH]; simpl.
  - by rewrite decide_True.
  - destruct (decide (k' = k)) as [->|Hne]; simpl.
    + by rewrite decide_True.
    + by rewrite decide_False.
Qed.

Lemma JsMap_get_set_ne {V} k k' (v : V) m :
  k ≠ k' → JsMap.get k' (JsMap.set k v m) = JsMap.get k' m.
Proof.
  intros Hne. induction m as [|[k0 v0] m IH]; simpl.
  - by rewrite decide_False.
  - destruct (decide (k0 = k)) as [->|Hne0]; simpl.
    + by rewrite !decide_False.
    + destruct (decide (k0 = k')); [done|]. apply IH.
Qed.

(** A value of [new Map(entries)] is the second component of an entry. *)
Lemma JsMap_of_entries_value {V} (es : list (string * V)) k v :
  JsMap.get k (JsMap.of_entries es) = Some v → (k, v) ∈ es.
Proof.
  unfold JsMap.of_entries.
  assert (Hgen : ∀ m, JsMap.get k (foldl (λ m e, JsMap.set e.1 e.2 m) m es)
                      = Some v → (k, v) ∈ es ∨ JsMap.get k m = Some v).
  { induction es as [|[k0 v0] es IH]; intros m Hget; simpl in *; [by right|].
    destruct (IH _ Hget) as [Hin|Hm]; [left; by apply elem_of_cons; right|].
    destruct (decide (k0 = k)) as [->|Hne].
    - rewrite JsMap_get_set_eq in Hm. inversion Hm; subst.
      left. apply list_elem_of_here.
    - rewrite JsMap_get_set_ne in Hm by done. by right. }
  intros Hget. by destruct (Hgen [] Hget).
Qed.

(** The inverse table maps local names to exported names of the asset. *)
Lemma inverseSymbols_exported symbols local exported :
  JsMap.get local (inverseSymbols symbols) = Some exported →
  exported ∈ symbols.*1.
Proof.
  intros Hget%JsMap_of_entries_value.
  apply list_elem_of_fmap in Hget as ([k l] & Heq & Hin).
  simpl in Heq. inversion Heq; subst.
  apply list_elem_of_fmap. by exists (k, l).
Qed.

(** ** Incoming dependencies *)

Lemma collectVisitor_state fn l ctx res g r g' :
  collectVisitor fn l ctx res g = (r, g') → g' = g.
Proof.
  unfold collectVisitor. js_unfold.
  destruct (heap g !! l); by intros [= _ <-].
Qed.

(** On a well-formed graph [findAncestors] returns; it leaves the graph as
    it is, and what it returns are stored node objects (or the start node)
    that satisfy the predicate, each once. *)
Lemma findAncestors_returns start fn g :
  wellFormed g → start < length (heap g) →
  ∃ ls, findAncestors start fn g = (Returned ls, g)
        ∧ NoDup ls
        ∧ ∀ l, l ∈ ls →
            (l = start ∨ l ∈ storedNodes g)
            ∧ ∃ n, heap g !! l = Some n ∧ fn n = true.
Proof.
  intros Hwf Hstart.
  pose proof (wellFormed_storedObjects g Hwf) as Hstored.
  unfold findAncestors, traverseAncestors.
  destruct (dfs_total getNodesConnectedTo (collectVisitor fn) g start
    (λ g', g' = g)
    (λ w, NoDup (visited w)
          ∧ (∀ l, l ∈ closure w → l ∈ visited w)
          ∧ NoDup (closure w)
          ∧ ∀ l, l ∈ closure w →
              (l = start ∨ l ∈ storedNodes g)
              ∧ ∃ n, heap g !! l = Some n ∧ fn n = true)) with (x := @nil loc)
    as (w & Hw & Hg & _ & _ & Hnd & Hall).
  - intros node ctx x g1 r g2 -> _ Hv. by eapply collectVisitor_state.
  - intros node g1 c -> Hc. by eapply getNodesConnectedTo_stored.
  - intros node ctx x g1 -> HV. unfold collectVisitor. js_unfold.
    assert (is_Some (heap g !! node)) as [n ->]; [|done].
    apply lookup_lt_is_Some. destruct HV as [->|Hs]; [done|].
    apply elem_of_storedNodes in Hs as [i Hi]. by eapply Hstored.
  - intros node ctx w v g' (Hvis & Hsub & Hnd & Hall) Hg HV Hnew Hv.
    simpl in Hg. rewrite Hg in Hv.
    unfold collectVisitor in Hv. js_unfold.
    destruct (heap g !! node) as [n|] eqn:Hn; [|done].
    inversion Hv; subst v g'; clear Hv. simpl.
    split; [|split; [|split]].
    + apply NoDup_app. split; [done|]. split; [|apply NoDup_singleton].
      intros y Hy ->%list_elem_of_singleton. done.
    + intros l Hl. apply elem_of_app.
      destruct (fn n); [|left; by apply Hsub].
      apply elem_of_app in Hl as [Hl|Hl]; [left; by apply Hsub|by right].
    + destruct (fn n); [|done].
      apply NoDup_app. split; [done|]. split; [|apply NoDup_singleton].
      intros y Hy%Hsub ->%list_elem_of_singleton. done.
    + intros l Hl. destruct (fn n) eqn:Hfn; [|by apply Hall].
      apply elem_of_app in Hl as [Hl|Hl]; [by apply Hall|].
      apply list_elem_of_singleton in Hl as ->.
      split; [done|]. by exists n.
  - done.
  - simpl. split; [apply NoDup_nil_2|]. split; [by intros ? ?%elem_of_nil|].
    split; [apply NoDup_nil_2|]. by intros ? ?%elem_of_nil.
  - exists (closure w). rewrite Hw, Hg. done.
Qed.

Lemma mapM_returned {A B} (f : A → Js B) (h : A → B) xs g :
  (∀ x, x ∈ xs → f x g = (Returned (h x), g)) →
  mapM f xs g = (Returned (h <$> xs), g).
Proof.
  induction xs as [|x xs IH]; intros Hf; simpl; [done|].
  rewrite (bind_returned _ _ _ _ _ (Hf x (list_elem_of_here _ _))).
  rewrite (bind_returned _ _ _ _ _ (IH (λ y Hy, Hf y (list_elem_of_further _ _ _ Hy)))).
  done.
Qed.

(** On a well-formed graph [getIncomingDependencies] returns, and every
    dependency it returns is the value of a stored dependency node. *)
Lemma getIncomingDependencies_returns a g :
  wellFormed g →
  ∃ deps, getIncomingDependencies a g = (Returned deps, g)
          ∧ ∀ dep, dep ∈ deps →
              ∃ l n, nodes g !! dep_id dep = Some l ∧ heap g !! l = Some n
                     ∧ value n = DependencyValue dep.
Proof.
  intros Hwf. unfold getIncomingDependencies, bind at 1, getNode.
  destruct (nodes g !! asset_id a) as [node|] eqn:Hnode;
    [|exists []; split; [done|]; by intros ? ?%elem_of_nil].
  destruct (Hwf _ _ Hnode) as (an & Han & Hid & _).
  destruct (findAncestors_returns node
    (λ n, bool_decide (type n = dependency)) g Hwf) as (ls & Hls & _ & Hall);
    [by eapply lookup_lt_Some|].
  rewrite (bind_returned _ _ _ _ _ Hls).
  assert (Hdeps : ∀ l, l ∈ ls →
    ∃ n dep, heap g !! l = Some n ∧ value n = DependencyValue dep
             ∧ nodes g !! dep_id dep = Some l).
  { intros l Hl. destruct (Hall l Hl) as [Hwhere (n & Hn & Hfn)].
    apply bool_decide_eq_true in Hfn.
    assert (∃ dep, value n = DependencyValue dep) as [dep Hdep].
    { unfold type in Hfn. destruct (value n); try done. eauto. }
    exists n, dep. split; [done|]. split; [done|].
    destruct Hwhere as [->|Hs].
    - rewrite Han in Hn. inversion Hn; subst n.
      destruct (Hwf _ _ Hnode) as (n' & Hn' & _ & Hdepid).
      rewrite Han in Hn'. inversion Hn'; subst n'.
      by rewrite (Hdepid dep Hdep).
    - apply elem_of_storedNodes in Hs as [i Hi].
      destruct (Hwf _ _ Hi) as (n' & Hn' & _ & Hdepid).
      rewrite Hn in Hn'. inversion Hn'; subst n'.
      by rewrite (Hdepid dep Hdep). }
  set (depOf := λ l, match heap g !! l with
                     | Some n => match value n with
                                 | DependencyValue dep => dep
                                 | _ => {| dep_id := ""; moduleSpecifier := "";
                                           dep_pipeline := None;
                                           dep_target := None;
                                           dep_env := {| isLibrary := false |};
                                           isEntry := false; dep_symbols := [];
                                           weakSymbols := [] |}
                                 end
                     | None => {| dep_id := ""; moduleSpecifier := "";
                                  dep_pipeline := None; dep_target := None;
                                  dep_env := {| isLibrary := false |};
                                  isEntry := false; dep_symbols := [];
                                  weakSymbols := [] |}
                     end).
  exists (depOf <$> ls). split.
  - apply mapM_returned. intros l Hl.
    destruct (Hdeps l Hl) as (n & dep & Hn & Hdep & _).
    rewrite (bind_returned _ _ _ _ _ (read_returned _ _ _ Hn)).
    unfold depOf. by rewrite Hn, Hdep.
  - intros dep (l & -> & Hl)%list_elem_of_fmap.
    destruct (Hdeps l Hl) as (n & dep & Hn & Hdep & Hlook).
    exists l, n. unfold depOf. by rewrite Hn, Hdep.
Qed.

(** ** [setUsedSymbolsAsset]: the wildcard *)

Lemma incomingDemand_grows assetSymbols exportSymbols : ∀ acc x,
  (x ∈ acc.1 → x ∈ (incomingDemand assetSymbols exportSymbols acc).1)
  ∧ (x ∈ acc.2 → x ∈ (incomingDemand assetSymbols exportSymbols acc).2).
Proof.
  induction exportSymbols as [|e rest IH]; intros acc x; simpl; [done|].
  case_bool_decide.
  - simpl. rewrite !elem_of_JsSet_add. tauto.
  - destruct (match assetSymbols with Some _ => _ | None => _ end).
    + destruct (IH (JsSet.add e acc.1, acc.2) x) as [H1 H2]. simpl in *.
      rewrite elem_of_JsSet_add in H1. tauto.
    + destruct (IH (acc.1, JsSet.add e acc.2) x) as [H1 H2]. simpl in *.
      rewrite elem_of_JsSet_add in H2. tauto.
Qed.

Lemma incomingDemand_wildcard assetSymbols exportSymbols : ∀ acc,
  "*" ∈ exportSymbols →
  "*" ∈ (incomingDemand assetSymbols exportSymbols acc).1
  ∧ "*" ∈ (incomingDemand assetSymbols exportSymbols acc).2.
Proof.
  induction exportSymbols as [|e rest IH]; intros acc Hin;
    [by apply elem_of_nil in Hin|].
  simpl. case_bool_decide as He.
  - simpl. rewrite !elem_of_JsSet_add. tauto.
  - apply elem_of_cons in Hin as [Heq|Hin]; [congruence|].
    destruct (match assetSymbols with Some _ => _ | None => _ end);
      by apply IH.
Qed.

Lemma incomingDemands_wildcard assetSymbols incomingDeps :
  (∃ n, n ∈ incomingDeps ∧ "*" ∈ usedSymbols n) →
  "*" ∈ (incomingDemands assetSymbols incomingDeps).1
  ∧ "*" ∈ (incomingDemands assetSymbols incomingDeps).2.
Proof.
  unfold incomingDemands. generalize (JsSet.empty, JsSet.empty).
  induction incomingDeps as [|d ds IH]; intros acc (n & Hn & Hstar);
    [by apply elem_of_nil in Hn|].
  simpl. apply elem_of_cons in Hn as [->|Hn].
  - destruct (incomingDemand_wildcard assetSymbols (usedSymbols d) acc Hstar)
      as [H1 H2].
    clear IH. revert H1 H2.
    generalize (incomingDemand assetSymbols (usedSymbols d) acc).
    induction ds as [|d' ds IH]; intros acc' H1 H2; simpl; [done|].
    apply IH; by apply incomingDemand_grows.
  - apply IH. eauto.
Qed.

(** A binding step removes from the asset's used set only names the
    inverse table yields, and only adds to the dependency's set. *)
Lemma bindingStep_keeps inverse weak acc binding x :
  (∀ inv local, inverse = Some inv → JsMap.get local inv ≠ Some x) →
  (x ∈ acc.1 → x ∈ (bindingStep inverse weak acc binding).1)
  ∧ (x ∈ acc.2 → x ∈ (bindingStep inverse weak acc binding).2).
Proof.
  intros Hinv. destruct binding as [symbol local]. unfold bindingStep.
  destruct inverse as [inv|]; [|simpl; rewrite elem_of_JsSet_add; tauto].
  destruct (negb (JsSet.has symbol weak));
    [simpl; rewrite elem_of_JsSet_add; tauto|].
  destruct (JsMap.get local inv) as [reexport|] eqn:Hget;
    [|simpl; rewrite elem_of_JsSet_add; tauto].
  destruct (JsSet.has "*" acc.1 || JsSet.has reexport acc.1); [|done].
  simpl. rewrite elem_of_JsSet_delete, elem_of_JsSet_add.
  split; [|tauto]. intros Hx. split; [done|].
  intros ->. by eapply Hinv.
Qed.

Lemma bindingSteps_keep inverse weak bindings x : ∀ acc,
  (∀ inv local, inverse = Some inv → JsMap.get local inv ≠ Some x) →
  (x ∈ acc.1 → x ∈ (foldl (bindingStep inverse weak) acc bindings).1).
Proof.
  induction bindings as [|b bs IH]; intros acc Hinv Hx; simpl; [done|].
  apply IH; [done|]. by apply bindingStep_keeps.
Qed.

Lemma bindingSteps_grow inverse weak bindings x : ∀ acc,
  x ∈ acc.2 → x ∈ (foldl (bindingStep inverse weak) acc bindings).2.
Proof.
  induction bindings as [|[symbol local] bs IH]; intros acc Hx; simpl; [done|].
  apply IH. unfold bindingStep.
  destruct inverse as [inv|]; [|simpl; rewrite elem_of_JsSet_add; tauto].
  destruct (negb (JsSet.has symbol weak));
    [simpl; rewrite elem_of_JsSet_add; tauto|].
  destruct (JsMap.get local inv) as [reexport|];
    [|simpl; rewrite elem_of_JsSet_add; tauto].
  destruct (JsSet.has "*" acc.1 || JsSet.has reexport acc.1); [|done].
  simpl. rewrite elem_of_JsSet_add; tauto.
Qed.

Lemma usedSymbolsGrown_refl n : usedSymbolsGrown n n.
Proof. split; [by destruct n|]. split; [set_solver|done]. Qed.

Lemma usedSymbolsGrown_trans n1 n2 n3 :
  usedSymbolsGrown n1 n2 → usedSymbolsGrown n2 n3 → usedSymbolsGrown n1 n3.
Proof.
  intros (E12 & S12 & K12) (E23 & S23 & K23). split; [|split].
  - rewrite E23, E12. by destruct n1.
  - by etrans.
  - intros Ht. rewrite <- (K12 Ht). apply K23. by rewrite (K12 Ht).
Qed.

Lemma usedSymbolsGrown_write (h : list Node) l n s :
  h !! l = Some n → type n = dependency → usedSymbols n ⊆ s →
  Forall2 usedSymbolsGrown h (<[l := set_usedSymbols s n]> h).
Proof.
  intros Hl Ht Hs.
  apply Forall2_same_length_lookup_2; [by rewrite length_insert|].
  intros i x y Hx Hy. destruct (decide (i = l)) as [->|Hne].
  - rewrite list_lookup_insert_eq in Hy by (by eapply lookup_lt_Some).
    rewrite Hl in Hx. inversion Hx; inversion Hy; subst.
    split; [by destruct x|]. split; [done|]. by intros ?.
  - rewrite list_lookup_insert_ne in Hy by done.
    rewrite Hx in Hy. inversion Hy; subst. apply usedSymbolsGrown_refl.
Qed.

Lemma usedSymbolsGrown_value n n' : usedSymbolsGrown n n' → value n' = value n.
Proof. intros [-> _]. done. Qed.

Lemma heap_grown_lookup (h h' : list Node) l n :
  Forall2 usedSymbolsGrown h h' → h !! l = Some n →
  ∃ n', h' !! l = Some n' ∧ usedSymbolsGrown n n'.
Proof.
  intros F Hl. destruct (Forall2_lookup_l _ _ _ _ _ F Hl) as (n' & ? & ?).
  eauto.
Qed.

Lemma forwardDemand_returns inverse reexported depNode used g n dep :
  heap g !! depNode = Some n → value n = DependencyValue dep →
  ∃ used' s,
    forwardDemand inverse reexported depNode used g
    = (Returned used',
       set_heap (<[depNode := set_usedSymbols s n]> (heap g)) g)
    ∧ usedSymbols n ⊆ s
    ∧ (reexportsNamespace dep = true → ∀ x, x ∈ reexported → x ∈ s)
    ∧ (∀ x, (∀ inv local, inverse = Some inv → JsMap.get local inv ≠ Some x) →
            x ∈ used → x ∈ used').
Proof.
  intros Hn Hv. unfold forwardDemand.
  rewrite (bind_returned _ _ _ _ _ (read_returned _ _ _ Hn)). rewrite Hv.
  destruct (reexportsNamespace dep) eqn:Hns.
  - rewrite (bind_returned _ _ _ _ _ (write_returned _ _ _ _ Hn)).
    eexists used, _. split; [done|]. split; [|split; [|done]].
    + intros x Hx. apply elem_of_JsSet_add_all. by left.
    + intros _ x Hx. apply elem_of_JsSet_add_all. by right.
  - rewrite (bind_returned _ _ _ _ _ (write_returned _ _ _ _ Hn)).
    eexists _, _. split; [done|]. split; [|split; [done|]].
    + intros x Hx. by apply bindingSteps_grow.
    + intros x Hinv Hx. by apply bindingSteps_keep.
Qed.

Lemma forwardDemands_returns inverse reexported outgoingDeps : ∀ used g,
  dependencyNodesAt g outgoingDeps →
  ∃ used' g',
    forwardDemands inverse reexported outgoingDeps used g = (Returned used', g')
    ∧ Forall2 usedSymbolsGrown (heap g) (heap g')
    ∧ (∀ x, (∀ inv local, inverse = Some inv → JsMap.get local inv ≠ Some x) →
            x ∈ used → x ∈ used')
    ∧ (∀ l n dep,
          l ∈ outgoingDeps → heap g !! l = Some n →
          value n = DependencyValue dep → reexportsNamespace dep = true →
          ∃ n', heap g' !! l = Some n'
                ∧ ∀ x, x ∈ reexported → x ∈ usedSymbols n').
Proof.
  induction outgoingDeps as [|d ds IH]; intros used g Hdeps; simpl.
  - exists used, g. split; [done|]. split; [|split; [done|]].
    + apply Forall2_same_length_lookup_2; [done|].
      intros i x y Hx Hy. rewrite Hx in Hy. inversion Hy; subst.
      apply usedSymbolsGrown_refl.
    + by intros ??? ?%elem_of_nil.
  - destruct (Hdeps d (list_elem_of_here _ _)) as (n & dep & Hn & Hv).
    destruct (forwardDemand_returns inverse reexported d used g n dep Hn Hv)
      as (used1 & s & Hstep & Hsub & Hns & Hkeep1).
    rewrite (bind_returned _ _ _ _ _ Hstep).
    set (g1 := set_heap _ g) in *.
    assert (Hgrown1 : Forall2 usedSymbolsGrown (heap g) (heap g1)).
    { apply usedSymbolsGrown_write; [done| |done].
      unfold type. by rewrite Hv. }
    assert (Hdeps1 : dependencyNodesAt g1 ds).
    { intros l Hl.
      destruct (Hdeps l (list_elem_of_further _ _ _ Hl)) as (m & dm & Hm & Hvm).
      destruct (heap_grown_lookup _ _ _ _ Hgrown1 Hm) as (m' & Hm' & Hg).
      exists m', dm. split; [done|].
      by rewrite (usedSymbolsGrown_value _ _ Hg). }
    destruct (IH used1 g1 Hdeps1) as (used' & g' & Hrest & Hgrown & Hkeep & Hall).
    exists used', g'. split; [done|]. split; [|split].
    + eapply Forall2_trans; [|exact Hgrown1|exact Hgrown].
      intros ???. apply usedSymbolsGrown_trans.
    + intros x Hinv Hx. apply Hkeep; [done|]. by apply Hkeep1.
    + intros l m dm Hl Hm Hvm Hnsm.
      destruct (heap_grown_lookup _ _ _ _ Hgrown1 Hm) as (m1 & Hm1 & Hg1).
      apply elem_of_cons in Hl as [->|Hl].
      * destruct (heap_grown_lookup _ _ _ _ Hgrown Hm1) as (m' & Hm' & Hg').
        exists m'. split; [done|]. intros x Hx.
        destruct Hg' as (_ & Hsub' & _). apply Hsub'.
        rewrite Hn in Hm. inversion Hm; subst m.
        rewrite Hv in Hvm. inversion Hvm; subst dm.
        unfold g1 in Hm1. simpl in Hm1.
        rewrite list_lookup_insert_eq in Hm1 by (by eapply lookup_lt_Some).
        inversion Hm1; subst m1. simpl. by apply Hns.
      * apply (Hall l m1 dm); try done.
        by rewrite (usedSymbolsGrown_value _ _ Hg1).
Qed.

Lemma mapM_returned_omap {A B} (f : A → Js B) (h : A → option B) xs g :
  (∀ x, x ∈ xs → ∃ y, f x g = (Returned y, g) ∧ h x = Some y) →
  mapM f xs g = (Returned (omap h xs), g).
Proof.
  induction xs as [|x xs IH]; intros Hf; simpl; [done|].
  destruct (Hf x (list_elem_of_here _ _)) as (y & Hy & Hh).
  rewrite (bind_returned _ _ _ _ _ Hy), Hh.
  rewrite (bind_returned _ _ _ _ _
             (IH (λ z Hz, Hf z (list_elem_of_further _ _ _ Hz)))).
  done.
Qed.

(** C4, amended.  On a well-formed graph, for an asset node A one of whose
    incoming dependency nodes uses the wildcard, [setUsedSymbolsAsset]
    returns, and afterwards: the re-exported-namespace set contains ['*'];
    every outgoing dependency with a wildcard-to-wildcard binding has the
    whole re-exported-namespace set in its [usedSymbols]; and A's used set
    contains ['*'] (next to the names demanded before the wildcard was
    met), provided A exports nothing under the name ['*'] that a weak
    binding could take away again. *)
Theorem wildcard_propagation g (assetNode : loc) an a outgoingDeps :
  wellFormed g →
  heap g !! assetNode = Some an → value an = AssetValue a →
  dependencyNodesAt g outgoingDeps →
  (∃ n, n ∈ incomingNodes a g ∧ "*" ∈ usedSymbols n) →
  let reexported :=
    (incomingDemands (asset_symbols a) (incomingNodes a g)).2 in
  ∃ g', setUsedSymbolsAsset assetNode outgoingDeps g = (Returned tt, g')
    ∧ "*" ∈ reexported
    ∧ (∀ depNode n dep,
          depNode ∈ outgoingDeps → heap g !! depNode = Some n →
          value n = DependencyValue dep → reexportsNamespace dep = true →
          ∃ n', heap g' !! depNode = Some n'
                ∧ ∀ s, s ∈ reexported → s ∈ usedSymbols n')
    ∧ (noWildcardExport a →
        ∃ an', heap g' !! assetNode = Some an' ∧ "*" ∈ usedSymbols an').
Proof.
  intros Hwf Han Hva Hout Hstar reexported.
  destruct (getIncomingDependencies_returns a g Hwf) as (deps & Hdeps & Hall).
  assert (Hin : incomingNodes a g
                = omap (λ d, nodes g !! dep_id d ≫= λ l, heap g !! l) deps).
  { unfold incomingNodes. by rewrite Hdeps. }
  destruct (incomingDemands_wildcard (asset_symbols a) _ Hstar) as [Hu Hr].
  unfold setUsedSymbolsAsset.
  rewrite (bind_returned _ _ _ _ _ (read_returned _ _ _ Han)). rewrite Hva.
  rewrite (bind_returned _ _ _ _ _ Hdeps).
  erewrite bind_returned; cycle 1.
  { apply (mapM_returned_omap _
             (λ d, nodes g !! dep_id d ≫= λ l, heap g !! l)).
    intros d Hd. destruct (Hall d Hd) as (l & n & Hl & Hn & Hv).
    exists n. unfold bind, getNode, nullthrows, ret. rewrite Hl. simpl.
    unfold read. rewrite Hn. unfold invariant.
    rewrite bool_decide_eq_true_2 by (unfold type; by rewrite Hv).
    done. }
  rewrite <- Hin.
  destruct (forwardDemands_returns (inverseSymbols <$> asset_symbols a)
    reexported outgoingDeps
    (incomingDemands (asset_symbols a) (incomingNodes a g)).1 g Hout)
    as (used' & g1 & Hfwd & Hgrown & Hkeep & Hns).
  fold reexported. rewrite (bind_returned _ _ _ _ _ Hfwd).
  destruct (heap_grown_lookup _ _ _ _ Hgrown Han) as (an1 & Han1 & Hg1).
  assert (an1 = an) as ->.
  { destruct Hg1 as (_ & _ & Hsame). apply Hsame.
    unfold type. by rewrite Hva. }
  rewrite (write_returned _ _ _ _ Han1).
  eexists. split; [done|]. split; [done|]. split.
  - intros depNode n dep Hd Hn Hv Hnsd.
    destruct (Hns depNode n dep Hd Hn Hv Hnsd) as (n' & Hn' & Hsub).
    exists n'. split; [|done]. simpl.
    rewrite list_lookup_insert_ne; [done|].
    intros ->. rewrite Han in Hn. inversion Hn; subst. congruence.
  - intros Hnowild. eexists. split.
    + simpl. apply list_lookup_insert_eq. by eapply lookup_lt_Some.
    + simpl. apply Hkeep; [|done].
      intros inv local Hinv Hget.
      destruct (asset_symbols a) as [symbols|] eqn:Hsyms; [|done].
      simpl in Hinv. inversion Hinv; subst inv.
      apply inverseSymbols_exported in Hget. by eapply Hnowild.
Qed.

(** ** Checking well-formedness by computation *)

Lemma wellFormedb_correct g : wellFormedb g = true → wellFormed g.
Proof.
  unfold wellFormedb. rewrite forallb_forall. intros Hall i l Hil.
  specialize (Hall (i, l)). simpl in Hall.
  assert (Hin : In (i, l) (map_to_list (nodes g))).
  { apply list_elem_of_In. by apply elem_of_map_to_list. }
  specialize (Hall Hin). destruct (heap g !! l) as [n|]; [|done].
  apply andb_true_iff in Hall as [Hid Hdep].
  apply bool_decide_eq_true in Hid.
  exists n. split; [done|]. split; [done|].
  intros dep Hv. rewrite Hv in Hdep. by apply bool_decide_eq_true in Hdep.
Qed.

Lemma dependencyNodesAtb_correct g ls :
  dependencyNodesAtb g ls = true → dependencyNodesAt g ls.
Proof.
  unfold dependencyNodesAtb. rewrite forallb_forall. intros Hall l Hl.
  specialize (Hall l (proj1 (list_elem_of_In _ _) Hl)).
  destruct (heap g !! l) as [n|]; [|done].
  apply bool_decide_eq_true in Hall. unfold type in Hall.
  destruct (value n) as [| | |dep| |] eqn:Hv; try done. by exists n, dep.
Qed.

(** ** The claims on the example graphs *)

Lemma resolvers_on_missing_node_witness :
  nodes emptyGraph !! dep_id (Example.dep "d" "./d" [] []) = None
  ∧ @resolveDependency Example.md5Group
      (Example.dep "d" "./d" [] []) (Some Example.g1) "request" emptyGraph
    = (Threw, emptyGraph).
Proof.
  split; [reflexivity|].
  apply (@resolvers_on_missing_node Example.md5Group Example.md5Entry
           Example.newDependency).
  reflexivity.
Defined.

(** C2 as stated fails: the child is free of side effects and the
    dependency uses no symbol, yet the call returns [true], because the
    child carries [deferred === false]. *)
Lemma shouldVisitChild_decision_counterexample :
  ∃ n c ag,
    heap (Example.chain (Some false)) !! 4 = Some n
    ∧ heap (Example.chain (Some false)) !! 5 = Some c
    ∧ type n = dependency ∧ value c = AssetGroupValue ag
    ∧ deferralCondition n ag
    ∧ shouldVisitChild 4 5 (Example.chain (Some false))
      = (Returned true, Example.chain (Some false)).
Proof.
  eexists _, _, _. repeat split; try reflexivity.
Qed.

Lemma shouldVisitChild_decision_witness :
  storedObjects (Example.chain None)
  ∧ ∃ r g' n' c',
      shouldVisitChild 4 5 (Example.chain None) = (Returned r, g')
      ∧ (r = false ↔
         deferralCondition
           (mkNode "d1" (DependencyValue (Example.dep "d1" "./two" [] [])))
           Example.g2)
      ∧ heap g' !! 4 = Some n' ∧ hasDeferred n' = Some (negb r)
      ∧ heap g' !! 5 = Some c' ∧ deferred c' = Some (negb r).
Proof.
  assert (Hs : storedObjects (Example.chain None)).
  { apply wellFormed_storedObjects, wellFormedb_correct. vm_compute.
    reflexivity. }
  split; [exact Hs|].
  refine (proj2 (shouldVisitChild_decision (Example.chain None) 4 5 _ _
                   Example.g2 Hs _ _ _ _) _);
    try reflexivity.
  simpl. discriminate.
Defined.

Lemma shouldVisitChild_deferred_false_is_final_witness :
  deferredIsFalse 5 (visitAll [(4, 5); (1, 2); (4, 5)]
                       (Example.chain (Some false)))
  ∧ shouldVisitChild 4 5 (visitAll [(4, 5); (1, 2); (4, 5)]
                            (Example.chain (Some false)))
    = (Returned true,
       visitAll [(4, 5); (1, 2); (4, 5)] (Example.chain (Some false))).
Proof.
  refine (proj2 shouldVisitChild_deferred_false_is_final
            [(4, 5); (1, 2); (4, 5)] (Example.chain (Some false)) 4 5 _ _
            _ _ _);
    reflexivity.
Defined.

(** C4 as stated fails: [lib] has an incoming dependency that uses the
    wildcard, but another one uses [a], which [lib] exports, and the used
    set of [lib] ends up as {a, *}. *)
Lemma wildcard_propagation_counterexample :
  (∃ n, n ∈ incomingNodes Example.lib Example.library ∧ "*" ∈ usedSymbols n)
  ∧ ∃ g' an',
      setUsedSymbolsAsset 3 [4] Example.library = (Returned tt, g')
      ∧ heap g' !! 3 = Some an'
      ∧ usedSymbols an' = ["a"; "*"]
      ∧ usedSymbols an' ≠ ["*"].
Proof.
  split.
  - exists Example.starImport. split; [|apply list_elem_of_here].
    vm_compute. apply list_elem_of_further, list_elem_of_here.
  - eexists _, _. split; [vm_compute; reflexivity|].
    split; [reflexivity|]. split; [reflexivity|]. discriminate.
Qed.

Lemma wildcard_propagation_witness :
  wellFormed Example.library
  ∧ dependencyNodesAt Example.library [4]
  ∧ (∃ n, n ∈ incomingNodes Example.lib Example.library
          ∧ "*" ∈ usedSymbols n)
  ∧ ∃ g', setUsedSymbolsAsset 3 [4] Example.library = (Returned tt, g')
      ∧ "*" ∈ (incomingDemands (asset_symbols Example.lib)
                 (incomingNodes Example.lib Example.library)).2
      ∧ (∀ depNode n dep,
            depNode ∈ [4] → heap Example.library !! depNode = Some n →
            value n = DependencyValue dep → reexportsNamespace dep = true →
            ∃ n', heap g' !! depNode = Some n'
                  ∧ ∀ s, s ∈ (incomingDemands (asset_symbols Example.lib)
                               (incomingNodes Example.lib Example.library)).2 →
                         s ∈ usedSymbols n')
      ∧ (noWildcardExport Example.lib →
          ∃ an', heap g' !! 3 = Some an' ∧ "*" ∈ usedSymbols an').
Proof.
  assert (Hwf : wellFormed Example.library).
  { apply wellFormedb_correct. vm_compute. reflexivity. }
  assert (Hout : dependencyNodesAt Example.library [4]).
  { apply dependencyNodesAtb_correct. vm_compute. reflexivity. }
  assert (Hstar : ∃ n, n ∈ incomingNodes Example.lib Example.library
                       ∧ "*" ∈ usedSymbols n).
  { exists Example.starImport. split; [|apply list_elem_of_here].
    vm_compute. apply list_elem_of_further, list_elem_of_here. }
  split; [exact Hwf|]. split; [exact Hout|]. split; [exact Hstar|].
  apply (wildcard_propagation Example.library 3
           (mkNode "lib" (AssetValue Example.lib)) Example.lib [4] Hwf);
    [reflexivity|reflexivity|exact Hout|exact Hstar].
Defined.

(** ** Cycle safety *)

Lemma logged_returned {C X} (visit : loc → option C → X → Js (Visit C X))
    node context xl g v g' :
  visit node context xl.1 g = (Returned v, g') →
  logged visit node context xl g
  = (Returned {| newContext := newContext v; skipChildren := skipChildren v;
                 stop := stop v; captured := (captured v, xl.2 ++ [node]) |},
     g').
Proof. intros Hv. unfold logged. by rewrite (bind_returned _ _ _ _ _ Hv). Qed.

(** A walk along either edge direction with a well-behaved visitor returns,
    and has called the visitor at most once on each node. *)
Lemma dfs_logged_returns {C X}
    (getChildren : loc → AssetGraph → list loc)
    (visit : loc → option C → X → Js (Visit C X)) start x g :
  (∀ node g1 c, c ∈ getChildren node g1 → c ∈ storedNodes g1) →
  wellBehaved visit → storedObjects g → start < length (heap g) →
  ∃ x' log g',
    dfs getChildren (logged visit) start (x, []) g = (Returned (x', log), g')
    ∧ NoDup log.
Proof.
  intros Hkids Hvisit Hstored Hstart.
  assert (Hvalid : ∀ node g1,
    length (heap g1) = length (heap g) →
    node = start ∨ node ∈ storedNodes g → node < length (heap g1)).
  { intros node g1 -> [->|Hs]; [done|].
    apply elem_of_storedNodes in Hs as [i Hi]. by eapply Hstored. }
  destruct (dfs_total getChildren (logged visit) g start
    (λ g', nodes g' = nodes g ∧ length (heap g') = length (heap g))
    (λ w, NoDup (visited w) ∧ (closure w).2 = visited w)) with (x := (x, @nil loc))
    as (w & Hw & _ & Hnd & Hlog).
  - intros node ctx xl g1 r g2 [Hg1 Hl1] HV Hv.
    destruct (Hvisit node ctx xl.1 g1 (Hvalid _ _ Hl1 HV))
      as (v & g1' & Hv' & Hn & Hl).
    rewrite (logged_returned _ _ _ _ _ _ _ Hv') in Hv.
    inversion Hv; subst. split; congruence.
  - intros node g1 c [Hg1 _] Hc%Hkids. by rewrite <- (storedNodes_same _ _ Hg1).
  - intros node ctx xl g1 [_ Hl1] HV.
    destruct (Hvisit node ctx xl.1 g1 (Hvalid _ _ Hl1 HV)) as (v & g1' & Hv' & _).
    by rewrite (logged_returned _ _ _ _ _ _ _ Hv').
  - intros node ctx w0 v g' [Hnd Hlog] [_ Hl0] HV Hnew Hv.
    destruct (Hvisit node ctx (closure w0).1 (graph w0) (Hvalid _ _ Hl0 HV))
      as (v' & g1' & Hv' & _).
    rewrite (logged_returned _ _ _ _ _ _ _ Hv') in Hv.
    inversion Hv; subst. simpl. split; [|by rewrite Hlog].
    apply NoDup_app. split; [done|]. split; [|apply NoDup_singleton].
    by intros y Hy ->%list_elem_of_singleton.
  - done.
  - simpl. split; [apply NoDup_nil_2|done].
  - destruct (closure w) as [x' log] eqn:Hc. exists x', log, (graph w).
    split; [done|]. simpl in Hlog. by rewrite Hlog.
Qed.

(** C8.  On every graph, with or without edge cycles: [traverse] and
    [traverseAncestors] with a well-behaved visitor return, and the visitor
    has been called at most once on each node; [traverseAssets] with a
    well-behaved visitor returns; and on a well-formed graph
    [getIncomingDependencies] returns, listing each ancestor once. *)
Theorem traversals_terminate :
  (∀ C X (visit : loc → option C → X → Js (Visit C X)) startNode start x g,
      wellBehaved visit → storedObjects g →
      startsAt startNode g start → start < length (heap g) →
      ∃ x' log g',
        traverse (logged visit) startNode (x, []) g = (Returned (x', log), g')
        ∧ NoDup log)
  ∧ (∀ C X (visit : loc → option C → X → Js (Visit C X)) start x g,
      wellBehaved visit → storedObjects g → start < length (heap g) →
      ∃ x' log g',
        traverseAncestors start (logged visit) (x, []) g
        = (Returned (x', log), g')
        ∧ NoDup log)
  ∧ (∀ C X (visit : Asset → option C → X → Js (Visit C X)) startNode start x g,
      wellBehavedOnAssets visit → storedObjects g →
      startsAt startNode g start → start < length (heap g) →
      ∃ x' g', traverseAssets visit startNode x g = (Returned x', g'))
  ∧ (∀ a g, wellFormed g →
      ∃ deps, getIncomingDependencies a g = (Returned deps, g)).
Proof.
  split; [|split; [|split]].
  - intros C X visit startNode start x g Hvisit Hstored Hstart Hvalid.
    unfold traverse.
    assert (Hs : (match startNode with
                  | Some l => ret l
                  | None => let* r := getRootNode in nullthrows r
                  end) g = (Returned start, g)).
    { destruct startNode as [l|]; simpl in Hstart; [by subst|].
      destruct Hstart as (r & Hr & Hl). js_unfold. simpl.
      rewrite Hr. simpl. by rewrite Hl. }
    rewrite (bind_returned _ _ _ _ _ Hs).
    apply dfs_logged_returns; [|done..].
    intros ???. apply getNodesConnectedFrom_stored.
  - intros C X visit start x g Hvisit Hstored Hvalid. unfold traverseAncestors.
    apply dfs_logged_returns; [|done..].
    intros ???. apply getNodesConnectedTo_stored.
  - intros C X visit startNode start x g Hvisit Hstored Hstart Hvalid.
    unfold traverseAssets, filteredTraverse, traverse.
    assert (Hs : (match startNode with
                  | Some l => ret l
                  | None => let* r := getRootNode in nullthrows r
                  end) g = (Returned start, g)).
    { destruct startNode as [l|]; simpl in Hstart; [by subst|].
      destruct Hstart as (r & Hr & Hl). js_unfold. simpl.
      rewrite Hr. simpl. by rewrite Hl. }
    rewrite (bind_returned _ _ _ _ _ Hs).
    set (wrapped := λ (l : loc) (context : option C) (x : X), _).
    assert (Hwrapped : ∀ node ctx x0 g1,
      length (heap g1) = length (heap g) → nodes g1 = nodes g →
      node = start ∨ node ∈ storedNodes g →
      ∃ v g2, wrapped node ctx x0 g1 = (Returned v, g2)
              ∧ nodes g2 = nodes g ∧ length (heap g2) = length (heap g)).
    { intros node ctx x0 g1 Hlen Hn HV.
      assert (is_Some (heap g1 !! node)) as [n Hnode].
      { apply lookup_lt_is_Some. rewrite Hlen. destruct HV as [->|Hs']; [done|].
        apply elem_of_storedNodes in Hs' as [i Hi]. by eapply Hstored. }
      unfold wrapped.
      rewrite (bind_returned _ _ _ _ _ (read_returned _ _ _ Hnode)).
      destruct (value n) as [| | | | |a];
        try (exists (continue x0), g1; by split).
      destruct (Hvisit a ctx x0 g1) as (v & g2 & Hv & Hn2 & Hl2).
      exists v, g2. split; [done|]. split; congruence. }
    destruct (dfs_total getNodesConnectedFrom wrapped g start
      (λ g', nodes g' = nodes g ∧ length (heap g') = length (heap g))
      (λ _, True)) with (x := x) as (w & Hw & _).
    + intros node ctx x0 g1 r g2 [Hn Hl] _ Hv.
      unfold wrapped in Hv. unfold bind, read in Hv.
      destruct (heap g1 !! node) as [n|]; [|by inversion Hv; subst].
      destruct (value n) as [| | | | |a];
        try (inversion Hv; by subst).
      destruct (Hvisit a ctx x0 g1) as (v & g2' & Hv' & Hn2 & Hl2).
      rewrite Hv' in Hv. inversion Hv; subst. split; congruence.
    + intros node g1 c [Hn _] Hc%getNodesConnectedFrom_stored.
      by rewrite <- (storedNodes_same _ _ Hn).
    + intros node ctx x0 g1 [Hn Hl] HV.
      destruct (Hwrapped node ctx x0 g1 Hl Hn HV) as (v & g2 & -> & _). done.
    + done.
    + done.
    + done.
    + by exists (closure w), (graph w).
  - intros a g Hwf.
    destruct (getIncomingDependencies_returns a g Hwf) as (deps & Hdeps & _).
    by exists deps.
Qed.

Lemma idle_wellBehaved : wellBehaved Example.idle.
Proof. intros node ctx x g _. by exists (continue tt), g. Qed.

Lemma traversals_terminate_witness :
  wellBehaved Example.idle ∧ storedObjects Example.cycle
  ∧ startsAt None Example.cycle 0
  ∧ ∃ x' log g',
      traverse (logged Example.idle) None (tt, []) Example.cycle
      = (Returned (x', log), g')
      ∧ NoDup log.
Proof.
  assert (Hs : storedObjects Example.cycle).
  { apply wellFormed_storedObjects, wellFormedb_correct. vm_compute.
    reflexivity. }
  assert (Hr : startsAt None Example.cycle 0).
  { exists "@@root". split; reflexivity. }
  split; [exact idle_wellBehaved|]. split; [exact Hs|]. split; [exact Hr|].
  apply (proj1 traversals_terminate unit unit Example.idle None 0 tt
           Example.cycle idle_wellBehaved Hs Hr).
  simpl. lia.
Defined.

(** The walk over the import cycle: every node once, in edge order. *)
Lemma traverse_cycle :
  traverse (logged Example.idle) None (tt, []) Example.cycle
  = (Returned (tt, [0; 1; 2; 3; 4; 5; 6]), Example.cycle).
Proof. vm_compute. reflexivity. Qed.

(** ** The graph hash *)

(** A walk whose visitor never prunes, never stops and leaves the graph
    alone visits the nodes in depth-first pre-order. *)
Section DfsPreorder.
Context {C X : Type}.
Variable getChildren : loc → AssetGraph → list loc.
Variable visit : loc → option C → X → Js (Visit C X).
Variable g : AssetGraph.
Hypothesis visit_plain : ∀ node context x v g',
  visit node context x g = (Returned v, g') →
  skipChildren v = false ∧ stop v = false ∧ g' = g.

Lemma walkChildren_preorder
    (rec : loc → option C → Walk X → WalkResult X) (fuel : nat) :
  (∀ c context w w',
      graph w = g → stopped w = false → rec c context w = Done w' →
      graph w' = g ∧ stopped w' = false
      ∧ visited w' = preorder fuel (λ l, getChildren l g) c (visited w)) →
  ∀ children context w w',
    graph w = g → stopped w = false →
    walkChildren rec context children w = Done w' →
    graph w' = g ∧ stopped w' = false
    ∧ visited w' =
      foldl (λ seen child,
               if bool_decide (child ∈ seen) then seen
               else preorder fuel (λ l, getChildren l g) child seen)
            (visited w) children.
Proof.
  intros Hrec children context.
  induction children as [|c cs IH]; intros w w' Hg Hs Hw; simpl in *.
  - by inversion Hw; subst.
  - case_bool_decide; [by apply IH|].
    destruct (rec c context w) as [w1| |] eqn:Hc; try done.
    destruct (Hrec _ _ _ _ Hg Hs Hc) as (Hg1 & Hs1 & Hv1).
    rewrite Hs1 in Hw. rewrite <- Hv1. by apply IH.
Qed.

Lemma walk_preorder fuel : ∀ node context w w',
  graph w = g → stopped w = false →
  walk getChildren visit fuel node context w = Done w' →
  graph w' = g ∧ stopped w' = false
  ∧ visited w' = preorder fuel (λ l, getChildren l g) node (visited w).
Proof.
  induction fuel as [|fuel IH]; intros node context w w' Hg Hs Hw; [done|].
  rewrite walk_S, Hg in Hw.
  destruct (visit node context (closure w) g) as [[v|] g'] eqn:Hv; [|done].
  destruct (visit_plain _ _ _ _ _ Hv) as (Hskip & Hstop & ->).
  rewrite Hskip in Hw. simpl in Hw. rewrite Hs, Hstop in Hw. simpl in Hw.
  eapply walkChildren_preorder in Hw;
    [exact Hw| |done|simpl; by rewrite Hs, Hstop].
  intros c context' w1 w1' ? ? ?. by eapply IH.
Qed.
End DfsPreorder.

Section HashDigest.
Context `{!JsonStringify Target, !Md5Digest}.

Lemma hashVisitor_plain g node context chunks v g' :
  hashVisitor node context chunks g = (Returned v, g') →
  skipChildren v = false ∧ stop v = false ∧ g' = g.
Proof.
  unfold hashVisitor. js_unfold. destruct (heap g !! node) as [n|]; [|done].
  destruct (value n) as [| | |dep| |a]; try by intros [= <- <-].
  - destruct (dep_target dep); by intros [= <- <-].
  - destruct (outputHash a); [by intros [= <- <-]|done].
Qed.

Lemma hashVisitor_returned g node context chunks n :
  heap g !! node = Some n → assetsHashed g →
  ∃ v, hashVisitor node context chunks g = (Returned v, g)
       ∧ captured v = chunks ++ hashInput n.
Proof.
  intros Hn Hhashed. unfold hashVisitor, hashInput.
  rewrite (bind_returned _ _ _ _ _ (read_returned _ _ _ Hn)).
  destruct (value n) as [| | |dep| |a] eqn:Hv;
    try (eexists; split; [done|]; simpl; by rewrite app_nil_r).
  - destruct (dep_target dep); eexists; (split; [done|]); simpl; [done|].
    by rewrite app_nil_r.
  - destruct (Hhashed _ _ _ Hn Hv) as [h ->]. by eexists.
Qed.

Lemma hashInputs_snoc g ls l n :
  heap g !! l = Some n → hashInputs g (ls ++ [l]) = hashInputs g ls ++ hashInput n.
Proof.
  intros Hn. unfold hashInputs. rewrite bind_app. simpl.
  by rewrite Hn, app_nil_r.
Qed.

(** C9.  With no hash cached, [getHash] feeds the digest, for the
    descendants of the root in depth-first pre-order along the current
    edges, the output hash of each asset and the serialized target of each
    dependency that carries one, and nothing for any other node; it caches
    the hex digest and returns it.  (Every asset is taken to have an output
    hash: [nullthrows] throws on one that has none.) *)
Theorem getHash_digest g r start :
  wellFormed g → assetsHashed g → hash g = None →
  rootNodeId g = Some r → nodes g !! r = Some start →
  let digest := md5_digest_hex (hashInputs g (descendants g start)) in
  getHash g = (Returned digest, set_hash (Some digest) g).
Proof.
  intros Hwf Hhashed Hhash Hr Hstart digest.
  pose proof (wellFormed_storedObjects g Hwf) as Hstored.
  assert (Hvalid : ∀ node, node = start ∨ node ∈ storedNodes g →
                           is_Some (heap g !! node)).
  { intros node HV. apply lookup_lt_is_Some.
    destruct HV as [->|Hs]; [by eapply Hstored|].
    apply elem_of_storedNodes in Hs as [i Hi]. by eapply Hstored. }
  destruct (walk_total getNodesConnectedFrom hashVisitor g start
    (λ g', g' = g) (λ w, closure w = hashInputs g (visited w)))
    with (x := @nil string) as (w & Hw & Hg & Hclosure).
  - intros node ctx x g1 r' g2 -> _ Hv.
    pose proof (hashVisitor_state node ctx x g) as Hs. by rewrite Hv in Hs.
  - intros node g1 c -> Hc. by eapply getNodesConnectedFrom_stored.
  - intros node ctx x g1 -> HV. destruct (Hvalid node HV) as [n Hn].
    destruct (hashVisitor_returned g node ctx x n Hn Hhashed) as (v & -> & _).
    done.
  - intros node ctx w0 v g' Hc Hg0 HV Hnew Hv. simpl.
    destruct (Hvalid node HV) as [n Hn]. rewrite Hg0 in Hv.
    destruct (hashVisitor_returned g node ctx (closure w0) n Hn Hhashed)
      as (v' & Hv' & Hcap).
    rewrite Hv' in Hv. inversion Hv; subst v' g'.
    by rewrite Hcap, Hc, (hashInputs_snoc _ _ _ _ Hn).
  - done.
  - done.
  - destruct (walk_preorder getNodesConnectedFrom hashVisitor g
      (hashVisitor_plain g) (S (size (nodes g))) start None
      (start_of [] g) w eq_refl eq_refl Hw) as (_ & _ & Hvis).
    rewrite (getHash_uncached g Hhash).
    assert (Ht : traverse hashVisitor None [] g
                 = (Returned (closure w), graph w)).
    { unfold traverse.
      assert (Hs : (let* r := getRootNode in nullthrows r) g
                   = (Returned start, g)).
      { js_unfold. rewrite Hr. simpl. by rewrite Hstart. }
      rewrite (bind_returned _ _ _ _ _ Hs). unfold dfs.
      unfold start_of in Hw. by rewrite Hw. }
    rewrite Ht. simpl. subst digest. unfold descendants.
    simpl in Hvis. by rewrite Hclosure, Hvis.
Qed.
End HashDigest.

Lemma assetsHashedb_correct g : assetsHashedb g = true → assetsHashed g.
Proof.
  unfold assetsHashedb. rewrite forallb_forall. intros Hall l n a Hn Hv.
  assert (Hin : In n (heap g)).
  { apply list_elem_of_In. by eapply list_elem_of_lookup_2. }
  specialize (Hall n Hin). rewrite Hv in Hall.
  by apply bool_decide_eq_true in Hall.
Qed.

Lemma getHash_digest_witness :
  wellFormed Example.cycle ∧ assetsHashed Example.cycle
  ∧ @getHash Example.json Example.digest Example.cycle
    = (Returned "hash-a,hash-b",
       set_hash (Some "hash-a,hash-b") Example.cycle).
Proof.
  assert (Hwf : wellFormed Example.cycle).
  { apply wellFormedb_correct. vm_compute. reflexivity. }
  assert (Hh : assetsHashed Example.cycle).
  { apply assetsHashedb_correct. vm_compute. reflexivity. }
  split; [exact Hwf|]. split; [exact Hh|].
  exact (@getHash_digest Example.json Example.digest Example.cycle
           "@@root" 0 Hwf Hh eq_refl eq_refl eq_refl).
Defined.

(** ** The deferral walks: which ancestors they reach *)

Section DfsClosure.
Context {C X : Type}.
Variable getChildren : loc → AssetGraph → list loc.
Variable visit : loc → option C → X → Js (Visit C X).
Variable Inv : AssetGraph → Prop.
Variable expands : loc → bool.
Variable kids : loc → list loc.
Hypothesis Inv_visit : ∀ node context x g r g',
  Inv g → visit node context x g = (r, g') → Inv g'.
Hypothesis kids_spec : ∀ node g, Inv g → getChildren node g = kids node.
Hypothesis visit_spec : ∀ node context x g v g',
  Inv g → visit node context x g = (Returned v, g') →
  skipChildren v = negb (expands node) ∧ stop v = false.

Lemma closedSince_mono before now now' :
  closedSince expands kids before now → now ⊆ now' →
  closedSince expands kids now now' →
  closedSince expands kids before now'.
Proof.
  intros H1 Hsub H2 l Hl Hnew Hexp c Hc.
  destruct (decide (l ∈ now)) as [Hin|Hnin].
  - apply Hsub. by eapply H1.
  - by eapply H2.
Qed.

Lemma walkChildren_closed
    (rec : loc → option C → Walk X → WalkResult X) :
  (∀ c context w w',
      Inv (graph w) → stopped w = false → rec c context w = Done w' →
      Inv (graph w') ∧ stopped w' = false
      ∧ visited w ++ [c] ⊆ visited w'
      ∧ closedSince expands kids (visited w) (visited w')) →
  ∀ children context w w',
    Inv (graph w) → stopped w = false →
    walkChildren rec context children w = Done w' →
    Inv (graph w') ∧ stopped w' = false
    ∧ visited w ⊆ visited w'
    ∧ (∀ c, c ∈ children → c ∈ visited w')
    ∧ closedSince expands kids (visited w) (visited w').
Proof.
  intros Hrec children context.
  induction children as [|c cs IH]; intros w w' HI Hs Hw; simpl in Hw.
  - inversion Hw; subst. repeat split; try done.
    + by intros ? ?%elem_of_nil.
    + by intros l Hl Hnl.
  - case_bool_decide as Hin.
    + destruct (IH _ _ HI Hs Hw) as (HI' & Hs' & Hsub & Hall & Hcl).
      repeat split; try done.
      intros c' [->|Hc']%elem_of_cons; [by apply Hsub|by apply Hall].
    + destruct (rec c context w) as [w1| |] eqn:Hc; try done.
      destruct (Hrec _ _ _ _ HI Hs Hc) as (HI1 & Hs1 & Hsub1 & Hcl1).
      rewrite Hs1 in Hw.
      destruct (IH _ _ HI1 Hs1 Hw) as (HI' & Hs' & Hsub & Hall & Hcl).
      assert (Hsubw : visited w ⊆ visited w1).
      { intros y Hy. apply Hsub1, elem_of_app. by left. }
      repeat split; try done.
      * by etrans.
      * intros c' [->|Hc']%elem_of_cons; [|by apply Hall].
        apply Hsub, Hsub1, elem_of_app. right. apply list_elem_of_here.
      * by eapply closedSince_mono.
Qed.

Lemma walk_closed fuel : ∀ node context w w',
  Inv (graph w) → stopped w = false →
  walk getChildren visit fuel node context w = Done w' →
  Inv (graph w') ∧ stopped w' = false
  ∧ visited w ++ [node] ⊆ visited w'
  ∧ closedSince expands kids (visited w) (visited w').
Proof.
  induction fuel as [|fuel IH]; intros node context w w' HI Hs Hw; [done|].
  rewrite walk_S in Hw.
  destruct (visit node context (closure w) (graph w)) as [[v|] g'] eqn:Hv;
    [|done].
  pose proof (Inv_visit _ _ _ _ _ _ HI Hv) as HI'.
  destruct (visit_spec _ _ _ _ _ _ HI Hv) as [Hskip Hstop].
  rewrite Hskip in Hw.
  destruct (expands node) eqn:Hexp; simpl in Hw.
  - rewrite Hs, Hstop in Hw. simpl in Hw.
    rewrite (kids_spec _ _ HI') in Hw.
    eapply walkChildren_closed in Hw;
      [| |exact HI'|simpl; by rewrite Hs, Hstop].
    + destruct Hw as (HIw & Hsw & Hsub & Hall & Hcl). simpl in *.
      repeat split; try done.
      intros l Hl Hnew Hexpl c Hc.
      destruct (decide (l = node)) as [->|Hne]; [by apply Hall|].
      eapply Hcl; try done.
      intros [?|?%list_elem_of_singleton]%elem_of_app; done.
    + intros c context' w1 w1' ? ? ?. by eapply IH.
  - inversion Hw; subst w'. simpl. rewrite Hs, Hstop.
    repeat split; try done.
    intros l [Hl|Hl%list_elem_of_singleton]%elem_of_app Hnew Hexpl; [done|].
    subst l. congruence.
Qed.
End DfsClosure.

Lemma flagsOnly_id g g' l n :
  flagsOnly g g' → heap g !! l = Some n →
  ∃ n', heap g' !! l = Some n' ∧ id n' = id n ∧ value n' = value n.
Proof.
  intros Hf Hn. destruct (flagsOnly_lookup _ _ _ _ Hf Hn) as (n' & Hn' & [Heq _]).
  exists n'. split; [done|]. by rewrite Heq.
Qed.

Lemma flagsOnly_lookup_None g g' l :
  flagsOnly g g' → heap g !! l = None → heap g' !! l = None.
Proof.
  intros Hf Hn. apply lookup_ge_None. rewrite (flagsOnly_length _ _ Hf).
  by apply lookup_ge_None.
Qed.

Lemma flagsOnly_getNodesConnectedTo g g' l :
  flagsOnly g g' → getNodesConnectedTo l g' = getNodesConnectedTo l g.
Proof.
  intros Hf. unfold getNodesConnectedTo, parentIds.
  destruct (heap g !! l) as [n|] eqn:Hn.
  - destruct (flagsOnly_id _ _ _ _ Hf Hn) as (n' & -> & -> & _).
    destruct Hf as (-> & -> & _). done.
  - by rewrite (flagsOnly_lookup_None _ _ _ Hf Hn).
Qed.

Lemma flagsOnly_getNodesConnectedFrom g g' l :
  flagsOnly g g' → getNodesConnectedFrom l g' = getNodesConnectedFrom l g.
Proof.
  intros Hf. unfold getNodesConnectedFrom, childIds.
  destruct (heap g !! l) as [n|] eqn:Hn.
  - destruct (flagsOnly_id _ _ _ _ Hf Hn) as (n' & -> & -> & _).
    destruct Hf as (-> & -> & _). done.
  - by rewrite (flagsOnly_lookup_None _ _ _ Hf Hn).
Qed.

Lemma flagsOnly_ascends g g' start l :
  flagsOnly g g' → ascends g' start l = ascends g start l.
Proof.
  intros Hf. unfold ascends.
  destruct (heap g !! l) as [n|] eqn:Hn.
  - destruct (flagsOnly_id _ _ _ _ Hf Hn) as (n' & -> & _ & Hv).
    unfold type. by rewrite Hv.
  - by rewrite (flagsOnly_lookup_None _ _ _ Hf Hn).
Qed.

(** What one visit of [markVisitor] does. *)
Lemma markVisitor_spec start l ctx x g v g' :
  markVisitor start l ctx x g = (Returned v, g') →
  skipChildren v = negb (ascends g start l) ∧ stop v = false
  ∧ ∃ n, heap g !! l = Some n
         ∧ g' = if bool_decide (type n = asset ∨ type n = asset_group)
                then set_heap (<[l := set_hasDeferred (Some true) n]> (heap g)) g
                else g.
Proof.
  unfold markVisitor, ascends. js_unfold.
  destruct (heap g !! l) as [n|] eqn:Hn; [|done]. simpl.
  destruct (decide (type n = asset)) as [Ha|Ha].
  - rewrite (bool_decide_eq_true_2 _ Ha). simpl. rewrite Hn.
    intros [= <- <-]. split; [done|]. split; [done|]. exists n.
    split; [done|]. by rewrite bool_decide_eq_true_2 by (by left).
  - rewrite (bool_decide_eq_false_2 _ Ha). simpl.
    destruct (decide (type n = asset_group)) as [Hg|Hg].
    + rewrite (bool_decide_eq_true_2 _ Hg). simpl. rewrite Hn.
      intros [= <- <-]. split; [done|]. split; [done|]. exists n.
      split; [done|]. by rewrite bool_decide_eq_true_2 by (by right).
    + rewrite (bool_decide_eq_false_2 _ Hg). simpl.
      destruct (decide (start = l)) as [->|Hne].
      * rewrite (bool_decide_eq_false_2 (l ≠ l)) by tauto.
        rewrite (bool_decide_eq_true_2 (l = l)) by done.
        intros [= <- <-]. split; [done|]. split; [done|]. exists n.
        split; [done|]. by rewrite bool_decide_eq_false_2 by tauto.
      * rewrite (bool_decide_eq_true_2 (start ≠ l)) by done.
        rewrite (bool_decide_eq_false_2 (l = start)) by congruence.
        intros [= <- <-]. split; [done|]. split; [done|]. exists n.
        split; [done|]. by rewrite bool_decide_eq_false_2 by tauto.
Qed.

(** What one visit of [unmarkVisitor] does. *)
Lemma unmarkVisitor_spec start l ctx x g v g' :
  unmarkVisitor start l ctx x g = (Returned v, g') →
  skipChildren v = negb (ascends g start l) ∧ stop v = false
  ∧ ∃ n, heap g !! l = Some n
         ∧ (g' = g
            ∨ g' = set_heap (<[l := set_hasDeferred None n]> (heap g)) g)
         ∧ (type n = asset →
            existsb (childHasDeferred g) (getNodesConnectedFrom l g) = false →
            g' = set_heap (<[l := set_hasDeferred None n]> (heap g)) g).
Proof.
  unfold unmarkVisitor, ascends. js_unfold.
  destruct (heap g !! l) as [n|] eqn:Hn; [|done]. simpl.
  destruct (decide (type n = asset)) as [Ha|Ha].
  - rewrite (bool_decide_eq_true_2 _ Ha). simpl.
    destruct (existsb _ _) eqn:Hex; simpl; rewrite ?Hn; intros [= <- <-].
    + split; [done|]. split; [done|]. exists n. split; [done|].
      split; [by left|done].
    + split; [done|]. split; [done|]. exists n. split; [done|].
      split; [by right|done].
  - rewrite (bool_decide_eq_false_2 _ Ha). simpl.
    destruct (decide (type n = asset_group)) as [Hg|Hg].
    + rewrite (bool_decide_eq_true_2 _ Hg). simpl.
      destruct (default false ctx); simpl; rewrite ?Hn; intros [= <- <-];
        (split; [done|]; split; [done|]; exists n; split; [done|]);
        (split; [|done]); [by left|by right].
    + rewrite (bool_decide_eq_false_2 _ Hg). simpl.
      destruct (decide (start = l)) as [->|Hne].
      * rewrite (bool_decide_eq_false_2 (l ≠ l)) by tauto.
        rewrite (bool_decide_eq_true_2 (l = l)) by done.
        intros [= <- <-]. split; [done|]. split; [done|]. exists n.
        split; [done|]. split; [by left|done].
      * rewrite (bool_decide_eq_true_2 (start ≠ l)) by done.
        rewrite (bool_decide_eq_false_2 (l = start)) by congruence.
        intros [= <- <-]. split; [done|]. split; [done|]. exists n.
        split; [done|]. split; [by left|done].
Qed.

Lemma sameShape_lookup g g' l n :
  sameShape g g' → heap g !! l = Some n →
  ∃ n', heap g' !! l = Some n' ∧ id n' = id n ∧ value n' = value n.
Proof.
  intros (_ & _ & F) Hn.
  destruct (Forall2_lookup_l _ _ _ _ _ F Hn) as (n' & ? & ? & ?). eauto.
Qed.

Lemma sameShape_lookup_None g g' l :
  sameShape g g' → heap g !! l = None → heap g' !! l = None.
Proof.
  intros (_ & _ & F) Hn. apply lookup_ge_None.
  rewrite <- (Forall2_length _ _ _ F). by apply lookup_ge_None.
Qed.

Lemma sameShape_getNodesConnectedTo g g' l :
  sameShape g g' → getNodesConnectedTo l g' = getNodesConnectedTo l g.
Proof.
  intros Hs. unfold getNodesConnectedTo, parentIds.
  destruct (heap g !! l) as [n|] eqn:Hn.
  - destruct (sameShape_lookup _ _ _ _ Hs Hn) as (n' & -> & -> & _).
    destruct Hs as (-> & -> & _). done.
  - by rewrite (sameShape_lookup_None _ _ _ Hs Hn).
Qed.

Lemma sameShape_getNodesConnectedFrom g g' l :
  sameShape g g' → getNodesConnectedFrom l g' = getNodesConnectedFrom l g.
Proof.
  intros Hs. unfold getNodesConnectedFrom, childIds.
  destruct (heap g !! l) as [n|] eqn:Hn.
  - destruct (sameShape_lookup _ _ _ _ Hs Hn) as (n' & -> & -> & _).
    destruct Hs as (-> & -> & _). done.
  - by rewrite (sameShape_lookup_None _ _ _ Hs Hn).
Qed.

Lemma sameShape_ascends g g' start l :
  sameShape g g' → ascends g' start l = ascends g start l.
Proof.
  intros Hs. unfold ascends.
  destruct (heap g !! l) as [n|] eqn:Hn.
  - destruct (sameShape_lookup _ _ _ _ Hs Hn) as (n' & -> & _ & Hv).
    unfold type. by rewrite Hv.
  - by rewrite (sameShape_lookup_None _ _ _ Hs Hn).
Qed.

(** The two writes of lines 211-212 keep the shape of the graph. *)
Lemma sameShape_flag_writes g node childNode n c h d :
  heap g !! node = Some n → heap g !! childNode = Some c →
  sameShape g
    (set_heap (<[childNode := set_deferred d c]>
                 (<[node := set_hasDeferred h n]> (heap g))) g).
Proof.
  intros Hn Hc. split; [done|]. split; [done|]. simpl.
  apply Forall2_same_length_lookup_2; [by rewrite !length_insert|].
  intros i x y Hx Hy.
  destruct (decide (i = childNode)) as [->|Hne].
  - rewrite list_lookup_insert_eq in Hy
      by (rewrite length_insert; by eapply lookup_lt_Some).
    rewrite Hc in Hx. inversion Hx; inversion Hy; subst. done.
  - rewrite list_lookup_insert_ne in Hy by done.
    destruct (decide (i = node)) as [->|Hne'].
    + rewrite list_lookup_insert_eq in Hy by (by eapply lookup_lt_Some).
      rewrite Hn in Hx. inversion Hx; inversion Hy; subst. done.
    + rewrite list_lookup_insert_ne in Hy by done.
      rewrite Hx in Hy. by inversion Hy; subst.
Qed.

Lemma ascends_asset g start l n :
  heap g !! l = Some n → type n = asset → ascends g start l = true.
Proof.
  intros Hn Ht. unfold ascends. rewrite Hn.
  by rewrite (bool_decide_eq_true_2 _ Ht).
Qed.

Lemma ascends_start g start n :
  heap g !! start = Some n → type n = dependency → ascends g start start = true.
Proof.
  intros Hn Ht. unfold ascends. rewrite Hn, Ht. simpl.
  by rewrite bool_decide_eq_true_2.
Qed.

(** ** Walks that hand a context down *)

Section DfsContext.
Context {C X : Type}.
Variable getChildren : loc → AssetGraph → list loc.
Variable visit : loc → option C → X → Js (Visit C X).
Variable J : Walk X → Prop.
Variable Legit : loc → option C → Walk X → Prop.
Variable R : Walk X → Walk X → Prop.
Hypothesis R_refl : ∀ w, R w w.
Hypothesis R_trans : ∀ w1 w2 w3, R w1 w2 → R w2 w3 → R w1 w3.
Hypothesis Legit_mono : ∀ c ctx w w',
  R w w' → Legit c ctx w → Legit c ctx w'.
Hypothesis J_visit : ∀ node ctx w v g',
  J w → node ∉ visited w → Legit node ctx w →
  visit node ctx (closure w) (graph w) = (Returned v, g') →
  J (entered node v g' w) ∧ R w (entered node v g' w)
  ∧ (skipChildren v = false →
     ∀ c, c ∈ getChildren node g' →
       Legit c (match newContext v with Some c' => Some c' | None => ctx end)
         (entered node v g' w)).

Lemma walkChildren_context
    (rec : loc → option C → Walk X → WalkResult X) :
  (∀ c ctx w w',
      J w → c ∉ visited w → Legit c ctx w → rec c ctx w = Done w' →
      J w' ∧ R w w') →
  ∀ children ctx w w',
    J w → (∀ c, c ∈ children → Legit c ctx w) →
    walkChildren rec ctx children w = Done w' → J w' ∧ R w w'.
Proof.
  intros Hrec children ctx.
  induction children as [|c cs IH]; intros w w' HJ HL Hw; simpl in Hw.
  - inversion Hw; subst. done.
  - assert (HLcs : ∀ c', c' ∈ cs → Legit c' ctx w).
    { intros c' Hc'. apply HL. by apply elem_of_cons; right. }
    case_bool_decide as Hin; [by eapply IH|].
    destruct (rec c ctx w) as [w1| |] eqn:Hc; try done.
    destruct (Hrec c ctx w w1 HJ Hin (HL c (list_elem_of_here _ _)) Hc)
      as [HJ1 HR1].
    destruct (stopped w1); [by inversion Hw; subst|].
    destruct (IH w1 w' HJ1) as [HJ' HR']; [|done|].
    + intros c' Hc'. eapply Legit_mono; [exact HR1|by apply HLcs].
    + split; [done|]. by eapply R_trans.
Qed.

Lemma walk_context fuel : ∀ node ctx w w',
  J w → node ∉ visited w → Legit node ctx w →
  walk getChildren visit fuel node ctx w = Done w' → J w' ∧ R w w'.
Proof.
  induction fuel as [|fuel IH]; intros node ctx w w' HJ Hnew HL Hw; [done|].
  rewrite walk_S in Hw.
  destruct (visit node ctx (closure w) (graph w)) as [[v|] g'] eqn:Hv;
    [|done].
  destruct (J_visit _ _ _ _ _ HJ Hnew HL Hv) as (HJ' & HR' & HL').
  fold (entered node v g' w) in Hw.
  destruct (skipChildren v); [by inversion Hw; subst|].
  destruct (stopped (entered node v g' w)); [by inversion Hw; subst|].
  eapply walkChildren_context in Hw; [| |exact HJ'|by apply HL'].
  - destruct Hw as [HJw HRw]. split; [done|]. by eapply R_trans.
  - intros c ctx' w1 w1' ? ? ? ?. by eapply IH.
Qed.
End DfsContext.

(** ** The deferral walks, exactly *)

Lemma unmarkVisitor_step start l ctx x g n :
  heap g !! l = Some n →
  unmarkVisitor start l ctx x g =
    if bool_decide (type n = asset) then
      (Returned {| newContext :=
                     Some (existsb (childHasDeferred g)
                             (getNodesConnectedFrom l g));
                   skipChildren := false; stop := false; captured := tt |},
       if existsb (childHasDeferred g) (getNodesConnectedFrom l g) then g
       else set_heap (<[l := set_hasDeferred None n]> (heap g)) g)
    else if bool_decide (type n = asset_group) then
      (Returned (skip tt),
       if default false ctx then g
       else set_heap (<[l := set_hasDeferred None n]> (heap g)) g)
    else if bool_decide (start ≠ l) then (Returned (skip tt), g)
    else (Returned (continue tt), g).
Proof.
  intros Hn. unfold unmarkVisitor. js_unfold. rewrite Hn. cbn.
  case_bool_decide.
  { destruct (existsb _ _); cbn; by rewrite ?Hn. }
  case_bool_decide.
  { destruct (default false ctx); cbn; by rewrite ?Hn. }
  by case_bool_decide.
Qed.

Lemma markVisitor_step start l ctx x g n :
  heap g !! l = Some n →
  markVisitor start l ctx x g =
    if bool_decide (type n = asset) then
      (Returned (continue tt),
       set_heap (<[l := set_hasDeferred (Some true) n]> (heap g)) g)
    else if bool_decide (type n = asset_group) then
      (Returned (skip tt),
       set_heap (<[l := set_hasDeferred (Some true) n]> (heap g)) g)
    else if bool_decide (start ≠ l) then (Returned (skip tt), g)
    else (Returned (continue tt), g).
Proof.
  intros Hn. unfold markVisitor. js_unfold. rewrite Hn. cbn.
  case_bool_decide; [cbn; by rewrite ?Hn|].
  case_bool_decide; [cbn; by rewrite ?Hn|].
  by case_bool_decide.
Qed.

Lemma reachedBy_parent g start p c :
  reachedBy g start p → ascends g start p = true →
  c ∈ getNodesConnectedTo p g → reachedBy g start c.
Proof. intros Hp He Hc. by eapply reaches_next. Qed.

Lemma reachesThrough_ext (e1 e2 : loc → bool) (k1 k2 : loc → list loc)
    start l :
  (∀ x, e1 x = e2 x) → (∀ x, k1 x = k2 x) →
  reachesThrough e1 k1 start l → reachesThrough e2 k2 start l.
Proof.
  intros He Hk Hr. induction Hr as [|p c Hp IH Hexp Hc].
  - apply reaches_start.
  - eapply reaches_next; [exact IH|by rewrite <- He|by rewrite <- Hk].
Qed.

Lemma reachedBy_sameShape g g' start l :
  sameShape g g' → reachedBy g' start l ↔ reachedBy g start l.
Proof.
  intros Hs. split; apply reachesThrough_ext; intros x.
  - by apply sameShape_ascends.
  - by apply sameShape_getNodesConnectedTo.
  - symmetry. by apply sameShape_ascends.
  - symmetry. by apply sameShape_getNodesConnectedTo.
Qed.

(** The nodes a deferral walk has visited when it ends are the ones it
    comes to. *)
Lemma deferral_walk_complete {C}
    (visit : loc → loc → option C → unit → Js (Visit C unit)) g start w :
  (∀ node ctx x g1 r g2, visit start node ctx x g1 = (r, g2) → flagsOnly g1 g2) →
  (∀ node ctx x g1 v g2,
     visit start node ctx x g1 = (Returned v, g2) →
     skipChildren v = negb (ascends g1 start node) ∧ stop v = false) →
  walk getNodesConnectedTo (visit start) (S (size (nodes g))) start None
    (start_of tt g) = Done w →
  ∀ l, reachedBy g start l → l ∈ visited w.
Proof.
  intros Hflags Hspec Hw.
  destruct (walk_closed getNodesConnectedTo (visit start)
    (λ g', flagsOnly g g') (ascends g start) (λ l, getNodesConnectedTo l g))
    with (fuel := S (size (nodes g))) (node := start) (context := @None C)
         (w := start_of tt g) (w' := w) as (_ & _ & Hsub & Hclosed);
    [| | |apply flagsOnly_refl|done|exact Hw|].
  - intros node ctx x g1 r g2 HI Hv.
    eapply flagsOnly_trans; [exact HI|]. by eapply Hflags.
  - intros node g1 HI. by apply flagsOnly_getNodesConnectedTo.
  - intros node ctx x g1 v g2 HI Hv.
    destruct (Hspec _ _ _ _ _ _ Hv) as (Hskip & Hstop).
    by rewrite Hskip, (flagsOnly_ascends _ _ _ _ HI).
  - intros l Hr. induction Hr as [|p c Hp IH Hexp Hc].
    + apply Hsub. simpl. apply list_elem_of_here.
    + eapply (Hclosed p); [done|by intros ?%elem_of_nil|done|done].
Qed.

Lemma childHasDeferred_true g l :
  childHasDeferred g l = true
  ↔ ∃ m, heap g !! l = Some m ∧ hasDeferred m = Some true.
Proof.
  unfold childHasDeferred. destruct (heap g !! l) as [m|].
  - split.
    + intros H. exists m. split; [done|].
      by destruct (hasDeferred m) as [[]|].
    + intros (m' & [= <-] & ->). done.
  - split; [done|]. by intros (? & ? & _).
Qed.

Lemma existsb_childHasDeferred shape flags l :
  existsb (childHasDeferred flags) (getNodesConnectedFrom l shape) = true
  ↔ deferredChild shape flags l.
Proof.
  rewrite existsb_exists. unfold deferredChild.
  by setoid_rewrite list_elem_of_In.
Qed.

(** Writing to a node that is not stored... the flags after a clearing
    write are flags that were there before. *)
Lemma childHasDeferred_cleared g l m c :
  childHasDeferred
    (set_heap (<[l := set_hasDeferred None m]> (heap g)) g) c = true →
  childHasDeferred g c = true.
Proof.
  unfold childHasDeferred. cbn [heap set_heap].
  destruct (decide (c = l)) as [->|Hne].
  - destruct (heap g !! l) as [m0|] eqn:Hm0.
    + rewrite list_lookup_insert_eq by (by eapply lookup_lt_Some). done.
    + apply lookup_ge_None in Hm0.
      rewrite (proj2 (lookup_ge_None _ _)); [done|].
      by rewrite length_insert.
  - by rewrite list_lookup_insert_ne.
Qed.

Section Unmark.
Variable g : AssetGraph.
Variable start : loc.
Variable n : Node.
Hypothesis Hstart : heap g !! start = Some n.
Hypothesis Hdep : type n = dependency.

(** What holds of the graph while [unmarkParentsWithHasDeferred] walks. *)
Let unmarkJ (w : Walk unit) : Prop :=
  flagsOnly g (graph w)
  ∧ (∀ p, p ∈ visited w → start ∈ visited w)
  ∧ (∀ l m, heap g !! l = Some m →
       heap (graph w) !! l = Some m
       ∨ (heap (graph w) !! l = Some (set_hasDeferred None m)
          ∧ l ∈ visited w ∧ carriesFlag m))
  ∧ (∀ l, l ∈ visited w → reachedBy g start l)
  ∧ (∀ l m, l ∈ visited w → heap g !! l = Some m → type m = asset →
       (¬ deferredChild g g l →
          heap (graph w) !! l = Some (set_hasDeferred None m))
       ∧ (deferredChild g (graph w) l → heap (graph w) !! l = Some m))
  ∧ (∀ l m, l ∈ visited w → heap g !! l = Some m → type m = asset_group →
       ((∀ x, l ∈ getNodesConnectedTo x g → reachedBy g start x →
              ascends g start x = true →
              x = start ∨ ¬ deferredChild g g x) →
          heap (graph w) !! l = Some (set_hasDeferred None m))
       ∧ ((∀ x, l ∈ getNodesConnectedTo x g → reachedBy g start x →
                ascends g start x = true →
                x ≠ start ∧ deferredChild g (graph w) x) →
          heap (graph w) !! l = Some m)).

(** The context a node is visited with comes from the node it was reached
    from: none from the start node, and from an asset whether one of its
    children carried the flag when it was visited. *)
Let unmarkLegit (c : loc) (ctx : option bool) (w : Walk unit) : Prop :=
  reachedBy g start c
  ∧ ((ctx = None
      ∧ (c = start ∨ (start ∈ visited w ∧ c ∈ getNodesConnectedTo start g)))
     ∨ ∃ p b mp,
         ctx = Some b ∧ p ∈ visited w
         ∧ heap g !! p = Some mp ∧ type mp = asset
         ∧ c ∈ getNodesConnectedTo p g
         ∧ (b = true → deferredChild g g p)
         ∧ (b = false → ¬ deferredChild g (graph w) p)).

Let unmarkR (w w' : Walk unit) : Prop :=
  visited w ⊆ visited w'
  ∧ ∀ l, childHasDeferred (graph w') l = true →
         childHasDeferred (graph w) l = true.

Lemma unmark_flags_decrease w :
  unmarkJ w →
  ∀ l, childHasDeferred (graph w) l = true → childHasDeferred g l = true.
Proof.
  intros (H1 & _ & H2 & _) l. rewrite !childHasDeferred_true.
  intros (m' & Hm' & Hf).
  destruct (heap g !! l) as [m|] eqn:Hm.
  - destruct (H2 l m Hm) as [Hs|(Hs & _)]; rewrite Hs in Hm'.
    + injection Hm' as <-. by exists m.
    + injection Hm' as <-. done.
  - rewrite (flagsOnly_lookup_None _ _ _ H1 Hm) in Hm'. done.
Qed.

Lemma unmark_frame node (v : Visit bool unit) g' w m :
  unmarkJ w → node ∉ visited w → reachedBy g start node →
  node = start ∨ start ∈ visited w →
  heap g !! node = Some m →
  g' = graph w
  ∨ (g' = set_heap (<[node := set_hasDeferred None m]> (heap (graph w)))
            (graph w)
     ∧ carriesFlag m) →
  (type m = asset →
     (¬ deferredChild g g node →
        heap g' !! node = Some (set_hasDeferred None m))
     ∧ (deferredChild g g' node → heap g' !! node = Some m)) →
  (type m = asset_group →
     ((∀ x, node ∈ getNodesConnectedTo x g → reachedBy g start x →
            ascends g start x = true → x = start ∨ ¬ deferredChild g g x) →
        heap g' !! node = Some (set_hasDeferred None m))
     ∧ ((∀ x, node ∈ getNodesConnectedTo x g → reachedBy g start x →
              ascends g start x = true →
              x ≠ start ∧ deferredChild g g' x) →
        heap g' !! node = Some m)) →
  unmarkJ (entered node v g' w) ∧ unmarkR w (entered node v g' w).
Proof.
  intros (J1 & J0 & J2 & J3 & J4 & J5) Hnew Hreach Hfirst Hm Hg' H4 H5.
  assert (Hgw : heap (graph w) !! node = Some m).
  { destruct (J2 node m Hm) as [?|(_ & ? & _)]; done. }
  assert (Hother : ∀ l, l ≠ node → heap g' !! l = heap (graph w) !! l).
  { intros l Hl. destruct Hg' as [->|[-> _]]; [done|].
    cbn [heap set_heap]. by rewrite list_lookup_insert_ne. }
  assert (Hdec : ∀ l, childHasDeferred g' l = true →
                      childHasDeferred (graph w) l = true).
  { intros l. destruct Hg' as [->|[-> _]]; [done|].
    apply childHasDeferred_cleared. }
  assert (Hdc : ∀ x, deferredChild g g' x → deferredChild g (graph w) x).
  { intros x (child & Hc & Hf). exists child. split; [done|by apply Hdec]. }
  assert (Hin : ∀ l, l ∈ visited w ++ [node] → l ∈ visited w ∨ l = node).
  { intros l [?|?%list_elem_of_singleton]%elem_of_app; [by left|by right]. }
  assert (Hne : ∀ l, l ∈ visited w → l ≠ node) by (by intros l ? ->).
  split; [|split; [intros l Hl; apply elem_of_app; by left|exact Hdec]].
  split; [|split; [|split; [|split; [|split]]]]; cbn [entered visited graph].
  - destruct Hg' as [->|[-> Hcarry]]; [done|].
    eapply flagsOnly_trans; [exact J1|]. by apply flagsOnly_write.
  - intros p Hp. apply elem_of_app.
    destruct (Hin p Hp) as [Hp'| ->].
    + left. by eapply J0.
    + destruct Hfirst as [->|?]; [right; apply list_elem_of_here|by left].
  - intros l m0 Hm0. destruct (decide (l = node)) as [->|Hl].
    + assert (m0 = m) as -> by congruence.
      destruct Hg' as [->|[-> Hcarry]]; [by left|].
      right. split; [|split; [|done]].
      * cbn [heap set_heap]. apply list_lookup_insert_eq.
        by eapply lookup_lt_Some.
      * apply elem_of_app. right. apply list_elem_of_here.
    + rewrite (Hother l Hl).
      destruct (J2 l m0 Hm0) as [?|(? & ? & ?)]; [by left|].
      right. split; [done|]. split; [|done]. apply elem_of_app. by left.
  - intros l Hl. destruct (Hin l Hl) as [?| ->]; [by apply J3|done].
  - intros l m0 Hl Hm0 Ht. destruct (Hin l Hl) as [Hl'| ->].
    + rewrite (Hother l (Hne l Hl')).
      destruct (J4 l m0 Hl' Hm0 Ht) as [Ha Hb].
      split; [done|]. intros Hd. by apply Hb, Hdc.
    + assert (m0 = m) as -> by congruence. by apply H4.
  - intros l m0 Hl Hm0 Ht. destruct (Hin l Hl) as [Hl'| ->].
    + rewrite (Hother l (Hne l Hl')).
      destruct (J5 l m0 Hl' Hm0 Ht) as [Ha Hb].
      split; [done|]. intros Hd. apply Hb.
      intros x Hx Hrx Hex. destruct (Hd x Hx Hrx Hex) as [? ?].
      split; [done|]. by apply Hdc.
    + assert (m0 = m) as -> by congruence. by apply H5.
Qed.

Lemma unmark_visit node ctx w v g' :
  unmarkJ w → node ∉ visited w → unmarkLegit node ctx w →
  unmarkVisitor start node ctx (closure w) (graph w) = (Returned v, g') →
  unmarkJ (entered node v g' w) ∧ unmarkR w (entered node v g' w)
  ∧ (skipChildren v = false →
     ∀ c, c ∈ getNodesConnectedTo node g' →
       unmarkLegit c
         (match newContext v with Some c' => Some c' | None => ctx end)
         (entered node v g' w)).
Proof.
  intros HJ Hnew [Hreach Hctx] Hv.
  pose proof (unmark_flags_decrease w HJ) as Hdec.
  pose proof HJ as (J1 & J0 & J2 & J3 & J4 & J5).
  assert (∃ m, heap g !! node = Some m) as [m Hm].
  { apply lookup_lt_is_Some. rewrite <- (flagsOnly_length _ _ J1).
    apply lookup_lt_is_Some. destruct (heap (graph w) !! node) eqn:Hgw; [done|].
    unfold unmarkVisitor in Hv. js_unfold. by rewrite Hgw in Hv. }
  assert (Hgw : heap (graph w) !! node = Some m).
  { destruct (J2 node m Hm) as [?|(_ & ? & _)]; done. }
  assert (Hfirst : node = start ∨ start ∈ visited w).
  { destruct Hctx as [[_ [?|[? _]]]|(p & b & mp & _ & Hp & _)];
      [by left|by right|right; by eapply J0]. }
  assert (Hkids : getNodesConnectedFrom node (graph w)
                  = getNodesConnectedFrom node g)
    by (by apply flagsOnly_getNodesConnectedFrom).
  rewrite (unmarkVisitor_step _ _ _ _ _ _ Hgw), Hkids in Hv.
  assert (Hparents : ∀ c, c ∈ getNodesConnectedTo node g' →
                          c ∈ getNodesConnectedTo node g).
  { intros c Hc.
    assert (flagsOnly (graph w) g') as Hf.
    { revert Hv. repeat case_bool_decide; intros [= _ <-];
        repeat match goal with |- context [if ?b then _ else _] =>
                 destruct b end;
        try apply flagsOnly_refl; apply flagsOnly_write; tauto. }
    rewrite (flagsOnly_getNodesConnectedTo _ _ _ Hf) in Hc.
    by rewrite (flagsOnly_getNodesConnectedTo _ _ _ J1) in Hc. }
  assert (Hlen : node < length (heap (graph w))) by (by eapply lookup_lt_Some).
  case_bool_decide as Hasset.
  { (* an asset: the recheck of the direct children *)
    destruct (existsb (childHasDeferred (graph w))
                (getNodesConnectedFrom node g)) eqn:Hex;
      injection Hv as <- <-.
    - apply existsb_childHasDeferred in Hex.
      assert (Hex0 : deferredChild g g node).
      { destruct Hex as (child & ? & ?). exists child. split; [done|].
        by apply Hdec. }
      destruct (unmark_frame node
        {| newContext := Some true; skipChildren := false; stop := false;
           captured := tt |} (graph w) w m HJ Hnew Hreach Hfirst Hm)
        as [HJ' HR']; [by left| | |].
      + intros _. split; [by intros []|done].
      + intros Hg. rewrite Hasset in Hg. done.
      + split; [exact HJ'|]. split; [exact HR'|].
        intros _ c Hc%Hparents. split.
        * eapply reachedBy_parent; [exact Hreach| |exact Hc].
          by eapply ascends_asset.
        * right. exists node, true, m. split; [done|].
          split; [apply elem_of_app; right; apply list_elem_of_here|].
          split; [done|]. split; [done|]. split; [done|]. split; done.
    - assert (Hnone : ¬ deferredChild g (graph w) node).
      { intros Hd%existsb_childHasDeferred. congruence. }
      set (g1 := set_heap (<[node := set_hasDeferred None m]>
                             (heap (graph w))) (graph w)).
      assert (Hnone1 : ¬ deferredChild g g1 node).
      { intros (child & Hc & Hf). apply Hnone. exists child.
        split; [done|]. by eapply childHasDeferred_cleared. }
      assert (Hg1 : heap g1 !! node = Some (set_hasDeferred None m)).
      { unfold g1. cbn [heap set_heap]. by apply list_lookup_insert_eq. }
      destruct (unmark_frame node
        {| newContext := Some false; skipChildren := false; stop := false;
           captured := tt |} g1 w m HJ Hnew Hreach Hfirst Hm)
        as [HJ' HR']; [right; split; [done|by left]| | |].
      + intros _. split; [done|]. by intros ?.
      + intros Hg. rewrite Hasset in Hg. done.
      + split; [exact HJ'|]. split; [exact HR'|].
        intros _ c Hc%Hparents. split.
        * eapply reachedBy_parent; [exact Hreach| |exact Hc].
          by eapply ascends_asset.
        * right. exists node, false, m. split; [done|].
          split; [apply elem_of_app; right; apply list_elem_of_here|].
          split; [done|]. split; [done|]. split; [done|]. split; done. }
  case_bool_decide as Hgroup.
  { (* an asset group: the context decides *)
    assert (Hns : node ≠ start).
    { intros ->. rewrite Hstart in Hm. injection Hm as <-. congruence. }
    destruct (default false ctx) eqn:Hdef; injection Hv as <- <-.
    - destruct ctx as [[]|]; try done.
      destruct Hctx as [[? _]|(p & b & mp & [= <-] & Hp & Hmp & Htp & Hc
                                & Htrue & _)]; [done|].
      destruct (unmark_frame node (skip tt) (graph w) w m
                  HJ Hnew Hreach Hfirst Hm) as [HJ' HR']; [by left| | |].
      + intros Ha. rewrite Hgroup in Ha. done.
      + intros _. split; [|done]. intros Hall. exfalso.
        destruct (Hall p Hc (J3 p Hp) (ascends_asset _ _ _ _ Hmp Htp))
          as [->|Hno].
        * rewrite Hstart in Hmp. injection Hmp as <-. congruence.
        * by apply Hno, Htrue.
      + split; [exact HJ'|]. split; [exact HR'|]. done.
    - set (g1 := set_heap (<[node := set_hasDeferred None m]>
                             (heap (graph w))) (graph w)).
      assert (Hg1 : heap g1 !! node = Some (set_hasDeferred None m)).
      { unfold g1. cbn [heap set_heap]. by apply list_lookup_insert_eq. }
      destruct (unmark_frame node (skip tt) g1 w m
                  HJ Hnew Hreach Hfirst Hm) as [HJ' HR'];
        [right; split; [done|by right]| | |].
      + intros Ha. rewrite Hgroup in Ha. done.
      + intros _. split; [done|]. intros Hall. exfalso.
        destruct Hctx as [[_ [?|[_ Hc]]]|(p & b & mp & -> & Hp & Hmp & Htp & Hc
                                        & _ & Hfalse)]; [done| |].
        * destruct (Hall start Hc (reaches_start _ _ _)
                      (ascends_start _ _ _ Hstart Hdep)) as [? _]. done.
        * destruct b; [done|].
          destruct (Hall p Hc (J3 p Hp) (ascends_asset _ _ _ _ Hmp Htp))
            as [_ (child & Hch & Hf)].
          apply (Hfalse eq_refl). exists child. split; [done|].
          by eapply childHasDeferred_cleared.
      + split; [exact HJ'|]. split; [exact HR'|]. done. }
  (* any other node: only the start node is gone on from *)
  assert (Hidle : ∀ v0 : Visit bool unit,
    unmarkJ (entered node v0 (graph w) w) ∧ unmarkR w (entered node v0 (graph w) w)).
  { intros v0. apply (unmark_frame node v0 (graph w) w m); try done.
    by left. }
  case_bool_decide as Hns; injection Hv as <- <-.
  - destruct (Hidle (skip tt)) as [HJ' HR']. done.
  - destruct (Hidle (continue tt)) as [HJ' HR'].
    split; [exact HJ'|]. split; [exact HR'|].
    assert (node = start) as -> by (destruct (decide (start = node)); [done|tauto]).
    intros _ c Hc%Hparents. split.
    + eapply reachedBy_parent; [exact Hreach| |exact Hc].
      exact (ascends_start _ _ _ Hstart Hdep).
    + cbn [newContext continue].
      destruct Hctx as [[-> _]|(p & b & mp & _ & Hp & _)].
      * left. split; [done|]. right. split; [|done].
        apply elem_of_app; right; apply list_elem_of_here.
      * exfalso. apply Hnew. by eapply J0.
Qed.

(** What [unmarkParentsWithHasDeferred] leaves behind. *)
Lemma unmarkParentsWithHasDeferred_exact :
  storedObjects g →
  ∃ g', unmarkParentsWithHasDeferred start g = (Returned tt, g')
    ∧ flagsOnly g g'
    ∧ (∀ l m, heap g !! l = Some m →
         heap g' !! l = Some m
         ∨ (heap g' !! l = Some (set_hasDeferred None m)
            ∧ reachedBy g start l ∧ carriesFlag m))
    ∧ (∀ l m, reachedBy g start l → heap g !! l = Some m → type m = asset →
         (¬ deferredChild g g l →
            heap g' !! l = Some (set_hasDeferred None m))
         ∧ (deferredChild g g' l → heap g' !! l = Some m))
    ∧ (∀ l m, reachedBy g start l → heap g !! l = Some m →
         type m = asset_group →
         ((∀ x, l ∈ getNodesConnectedTo x g → reachedBy g start x →
                ascends g start x = true →
                x = start ∨ ¬ deferredChild g g x) →
            heap g' !! l = Some (set_hasDeferred None m))
         ∧ ((∀ x, l ∈ getNodesConnectedTo x g → reachedBy g start x →
                  ascends g start x = true →
                  x ≠ start ∧ deferredChild g g' x) →
            heap g' !! l = Some m)).
Proof.
  intros Hstored.
  assert (Hlt : start < length (heap g)) by (by eapply lookup_lt_Some).
  destruct (walk_total getNodesConnectedTo (unmarkVisitor start) g start
    (λ g', flagsOnly g g') (λ _, True)) with (x := tt)
    as (w & Hw & Hflags & _).
  - intros node ctx x g1 r g2 HI _ Hv.
    eapply flagsOnly_trans; [exact HI|]. by eapply unmarkVisitor_flagsOnly.
  - intros node g1 c [Hn _] Hc%getNodesConnectedTo_stored.
    by rewrite <- (storedNodes_same _ _ Hn).
  - intros node ctx x g1 HI HV. apply unmarkVisitor_returns.
    rewrite (flagsOnly_length _ _ HI). destruct HV as [->|Hs]; [done|].
    apply elem_of_storedNodes in Hs as [i Hi]. by eapply Hstored.
  - done.
  - apply flagsOnly_refl.
  - done.
  - destruct (walk_context getNodesConnectedTo (unmarkVisitor start)
                unmarkJ unmarkLegit unmarkR)
      with (fuel := S (size (nodes g))) (node := start) (ctx := @None bool)
           (w := start_of tt g) (w' := w)
      as [(J1 & J0 & J2 & J3 & J4 & J5) _].
    + intros w0. by split.
    + intros w1 w2 w3 [S1 D1] [S2 D2]. split; [by etrans|].
      intros l Hl. by apply D1, D2.
    + intros c ctx w1 w2 [S1 D1] [Hr Hc]. split; [done|].
      destruct Hc as [[-> [->|[Hs Hc]]]|(p & b & mp & -> & Hp & Hmp & Htp & Hc
                                         & Ht & Hf)].
      * left. split; [done|by left].
      * left. split; [done|]. right. split; [by apply S1|done].
      * right. exists p, b, mp. split; [done|]. split; [by apply S1|].
        split; [done|]. split; [done|]. split; [done|]. split; [done|].
        intros Hb (child & Hch & Hfl). apply (Hf Hb). exists child.
        split; [done|]. by apply D1.
    + intros node ctx w0 v g' HJ Hnew HL Hv. by apply unmark_visit.
    + split; [apply flagsOnly_refl|].
      split; [by intros p ?%elem_of_nil|].
      split; [intros l m Hm; by left|].
      split; [by intros l ?%elem_of_nil|].
      split; by intros l m ?%elem_of_nil.
    + by intros ?%elem_of_nil.
    + split; [apply reaches_start|]. left. split; [done|by left].
    + exact Hw.
    + pose proof (deferral_walk_complete unmarkVisitor g start w) as Hall.
      assert (Hvis : ∀ l, reachedBy g start l → l ∈ visited w).
      { apply Hall; [| |exact Hw].
        - intros node ctx x g1 r g2 Hv. by eapply unmarkVisitor_flagsOnly.
        - intros node ctx x g1 v g2 Hv.
          destruct (unmarkVisitor_spec _ _ _ _ _ _ _ Hv) as (? & ? & _).
          done. }
      exists (graph w). split.
      { unfold unmarkParentsWithHasDeferred, traverseAncestors, dfs.
        unfold start_of in Hw. rewrite Hw. by destruct (closure w). }
      split; [done|]. split; [|split].
      * intros l m Hm. destruct (J2 l m Hm) as [?|(? & Hl & ?)]; [by left|].
        right. split; [done|]. split; [by apply J3|done].
      * intros l m Hl Hm Ht. by apply J4; [apply Hvis| |].
      * intros l m Hl Hm Ht. by apply J5; [apply Hvis| |].
Qed.
End Unmark.

(** What [markParentsWithHasDeferred] leaves behind: the flag on every
    asset and asset group the walk comes to, and nothing else. *)
Lemma markParentsWithHasDeferred_exact g start :
  storedObjects g → start < length (heap g) →
  ∃ g', markParentsWithHasDeferred start g = (Returned tt, g')
    ∧ flagsOnly g g'
    ∧ ∀ l m, heap g !! l = Some m →
        (reachedBy g start l → carriesFlag m →
           heap g' !! l = Some (set_hasDeferred (Some true) m))
        ∧ (¬ (reachedBy g start l ∧ carriesFlag m) → heap g' !! l = Some m).
Proof.
  intros Hstored Hlt.
  destruct (walk_total getNodesConnectedTo (markVisitor start) g start
    (λ g', flagsOnly g g') (λ _, True)) with (x := tt)
    as (w & Hw & Hflags & _).
  - intros node ctx x g1 r g2 HI _ Hv.
    eapply flagsOnly_trans; [exact HI|]. by eapply markVisitor_flagsOnly.
  - intros node g1 c [Hn _] Hc%getNodesConnectedTo_stored.
    by rewrite <- (storedNodes_same _ _ Hn).
  - intros node ctx x g1 HI HV. apply markVisitor_returns.
    rewrite (flagsOnly_length _ _ HI). destruct HV as [->|Hs]; [done|].
    apply elem_of_storedNodes in Hs as [i Hi]. by eapply Hstored.
  - done.
  - apply flagsOnly_refl.
  - done.
  - destruct (walk_context getNodesConnectedTo (markVisitor start)
      (λ w, flagsOnly g (graph w)
            ∧ (∀ l, l ∈ visited w → reachedBy g start l)
            ∧ ∀ l m, heap g !! l = Some m →
                (l ∈ visited w → carriesFlag m →
                   heap (graph w) !! l = Some (set_hasDeferred (Some true) m))
                ∧ (¬ (l ∈ visited w ∧ carriesFlag m) →
                   heap (graph w) !! l = Some m))
      (λ c _ _, reachedBy g start c) (λ _ _, True))
      with (fuel := S (size (nodes g))) (node := start) (ctx := @None unit)
           (w := start_of tt g) (w' := w)
      as [(J1 & J3 & J2) _]; [done|done|done| | |by intros ?%elem_of_nil|
                              apply reaches_start|exact Hw|].
    + intros node ctx w0 v g' (J1 & J3 & J2) Hnew Hreach Hv.
      assert (∃ m, heap g !! node = Some m) as [m Hm].
      { apply lookup_lt_is_Some. rewrite <- (flagsOnly_length _ _ J1).
        apply lookup_lt_is_Some.
        destruct (heap (graph w0) !! node) eqn:Hgw; [done|].
        unfold markVisitor in Hv. js_unfold. by rewrite Hgw in Hv. }
      assert (Hgw : heap (graph w0) !! node = Some m).
      { apply (J2 node m Hm). by intros [? _]. }
      rewrite (markVisitor_step _ _ _ _ _ _ Hgw) in Hv.
      assert (Hin : ∀ l, l ∈ visited w0 ++ [node] ↔ l ∈ visited w0 ∨ l = node).
      { intros l. rewrite elem_of_app, list_elem_of_singleton. done. }
      assert (Hmarked : carriesFlag m →
        flagsOnly g (set_heap (<[node := set_hasDeferred (Some true) m]>
                                 (heap (graph w0))) (graph w0))
        ∧ (∀ l, l ∈ visited w0 ++ [node] → reachedBy g start l)
        ∧ ∀ l m0, heap g !! l = Some m0 →
            (l ∈ visited w0 ++ [node] → carriesFlag m0 →
               <[node := set_hasDeferred (Some true) m]> (heap (graph w0))
                 !! l = Some (set_hasDeferred (Some true) m0))
            ∧ (¬ (l ∈ visited w0 ++ [node] ∧ carriesFlag m0) →
               <[node := set_hasDeferred (Some true) m]> (heap (graph w0))
                 !! l = Some m0)).
      { intros Hcarry. split; [|split].
        - eapply flagsOnly_trans; [exact J1|]. by apply flagsOnly_write.
        - intros l [?| ->]%Hin; [by apply J3|done].
        - intros l m0 Hm0. destruct (decide (l = node)) as [->|Hne].
          + assert (m0 = m) as -> by congruence.
            rewrite list_lookup_insert_eq by (by eapply lookup_lt_Some).
            split; [done|]. intros Hno. exfalso. apply Hno.
            split; [|done]. apply Hin. by right.
          + rewrite list_lookup_insert_ne by done.
            destruct (J2 l m0 Hm0) as [Ha Hb]. split.
            * intros [?|?]%Hin Hc; [by apply Ha|done].
            * intros Hno. apply Hb. intros [? ?]. apply Hno.
              split; [|done]. apply Hin. by left. }
      assert (Hidle : ¬ carriesFlag m →
        flagsOnly g (graph w0)
        ∧ (∀ l, l ∈ visited w0 ++ [node] → reachedBy g start l)
        ∧ ∀ l m0, heap g !! l = Some m0 →
            (l ∈ visited w0 ++ [node] → carriesFlag m0 →
               heap (graph w0) !! l = Some (set_hasDeferred (Some true) m0))
            ∧ (¬ (l ∈ visited w0 ++ [node] ∧ carriesFlag m0) →
               heap (graph w0) !! l = Some m0)).
      { intros Hcarry. split; [done|]. split.
        - intros l [?| ->]%Hin; [by apply J3|done].
        - intros l m0 Hm0. destruct (decide (l = node)) as [->|Hne].
          + assert (m0 = m) as -> by congruence. split; done.
          + destruct (J2 l m0 Hm0) as [Ha Hb]. split.
            * intros [?|?]%Hin Hc; [by apply Ha|done].
            * intros Hno. apply Hb. intros [? ?]. apply Hno.
              split; [|done]. apply Hin. by left. }
      assert (Hparents : ∀ c, ascends g start node = true →
        c ∈ getNodesConnectedTo node g' → reachedBy g start c).
      { intros c Hasc Hc.
        assert (flagsOnly (graph w0) g') as Hf.
        { revert Hv. repeat case_bool_decide; intros [= _ <-];
            try apply flagsOnly_refl; apply flagsOnly_write; tauto. }
        rewrite (flagsOnly_getNodesConnectedTo _ _ _ Hf) in Hc.
        rewrite (flagsOnly_getNodesConnectedTo _ _ _ J1) in Hc.
        by eapply reachedBy_parent. }
      case_bool_decide as Hasset.
      { injection Hv as <- <-. split; [by apply Hmarked; left|].
        split; [done|]. intros _ c Hc. apply Hparents; [|done].
        by eapply ascends_asset. }
      case_bool_decide as Hgroup.
      { injection Hv as <- <-. split; [by apply Hmarked; right|]. done. }
      assert (Hnc : ¬ carriesFlag m) by (by intros [?|?]).
      case_bool_decide as Hns; injection Hv as <- <-.
      * split; [by apply Hidle|]. done.
      * split; [by apply Hidle|]. split; [done|]. intros _ c Hc.
        apply Hparents; [|done].
        assert (node = start) as ->
          by (destruct (decide (start = node)); [done|tauto]).
        unfold ascends. rewrite Hm.
        rewrite (bool_decide_eq_false_2 _ Hgroup).
        rewrite (bool_decide_eq_true_2 (start = start)) by done.
        apply orb_true_r.
    + split; [apply flagsOnly_refl|]. split; [by intros l ?%elem_of_nil|].
      intros l m Hm. split; [by intros ?%elem_of_nil|done].
    + pose proof (deferral_walk_complete markVisitor g start w) as Hall.
      assert (Hvis : ∀ l, reachedBy g start l → l ∈ visited w).
      { apply Hall; [| |exact Hw].
        - intros node ctx x g1 r g2 Hv. by eapply markVisitor_flagsOnly.
        - intros node ctx x g1 v g2 Hv.
          destruct (markVisitor_spec _ _ _ _ _ _ _ Hv) as (? & ? & _).
          done. }
      exists (graph w). split.
      { unfold markParentsWithHasDeferred, traverseAncestors, dfs.
        unfold start_of in Hw. rewrite Hw. by destruct (closure w). }
      split; [done|]. intros l m Hm. destruct (J2 l m Hm) as [Ha Hb]. split.
      * intros Hr Hc. apply Ha; [by apply Hvis|done].
      * intros Hno. apply Hb. intros [Hl Hc]. apply Hno. split; [|done].
        by apply J3.
Qed.

(** The objects of the store after the two writes of lines 211-212. *)
Lemma flag_writes_lookup g node childNode n c h d l m :
  heap g !! node = Some n → heap g !! childNode = Some c →
  node ≠ childNode → heap g !! l = Some m →
  ∃ m1,
    heap (set_heap (<[childNode := set_deferred d c]>
                      (<[node := set_hasDeferred h n]> (heap g))) g) !! l
    = Some m1
    ∧ sameButFlags m m1 ∧ value m1 = value m
    ∧ deferred m1 = (if bool_decide (l = childNode) then d else deferred m)
    ∧ hasDeferred m1 = (if bool_decide (l = node) then h else hasDeferred m).
Proof.
  intros Hn Hc Hne Hm. cbn [heap set_heap].
  destruct (decide (l = childNode)) as [->|Hlc].
  - rewrite list_lookup_insert_eq
      by (rewrite length_insert; by eapply lookup_lt_Some).
    assert (m = c) as -> by congruence.
    eexists. split; [done|].
    rewrite bool_decide_eq_true_2 by done.
    rewrite bool_decide_eq_false_2 by done. by destruct c.
  - rewrite list_lookup_insert_ne by done.
    rewrite (bool_decide_eq_false_2 _ Hlc).
    destruct (decide (l = node)) as [->|Hln].
    + rewrite list_lookup_insert_eq by (by eapply lookup_lt_Some).
      assert (m = n) as -> by congruence.
      eexists. split; [done|]. rewrite bool_decide_eq_true_2 by done.
      by destruct n.
    + rewrite list_lookup_insert_ne by done.
      exists m. split; [done|]. rewrite bool_decide_eq_false_2 by done.
      by destruct m.
Qed.

Lemma sameButFlags_trans m m1 m' :
  sameButFlags m m1 → m' = set_hasDeferred (hasDeferred m') m1 →
  sameButFlags m m' ∧ deferred m' = deferred m1 ∧ value m' = value m1.
Proof.
  unfold sameButFlags. intros -> ->. cbn. done.
Qed.

(** C3, amended.  On a well-formed graph, for a dependency node D with an
    asset-group child G, [shouldVisitChild(D, G)] leaves the nodes, the
    edges and every field of every node object as they are, apart from the
    flags [deferred] and [hasDeferred]; [deferred] changes on G only.

    After a false-to-true transition (G had no [deferred] flag and the
    deferral condition holds) the call returns false and [hasDeferred] is
    true on D and on every asset and asset group the ancestor walk comes
    to: the walk starts at D and goes on to the parents of D and of every
    asset it comes to, and no further.  On every other node [hasDeferred]
    is what it was.

    After a true-to-false transition (G was deferred and the condition no
    longer holds) the call returns true and [hasDeferred] is false on D; on
    every other node the flag is what it was or has been deleted, and it is
    what it was on every node that is not an asset or asset group the walk
    comes to.  An asset the walk comes to loses the flag if none of its
    children, D apart, carried it, and keeps what it had if one of its
    children carries it after the call.  An asset group the walk comes to
    loses the flag if every node from which the walk can come to it is D or
    an asset none of whose children, D apart, carried the flag, and keeps
    what it had if every such node is an asset one of whose children
    carries the flag after the call. *)
Theorem hasDeferred_propagation g node childNode n c ag :
  wellFormed g →
  heap g !! node = Some n → heap g !! childNode = Some c →
  type n = dependency → value c = AssetGroupValue ag →
  (deferred c = None → deferralCondition n ag →
     ∃ g', shouldVisitChild node childNode g = (Returned false, g')
       ∧ g' = set_heap (heap g') g
       ∧ length (heap g') = length (heap g)
       ∧ ∀ l m, heap g !! l = Some m →
           ∃ m', heap g' !! l = Some m' ∧ sameButFlags m m'
             ∧ deferred m'
               = (if bool_decide (l = childNode) then Some true
                  else deferred m)
             ∧ (l = node ∨ (reachedBy g node l ∧ carriesFlag m) →
                hasDeferred m' = Some true)
             ∧ (l ≠ node → ¬ (reachedBy g node l ∧ carriesFlag m) →
                hasDeferred m' = hasDeferred m))
  ∧ (deferred c = Some true → ¬ deferralCondition n ag →
     ∃ g', shouldVisitChild node childNode g = (Returned true, g')
       ∧ g' = set_heap (heap g') g
       ∧ length (heap g') = length (heap g)
       ∧ ∀ l m, heap g !! l = Some m →
           ∃ m', heap g' !! l = Some m' ∧ sameButFlags m m'
             ∧ deferred m'
               = (if bool_decide (l = childNode) then Some false
                  else deferred m)
             ∧ (l = node → hasDeferred m' = Some false)
             ∧ (l ≠ node →
                hasDeferred m' = hasDeferred m ∨ hasDeferred m' = None)
             ∧ (l ≠ node → ¬ (reachedBy g node l ∧ carriesFlag m) →
                hasDeferred m' = hasDeferred m)
             ∧ (reachedBy g node l → type m = asset →
                (noOtherDeferredChild g node l → hasDeferred m' = None)
                ∧ (deferredChild g g' l → hasDeferred m' = hasDeferred m))
             ∧ (reachedBy g node l → type m = asset_group →
                ((∀ x, l ∈ getNodesConnectedTo x g → reachedBy g node x →
                       ascends g node x = true →
                       x = node ∨ noOtherDeferredChild g node x) →
                   hasDeferred m' = None)
                ∧ ((∀ x, l ∈ getNodesConnectedTo x g → reachedBy g node x →
                         ascends g node x = true →
                         x ≠ node ∧ deferredChild g g' x) →
                   hasDeferred m' = hasDeferred m))).
Proof.
  intros Hwf Hn Hc Htn Hag.
  pose proof (wellFormed_storedObjects g Hwf) as Hstored.
  assert (Htc : type c = asset_group) by (unfold type; by rewrite Hag).
  assert (Hcarry : ∀ m m1 : Node, value m1 = value m →
                     (carriesFlag m1 ↔ carriesFlag m)
                     ∧ type m1 = type m).
  { intros m m1 Hv. unfold carriesFlag, type. by rewrite Hv. }
  split.
  - intros Hd Hcond.
    assert (Hd' : deferred c ≠ Some false) by (by rewrite Hd).
    destruct (shouldVisitChild_unguarded _ _ _ _ _ _ Hn Hc Htn Hag Hd')
      as [Hne ->].
    apply shouldDeferDependency_iff in Hcond. rewrite Hcond, Hd. simpl.
    set (g1 := set_heap _ g).
    assert (Hshape : sameShape g g1) by (by apply sameShape_flag_writes).
    assert (Hstored1 : storedObjects g1).
    { apply storedObjects_set_heap; [by rewrite !length_insert|done]. }
    assert (Hlt1 : node < length (heap g1)).
    { simpl. rewrite !length_insert. by eapply lookup_lt_Some. }
    destruct (markParentsWithHasDeferred_exact g1 node Hstored1 Hlt1)
      as (g' & Hmark & Hflags & Hexact).
    rewrite (bind_returned _ _ _ _ _ Hmark).
    exists g'. split; [done|]. split.
    { destruct Hflags as (? & ? & ? & ? & ? & _). destruct g', g.
      cbn in *. by subst. }
    split.
    { rewrite (flagsOnly_length _ _ Hflags). unfold g1. cbn.
      by rewrite !length_insert. }
    intros l m Hm.
    destruct (flag_writes_lookup g node childNode n c (Some true) (Some true)
                l m Hn Hc Hne Hm) as (m1 & Hm1 & Hsame & Hv1 & Hd1 & Hh1).
    destruct (flagsOnly_lookup _ _ _ _ Hflags Hm1) as (m' & Hm' & [Heq _]).
    destruct (sameButFlags_trans _ _ _ Hsame Heq) as (Hsame' & Hd1' & Hv').
    destruct (Hexact l m1 Hm1) as [Ha Hb].
    destruct (Hcarry m m1 Hv1) as [Hc1 Ht1].
    exists m'. split; [done|]. split; [done|]. split; [congruence|]. split.
    + intros [->|[Hr Hcf]].
      * rewrite bool_decide_eq_true_2 in Hh1 by done.
        assert (heap g' !! node = Some m1) as Hs; [|congruence].
        apply Hb. intros [_ [Hf|Hf]%Hc1]; congruence.
      * rewrite Ha in Hm'; [by injection Hm' as <-| |by apply Hc1].
        by apply (reachedBy_sameShape g g1).
    + intros Hln Hno. rewrite bool_decide_eq_false_2 in Hh1 by done.
      rewrite Hb in Hm'; [injection Hm' as <-; done|].
      intros [Hr Hcf]. apply Hno. split; [|by apply Hc1].
      by apply (reachedBy_sameShape g g1).
  - intros Hd Hcond.
    assert (Hd' : deferred c ≠ Some false) by (by rewrite Hd).
    destruct (shouldVisitChild_unguarded _ _ _ _ _ _ Hn Hc Htn Hag Hd')
      as [Hne ->].
    assert (Hdefer : shouldDeferDependency n (sideEffects ag) = false).
    { apply not_true_is_false. by rewrite shouldDeferDependency_iff. }
    rewrite Hdefer, Hd. simpl.
    set (g1 := set_heap _ g).
    assert (Hshape : sameShape g g1) by (by apply sameShape_flag_writes).
    assert (Hstored1 : storedObjects g1).
    { apply storedObjects_set_heap; [by rewrite !length_insert|done]. }
    destruct (flag_writes_lookup g node childNode n c (Some false) (Some false)
                node n Hn Hc Hne Hn) as (n1 & Hn1 & _ & Hvn1 & _ & _).
    assert (Htn1 : type n1 = dependency).
    { by rewrite (proj2 (Hcarry n n1 Hvn1)). }
    destruct (unmarkParentsWithHasDeferred_exact g1 node n1 Hn1 Htn1 Hstored1)
      as (g' & Hunmark & Hflags & Hframe & Hassets & Hgroups).
    rewrite (bind_returned _ _ _ _ _ Hunmark).
    assert (Hkids : ∀ l, getNodesConnectedFrom l g1 = getNodesConnectedFrom l g)
      by (intros l; by apply sameShape_getNodesConnectedFrom).
    assert (Hpars : ∀ l, getNodesConnectedTo l g1 = getNodesConnectedTo l g)
      by (intros l; by apply sameShape_getNodesConnectedTo).
    assert (Hflag1 : ∀ child, child ≠ node →
              childHasDeferred g1 child = childHasDeferred g child).
    { intros child Hcn. unfold childHasDeferred.
      destruct (heap g !! child) as [m|] eqn:Hm.
      - destruct (flag_writes_lookup g node childNode n c (Some false)
                    (Some false) child m Hn Hc Hne Hm)
          as (m1 & Hm1 & _ & _ & _ & Hh).
        change (heap g1 !! child = Some m1) in Hm1. rewrite Hm1, Hh.
        by rewrite bool_decide_eq_false_2.
      - by rewrite (sameShape_lookup_None _ _ _ Hshape Hm). }
    assert (Hflagn : childHasDeferred g1 node = false).
    { unfold childHasDeferred.
      destruct (flag_writes_lookup g node childNode n c (Some false)
                  (Some false) node n Hn Hc Hne Hn)
        as (m1 & Hm1 & _ & _ & _ & Hh).
      change (heap g1 !! node = Some m1) in Hm1. rewrite Hm1, Hh.
      by rewrite bool_decide_eq_true_2. }
    assert (Hnone : ∀ l, noOtherDeferredChild g node l →
                         ¬ deferredChild g1 g1 l).
    { intros l Hno (child & Hch & Hf). rewrite Hkids in Hch.
      destruct (decide (child = node)) as [->|Hcn]; [congruence|].
      rewrite (Hflag1 child Hcn), (Hno child Hch Hcn) in Hf. done. }
    assert (Hsome : ∀ l, deferredChild g g' l → deferredChild g1 g' l).
    { intros l (child & Hch & Hf). exists child. by rewrite Hkids. }
    exists g'. split; [done|]. split.
    { destruct Hflags as (? & ? & ? & ? & ? & _). destruct g', g.
      cbn in *. by subst. }
    split.
    { rewrite (flagsOnly_length _ _ Hflags). unfold g1. cbn.
      by rewrite !length_insert. }
    intros l m Hm.
    destruct (flag_writes_lookup g node childNode n c (Some false) (Some false)
                l m Hn Hc Hne Hm) as (m1 & Hm1 & Hsame & Hv1 & Hd1 & Hh1).
    destruct (flagsOnly_lookup _ _ _ _ Hflags Hm1) as (m' & Hm' & [Heq _]).
    destruct (sameButFlags_trans _ _ _ Hsame Heq) as (Hsame' & Hd1' & Hv').
    destruct (Hcarry m m1 Hv1) as [Hc1 Ht1].
    assert (Hreach : reachedBy g1 node l ↔ reachedBy g node l)
      by (by apply reachedBy_sameShape).
    exists m'. split; [done|]. split; [done|]. split; [congruence|].
    split; [|split; [|split; [|split]]].
    + intros ->. rewrite bool_decide_eq_true_2 in Hh1 by done.
      destruct (Hframe node m1 Hm1) as [Hs|(_ & _ & [Hf|Hf]%Hc1)];
        congruence.
    + intros Hln. rewrite bool_decide_eq_false_2 in Hh1 by done.
      destruct (Hframe l m1 Hm1) as [Hs|(Hs & _)]; rewrite Hs in Hm';
        injection Hm' as <-; [left; done|right; done].
    + intros Hln Hno. rewrite bool_decide_eq_false_2 in Hh1 by done.
      destruct (Hframe l m1 Hm1) as [Hs|(_ & Hr & Hcf)].
      * rewrite Hs in Hm'. by injection Hm' as <-.
      * exfalso. apply Hno. split; [by apply Hreach|by apply Hc1].
    + intros Hr Ht.
      assert (Hln : l ≠ node).
      { intros ->. rewrite Hn in Hm. injection Hm as <-. congruence. }
      rewrite bool_decide_eq_false_2 in Hh1 by done.
      destruct (Hassets l m1 (proj2 Hreach Hr) Hm1) as [Ha Hb];
        [congruence|].
      split.
      * intros Hno. rewrite (Ha (Hnone l Hno)) in Hm'.
        by injection Hm' as <-.
      * intros Hsm. rewrite (Hb (Hsome l Hsm)) in Hm'.
        by injection Hm' as <-.
    + intros Hr Ht.
      assert (Hln : l ≠ node).
      { intros ->. rewrite Hn in Hm. injection Hm as <-. congruence. }
      rewrite bool_decide_eq_false_2 in Hh1 by done.
      destruct (Hgroups l m1 (proj2 Hreach Hr) Hm1) as [Ha Hb];
        [congruence|].
      split.
      * intros Hall. rewrite Ha in Hm'; [by injection Hm' as <-|].
        intros x Hx Hrx Hex. rewrite Hpars in Hx.
        rewrite (sameShape_ascends _ _ _ _ Hshape) in Hex.
        destruct (Hall x Hx (proj1 (reachedBy_sameShape g g1 node x Hshape) Hrx)
                    Hex) as [?|Hno]; [by left|right; by apply Hnone].
      * intros Hall. rewrite Hb in Hm'; [by injection Hm' as <-|].
        intros x Hx Hrx Hex. rewrite Hpars in Hx.
        rewrite (sameShape_ascends _ _ _ _ Hshape) in Hex.
        destruct (Hall x Hx (proj1 (reachedBy_sameShape g g1 node x Hshape) Hrx)
                    Hex) as [? ?]. split; [done|by apply Hsome].
Qed.

(** C3 as stated fails.  On the import chain, the call on [d1] and [g2] is
    a false-to-true transition; afterwards the deferred edge [d1 -> g2] lies
    below the asset [a0], which carries no [hasDeferred] flag: the walk
    stopped at the asset group [g1]. *)
Lemma hasDeferred_propagation_counterexample :
  ∃ g', shouldVisitChild 4 5 (Example.chain None) = (Returned false, g')
        ∧ ¬ hasDeferredConsistent g'.
Proof.
  eexists. split; [vm_compute; reflexivity|].
  intros Hconsistent.
  specialize (Hconsistent "a0" 0 (mkNode "a0" (AssetValue Example.a0))
                eq_refl eq_refl (or_introl eq_refl)).
  destruct Hconsistent as [_ Hflag].
  assert (Hnone : Some true = hasDeferred
                    (mkNode "a0" (AssetValue Example.a0)) → False) by done.
  apply Hnone. symmetry. apply Hflag.
  exists "d1", "g2", 4, 5.
  eexists _, _.
  split; [|split; [|split; [reflexivity|split; [reflexivity|
    split; [reflexivity|split; [reflexivity|split; [reflexivity|
    split; reflexivity]]]]]]].
  - unfold descends.
    eapply rtc_l; [apply list_elem_of_here|].
    eapply rtc_l; [apply list_elem_of_further, list_elem_of_here|].
    eapply rtc_l;
      [apply list_elem_of_further, list_elem_of_further, list_elem_of_here|].
    eapply rtc_l;
      [do 3 apply list_elem_of_further; apply list_elem_of_here|].
    apply rtc_refl.
  - do 4 apply list_elem_of_further. apply list_elem_of_here.
Qed.

Lemma hasDeferred_propagation_witness :
  wellFormed (Example.chain None)
  ∧ deferralCondition
      (mkNode "d1" (DependencyValue (Example.dep "d1" "./two" [] [])))
      Example.g2
  ∧ (∃ g' a0' g1' a1',
       shouldVisitChild 4 5 (Example.chain None) = (Returned false, g')
       ∧ heap g' !! 0 = Some a0' ∧ hasDeferred a0' = None
       ∧ heap g' !! 2 = Some g1' ∧ hasDeferred g1' = Some true
       ∧ heap g' !! 3 = Some a1' ∧ hasDeferred a1' = Some true)
  ∧ wellFormed Deferral.siblings
  ∧ ¬ deferralCondition
        (set_hasDeferred (Some true)
           (set_usedSymbols ["x"]
              (mkNode "d1"
                 (DependencyValue (Example.dep "d1" "./two" [] [])))))
        Example.g2
  ∧ ∃ g' g1' a1' d1',
      shouldVisitChild 2 3 Deferral.siblings = (Returned true, g')
      ∧ heap g' !! 0 = Some g1' ∧ hasDeferred g1' = Some true
      ∧ heap g' !! 1 = Some a1' ∧ hasDeferred a1' = Some true
      ∧ heap g' !! 2 = Some d1' ∧ hasDeferred d1' = Some false.
Proof.
  assert (Hwf : wellFormed (Example.chain None)).
  { apply wellFormedb_correct. vm_compute. reflexivity. }
  assert (Hcond : deferralCondition
            (mkNode "d1" (DependencyValue (Example.dep "d1" "./two" [] [])))
            Example.g2) by (split; reflexivity).
  assert (Hwf2 : wellFormed Deferral.siblings).
  { apply wellFormedb_correct. vm_compute. reflexivity. }
  assert (Hcond2 : ¬ deferralCondition
            (set_hasDeferred (Some true)
               (set_usedSymbols ["x"]
                  (mkNode "d1"
                     (DependencyValue (Example.dep "d1" "./two" [] [])))))
            Example.g2) by (intros [_ Hu]; discriminate Hu).
  split; [exact Hwf|]. split; [exact Hcond|]. split; [|split; [exact Hwf2|
    split; [exact Hcond2|]]].
  - destruct (proj1 (hasDeferred_propagation (Example.chain None) 4 5 _ _
                       Example.g2 Hwf eq_refl eq_refl eq_refl eq_refl)
                    eq_refl Hcond) as (g' & Hrun & _ & _ & Hall).
    assert (R3 : reachedBy (Example.chain None) 4 3).
    { eapply reaches_next; [apply reaches_start|reflexivity|].
      vm_compute. apply list_elem_of_here. }
    assert (R2 : reachedBy (Example.chain None) 4 2).
    { eapply reaches_next; [exact R3|reflexivity|].
      vm_compute. apply list_elem_of_here. }
    assert (Hin : ∀ l, reachedBy (Example.chain None) 4 l → l ∈ [4; 3; 2]).
    { intros l Hr. induction Hr as [|p c Hp IH Hexp Hc].
      - apply list_elem_of_here.
      - apply elem_of_cons in IH as [->|IH];
          [|apply elem_of_cons in IH as [->|IH];
            [|apply list_elem_of_singleton in IH as ->]].
        + vm_compute in Hc. apply list_elem_of_singleton in Hc as ->.
          apply list_elem_of_further, list_elem_of_here.
        + vm_compute in Hc. apply list_elem_of_singleton in Hc as ->.
          do 2 apply list_elem_of_further. apply list_elem_of_here.
        + discriminate Hexp. }
    destruct (Hall 0 _ eq_refl) as (a0' & Ha0 & _ & _ & _ & Hkeep).
    destruct (Hall 2 _ eq_refl) as (g1' & Hg1 & _ & _ & Hset2 & _).
    destruct (Hall 3 _ eq_refl) as (a1' & Ha1 & _ & _ & Hset3 & _).
    exists g', a0', g1', a1'. split; [exact Hrun|].
    split; [exact Ha0|]. split.
    { apply Hkeep; [discriminate|]. intros [Hr _]. apply Hin in Hr.
      repeat (apply elem_of_cons in Hr as [Hr|Hr]; [discriminate Hr|]).
      by apply elem_of_nil in Hr. }
    split; [exact Hg1|]. split.
    { apply Hset2. right. split; [exact R2|right; reflexivity]. }
    split; [exact Ha1|].
    apply Hset3. right. split; [exact R3|left; reflexivity].
  - destruct (proj2 (hasDeferred_propagation Deferral.siblings 2 3 _ _
                       Example.g2 Hwf2 eq_refl eq_refl eq_refl eq_refl)
                    eq_refl Hcond2) as (g' & Hrun & _ & _ & Hall).
    assert (R1 : reachedBy Deferral.siblings 2 1).
    { eapply reaches_next; [apply reaches_start|reflexivity|].
      vm_compute. apply list_elem_of_here. }
    assert (R0 : reachedBy Deferral.siblings 2 0).
    { eapply reaches_next; [exact R1|reflexivity|].
      vm_compute. apply list_elem_of_here. }
    destruct (Hall 0 _ eq_refl) as (g1' & Hg1 & _ & _ & _ & _ & _ & _ & Hgrp).
    destruct (Hall 1 _ eq_refl) as (a1' & Ha1 & _ & _ & _ & _ & _ & Hast & _).
    destruct (Hall 2 _ eq_refl) as (d1' & Hd1 & _ & _ & Hfalse & _).
    destruct (Hall 4 _ eq_refl) as (d2' & Hd2 & _ & _ & _ & _ & Hkeep & _).
    assert (Hsib : deferredChild Deferral.siblings g' 1).
    { exists 4. split.
      - vm_compute. apply list_elem_of_further, list_elem_of_here.
      - unfold childHasDeferred. rewrite Hd2.
        rewrite Hkeep; [reflexivity|discriminate|].
        intros [_ [Ht|Ht]]; discriminate Ht. }
    exists g', g1', a1', d1'. split; [exact Hrun|].
    split; [exact Hg1|]. split.
    { rewrite (proj2 (Hgrp R0 eq_refl)); [reflexivity|].
      intros x Hx _ _.
      destruct x as [|[|[|[|[|[|x]]]]]]; vm_compute in Hx;
        try (by apply elem_of_nil in Hx);
        try (apply list_elem_of_singleton in Hx; discriminate Hx).
      split; [discriminate|exact Hsib]. }
    split; [exact Ha1|]. split.
    { rewrite (proj2 (Hast R1 eq_refl) Hsib). reflexivity. }
    split; [exact Hd1|]. by apply Hfalse.
Defined.

(** ** Cascading removal *)

Lemma elem_of_childIds q c g : c ∈ childIds q g ↔ (q, c) ∈ edges g.
Proof.
  unfold childIds. rewrite list_elem_of_fmap. split.
  - intros ([p c'] & -> & [Hp Hin]%list_elem_of_filter). simpl in *. by subst.
  - intros Hin. exists (q, c). split; [done|]. by apply list_elem_of_filter.
Qed.

Lemma parentIds_nil c g : parentIds c g = [] ↔ ∀ p, (p, c) ∉ edges g.
Proof.
  unfold parentIds. split.
  - intros Hnil p Hin.
    assert (p ∈ (filter (λ e : string * string, e.2 = c) (edges g)).*1) as Hp.
    { apply list_elem_of_fmap. exists (p, c). split; [done|].
      by apply list_elem_of_filter. }
    rewrite Hnil in Hp. by apply elem_of_nil in Hp.
  - intros Hnone.
    destruct (filter _ (edges g)) as [|[p c'] es] eqn:Hf; [done|].
    assert ((p, c') ∈ filter (λ e : string * string, e.2 = c) (edges g)) as Hin
      by (rewrite Hf; apply list_elem_of_here).
    apply list_elem_of_filter in Hin as [Hc Hin]. simpl in Hc. subst c'.
    by destruct (Hnone p).
Qed.

Lemma shrunk_refl g : shrunk g g.
Proof.
  repeat split; try done.
  intros i l Hi Hn. congruence.
Qed.

Lemma removedSince_prefix g1 g2 g3 l :
  removedLog g1 `prefix_of` removedLog g2 →
  removedLog g2 `prefix_of` removedLog g3 →
  l ∈ removedSince g1 g2 ∨ l ∈ removedSince g2 g3 → l ∈ removedSince g1 g3.
Proof.
  intros [R1 H1] [R2 H2]. unfold removedSince.
  rewrite H2, H1, <- app_assoc, !drop_app_length.
  rewrite app_assoc, drop_app_length. rewrite elem_of_app. tauto.
Qed.

Lemma shrunk_trans g1 g2 g3 : shrunk g1 g2 → shrunk g2 g3 → shrunk g1 g3.
Proof.
  intros (H1 & N1 & E1 & K1 & L1 & R1) (H2 & N2 & E2 & K2 & L2 & R2).
  split; [congruence|]. split; [intros i l Hi; by apply N1, N2|].
  split; [intros e He; by apply E1, E2|]. split.
  - intros q c Hin Hq. apply K2; [|done]. apply K1; [done|].
    destruct Hq as [l Hl]. exists l. by apply N2.
  - split; [by etrans|].
    intros i l Hi Hnone. eapply removedSince_prefix; [done..|].
    destruct (nodes g2 !! i) as [l2|] eqn:Hi2.
    + right. apply (R2 i); [|done]. pose proof (N1 _ _ Hi2). congruence.
    + left. by apply (R1 i).
Qed.

Lemma shrunk_consistent g g' : shrunk g g' → consistent g → wellFormed g'.
Proof.
  intros (Hh & Hn & _) [Hwf _] i l Hi. rewrite Hh. by apply Hwf, Hn.
Qed.

(** Deleting an orphan and its edges. *)
Lemma delete_orphan g x node hash' :
  consistent g → nodes g !! x = Some node → parentIds x g = [] →
  let gd :=
    set_edges (filter (λ e : string * string, e.1 ≠ x ∧ e.2 ≠ x) (edges g))
      (set_nodes (delete x (nodes g))
         (set_removedLog (removedLog g ++ [node]) (set_hash hash' g))) in
  shrunk g gd ∧ consistent gd.
Proof.
  intros [Hwf Hclosed] Hx Horphan gd.
  assert (Hstored : ∀ i, stored i gd ↔ stored i g ∧ i ≠ x).
  { intros i. unfold stored, gd. simpl. rewrite lookup_delete_is_Some.
    split; intros [? ?]; split; congruence. }
  assert (Hshrunk : shrunk g gd).
  { split; [done|]. split.
    { intros i l. simpl. rewrite lookup_delete_Some. by intros [_ ?]. }
    split.
    { intros e. simpl. rewrite list_elem_of_filter. tauto. }
    split.
    { intros q c Hin Hq. simpl. apply list_elem_of_filter.
      apply Hstored in Hq as [_ Hqx]. split; [|done]. split; [done|].
      simpl. intros ->. by eapply (proj1 (parentIds_nil x g)). }
    split.
    { simpl. by apply prefix_app_r. }
    intros i l Hi Hnone. simpl in Hnone.
    apply lookup_delete_None in Hnone as [<-|Hnone]; [|congruence].
    unfold removedSince. simpl. rewrite drop_app_length.
    rewrite Hx in Hi. inversion Hi. apply list_elem_of_here. }
  split; [done|]. split.
  - eapply shrunk_consistent; [done|]. by split.
  - intros p c Hin. simpl in Hin.
    apply list_elem_of_filter in Hin as [[Hp Hc] Hin]. simpl in *.
    destruct (Hclosed _ _ Hin). split; by apply Hstored.
Qed.

Lemma Graph_removeNode_unfold self node g n :
  heap g !! node = Some n →
  Graph_removeNode self node g
  = forEach (childIds (id n) g)
      (λ c, let* g := get_state in
            match nodes g !! c with
            | Some child =>
                if bool_decide (parentIds c g = []) then self child else ret tt
            | None => ret tt
            end)
      (set_edges
         (filter (λ e : string * string, e.1 ≠ id n ∧ e.2 ≠ id n) (edges g))
         (set_nodes (delete (id n) (nodes g)) g)).
Proof.
  intros Hn. unfold Graph_removeNode.
  by rewrite (bind_returned _ _ _ _ _ (read_returned _ _ _ Hn)).
Qed.

Lemma removeNode_upto_S fuel node g :
  removeNode_upto (S fuel) node g
  = Graph_removeNode (removeNode_upto fuel) node
      (set_removedLog (removedLog g ++ [node]) (set_hash None g)).
Proof. done. Qed.

Lemma removeNode_upto_shrunk fuel : ∀ node g x,
  consistent g → nodes g !! x = Some node → parentIds x g = [] →
  shrunk g (removeNode_upto fuel node g).2
  ∧ consistent (removeNode_upto fuel node g).2.
Proof.
  induction fuel as [|fuel IH]; intros node g x Hcons Hx Horphan.
  { simpl. split; [apply shrunk_refl|done]. }
  destruct Hcons as [Hwf Hclosed].
  destruct (Hwf _ _ Hx) as (n & Hn & Hid & _).
  rewrite removeNode_upto_S.
  rewrite (Graph_removeNode_unfold _ _ _ n) by done.
  rewrite Hid.
  destruct (delete_orphan g x node None (conj Hwf Hclosed) Hx Horphan)
    as [Hshrunk Hcons'].
  apply (forEach_state_inv (λ s, shrunk g s ∧ consistent s)); [|done].
  intros c s [Hs Hc]. unfold bind, get_state.
  destruct (nodes s !! c) as [child|] eqn:Hchild; [|done].
  case_bool_decide as Horph; [|done].
  destruct (IH child s c Hc Hchild Horph) as [Hs' Hc'].
  split; [by eapply shrunk_trans|done].
Qed.

(** ** [replaceNodesConnectedTo]: the first loop *)

(** The body of the first loop. *)
Lemma connect_step f (toNode : loc) g n :
  consistent g → stored f g → heap g !! toNode = Some n → wfNode n →
  ∃ g',
    (let* n := read toNode in
     let* existing := getNode (id n) in
     match existing with
     | Some _ => ret tt
     | None => addNode toNode >> ret tt
     end >>
     update_state (addEdge f (id n))) g = (Returned tt, g')
    ∧ connected f [id n] g g'.
Proof.
  intros [Hwf Hclosed] Hf Hn Hwfn.
  rewrite (bind_returned _ _ _ _ _ (read_returned _ _ _ Hn)).
  unfold bind at 1, getNode at 1.
  set (g1 := if decide (is_Some (nodes g !! id n)) then g
             else set_nodes (<[id n := toNode]> (nodes g)) (set_hash None g)).
  assert (Hstep : (match nodes g !! id n with
                   | Some _ => ret tt
                   | None => addNode toNode >> ret tt
                   end) g = (Returned tt, g1)).
  { unfold g1. destruct (nodes g !! id n) as [l|] eqn:Hl.
    - by rewrite decide_True by eauto.
    - rewrite decide_False by (by intros [? ?]).
      unfold addNode, Graph_addNode.
      unfold bind at 1, update_state at 1. unfold bind at 1.
      assert (Hn' : heap (set_hash None g) !! toNode = Some n) by done.
      by rewrite (bind_returned _ _ _ _ _ (read_returned _ _ _ Hn')). }
  rewrite (bind_returned _ _ _ _ _ Hstep).
  exists (addEdge f (id n) g1). split; [done|].
  assert (Hheap1 : heap g1 = heap g) by (unfold g1; by case_decide).
  assert (Hlog1 : removedLog g1 = removedLog g) by (unfold g1; by case_decide).
  assert (Hedges1 : edges g1 = edges g) by (unfold g1; by case_decide).
  assert (Hnodes1 : ∀ i l, nodes g1 !! i = Some l ↔
            nodes g !! i = Some l ∨ (nodes g !! id n = None ∧ i = id n ∧ l = toNode)).
  { intros i l. unfold g1. case_decide as Hs; simpl.
    - split; [by left|]. intros [?|(Hnone & _)]; [done|].
      destruct Hs as [? ?]. congruence.
    - assert (nodes g !! id n = None) as Hnone.
      { destruct (nodes g !! id n) eqn:E; [|done]. destruct Hs. eauto. }
      rewrite lookup_insert_Some. split.
      + intros [[<- <-]|[Hne Hi]]; [by right|by left].
      + intros [Hi|(_ & -> & ->)]; [|by left].
        right. split; [|done]. intros <-. congruence. }
  assert (Hheap : heap (addEdge f (id n) g1) = heap g).
  { unfold addEdge. by case_bool_decide. }
  assert (Hnodes : nodes (addEdge f (id n) g1) = nodes g1).
  { unfold addEdge. by case_bool_decide. }
  assert (Hedges : ∀ e, e ∈ edges (addEdge f (id n) g1)
                        ↔ e ∈ edges g ∨ e = (f, id n)).
  { intros e. unfold addEdge. case_bool_decide as Hin; simpl.
    - rewrite Hedges1 in *. split; [by left|]. by intros [?| ->].
    - rewrite Hedges1, elem_of_app, list_elem_of_singleton. tauto. }
  assert (Hstoredn : stored (id n) (addEdge f (id n) g1)).
  { unfold stored. rewrite Hnodes.
    destruct (nodes g !! id n) as [l|] eqn:Hl.
    - exists l. apply Hnodes1. by left.
    - exists toNode. apply Hnodes1. by right. }
  assert (Hkeep : ∀ i l, nodes g !! i = Some l →
                         nodes (addEdge f (id n) g1) !! i = Some l).
  { intros i l Hi. rewrite Hnodes. apply Hnodes1. by left. }
  split; [done|]. split; [|split; [|split; [done|split; [|split]]]].
  - split.
    + intros i l Hi. rewrite Hnodes in Hi. rewrite Hheap.
      apply Hnodes1 in Hi as [Hi|(_ & -> & ->)]; [by apply Hwf|].
      exists n. split; [done|]. split; [done|]. apply Hwfn.
    + intros p c Hin. apply Hedges in Hin as [Hin|[= -> ->]].
      * destruct (Hclosed _ _ Hin) as [[lp Hp] [lc Hc]].
        split; eexists; by apply Hkeep.
      * split; [|done]. destruct Hf as [lf Hlf]. eexists. by apply Hkeep.
  - unfold addEdge. by case_bool_decide.
  - intros i [l Hi]. rewrite Hnodes in Hi.
    apply Hnodes1 in Hi as [Hi|(_ & -> & _)]; [left; by exists l|].
    right. apply list_elem_of_here.
  - intros e. rewrite Hedges. split.
    + intros [?| ->]; [by left|]. right. split; [done|apply list_elem_of_here].
    + intros [?|[H1 H2%list_elem_of_singleton]]; [by left|].
      right. destruct e. simpl in *. by subst.
  - intros t ->%list_elem_of_singleton. done.
Qed.

Lemma connected_nil f g : consistent g → connected f [] g g.
Proof.
  intros Hc. split; [done|]. split; [done|]. split; [done|].
  split; [done|]. split; [by left|]. split.
  - intros e. split; [by left|]. by intros [?|[_ ?%elem_of_nil]].
  - by intros t ?%elem_of_nil.
Qed.

Lemma connected_app f T1 T2 g1 g2 g3 :
  connected f T1 g1 g2 → connected f T2 g2 g3 → connected f (T1 ++ T2) g1 g3.
Proof.
  intros (H1 & C1 & L1 & K1 & S1 & E1 & A1) (H2 & C2 & L2 & K2 & S2 & E2 & A2).
  split; [congruence|]. split; [done|]. split; [congruence|].
  split; [intros i l Hi; by apply K2, K1|]. split; [|split].
  - intros i Hi. rewrite elem_of_app.
    destruct (S2 i Hi) as [Hi2|?]; [|tauto].
    destruct (S1 i Hi2); tauto.
  - intros e. rewrite E2, E1, elem_of_app. tauto.
  - intros t [Ht|Ht]%elem_of_app; [|by apply A2].
    destruct (A1 t Ht) as [l Hl]. exists l. by apply K2.
Qed.

Lemma connect_all f toNodes : ∀ T g,
  consistent g → stored f g → nodesAt g toNodes T →
  ∃ g',
    forEach toNodes (λ toNode,
      let* n := read toNode in
      let* existing := getNode (id n) in
      match existing with
      | Some _ => ret tt
      | None => addNode toNode >> ret tt
      end >>
      update_state (addEdge f (id n))) g = (Returned tt, g')
    ∧ connected f T g g'.
Proof.
  induction toNodes as [|toNode ls IH]; intros T g Hcons Hf Hat.
  - inversion Hat; subst. exists g. split; [done|]. by apply connected_nil.
  - inversion Hat as [|? t ? T' (n & Hn & Hid & Hwfn) Hrest]; subst.
    destruct (connect_step f toNode g n Hcons Hf Hn Hwfn) as (g1 & Hstep & Hc1).
    simpl. rewrite (bind_returned _ _ _ _ _ Hstep).
    destruct Hc1 as (Hh1 & Hcons1 & Hrest1).
    destruct (IH T' g1) as (g' & Hall & Hc2); [done| |by unfold nodesAt; rewrite Hh1|].
    { destruct Hf as [l Hl]. exists l. by apply Hrest1. }
    exists g'. split; [done|].
    by apply (connected_app f [id n] T' g g1 g').
Qed.

(** ** [replaceNodesConnectedTo]: the second loop *)

Lemma removeNode_shrunk node g x :
  consistent g → nodes g !! x = Some node → parentIds x g = [] →
  shrunk g (removeNode node g).2 ∧ consistent (removeNode node g).2.
Proof. intros. unfold removeNode. by eapply removeNode_upto_shrunk. Qed.

(** The body of the second loop. *)
Lemma disconnect_step f c g :
  consistent g →
  disconnected f [c] g
    ((update_state (removeEdge f c) >>
      let* g := get_state in
      match nodes g !! c with
      | Some child =>
          if bool_decide (parentIds c g = []) then removeNode child else ret tt
      | None => ret tt
      end) g).2.
Proof.
  intros [Hwf Hclosed].
  unfold bind at 1, update_state at 1. unfold bind at 1, get_state at 1.
  set (gr := removeEdge f c g).
  assert (Hcons : consistent gr).
  { split; [done|]. intros p c' Hin.
    apply list_elem_of_filter in Hin as [_ Hin]. by apply Hclosed. }
  assert (Hcut : shrunk gr
            ((match nodes gr !! c with
              | Some child =>
                  if bool_decide (parentIds c gr = [])
                  then removeNode child else ret tt
              | None => ret tt
              end) gr).2
          ∧ consistent
            ((match nodes gr !! c with
              | Some child =>
                  if bool_decide (parentIds c gr = [])
                  then removeNode child else ret tt
              | None => ret tt
              end) gr).2).
  { destruct (nodes gr !! c) as [child|] eqn:Hchild;
      [|split; [apply shrunk_refl|done]].
    case_bool_decide as Horph; [|split; [apply shrunk_refl|done]].
    by eapply removeNode_shrunk. }
  destruct Hcut as [(Hh & Hn & He & Hk & Hl & Hr) Hcons'].
  split; [done|]. split; [done|]. split; [done|]. split; [|split; [|done]].
  - intros e Hin. apply He in Hin.
    apply list_elem_of_filter in Hin as [Hne Hin]. split; [done|].
    intros [H1 H2%list_elem_of_singleton]. destruct e; simpl in *. by subst.
  - intros q c' Hin Hq Hnot. apply Hk; [|done].
    apply list_elem_of_filter. split; [|done].
    intros [= -> ->]. apply Hnot. split; [done|apply list_elem_of_here].
Qed.

Lemma disconnected_nil f g : consistent g → disconnected f [] g g.
Proof.
  intros Hc. split; [done|]. split; [done|]. split; [done|]. split.
  { intros e He. split; [done|]. by intros [_ ?%elem_of_nil]. }
  split; [done|]. split; [done|]. intros i l Hi Hn. congruence.
Qed.

Lemma disconnected_app f cs1 cs2 g1 g2 g3 :
  disconnected f cs1 g1 g2 → disconnected f cs2 g2 g3 →
  disconnected f (cs1 ++ cs2) g1 g3.
Proof.
  intros (H1 & C1 & N1 & E1 & K1 & L1 & R1) (H2 & C2 & N2 & E2 & K2 & L2 & R2).
  split; [congruence|]. split; [done|].
  split; [intros i l Hi; by apply N1, N2|]. split; [|split; [|split]].
  - intros e He. destruct (E2 e He) as [He2 Hn2].
    destruct (E1 e He2) as [He1 Hn1]. split; [done|].
    rewrite elem_of_app. tauto.
  - intros q c Hin Hq Hnot. rewrite elem_of_app in Hnot.
    apply K2; [|done|tauto]. apply K1; [done| |tauto].
    destruct Hq as [l Hl]. exists l. by apply N2.
  - by etrans.
  - intros i l Hi Hnone. eapply removedSince_prefix; [done..|].
    destruct (nodes g2 !! i) as [l2|] eqn:Hi2.
    + right. apply (R2 i); [|done]. pose proof (N1 _ _ Hi2). congruence.
    + left. by apply (R1 i).
Qed.

Lemma disconnect_all f cs : ∀ g g',
  consistent g →
  forEach cs (λ c,
    update_state (removeEdge f c) >>
    let* g := get_state in
    match nodes g !! c with
    | Some child =>
        if bool_decide (parentIds c g = []) then removeNode child else ret tt
    | None => ret tt
    end) g = (Returned tt, g') →
  disconnected f cs g g'.
Proof.
  induction cs as [|c cs IH]; intros g g' Hcons Hrun.
  - simpl in Hrun. injection Hrun as <-. by apply disconnected_nil.
  - simpl in Hrun. pose proof (disconnect_step f c g Hcons) as Hstep.
    unfold bind at 1 in Hrun.
    destruct ((update_state (removeEdge f c) >>
      let* g := get_state in
      match nodes g !! c with
      | Some child =>
          if bool_decide (parentIds c g = []) then removeNode child else ret tt
      | None => ret tt
      end) g) as [[[]|] g1] eqn:Hbody; [|discriminate].
    simpl in Hstep.
    apply (disconnected_app f [c] cs g g1 g'); [done|].
    apply IH; [apply Hstep|done].
Qed.

(** ** [replaceNodesConnectedTo] *)

Lemma idsAt_returned g toNodes T :
  Forall2 (λ l t, ∃ n, heap g !! l = Some n ∧ id n = t) toNodes T →
  mapM (λ l, let* n := read l in ret (id n)) toNodes g = (Returned T, g).
Proof.
  induction 1 as [|l t ls T' (n & Hn & Hid) _ IH]; [done|].
  cbn [mapM]. unfold bind at 1.
  rewrite (bind_returned _ _ _ _ _ (read_returned _ _ _ Hn)).
  unfold ret at 1.
  rewrite (bind_returned _ _ _ _ _ IH). by rewrite Hid.
Qed.

Lemma nodesAt_ids g toNodes T :
  nodesAt g toNodes T →
  mapM (λ l, let* n := read l in ret (id n)) toNodes g = (Returned T, g).
Proof.
  intros Hat. apply idsAt_returned.
  eapply Forall2_impl; [exact Hat|]. intros l t (n & ? & ? & _). eauto.
Qed.

Lemma replaceNodesConnectedTo_rewired fromNode toNodes from T g g' :
  consistent g → heap g !! fromNode = Some from → nodesAt g toNodes T →
  replaceNodesConnectedTo fromNode toNodes g = (Returned tt, g') →
  stored (id from) g ∧ rewired (id from) T g g'.
Proof.
  intros Hcons Hfrom Hat Hrun. unfold replaceNodesConnectedTo in Hrun.
  rewrite (bind_returned _ _ _ _ _ (read_returned _ _ _ Hfrom)) in Hrun.
  unfold bind at 1, hasNode at 1 in Hrun.
  case_bool_decide as Hf; simpl in Hrun; [|discriminate].
  unfold bind at 1 in Hrun. simpl in Hrun.
  unfold bind at 1, get_state at 1 in Hrun.
  rewrite (bind_returned _ _ _ _ _ (nodesAt_ids _ _ _ Hat)) in Hrun.
  destruct (connect_all (id from) toNodes T g Hcons Hf Hat)
    as (ga & Hadd & Hconn).
  rewrite (bind_returned _ _ _ _ _ Hadd) in Hrun.
  destruct Hconn as (Ha & Ca & La & Ka & Sa & Ea & Aa).
  apply disconnect_all in Hrun; [|done].
  destruct Hrun as (Hd & Cd & Nd & Ed & Kd & Ld & Rd).
  split; [done|].
  split; [congruence|]. split; [done|]. split; [|split; [|split; [|split]]].
  - intros i l l' Hi Hi'. apply Nd in Hi'. apply Ka in Hi. congruence.
  - intros Hst c. split.
    + intros Hin. destruct (Ed _ Hin) as [Hin' Hnot].
      apply Ea in Hin' as [Hin'|[_ ?]]; [|done].
      destruct (decide (c ∈ T)) as [|Hno]; [done|].
      destruct Hnot. split; [done|]. simpl.
      apply list_elem_of_filter. split; [done|].
      by apply elem_of_childIds.
    + intros Hc. apply Kd; [apply Ea; by right|done|].
      intros [_ Hin]. apply list_elem_of_filter in Hin as [Hno _]. done.
  - intros q c Hne Hq. split.
    + intros Hin. destruct (Ed _ Hin) as [Hin' _].
      apply Ea in Hin' as [?|[? _]]; done.
    + intros Hin. apply Kd; [apply Ea; by left|done|]. by intros [? _].
  - by rewrite <- La.
  - intros i l Hi Hnone. apply Ka in Hi.
    pose proof (Rd i l Hi Hnone) as Hlog.
    unfold removedSince in *. by rewrite <- La.
Qed.

(** ** Field writes *)

Lemma sameButUsedSymbols_refl n : sameButUsedSymbols n n.
Proof. by destruct n. Qed.

Lemma sameButUsedSymbols_trans n1 n2 n3 :
  sameButUsedSymbols n1 n2 → sameButUsedSymbols n2 n3 →
  sameButUsedSymbols n1 n3.
Proof.
  unfold sameButUsedSymbols, set_usedSymbols.
  destruct n1, n2, n3; simpl. intros [= -> -> -> -> -> ->] [= -> -> -> -> -> ->].
  done.
Qed.

Lemma touched_refl U W h : touched U W h h.
Proof.
  intros l n Hl. exists n. split; [done|]. split; [done|]. split; [done|].
  split; [intros _; apply sameButUsedSymbols_refl|done].
Qed.

Lemma touched_trans U W h1 h2 h3 :
  touched U W h1 h2 → touched U W h2 h3 → touched U W h1 h3.
Proof.
  intros H12 H23 l n Hl.
  destruct (H12 l n Hl) as (n2 & Hl2 & Hid2 & Hv2 & Hu2 & Hs2).
  destruct (H23 l n2 Hl2) as (n3 & Hl3 & Hid3 & Hv3 & Hu3 & Hs3).
  exists n3. split; [done|]. split; [congruence|]. split; [congruence|].
  split.
  - intros HW. eapply sameButUsedSymbols_trans; [by apply Hu2|by apply Hu3].
  - intros HW HU. rewrite (Hs3 HW HU). by apply Hs2.
Qed.

Lemma touched_mono (U W U' W' : loc → Prop) h h' :
  (∀ l, W l → W' l) → (∀ l, U l → U' l ∨ W' l) →
  touched U W h h' → touched U' W' h h'.
Proof.
  intros HW HU Ht l n Hl.
  destruct (Ht l n Hl) as (n' & Hl' & Hid & Hv & Hu & Hs).
  exists n'. split; [done|]. split; [done|]. split; [done|]. split.
  - intros HW'. apply Hu. intros ?. by apply HW', HW.
  - intros HW' HU'. apply Hs; [intros ?; by apply HW', HW|].
    intros HUl. destruct (HU l HUl); tauto.
Qed.

Lemma touched_length U W h h' : touched U W h h' → length h ≤ length h'.
Proof.
  intros Ht. destruct (decide (length h ≤ length h')) as [|Hlt]; [done|].
  destruct (lookup_lt_is_Some_2 h (length h')) as [n Hn]; [lia|].
  destruct (Ht _ _ Hn) as (n' & Hn' & _).
  apply lookup_lt_Some in Hn'. lia.
Qed.

Lemma touched_app U W (h fresh : list Node) : touched U W h (h ++ fresh).
Proof.
  intros l n Hl. exists n. split; [by apply lookup_app_l_Some|].
  split; [done|]. split; [done|].
  split; [intros _; apply sameButUsedSymbols_refl|done].
Qed.

Lemma touched_insert (U W : loc → Prop) (h : list Node) l n f :
  h !! l = Some n → id (f n) = id n → value (f n) = value n →
  W l ∨ (U l ∧ sameButUsedSymbols n (f n)) →
  touched U W h (<[l := f n]> h).
Proof.
  intros Hl Hid Hv Hwhich l' n' Hl'.
  destruct (decide (l' = l)) as [->|Hne].
  - assert (n' = n) as -> by congruence.
    exists (f n). rewrite list_lookup_insert_eq by (by eapply lookup_lt_Some).
    split; [done|]. split; [done|]. split; [done|].
    destruct Hwhich as [HW|[HU Hs]]; split; tauto.
  - exists n'. rewrite list_lookup_insert_ne by done.
    split; [done|]. split; [done|]. split; [done|].
    split; [intros _; apply sameButUsedSymbols_refl|done].
Qed.

Lemma quiet_refl U W g : quiet U W g g.
Proof. split; [done|]. split; [done|]. split; [done|]. apply touched_refl. Qed.

Lemma quiet_trans U W g1 g2 g3 :
  quiet U W g1 g2 → quiet U W g2 g3 → quiet U W g1 g3.
Proof.
  intros (N1 & E1 & L1 & T1) (N2 & E2 & L2 & T2).
  split; [congruence|]. split; [congruence|]. split; [congruence|].
  by eapply touched_trans.
Qed.

Lemma quiet_mono (U W U' W' : loc → Prop) g g' :
  (∀ l, W l → W' l) → (∀ l, U l → U' l ∨ W' l) →
  quiet U W g g' → quiet U' W' g g'.
Proof.
  intros HW HU (N & E & L & T). split; [done|]. split; [done|].
  split; [done|]. by eapply touched_mono.
Qed.

Lemma touched_wellFormed U W g g' :
  nodes g' = nodes g → touched U W (heap g) (heap g') →
  wellFormed g → wellFormed g'.
Proof.
  intros HN Ht Hwf i l Hi. rewrite HN in Hi.
  destruct (Hwf i l Hi) as (n & Hn & Hid & Hdep).
  destruct (Ht l n Hn) as (n' & Hn' & Hid' & Hv' & _).
  exists n'. split; [done|]. split; [congruence|].
  intros dep Hd. rewrite Hv' in Hd. by apply Hdep.
Qed.

Lemma quiet_consistent U W g g' : quiet U W g g' → consistent g → consistent g'.
Proof.
  intros (N & E & L & T) [Hwf Hcl]. split; [by eapply touched_wellFormed|].
  intros p c Hin. rewrite E in Hin. unfold stored. rewrite N.
  by apply Hcl.
Qed.

(** ** Runs *)

Lemma removedIds_earlier U W g1 g2 g3 i :
  removedLog g1 `prefix_of` removedLog g2 →
  removedLog g2 `prefix_of` removedLog g3 →
  touched U W (heap g2) (heap g3) →
  removedIds g1 g2 i → removedIds g1 g3 i.
Proof.
  intros P12 P23 Ht (l & n & Hl & Hn & Hid).
  destruct (Ht l n Hn) as (n' & Hn' & Hid' & _).
  exists l, n'. split; [|split; [done|congruence]].
  eapply removedSince_prefix; [done..|]. by left.
Qed.

Lemma removedIds_later g1 g2 g3 i :
  removedLog g1 `prefix_of` removedLog g2 →
  removedLog g2 `prefix_of` removedLog g3 →
  removedIds g2 g3 i → removedIds g1 g3 i.
Proof.
  intros P12 P23 (l & n & Hl & Hn & Hid).
  exists l, n. split; [|done].
  eapply removedSince_prefix; [done..|]. by right.
Qed.

Lemma rewired_kept p T g g' i l :
  wellFormed g → rewired p T g g' → nodes g !! i = Some l →
  removedIds g g' i ∨ nodes g' !! i = Some l.
Proof.
  intros Hwf (Hh & _ & Hloc & _ & _ & _ & Hlog) Hi.
  destruct (nodes g' !! i) as [l'|] eqn:Hi'.
  - right. f_equal. by eapply Hloc.
  - left. destruct (Hwf i l Hi) as (n & Hn & Hid & _).
    exists l, n. split; [by eapply Hlog|]. by rewrite Hh.
Qed.

(** What a run leaves of the graph it started from. *)
Lemma ran_evolved U W ps g g' :
  ran U W ps g g' → consistent g →
  consistent g'
  ∧ touched U W (heap g) (heap g')
  ∧ removedLog g `prefix_of` removedLog g'
  ∧ ∀ p l, nodes g !! p = Some l →
      removedIds g g' p
      ∨ (nodes g' !! p = Some l
         ∧ (p ∉ ps.*1 → ∀ c, (p, c) ∈ edges g' ↔ (p, c) ∈ edges g)).
Proof.
  induction 1 as [g g' Hq|p T g g' Hp Hr|ps qs g1 g2 g3 _ IH1 _ IH2];
    intros Hcons.
  - split; [by eapply quiet_consistent|].
    destruct Hq as (N & E & L & Ht). split; [done|].
    split; [by rewrite L|].
    intros p l Hp. right. rewrite N, E. done.
  - pose proof Hr as (Hh & Hc' & Hloc & Hown & Hother & Hpre & Hlog).
    split; [done|]. split; [rewrite Hh; apply touched_refl|].
    split; [done|].
    intros q l Hq.
    destruct (rewired_kept p T g g' q l (proj1 Hcons) Hr Hq) as [?|Hq'];
      [by left|].
    right. split; [done|]. intros Hne c. apply Hother; [|by eexists].
    intros ->. apply Hne. simpl. apply list_elem_of_here.
  - destruct (IH1 Hcons) as (C2 & T12 & P12 & K12).
    destruct (IH2 C2) as (C3 & T23 & P23 & K23).
    split; [done|]. split; [by eapply touched_trans|].
    split; [by etrans|].
    intros p l Hp.
    destruct (K12 p l Hp) as [Hrem|[Hp2 E12]].
    { left. by eapply removedIds_earlier. }
    destruct (K23 p l Hp2) as [Hrem|[Hp3 E23]].
    { left. by eapply removedIds_later. }
    right. split; [done|]. rewrite fmap_app. intros [H1 H2]%not_elem_of_app c.
    rewrite (E23 H2 c). by apply E12.
Qed.

(** ** Runs whose calls are chained *)

Lemma chainedFrom_app seen A B :
  chainedFrom seen (A ++ B)
  = chainedFrom seen A && chainedFrom (seen ++ concat A.*2) B.
Proof.
  revert seen. induction A as [|st A IH]; intros seen.
  - cbn. by rewrite app_nil_r.
  - cbn [app chainedFrom fmap list_fmap concat]. rewrite IH.
    by rewrite <- andb_assoc, <- app_assoc.
Qed.

Lemma chainedFrom_all seen ps :
  (∀ p T, (p, T) ∈ ps → p ∈ seen) → chainedFrom seen ps = true.
Proof.
  revert seen. induction ps as [|[p T] ps IH]; intros seen Hall; [done|].
  cbn [chainedFrom fst snd]. apply andb_true_iff. split.
  - apply bool_decide_eq_true. by apply (Hall p T), list_elem_of_here.
  - apply IH. intros q Tq Hin. apply elem_of_app. left.
    by apply (Hall q Tq), list_elem_of_further.
Qed.

Lemma inPlace_nil g : inPlace [] g.
Proof. by intros q T ?%elem_of_nil. Qed.

Lemma inPlace_same A g g' :
  nodes g' = nodes g → edges g' = edges g → inPlace A g → inPlace A g'.
Proof. unfold inPlace, stored. intros -> ->. done. Qed.

Lemma inPlace_settled A g p T :
  consistent g → inPlace A g → (p, T) ∈ A → settled p T g.
Proof.
  intros [_ Hcl] HA Hin _. destruct (HA p T Hin) as [_ Hch].
  split; [done|]. intros t Ht. by apply (Hcl p t), Hch.
Qed.

(** A call with another parent leaves the earlier calls in place, as long as
    their chain starts from nodes that are still stored. *)
Lemma inPlace_rewired p T g g' A :
  rewired p T g g' → p ∉ A.*1 → inPlace A g →
  ∀ seen, (∀ c, c ∈ seen → stored c g') → chainedFrom seen A = true →
  inPlace A g' ∧ ∀ c, c ∈ seen ++ concat A.*2 → stored c g'.
Proof.
  intros (_ & [_ Hcl'] & _ & _ & Hother & _) Hp HA.
  induction A as [|[q Tq] A IH]; intros seen Hseen Hch.
  { split; [by intros q Tq ?%elem_of_nil|]. cbn. by rewrite app_nil_r. }
  cbn [chainedFrom fst snd] in Hch.
  apply andb_true_iff in Hch as [Hq%bool_decide_eq_true Hch].
  cbn [fmap list_fmap fst] in Hp. apply not_elem_of_cons in Hp as [Hne Hp].
  destruct (HA q Tq (list_elem_of_here _ _)) as [_ Hchildren].
  assert (Hst : stored q g') by (by apply Hseen).
  assert (Hchildren' : ∀ c, (q, c) ∈ edges g' ↔ c ∈ Tq).
  { intros c. rewrite <- Hchildren. apply Hother; [congruence|done]. }
  destruct (IH Hp (λ q' T' Hin, HA q' T' (list_elem_of_further _ _ _ Hin))
              (seen ++ Tq)) as [HA' Hseen'].
  { intros c [Hc|Hc]%elem_of_app; [by apply Hseen|].
    by apply (Hcl' q c), Hchildren'. }
  { done. }
  split.
  - intros q' T' [[= -> ->]|Hin]%elem_of_cons; [done|by apply HA'].
  - intros c. cbn [fmap list_fmap snd concat]. rewrite app_assoc.
    apply Hseen'.
Qed.

Lemma ran_chained U W ps g g' :
  ran U W ps g g' → ∀ r A,
  consistent g → NoDup (A ++ ps).*1 → chainedFrom [r] (A ++ ps) = true →
  stored r g → ¬ removedIds g g' r → inPlace A g →
  inPlace (A ++ ps) g'.
Proof.
  induction 1 as [g g' Hq|p T g g' Hp Hr|ps qs g1 g2 g3 R1 IH1 R2 IH2];
    intros r A Hcons Hnd Hch [l Hl] Hrem HA.
  - rewrite app_nil_r. destruct Hq as (N & E & _). by eapply inPlace_same.
  - assert (Hst : stored r g').
    { destruct (rewired_kept p T g g' r l (proj1 Hcons) Hr Hl); [done|].
      by eexists. }
    rewrite fmap_app in Hnd. apply NoDup_app in Hnd as (_ & Hdisj & _).
    assert (Hp' : p ∉ A.*1).
    { intros Hin. apply (Hdisj p Hin). cbn. apply list_elem_of_here. }
    rewrite chainedFrom_app in Hch.
    apply andb_true_iff in Hch as [HchA Hchp].
    cbn [chainedFrom fst snd] in Hchp. rewrite andb_true_r in Hchp.
    apply bool_decide_eq_true in Hchp.
    destruct (inPlace_rewired p T g g' A Hr Hp' HA [r]) as [HA' Hseen];
      [by intros c ->%list_elem_of_singleton|done|].
    intros q Tq [Hin|[= -> ->]%list_elem_of_singleton]%elem_of_app;
      [by apply HA'|].
    assert (stored p g') as Hpst by (by apply Hseen).
    split; [done|]. by apply Hr.
  - destruct (ran_evolved _ _ _ _ _ R1 Hcons) as (C2 & T12 & P12 & K12).
    destruct (ran_evolved _ _ _ _ _ R2 C2) as (C3 & T23 & P23 & K23).
    assert (Hrem12 : ¬ removedIds g1 g2 r).
    { intros Hr. apply Hrem. by eapply removedIds_earlier. }
    assert (Hrem23 : ¬ removedIds g2 g3 r).
    { intros Hr. apply Hrem. by eapply removedIds_later. }
    assert (Hst2 : stored r g2).
    { destruct (K12 r l Hl) as [?|[? _]]; [done|by eexists]. }
    rewrite app_assoc in *.
    apply (IH2 r (A ++ ps)); [done..|].
    apply (IH1 r A); [done| | |by eexists|done|done].
    + rewrite fmap_app in Hnd. by apply NoDup_app in Hnd as (? & _).
    + rewrite chainedFrom_app in Hch. by apply andb_true_iff in Hch as [? _].
Qed.

Lemma ran_nil_quiet U W g g' ps :
  ran U W ps g g' → ps = [] → quiet U W g g'.
Proof.
  induction 1 as [g g' Hq|p T g g' Hp Hr|ps qs g1 g2 g3 _ IH1 _ IH2];
    intros Heq; [done|discriminate|].
  apply app_eq_nil in Heq as [-> ->].
  eapply quiet_trans; [by apply IH1|by apply IH2].
Qed.

(** The parent of the first call of a run is stored when the run starts. *)
Lemma ran_head_stored U W ps g g' :
  ran U W ps g g' → ∀ st ps', ps = st :: ps' → stored st.1 g.
Proof.
  induction 1 as [g g' Hq|p T g g' Hp Hr|ps qs g1 g2 g3 R1 IH1 _ IH2];
    intros st ps' Heq; [discriminate|by injection Heq as <- _|].
  destruct ps as [|st1 ps].
  - destruct (ran_nil_quiet _ _ _ _ _ R1 eq_refl) as (N & _).
    unfold stored. rewrite <- N. by eapply IH2.
  - injection Heq as <- _. by eapply IH1.
Qed.

Lemma noneRestored_notRestored i g g' : noneRestored g g' → notRestored i g g'.
Proof. intros Hnone Hst Hrem. by destruct (Hnone i Hrem). Qed.

Lemma chainedFrom_assetSteps i a dependentAssets :
  chainedFrom [i] (assetSteps i a dependentAssets) = true.
Proof.
  unfold assetSteps. cbn [chainedFrom fst snd].
  rewrite bool_decide_eq_true_2 by apply list_elem_of_here.
  apply chainedFrom_all. intros p T Hin. apply elem_of_app. right.
  unfold dependentSteps in Hin. apply list_elem_of_omap in Hin as (dep & Hdep & Heq).
  destruct (find _ dependentAssets) as [da|]; [|discriminate].
  injection Heq as <- _. apply list_elem_of_fmap. by exists dep.
Qed.

(** ** Calls that change nothing *)

Lemma connect_absorbed f toNodes T g :
  Forall2 (λ l t, ∃ n, heap g !! l = Some n ∧ id n = t) toNodes T →
  (∀ t, t ∈ T → stored t g ∧ (f, t) ∈ edges g) →
  forEach toNodes (λ toNode,
    let* n := read toNode in
    let* existing := getNode (id n) in
    match existing with
    | Some _ => ret tt
    | None => addNode toNode >> ret tt
    end >>
    update_state (addEdge f (id n))) g = (Returned tt, g).
Proof.
  induction 1 as [|l t ls T' (n & Hn & Hid) _ IH]; intros Hall; [done|].
  cbn [forEach]. unfold bind at 1.
  rewrite (bind_returned _ _ _ _ _ (read_returned _ _ _ Hn)).
  destruct (Hall t (list_elem_of_here _ _)) as [[lt Hlt] Hedge].
  unfold bind at 1, getNode at 1. rewrite Hid, Hlt.
  unfold bind at 1, ret at 1. unfold update_state, addEdge.
  rewrite bool_decide_eq_true_2 by done.
  apply IH. intros t' Ht'. apply Hall. by apply list_elem_of_further.
Qed.

(** The parent must be stored. *)
Lemma replaceNodesConnectedTo_unstored fromNode toNodes from g :
  heap g !! fromNode = Some from → ¬ stored (id from) g →
  replaceNodesConnectedTo fromNode toNodes g = (Threw, g).
Proof.
  intros Hfrom Hst. unfold replaceNodesConnectedTo.
  rewrite (bind_returned _ _ _ _ _ (read_returned _ _ _ Hfrom)).
  unfold bind at 1, hasNode at 1. by rewrite bool_decide_eq_false_2.
Qed.

(** [replaceNodesConnectedTo(p, T)] on a graph where the children of [p] are
    [T] already leaves everything as it is. *)
Lemma replaceNodesConnectedTo_absorbed fromNode toNodes from T g :
  heap g !! fromNode = Some from →
  Forall2 (λ l t, ∃ n, heap g !! l = Some n ∧ id n = t) toNodes T →
  settled (id from) T g →
  (replaceNodesConnectedTo fromNode toNodes g).2 = g.
Proof.
  intros Hfrom Hat Hset. unfold replaceNodesConnectedTo.
  rewrite (bind_returned _ _ _ _ _ (read_returned _ _ _ Hfrom)).
  unfold bind at 1, hasNode at 1.
  case_bool_decide as Hst; [|done].
  unfold bind at 1, invariant at 1, ret at 1.
  unfold bind at 1, get_state at 1.
  rewrite (bind_returned _ _ _ _ _ (idsAt_returned _ _ _ Hat)).
  destruct (Hset Hst) as [Hch Hstored].
  rewrite (bind_returned _ _ _ _ _ (connect_absorbed (id from) _ _ _ Hat
    (λ t Ht, conj (Hstored t Ht) (proj2 (Hch t) Ht)))).
  assert (filter (λ c, c ∉ T) (childIds (id from) g) = []) as ->; [|done].
  destruct (filter (λ c, c ∉ T) (childIds (id from) g)) as [|c cs] eqn:Hf;
    [done|].
  assert (c ∈ filter (λ c, c ∉ T) (childIds (id from) g)) as Hin
    by (rewrite Hf; apply list_elem_of_here).
  apply list_elem_of_filter in Hin as [Hno Hin].
  destruct Hno. by apply Hch, elem_of_childIds.
Qed.

(** ** What is seen of a graph *)

Lemma set_heap_id g : set_heap (heap g) g = g.
Proof. by destruct g. Qed.

Lemma set_correspondingRequest_twice r n :
  set_correspondingRequest r (set_correspondingRequest r n)
  = set_correspondingRequest r n.
Proof. done. Qed.

Lemma quiet_view U W g g' :
  wellFormed g → quiet U W g g' →
  (∀ i l, nodes g !! i = Some l → ¬ W l ∧ ¬ U l) →
  view g' = view g.
Proof.
  intros Hwf (N & E & _ & Ht) Hout. unfold view. rewrite N, E. f_equal.
  apply map_fmap_ext. intros i l Hi.
  destruct (Hwf i l Hi) as (n & Hn & _).
  destruct (Ht l n Hn) as (n' & Hn' & _ & _ & _ & Hsame).
  destruct (Hout i l Hi) as [HW HU]. rewrite Hn, Hn'. f_equal. by apply Hsame.
Qed.

Lemma wellFormed_stored_lt g i l :
  wellFormed g → nodes g !! i = Some l → l < length (heap g).
Proof.
  intros Hwf Hi. destruct (Hwf i l Hi) as (n & Hn & _).
  by eapply lookup_lt_Some.
Qed.

(** Objects created since [g] are not seen. *)
Lemma fresh_view g g' :
  wellFormed g → quiet (λ _, False) (λ l, length (heap g) ≤ l) g g' →
  view g' = view g.
Proof.
  intros Hwf Hq. eapply quiet_view; [done..|].
  intros i l Hi. pose proof (wellFormed_stored_lt g i l Hwf Hi). split; lia.
Qed.

Lemma settled_same p T g g' :
  nodes g' = nodes g → edges g' = edges g → settled p T g → settled p T g'.
Proof. unfold settled, stored. intros -> ->. done. Qed.

Lemma rewired_settled p T g g' : rewired p T g g' → settled p T g'.
Proof.
  intros (_ & [_ Hcl] & _ & Hown & _) Hst. split; [by apply Hown|].
  intros t Ht. by apply (Hcl p t), Hown.
Qed.

Lemma quiet_alloc U W n g :
  quiet U W g (set_heap (heap g ++ [n]) g).
Proof.
  split; [done|]. split; [done|]. split; [done|]. apply touched_app.
Qed.

Lemma quiet_extend U W ns g :
  quiet U W g (set_heap (heap g ++ ns) g).
Proof.
  split; [done|]. split; [done|]. split; [done|]. apply touched_app.
Qed.

Lemma quiet_write (U W : loc → Prop) g l n f :
  heap g !! l = Some n → id (f n) = id n → value (f n) = value n →
  W l ∨ (U l ∧ sameButUsedSymbols n (f n)) →
  quiet U W g (set_heap (<[l := f n]> (heap g)) g).
Proof.
  intros. split; [done|]. split; [done|]. split; [done|].
  by apply touched_insert.
Qed.

Lemma quiet_length U W g g' :
  quiet U W g g' → length (heap g) ≤ length (heap g').
Proof. intros (_ & _ & _ & Ht). by eapply touched_length. Qed.

(** The objects made from [ns], appended to a heap. *)
Lemma fresh_nodesAt ns : ∀ (h : list Node) g,
  heap g = h ++ ns → Forall wfNode ns →
  nodesAt g (seq (length h) (length ns)) (id <$> ns).
Proof.
  induction ns as [|n ns IH]; intros h g Hh Hwf; [constructor|].
  apply Forall_cons in Hwf as [Hn Hns]. cbn [length seq fmap list_fmap].
  constructor.
  - exists n. rewrite Hh, lookup_app_r, Nat.sub_diag by lia. done.
  - replace (S (length h)) with (length (h ++ [n]))
      by (rewrite length_app; simpl; lia).
    apply IH; [|done]. by rewrite <- app_assoc.
Qed.

Lemma mapM_alloc {A} (mk : A → Node) xs : ∀ g,
  mapM (λ x, alloc (mk x)) xs g
  = (Returned (seq (length (heap g)) (length xs)),
     set_heap (heap g ++ (mk <$> xs)) g).
Proof.
  induction xs as [|x xs IH]; intros g.
  - cbn. by rewrite app_nil_r, set_heap_id.
  - cbn [mapM]. rewrite (bind_returned _ _ _ _ _ (alloc_returned _ _)).
    rewrite (bind_returned _ _ _ _ _ (IH _)). unfold ret. cbn.
    rewrite length_app, <- app_assoc. cbn.
    by replace (length (heap g) + 1) with (S (length (heap g))) by lia.
Qed.

Lemma nodesAt_ids_only g ls T :
  nodesAt g ls T →
  Forall2 (λ l t, ∃ n, heap g !! l = Some n ∧ id n = t) ls T.
Proof.
  intros Hat. eapply Forall2_impl; [exact Hat|].
  intros l t (n & ? & ? & _). eauto.
Qed.

Lemma nodesAt_touched U W g g' ls T :
  touched U W (heap g) (heap g') → nodesAt g ls T → nodesAt g' ls T.
Proof.
  intros Ht Hat. eapply Forall2_impl; [exact Hat|].
  intros l t (n & Hn & Hid & Hwf).
  destruct (Ht l n Hn) as (n' & Hn' & Hid' & Hv' & _).
  exists n'. split; [done|]. split; [congruence|].
  intros dep Hd. rewrite Hv' in Hd. rewrite Hid'. by apply Hwf.
Qed.

(** The same call again, on the graph the first one left and with other
    objects of the same ids. *)
Lemma replaceNodesConnectedTo_twice l ls ls' T from ga g1 gb :
  consistent ga → heap ga !! l = Some from → nodesAt ga ls T →
  replaceNodesConnectedTo l ls ga = (Returned tt, g1) →
  quiet (λ _, False) (λ l, length (heap g1) ≤ l) g1 gb →
  Forall2 (λ l t, ∃ n, heap gb !! l = Some n ∧ id n = t) ls' T →
  view (replaceNodesConnectedTo l ls' gb).2 = view g1.
Proof.
  intros Hcons Hfrom Hat Hrun Hq Hat'.
  destruct (replaceNodesConnectedTo_rewired _ _ _ _ _ _ Hcons Hfrom Hat Hrun)
    as [_ Hr].
  pose proof (rewired_settled _ _ _ _ Hr) as Hset.
  pose proof Hr as (Hh & [Hwf1 _] & _).
  pose proof Hq as (N & E & _ & Ht).
  assert (heap gb !! l = Some from) as Hfrom'.
  { rewrite <- Hh in Hfrom.
    destruct (Ht l from Hfrom) as (n' & Hn' & _ & _ & _ & Hsame).
    rewrite Hn'. f_equal. apply Hsame; [|tauto].
    apply lookup_lt_Some in Hfrom. lia. }
  rewrite (replaceNodesConnectedTo_absorbed l ls' from T gb); [|done..|].
  - by apply fresh_view.
  - by eapply settled_same.
Qed.

(** ** Calling a resolver twice: the resolvers of one call *)

Section Twice.
Context `{!Md5FromObject AssetGroup, !Md5FromObject Entry}.
Context `{!CreateDependency}.

Lemma resolveDependency_stored dep assetGroup request g l n :
  nodes g !! dep_id dep = Some l → heap g !! l = Some n →
  type n = dependency →
  resolveDependency dep assetGroup request g
  = match assetGroup with
    | Some assetGroup =>
        replaceNodesConnectedTo l [length (heap g)]
          (set_heap (<[l := set_correspondingRequest (Some request) n]> (heap g)
                     ++ [nodeFromAssetGroup assetGroup]) g)
    | None =>
        (Returned tt,
         set_heap (<[l := set_correspondingRequest (Some request) n]> (heap g)) g)
    end.
Proof.
  intros Hl Hn Ht. unfold resolveDependency.
  unfold bind at 1, getNode at 1. rewrite Hl.
  cbn [nullthrows]. unfold bind at 1, ret at 1.
  rewrite (bind_returned _ _ _ _ _ (read_returned _ _ _ Hn)).
  rewrite Ht, bool_decide_eq_true_2 by done.
  unfold bind at 1, invariant at 1, ret at 1.
  rewrite (bind_returned _ _ _ _ _ (write_returned _ _ _ _ Hn)).
  destruct assetGroup as [ag|]; [|done].
  rewrite (bind_returned _ _ _ _ _ (alloc_returned _ _)).
  cbn [heap set_heap]. by rewrite length_insert.
Qed.

Lemma resolveDependency_absent dep assetGroup request g :
  nodes g !! dep_id dep = None →
  resolveDependency dep assetGroup request g = (Threw, g).
Proof.
  intros Hl. unfold resolveDependency. unfold bind at 1, getNode at 1.
  by rewrite Hl.
Qed.

Lemma resolveDependency_returned dep assetGroup request g g1 :
  wellFormed g →
  resolveDependency dep assetGroup request g = (Returned tt, g1) →
  ∃ l n, nodes g !! dep_id dep = Some l ∧ heap g !! l = Some n
         ∧ id n = dep_id dep ∧ type n = dependency.
Proof.
  intros Hwf Hrun. unfold resolveDependency in Hrun.
  unfold bind at 1, getNode at 1 in Hrun.
  destruct (nodes g !! dep_id dep) as [l|] eqn:Hl; [|discriminate].
  cbn [nullthrows] in Hrun. unfold bind at 1, ret at 1 in Hrun.
  destruct (Hwf _ _ Hl) as (n & Hn & Hid & _).
  rewrite (bind_returned _ _ _ _ _ (read_returned _ _ _ Hn)) in Hrun.
  unfold bind at 1, invariant at 1 in Hrun.
  case_bool_decide as Ht; [|discriminate].
  by exists l, n.
Qed.

Lemma resolveDependency_twice dep assetGroup request g g1 :
  consistent g →
  resolveDependency dep assetGroup request g = (Returned tt, g1) →
  view (resolveDependency dep assetGroup request g1).2 = view g1.
Proof.
  intros Hcons Hrun.
  destruct (resolveDependency_returned _ _ _ _ _ (proj1 Hcons) Hrun)
    as (l & n & Hl & Hn & Hid & Ht).
  rewrite (resolveDependency_stored _ _ _ _ _ _ Hl Hn Ht) in Hrun.
  set (nw := set_correspondingRequest (Some request) n) in *.
  destruct assetGroup as [ag|].
  - set (ga := set_heap (<[l:=nw]> (heap g) ++ [nodeFromAssetGroup ag]) g) in *.
    assert (Hga : heap ga !! l = Some nw).
    { unfold ga. cbn [heap set_heap]. apply lookup_app_l_Some.
      apply list_lookup_insert_eq. by eapply lookup_lt_Some. }
    assert (Hqa : quiet (λ _, True) (λ _, True) g ga).
    { eapply (quiet_trans _ _ _ (set_heap (<[l:=nw]> (heap g)) g));
        [|exact (quiet_extend _ _ [nodeFromAssetGroup ag]
                   (set_heap (<[l:=nw]> (heap g)) g))].
      apply (quiet_write _ _ g l n); auto. }
    pose proof (quiet_consistent _ _ _ _ Hqa Hcons) as Hcons_a.
    assert (Hat : nodesAt ga [length (heap g)] [id (nodeFromAssetGroup ag)]).
    { replace (length (heap g)) with (length (<[l:=nw]> (heap g)))
        by apply length_insert.
      apply (fresh_nodesAt [nodeFromAssetGroup ag] (<[l:=nw]> (heap g)) ga);
        [done|]. constructor; [|constructor]. intros d Hd. discriminate. }
    destruct (replaceNodesConnectedTo_rewired _ _ _ _ _ _ Hcons_a Hga Hat Hrun)
      as [_ Hr].
    pose proof Hr as (Hh & _ & Hloc & _).
    destruct (nodes g1 !! dep_id dep) as [l'|] eqn:Hl';
      [|by rewrite resolveDependency_absent].
    assert (l' = l) as -> by (by eapply Hloc).
    assert (Hg1 : heap g1 !! l = Some nw) by (by rewrite Hh).
    rewrite (resolveDependency_stored _ _ _ _ _ _ Hl' Hg1 Ht).
    replace (set_correspondingRequest (Some request) nw) with nw by done.
    rewrite list_insert_id by done.
    eapply replaceNodesConnectedTo_twice; [done..| |].
    + apply (quiet_extend _ _ [_]).
    + apply nodesAt_ids_only.
      by apply (fresh_nodesAt [nodeFromAssetGroup ag] (heap g1)
                  (set_heap (heap g1 ++ [nodeFromAssetGroup ag]) g1));
        [|constructor; [intros d Hd; discriminate|constructor]].
  - injection Hrun as <-.
    assert (Hg1 : heap (set_heap (<[l:=nw]> (heap g)) g) !! l = Some nw).
    { apply list_lookup_insert_eq. by eapply lookup_lt_Some. }
    rewrite (resolveDependency_stored dep None request
               (set_heap (<[l:=nw]> (heap g)) g) l nw Hl Hg1 Ht).
    cbn [snd heap set_heap].
    replace (set_correspondingRequest (Some request) nw) with nw by done.
    rewrite list_insert_insert_eq. done.
Qed.

(** *** [resolveEntry] *)

Lemma resolveEntry_stored entry resolved request g l n :
  nodes g !! id (nodeFromEntrySpecifier entry) = Some l →
  heap g !! l = Some n → type n = entry_specifier →
  resolveEntry entry resolved request g
  = replaceNodesConnectedTo l (seq (length (heap g)) (length resolved))
      (set_heap (<[l := set_correspondingRequest (Some request) n]> (heap g)
                 ++ (nodeFromEntryFile <$> resolved)) g).
Proof.
  intros Hl Hn Ht. unfold resolveEntry.
  unfold bind at 1, getNode at 1. rewrite Hl.
  cbn [nullthrows]. unfold bind at 1, ret at 1.
  rewrite (bind_returned _ _ _ _ _ (read_returned _ _ _ Hn)).
  rewrite Ht, bool_decide_eq_true_2 by done.
  unfold bind at 1, invariant at 1, ret at 1.
  rewrite (bind_returned _ _ _ _ _ (write_returned _ _ _ _ Hn)).
  rewrite (bind_returned _ _ _ _ _ (mapM_alloc _ _ _)).
  cbn [heap set_heap]. by rewrite length_insert.
Qed.

Lemma resolveEntry_absent entry resolved request g :
  nodes g !! id (nodeFromEntrySpecifier entry) = None →
  resolveEntry entry resolved request g = (Threw, g).
Proof.
  intros Hl. unfold resolveEntry. unfold bind at 1, getNode at 1.
  by rewrite Hl.
Qed.

Lemma resolveEntry_returned entry resolved request g g1 :
  wellFormed g →
  resolveEntry entry resolved request g = (Returned tt, g1) →
  ∃ l n, nodes g !! id (nodeFromEntrySpecifier entry) = Some l
         ∧ heap g !! l = Some n ∧ type n = entry_specifier.
Proof.
  intros Hwf Hrun. unfold resolveEntry in Hrun.
  unfold bind at 1, getNode at 1 in Hrun.
  destruct (nodes g !! id (nodeFromEntrySpecifier entry)) as [l|] eqn:Hl;
    [|discriminate].
  cbn [nullthrows] in Hrun. unfold bind at 1, ret at 1 in Hrun.
  destruct (Hwf _ _ Hl) as (n & Hn & Hid & _).
  rewrite (bind_returned _ _ _ _ _ (read_returned _ _ _ Hn)) in Hrun.
  unfold bind at 1, invariant at 1 in Hrun.
  case_bool_decide as Ht; [|discriminate].
  by exists l, n.
Qed.

Lemma wfNode_entryFiles (resolved : list Entry) :
  Forall wfNode (nodeFromEntryFile <$> resolved).
Proof. apply Forall_fmap, Forall_forall. intros e _ d Hd. discriminate. Qed.

Lemma resolveEntry_twice entry resolved request g g1 :
  consistent g →
  resolveEntry entry resolved request g = (Returned tt, g1) →
  view (resolveEntry entry resolved request g1).2 = view g1.
Proof.
  intros Hcons Hrun.
  destruct (resolveEntry_returned _ _ _ _ _ (proj1 Hcons) Hrun)
    as (l & n & Hl & Hn & Ht).
  rewrite (resolveEntry_stored _ _ _ _ _ _ Hl Hn Ht) in Hrun.
  set (nw := set_correspondingRequest (Some request) n) in *.
  set (ga := set_heap (<[l:=nw]> (heap g) ++ (nodeFromEntryFile <$> resolved))
               g) in *.
  assert (Hga : heap ga !! l = Some nw).
  { unfold ga. cbn [heap set_heap]. apply lookup_app_l_Some.
    apply list_lookup_insert_eq. by eapply lookup_lt_Some. }
  assert (Hqa : quiet (λ _, True) (λ _, True) g ga).
  { eapply (quiet_trans _ _ _ (set_heap (<[l:=nw]> (heap g)) g));
      [|exact (quiet_extend _ _ (nodeFromEntryFile <$> resolved)
                 (set_heap (<[l:=nw]> (heap g)) g))].
    apply (quiet_write _ _ g l n); auto. }
  pose proof (quiet_consistent _ _ _ _ Hqa Hcons) as Hcons_a.
  assert (Hat : nodesAt ga (seq (length (heap g)) (length resolved))
                  (id <$> (nodeFromEntryFile <$> resolved))).
  { replace (length (heap g)) with (length (<[l:=nw]> (heap g)))
      by apply length_insert.
    rewrite <- (length_fmap nodeFromEntryFile resolved).
    apply (fresh_nodesAt _ (<[l:=nw]> (heap g)) ga); [done|].
    apply wfNode_entryFiles. }
  destruct (replaceNodesConnectedTo_rewired _ _ _ _ _ _ Hcons_a Hga Hat Hrun)
    as [_ Hr].
  pose proof Hr as (Hh & _ & Hloc & _).
  destruct (nodes g1 !! id (nodeFromEntrySpecifier entry)) as [l'|] eqn:Hl';
    [|by rewrite resolveEntry_absent].
  assert (l' = l) as -> by (by eapply Hloc).
  assert (Hg1 : heap g1 !! l = Some nw) by (by rewrite Hh).
  rewrite (resolveEntry_stored _ _ _ _ _ _ Hl' Hg1 Ht).
  replace (set_correspondingRequest (Some request) nw) with nw by done.
  rewrite list_insert_id by done.
  eapply replaceNodesConnectedTo_twice; [done..| |].
  + apply quiet_extend.
  + apply nodesAt_ids_only.
    rewrite <- (length_fmap nodeFromEntryFile resolved).
    apply (fresh_nodesAt _ (heap g1)); [done|apply wfNode_entryFiles].
Qed.

(** *** [resolveTargets] *)

Lemma targetNode_fresh (entry : Entry) target g :
  ∃ n, targetNode entry target g
       = (Returned (length (heap g)), set_heap (heap g ++ [n]) g)
       ∧ id n = dep_id (targetDependency entry target) ∧ wfNode n.
Proof.
  unfold targetNode. rewrite (bind_returned _ _ _ _ _ (alloc_returned _ _)).
  fold (targetDependency entry target).
  set (n := nodeFromDep _). set (g1 := set_heap (heap g ++ [n]) g).
  assert (Hn : heap g1 !! length (heap g) = Some n).
  { simpl. by rewrite lookup_app_r, Nat.sub_diag by lia. }
  assert (Hwf : wfNode n) by (by intros d [= <-]).
  destruct (isLibrary (target_env target)).
  - rewrite (bind_returned _ _ _ _ _ (write_returned _ _ _ _ Hn)).
    eexists. split; [|split]; [| |].
    + unfold bind, ret. f_equal. unfold g1. cbn [set_heap heap].
      rewrite insert_app_r_alt, Nat.sub_diag by lia. done.
    + done.
    + exact Hwf.
  - exists n. done.
Qed.

Lemma targetNodes_fresh (entry : Entry) targets : ∀ g,
  ∃ ns, mapM (targetNode entry) targets g
        = (Returned (seq (length (heap g)) (length targets)),
           set_heap (heap g ++ ns) g)
        ∧ length ns = length targets
        ∧ id <$> ns = (λ t, dep_id (targetDependency entry t)) <$> targets
        ∧ Forall wfNode ns.
Proof.
  induction targets as [|t ts IH]; intros g.
  - exists []. cbn. rewrite app_nil_r, set_heap_id. done.
  - destruct (targetNode_fresh entry t g) as (n & Hn & Hid & Hwf).
    destruct (IH (set_heap (heap g ++ [n]) g)) as (ns & Hns & Hlen & Hids & Hwfs).
    exists (n :: ns). cbn [mapM].
    rewrite (bind_returned _ _ _ _ _ Hn), (bind_returned _ _ _ _ _ Hns).
    unfold ret. cbn [heap set_heap length seq fmap list_fmap].
    rewrite length_app, <- app_assoc. cbn [length app].
    replace (length (heap g) + 1) with (S (length (heap g))) by lia.
    split; [done|]. split; [by rewrite Hlen|]. split; [by rewrite Hid, Hids|].
    by constructor.
Qed.

Lemma resolveTargets_stored entry targets request g l n ls ns :
  mapM (targetNode entry) targets g = (Returned ls, set_heap (heap g ++ ns) g) →
  nodes g !! id (nodeFromEntryFile entry) = Some l →
  heap g !! l = Some n → type n = entry_file → stored (id n) g →
  resolveTargets entry targets request g
  = replaceNodesConnectedTo l ls
      (set_heap (<[l := set_correspondingRequest (Some request) n]> (heap g)
                 ++ ns) g).
Proof.
  intros Hls Hl Hn Ht Hst. unfold resolveTargets.
  rewrite (bind_returned _ _ _ _ _ Hls).
  unfold bind at 1, getNode at 1. cbn [nodes set_heap]. rewrite Hl.
  cbn [nullthrows]. unfold bind at 1, ret at 1.
  assert (Hn' : heap (set_heap (heap g ++ ns) g) !! l = Some n)
    by (by apply lookup_app_l_Some).
  rewrite (bind_returned _ _ _ _ _ (read_returned _ _ _ Hn')).
  rewrite Ht, bool_decide_eq_true_2 by done.
  unfold bind at 1, invariant at 1, ret at 1.
  rewrite (bind_returned _ _ _ _ _ (write_returned _ _ _ _ Hn')).
  unfold bind at 1, hasNode at 1. cbn [nodes set_heap heap].
  rewrite bool_decide_eq_true_2 by done.
  rewrite insert_app_l by (by eapply lookup_lt_Some). done.
Qed.

Lemma resolveTargets_absent entry targets request g ls ga :
  mapM (targetNode entry) targets g = (Returned ls, ga) →
  nodes ga !! id (nodeFromEntryFile entry) = None →
  resolveTargets entry targets request g = (Threw, ga).
Proof.
  intros Hls Hl. unfold resolveTargets.
  rewrite (bind_returned _ _ _ _ _ Hls).
  unfold bind at 1, getNode at 1. by rewrite Hl.
Qed.

Lemma resolveTargets_returned entry targets request g g1 :
  wellFormed g →
  resolveTargets entry targets request g = (Returned tt, g1) →
  ∃ l n, nodes g !! id (nodeFromEntryFile entry) = Some l
         ∧ heap g !! l = Some n ∧ type n = entry_file
         ∧ id n = id (nodeFromEntryFile entry).
Proof.
  intros Hwf Hrun. unfold resolveTargets in Hrun.
  destruct (targetNodes_fresh entry targets g) as (ns & Hns & _).
  rewrite (bind_returned _ _ _ _ _ Hns) in Hrun.
  unfold bind at 1, getNode at 1 in Hrun. cbn [nodes set_heap] in Hrun.
  destruct (nodes g !! id (nodeFromEntryFile entry)) as [l|] eqn:Hl;
    [|discriminate].
  cbn [nullthrows] in Hrun. unfold bind at 1, ret at 1 in Hrun.
  destruct (Hwf _ _ Hl) as (n & Hn & Hid & _).
  assert (Hn' : heap (set_heap (heap g ++ ns) g) !! l = Some n)
    by (by apply lookup_app_l_Some).
  rewrite (bind_returned _ _ _ _ _ (read_returned _ _ _ Hn')) in Hrun.
  unfold bind at 1, invariant at 1 in Hrun.
  case_bool_decide as Ht; [|discriminate].
  by exists l, n.
Qed.

Lemma resolveTargets_twice entry targets request g g1 :
  consistent g →
  resolveTargets entry targets request g = (Returned tt, g1) →
  view (resolveTargets entry targets request g1).2 = view g1.
Proof.
  intros Hcons Hrun.
  destruct (resolveTargets_returned _ _ _ _ _ (proj1 Hcons) Hrun)
    as (l & n & Hl & Hn & Ht & Hid).
  destruct (targetNodes_fresh entry targets g) as (ns & Hns & Hlen & Hids & Hwfs).
  assert (Hst : stored (id n) g) by (rewrite Hid; by eexists).
  rewrite (resolveTargets_stored _ _ _ _ _ _ _ _ Hns Hl Hn Ht Hst) in Hrun.
  set (nw := set_correspondingRequest (Some request) n) in *.
  set (ga := set_heap (<[l:=nw]> (heap g) ++ ns) g) in *.
  assert (Hga : heap ga !! l = Some nw).
  { unfold ga. cbn [heap set_heap]. apply lookup_app_l_Some.
    apply list_lookup_insert_eq. by eapply lookup_lt_Some. }
  assert (Hqa : quiet (λ _, True) (λ _, True) g ga).
  { eapply (quiet_trans _ _ _ (set_heap (<[l:=nw]> (heap g)) g));
      [|exact (quiet_extend _ _ ns (set_heap (<[l:=nw]> (heap g)) g))].
    apply (quiet_write _ _ g l n); auto. }
  pose proof (quiet_consistent _ _ _ _ Hqa Hcons) as Hcons_a.
  assert (Hat : nodesAt ga (seq (length (heap g)) (length targets))
                  (id <$> ns)).
  { replace (length (heap g)) with (length (<[l:=nw]> (heap g)))
      by apply length_insert.
    rewrite <- Hlen. by apply (fresh_nodesAt _ (<[l:=nw]> (heap g)) ga). }
  destruct (replaceNodesConnectedTo_rewired _ _ _ _ _ _ Hcons_a Hga Hat Hrun)
    as [_ Hr].
  pose proof Hr as (Hh & _ & Hloc & _).
  destruct (targetNodes_fresh entry targets g1)
    as (ns' & Hns' & Hlen' & Hids' & Hwfs').
  assert (Hq1 : quiet (λ _, False) (λ l, length (heap g1) ≤ l) g1
                  (set_heap (heap g1 ++ ns') g1)) by apply quiet_extend.
  destruct (nodes g1 !! id (nodeFromEntryFile entry)) as [l'|] eqn:Hl'.
  2:{ rewrite (resolveTargets_absent _ _ _ _ _ _ Hns') by done.
      apply fresh_view; [apply Hr|done]. }
  assert (l' = l) as -> by (by eapply Hloc).
  assert (Hg1 : heap g1 !! l = Some nw) by (by rewrite Hh).
  assert (Hst1 : stored (id nw) g1) by (cbn; rewrite Hid; by eexists).
  rewrite (resolveTargets_stored _ _ _ _ _ _ _ _ Hns' Hl' Hg1 Ht Hst1).
  replace (set_correspondingRequest (Some request) nw) with nw by done.
  rewrite list_insert_id by done.
  eapply replaceNodesConnectedTo_twice; [done..|].
  apply nodesAt_ids_only. rewrite Hids, <- Hids', <- Hlen'.
  by apply (fresh_nodesAt _ (heap g1)).
Qed.

End Twice.

(** ** Monad bookkeeping *)

Lemma bind_returned_inv {A B} (m : Js A) (k : A → Js B) g b g' :
  bind m k g = (Returned b, g') →
  ∃ a g1, m g = (Returned a, g1) ∧ k a g1 = (Returned b, g').
Proof.
  unfold bind. destruct (m g) as [[a|] g1]; [|discriminate]. eauto.
Qed.

Lemma bind_state_same {A B} (P : AssetGraph → Prop) (m : Js A)
    (k : A → Js B) g :
  (m g).2 = g → P g → (∀ a, P (k a g).2) → P (bind m k g).2.
Proof.
  unfold bind. destruct (m g) as [[a|] g1]; simpl; intros ->; auto.
Qed.

Lemma findAncestors_state start fn g : (findAncestors start fn g).2 = g.
Proof.
  unfold findAncestors, traverseAncestors.
  apply (dfs_graph_invariant _ _ (λ s, s = g)); [|done].
  intros node context x s r s' -> Hv. by eapply collectVisitor_state.
Qed.

Lemma getIncomingDependencies_state a g :
  (getIncomingDependencies a g).2 = g.
Proof.
  unfold getIncomingDependencies. unfold bind at 1, getNode at 1.
  destruct (nodes g !! asset_id a) as [node|]; [|done].
  apply (bind_state_same (λ s, s = g)); [apply findAncestors_state|done|].
  intros ls. apply (mapM_state_inv (λ s, s = g)); [|done].
  intros l s ->. unfold bind, read. destruct (heap g !! l) as [n|]; [|done].
  by destruct (value n).
Qed.

(** ** [setUsedSymbolsAsset] writes [usedSymbols], of the asset node and of
    the outgoing dependency nodes *)

Lemma forwardDemand_quiet U (W : loc → Prop) inverse reexported depNode used g :
  W depNode →
  quiet U W g (forwardDemand inverse reexported depNode used g).2.
Proof.
  intros HW. unfold forwardDemand. unfold bind at 1, read at 1.
  destruct (heap g !! depNode) as [n|] eqn:Hn; [|apply quiet_refl].
  destruct (value n) as [| | |dep| |]; try apply quiet_refl.
  destruct (reexportsNamespace dep).
  - rewrite (bind_returned _ _ _ _ _ (write_returned _ _ _ _ Hn)).
    apply (quiet_write U W g depNode n); auto.
  - rewrite (bind_returned _ _ _ _ _ (write_returned _ _ _ _ Hn)).
    apply (quiet_write U W g depNode n); auto.
Qed.

Lemma forwardDemands_quiet U (W : loc → Prop) inverse reexported outgoingDeps :
  ∀ used g,
  (∀ l, l ∈ outgoingDeps → W l) →
  quiet U W g (forwardDemands inverse reexported outgoingDeps used g).2.
Proof.
  induction outgoingDeps as [|dep rest IH]; intros used g HW;
    [apply quiet_refl|].
  cbn [forwardDemands].
  apply (bind_state_inv (quiet U W g)).
  - apply forwardDemand_quiet, HW, list_elem_of_here.
  - intros used' g' Hq. eapply quiet_trans; [exact Hq|].
    apply IH. intros l Hl. by apply HW, list_elem_of_further.
Qed.

Lemma setUsedSymbolsAsset_quiet (U W : loc → Prop) assetNode outgoingDeps g :
  U assetNode → (∀ l, l ∈ outgoingDeps → W l) →
  quiet U W g (setUsedSymbolsAsset assetNode outgoingDeps g).2.
Proof.
  intros HU HW. unfold setUsedSymbolsAsset. unfold bind at 1, read at 1.
  destruct (heap g !! assetNode) as [an|] eqn:Han; [|apply quiet_refl].
  destruct (value an) as [| | | | |a]; try apply quiet_refl.
  apply (bind_state_same (quiet U W g));
    [apply getIncomingDependencies_state|apply quiet_refl|].
  intros deps.
  apply (bind_state_inv (quiet U W g)).
  { apply (mapM_state_inv (quiet U W g)); [|apply quiet_refl].
    intros d s Hs. unfold bind at 1, getNode at 1.
    destruct (nodes s !! dep_id d) as [l|]; [|done]. cbn [nullthrows].
    unfold bind at 1, ret at 1. unfold bind at 1, read at 1.
    destruct (heap s !! l) as [n|]; [|done].
    unfold bind, invariant. by destruct (bool_decide _). }
  intros incomingDeps g1 Hq1.
  apply (bind_state_inv (quiet U W g)).
  { eapply quiet_trans; [exact Hq1|]. by apply forwardDemands_quiet. }
  intros used g2 Hq2. unfold write.
  destruct (heap g2 !! assetNode) as [n2|] eqn:Hn2; [|done].
  eapply quiet_trans; [exact Hq2|].
  apply (quiet_write U W g2 assetNode n2); auto.
  right. split; [done|]. by destruct n2.
Qed.

(** ** [resolveAsset] *)

Lemma objectAt_app g g' l i ns :
  heap g' = heap g ++ ns → objectAt g l i → objectAt g' l i.
Proof.
  intros Hh (n & Hn & Hid & Hwf). exists n. rewrite Hh.
  split; [by apply lookup_app_l_Some|done].
Qed.

Lemma objectAt_touched U W g g' l i :
  touched U W (heap g) (heap g') → objectAt g l i → objectAt g' l i.
Proof.
  intros Ht (n & Hn & Hid & Hwf).
  destruct (Ht l n Hn) as (n' & Hn' & Hid' & Hv' & _).
  exists n'. split; [done|]. split; [congruence|].
  intros dep Hd. rewrite Hv' in Hd. rewrite Hid'. by apply Hwf.
Qed.

Lemma objectAt_lt g l i : objectAt g l i → l < length (heap g).
Proof. intros (n & Hn & _). by eapply lookup_lt_Some. Qed.

(** The node objects [resolveAsset] creates (lines 384-396). *)
Lemma dependencyNodes_fresh dependentAssets deps : ∀ g,
  ∃ r ns,
    dependencyNodes dependentAssets deps g
    = (Returned r, set_heap (heap g ++ ns) g)
    ∧ nodesAt (set_heap (heap g ++ ns) g) r.1 (dep_id <$> deps)
    ∧ Forall (λ l, length (heap g) ≤ l) r.1
    ∧ Forall2 (λ (p : loc * loc) (st : string * list string),
                 objectAt (set_heap (heap g ++ ns) g) p.1 st.1
                 ∧ nodesAt (set_heap (heap g ++ ns) g) [p.2] st.2)
              r.2 (dependentSteps dependentAssets deps).
Proof.
  induction deps as [|dep rest IH]; intros g.
  { exists ([], []), []. cbn. rewrite app_nil_r, set_heap_id.
    repeat split; constructor. }
  cbn [dependencyNodes].
  rewrite (bind_returned _ _ _ _ _ (alloc_returned _ _)).
  set (L := length (heap g)). set (nd := nodeFromDep dep).
  assert (Hwd : ∀ c, wfNode (set_complete c nd)) by (by intros c d [= <-]).
  assert (∃ pre withAsset nd',
    (match find (λ a, bool_decide (uniqueKey a = Some (moduleSpecifier dep)))
                dependentAssets with
     | Some dependentAsset =>
         write L (set_complete (Some true)) >>
         let* assetNode := alloc (nodeFromAsset dependentAsset) in
         ret [(L, assetNode)]
     | None => ret []
     end) (set_heap (heap g ++ [nd]) g)
    = (Returned withAsset, set_heap (heap g ++ nd' :: pre) g)
    ∧ id nd' = dep_id dep ∧ wfNode nd'
    ∧ Forall2 (λ (p : loc * loc) (st : string * list string),
                 p.1 = L ∧ st.1 = dep_id dep
                 ∧ nodesAt (set_heap (heap g ++ nd' :: pre) g) [p.2] st.2)
        withAsset
        (dependentSteps dependentAssets [dep]))
    as (pre & withAsset & nd' & Hstep & Hid' & Hwf' & Hpairs).
  { unfold dependentSteps. cbn [omap list_omap].
    destruct (find _ dependentAssets) as [da|].
    - assert (Hnd : heap (set_heap (heap g ++ [nd]) g) !! L = Some nd).
      { cbn. by rewrite lookup_app_r, Nat.sub_diag by (unfold L; lia). }
      rewrite (bind_returned _ _ _ _ _ (write_returned _ _ _ _ Hnd)).
      rewrite (bind_returned _ _ _ _ _ (alloc_returned _ _)).
      exists [nodeFromAsset da], [(L, S L)], (set_complete (Some true) nd).
      cbn [heap set_heap]. unfold ret.
      rewrite insert_app_r_alt, Nat.sub_diag by (unfold L; lia).
      cbn [insert list_insert]. rewrite <- app_assoc, length_app.
      cbn [length app]. fold L.
      replace (L + 1) with (S L) by lia.
      split; [done|]. split; [done|]. split; [apply Hwd|].
      constructor; [|constructor]. cbn. split; [done|]. split; [done|].
      constructor; [|constructor].
      exists (nodeFromAsset da). split; [|split; [done|by intros d Hd]].
      cbn [heap set_heap].
      rewrite lookup_app_r; fold L; [|lia].
      by replace (S L - L) with 1 by lia.
    - exists [], [], nd. split; [done|]. split; [done|].
      split; [apply (Hwd (complete nd))|]. constructor. }
  rewrite (bind_returned _ _ _ _ _ Hstep).
  destruct (IH (set_heap (heap g ++ nd' :: pre) g))
    as (r & ns & Hrest & Hdeps & Hfresh & Hdependents).
  rewrite (bind_returned _ _ _ _ _ Hrest). unfold ret.
  cbn [heap set_heap] in *.
  exists (L :: r.1, withAsset ++ r.2), ((nd' :: pre) ++ ns).
  rewrite app_assoc. split; [done|]. cbn [fst snd].
  assert (Hd : objectAt (set_heap ((heap g ++ nd' :: pre) ++ ns) g) L
                 (dep_id dep)).
  { exists nd'. split; [|done]. cbn [heap set_heap].
    rewrite <- app_assoc, lookup_app_r by (fold L; lia). fold L.
    by rewrite Nat.sub_diag. }
  split; [|split].
  - cbn [fmap list_fmap]. by constructor.
  - constructor; [done|]. eapply Forall_impl; [exact Hfresh|].
    intros l. cbn. rewrite length_app. fold L. lia.
  - change (dependentSteps dependentAssets (dep :: rest))
      with (dependentSteps dependentAssets ([dep] ++ rest)).
    unfold dependentSteps at 1. rewrite omap_app.
    apply Forall2_app; [|done].
    eapply Forall2_impl; [exact Hpairs|].
    intros p st (-> & -> & Hat). split; [done|].
    eapply Forall2_impl; [exact Hat|].
    intros l t. by apply (objectAt_app _ _ _ _ ns).
Qed.

Lemma ran_mono (U W U' W' : loc → Prop) ps g g' :
  (∀ l, W l → W' l) → (∀ l, U l → U' l ∨ W' l) →
  ran U W ps g g' → ran U' W' ps g g'.
Proof.
  intros HW HU. induction 1 as [g g' Hq|p T g g' Hp Hr|ps qs g1 g2 g3 _ IH1 _ IH2].
  - apply ran_quiet. by eapply quiet_mono.
  - by apply ran_replace.
  - by eapply ran_app.
Qed.

(** The calls of lines 401-403. *)
Lemma dependents_ran U W pairs : ∀ steps g g',
  consistent g →
  Forall2 (λ (p : loc * loc) (st : string * list string),
             objectAt g p.1 st.1 ∧ nodesAt g [p.2] st.2) pairs steps →
  forEach pairs (λ p, replaceNodesConnectedTo p.1 [p.2]) g
  = (Returned tt, g') →
  ran U W steps g g'.
Proof.
  induction pairs as [|p pairs IH]; intros steps g g' Hcons Hall Hrun.
  - inversion Hall; subst. injection Hrun as <-. apply ran_quiet, quiet_refl.
  - inversion Hall as [|? st ? steps' [(n & Hn & Hid & _) Hat] Hrest]; subst.
    cbn [forEach] in Hrun.
    apply bind_returned_inv in Hrun as ([] & g1 & Hcall & Hrun).
    destruct (replaceNodesConnectedTo_rewired _ _ _ _ _ _ Hcons Hn Hat Hcall)
      as [Hst Hr].
    apply (ran_app U W [st] steps' g g1 g').
    + destruct st as [p' T]. cbn [fst snd] in *. subst p'.
      by apply ran_replace.
    + pose proof Hr as (Hh & Hc1 & _).
      apply IH; [done| |done].
      eapply Forall2_impl; [exact Hrest|].
      intros q st' [Hq Hq']. unfold objectAt, nodesAt, objectAt.
      rewrite Hh. done.
Qed.

(** A first call of [resolveAsset] is a run of its calls. *)
Lemma resolveAsset_ran a dependentAssets g g' an av :
  consistent g → heap g !! a = Some an → value an = AssetValue av →
  resolveAsset a dependentAssets g = (Returned tt, g') →
  ran (λ l, l = a) (λ l, length (heap g) ≤ l)
      (assetSteps (id an) av dependentAssets) g g'.
Proof.
  intros Hcons Han Hav Hrun. unfold resolveAsset in Hrun.
  rewrite (bind_returned _ _ _ _ _ (read_returned _ _ _ Han)), Hav in Hrun.
  destruct (dependencyNodes_fresh dependentAssets
              (JsMap.values (dependencies av)) g)
    as (r & ns & Hnodes & Hdeps & Hfresh & Hpairs).
  rewrite (bind_returned _ _ _ _ _ Hnodes) in Hrun.
  set (g0 := set_heap (heap g ++ ns) g) in *.
  assert (Hq0 : quiet (λ l, l = a) (λ l, length (heap g) ≤ l) g g0)
    by apply quiet_extend.
  pose proof (quiet_consistent _ _ _ _ Hq0 Hcons) as Hcons0.
  assert (Han0 : heap g0 !! a = Some an) by (by apply lookup_app_l_Some).
  apply bind_returned_inv in Hrun as ([] & g1 & Hcall & Hrun).
  destruct (replaceNodesConnectedTo_rewired _ _ _ _ _ _ Hcons0 Han0 Hdeps Hcall)
    as [Hst Hr].
  pose proof Hr as (Hh1 & Hcons1 & _).
  apply bind_returned_inv in Hrun as ([] & g2 & Hused & Hrun).
  assert (Hq2 : quiet (λ l, l = a) (λ l, length (heap g) ≤ l) g1 g2).
  { replace g2 with (setUsedSymbolsAsset a r.1 g1).2 by (by rewrite Hused).
    apply setUsedSymbolsAsset_quiet; [done|].
    intros l Hl. by apply (proj1 (Forall_forall _ _) Hfresh). }
  pose proof (quiet_consistent _ _ _ _ Hq2 Hcons1) as Hcons2.
  unfold assetSteps.
  change (?x :: ?l) with ([] ++ [x] ++ [] ++ l).
  apply (ran_app _ _ _ _ g g0); [by apply ran_quiet|].
  apply (ran_app _ _ _ _ g0 g1); [by apply ran_replace|].
  apply (ran_app _ _ _ _ g1 g2); [by apply ran_quiet|].
  apply (dependents_ran _ _ r.2); [done| |done].
  destruct Hq2 as (_ & _ & _ & Ht2). rewrite Hh1 in Ht2.
  eapply Forall2_impl; [exact Hpairs|].
  intros q st' [Hq Hq']. split; [by eapply objectAt_touched|].
  by eapply nodesAt_touched.
Qed.

Lemma dependents_absorbed pairs : ∀ steps g,
  Forall2 (λ (p : loc * loc) (st : string * list string),
             objectAt g p.1 st.1 ∧ nodesAt g [p.2] st.2) pairs steps →
  (∀ p T, (p, T) ∈ steps → settled p T g) →
  (forEach pairs (λ p, replaceNodesConnectedTo p.1 [p.2]) g).2 = g.
Proof.
  induction pairs as [|p pairs IH]; intros steps g Hall Hset.
  - done.
  - inversion Hall as [|? st ? steps' [(n & Hn & Hid & _) Hat] Hrest]; subst.
    cbn [forEach].
    apply (bind_state_same (λ s, s = g)); [|done|].
    + apply (replaceNodesConnectedTo_absorbed _ _ n st.2);
        [done|by apply nodesAt_ids_only|].
      rewrite Hid. apply Hset. destruct st. apply list_elem_of_here.
    + intros _. apply (IH steps'); [done|].
      intros q T Hin. by apply Hset, list_elem_of_further.
Qed.

(** A call of [resolveAsset] on a graph where the children of the asset and
    of its dependencies are in place writes [usedSymbols] on the asset node
    and creates objects; it does nothing else. *)
Lemma resolveAsset_quiet a dependentAssets g :
  (∀ an av, heap g !! a = Some an → value an = AssetValue av →
     stored (id an) g →
     ∀ p T, (p, T) ∈ assetSteps (id an) av dependentAssets → settled p T g) →
  quiet (λ l, l = a) (λ l, length (heap g) ≤ l) g
        (resolveAsset a dependentAssets g).2.
Proof.
  intros Hset. unfold resolveAsset. unfold bind at 1, read at 1.
  destruct (heap g !! a) as [an|] eqn:Han; [|apply quiet_refl].
  destruct (value an) as [| | | | |av] eqn:Hav; try apply quiet_refl.
  specialize (Hset an av eq_refl Hav).
  destruct (dependencyNodes_fresh dependentAssets
              (JsMap.values (dependencies av)) g)
    as (r & ns & Hnodes & Hdeps & Hfresh & Hpairs).
  rewrite (bind_returned _ _ _ _ _ Hnodes).
  set (g0 := set_heap (heap g ++ ns) g) in *.
  assert (Hq0 : quiet (λ l, l = a) (λ l, length (heap g) ≤ l) g g0)
    by apply quiet_extend.
  assert (Han0 : heap g0 !! a = Some an) by (by apply lookup_app_l_Some).
  destruct (decide (stored (id an) g)) as [Hst|Hst].
  2:{ by rewrite (bind_threw _ _ _ _
                    (replaceNodesConnectedTo_unstored a r.1 an g0 Han0 Hst)). }
  specialize (Hset Hst).
  apply (bind_state_same (quiet (λ l, l = a) (λ l, length (heap g) ≤ l) g));
    [|done|].
  { apply (replaceNodesConnectedTo_absorbed _ _ an
             (dep_id <$> JsMap.values (dependencies av)));
      [done|by apply nodesAt_ids_only|].
    apply (settled_same _ _ g); [done..|]. apply Hset, list_elem_of_here. }
  intros _.
  assert (Hq2 : quiet (λ l, l = a) (λ l, length (heap g) ≤ l) g0
                  (setUsedSymbolsAsset a r.1 g0).2).
  { apply setUsedSymbolsAsset_quiet; [done|].
    intros l Hl. by apply (proj1 (Forall_forall _ _) Hfresh). }
  unfold bind at 1.
  destruct (setUsedSymbolsAsset a r.1 g0) as [[[]|] g2]; cbn [snd] in Hq2;
    [|by eapply quiet_trans].
  rewrite (dependents_absorbed r.2
             (dependentSteps dependentAssets (JsMap.values (dependencies av)))).
  - by eapply quiet_trans.
  - destruct Hq2 as (_ & _ & _ & Ht2).
    eapply Forall2_impl; [exact Hpairs|].
    intros q st' [Hq Hq']. split; [by eapply objectAt_touched|].
    by eapply nodesAt_touched.
  - intros p T Hin. destruct Hq0 as (N0 & E0 & _), Hq2 as (N2 & E2 & _).
    apply (settled_same _ _ g); [congruence..|].
    by apply Hset, list_elem_of_further.
Qed.

Lemma resolveAsset_returned a dependentAssets g g1 :
  resolveAsset a dependentAssets g = (Returned tt, g1) →
  ∃ an av, heap g !! a = Some an ∧ value an = AssetValue av.
Proof.
  unfold resolveAsset. unfold bind at 1, read at 1.
  destruct (heap g !! a) as [an|]; [|discriminate].
  destruct (value an) as [| | | | |av] eqn:Hav; try discriminate.
  intros _. by exists an, av.
Qed.

(** ** [resolveAssetGroup] *)

Lemma assetObjectAt_touched U W g g' o x :
  touched U W (heap g) (heap g') → assetObjectAt g o x → assetObjectAt g' o x.
Proof.
  intros Ht (Hd & Hi & n & Hn & Hid & Hv).
  destruct (Ht _ n Hn) as (n' & Hn' & Hid' & Hv' & _).
  split; [done|]. split; [done|]. exists n'. split; [done|].
  split; congruence.
Qed.

Lemma assetObjectsOf_fresh assets : ∀ todo keys g,
  ∃ objs,
    assetObjectsOf assets keys todo g
    = (Returned objs, set_heap (heap g ++ (nodeFromAsset <$> todo)) g)
    ∧ Forall2 (λ o x,
                 assetObjectAt
                   (set_heap (heap g ++ (nodeFromAsset <$> todo)) g) o x
                 ∧ length (heap g) ≤ assetNode o)
              objs (assetPlan assets keys todo).
Proof.
  induction todo as [|a rest IH]; intros keys g.
  { exists []. cbn. rewrite app_nil_r, set_heap_id. split; [done|constructor]. }
  cbn [assetObjectsOf assetPlan].
  rewrite (bind_returned _ _ _ _ _ (alloc_returned _ _)).
  destruct (IH (keys ++ map uniqueKey (dependentAssetsOf assets a))
               (set_heap (heap g ++ [nodeFromAsset a]) g))
    as (objs & Hobjs & Hall).
  rewrite (bind_returned _ _ _ _ _ Hobjs). unfold ret.
  cbn [heap set_heap fmap list_fmap] in *.
  rewrite <- app_assoc in *. cbn [app] in *.
  eexists. split; [done|]. constructor.
  - split; [|cbn; lia]. split; [done|]. split; [done|].
    exists (nodeFromAsset a). cbn [assetNode heap set_heap].
    rewrite lookup_app_r, Nat.sub_diag by lia. done.
  - eapply Forall2_impl; [exact Hall|].
    intros o x [Hat Hlen]. split; [done|].
    rewrite length_app in Hlen. lia.
Qed.

Lemma directNodes_at g objs plan :
  Forall2 (λ o x, assetObjectAt g o x ∧ True) objs plan →
  nodesAt g (map assetNode (filter (λ o, isDirect o = true) objs))
    ((λ x : Asset * list Asset * bool, asset_id x.1.1)
     <$> filter (λ x : Asset * list Asset * bool, x.2 = true) plan).
Proof.
  induction 1 as [|o x objs plan [(Hd & Hi & n & Hn & Hid & Hv) _] _ IH];
    [constructor|].
  rewrite !filter_cons. rewrite Hi.
  destruct (decide (x.2 = true)); [|done].
  cbn [map fmap list_fmap]. constructor; [|done].
  exists n. split; [done|]. split; [done|]. intros d Hd'. congruence.
Qed.

Lemma assets_ran L objs : ∀ plan g g',
  consistent g → L ≤ length (heap g) →
  Forall2 (λ o x, assetObjectAt g o x ∧ L ≤ assetNode o) objs plan →
  forEach objs (λ o, resolveAsset (assetNode o) (dependentAssets o)) g
  = (Returned tt, g') →
  ran (λ _, False) (λ l, L ≤ l)
      (concat ((λ x : Asset * list Asset * bool,
                  assetSteps (asset_id x.1.1) x.1.1 x.1.2) <$> plan)) g g'.
Proof.
  induction objs as [|o objs IH]; intros plan g g' Hcons HL Hall Hrun.
  - inversion Hall; subst. injection Hrun as <-. apply ran_quiet, quiet_refl.
  - inversion Hall
      as [|? x ? plan' [(Hd & Hi & n & Hn & Hid & Hv) Hfresh] Hrest]; subst.
    cbn [forEach] in Hrun.
    apply bind_returned_inv in Hrun as ([] & g1 & Hcall & Hrun).
    pose proof (resolveAsset_ran _ _ _ _ _ _ Hcons Hn Hv Hcall) as Hran.
    rewrite Hid, Hd in Hran.
    apply (ran_mono _ _ (λ _, False) (λ l, L ≤ l)) in Hran;
      [|intros l; lia|intros l ->; by right].
    destruct (ran_evolved _ _ _ _ _ Hran Hcons) as (Hcons1 & Ht & _).
    cbn [fmap list_fmap concat].
    eapply ran_app; [exact Hran|].
    apply IH; [done| |  |done].
    + pose proof (touched_length _ _ _ _ Ht). lia.
    + eapply Forall2_impl; [exact Hrest|].
      intros o' x' [Hat ?]. split; [|done]. by eapply assetObjectAt_touched.
Qed.

Lemma assets_quiet L objs : ∀ plan g,
  L ≤ length (heap g) →
  Forall2 (λ o x, assetObjectAt g o x ∧ L ≤ assetNode o) objs plan →
  (∀ p T, (p, T) ∈ concat ((λ x : Asset * list Asset * bool,
                              assetSteps (asset_id x.1.1) x.1.1 x.1.2)
                           <$> plan) → settled p T g) →
  quiet (λ _, False) (λ l, L ≤ l) g
        (forEach objs (λ o, resolveAsset (assetNode o) (dependentAssets o)) g).2.
Proof.
  induction objs as [|o objs IH]; intros plan g HL Hall Hset;
    [apply quiet_refl|].
  inversion Hall
    as [|? x ? plan' [(Hd & Hi & n & Hn & Hid & Hv) Hfresh] Hrest]; subst.
  cbn [fmap list_fmap concat] in Hset. cbn [forEach].
  assert (Hq : quiet (λ _, False) (λ l, L ≤ l) g
                 (resolveAsset (assetNode o) (dependentAssets o) g).2).
  { eapply (quiet_mono (λ l, l = assetNode o) (λ l, length (heap g) ≤ l));
      [intros l; lia|intros l ->; by right|].
    apply resolveAsset_quiet. intros an' av' Han' Hav' _ p T Hin.
    assert (an' = n) as -> by congruence.
    assert (av' = x.1.1) as -> by congruence.
    rewrite Hid, Hd in Hin. apply Hset, elem_of_app. by left. }
  unfold bind at 1.
  destruct (resolveAsset (assetNode o) (dependentAssets o) g) as [[[]|] g1];
    cbn [snd] in Hq; [|done].
  eapply quiet_trans; [exact Hq|].
  pose proof Hq as (N & E & _ & Ht).
  apply (IH plan').
  - pose proof (touched_length _ _ _ _ Ht). lia.
  - eapply Forall2_impl; [exact Hrest|].
    intros o' x' [Hat ?]. split; [|done]. by eapply assetObjectAt_touched.
  - intros p T Hin. apply (settled_same _ _ g); [done..|].
    apply Hset, elem_of_app. by right.
Qed.

Section Group.
Context `{!Md5FromObject AssetGroup}.

Lemma resolveAssetGroup_absent assetGroup assets request g :
  nodes g !! id (nodeFromAssetGroup assetGroup) = None →
  resolveAssetGroup assetGroup assets request g = (Returned tt, g).
Proof.
  intros Hl. unfold resolveAssetGroup. unfold bind at 1, getNode at 1.
  by rewrite Hl.
Qed.

Lemma resolveAssetGroup_stored assetGroup assets request g l n :
  nodes g !! id (nodeFromAssetGroup assetGroup) = Some l →
  heap g !! l = Some n → type n = asset_group →
  ∃ objs,
    Forall2 (λ o x,
               assetObjectAt
                 (set_heap (<[l := set_correspondingRequest (Some request) n]>
                              (heap g) ++ (nodeFromAsset <$> assets)) g) o x
               ∧ length (heap g) ≤ assetNode o)
            objs (assetPlan assets [] assets)
    ∧ resolveAssetGroup assetGroup assets request g
      = (replaceNodesConnectedTo l
           (map assetNode (filter (λ o, isDirect o = true) objs)) >>
         forEach objs (λ o, resolveAsset (assetNode o) (dependentAssets o)))
          (set_heap (<[l := set_correspondingRequest (Some request) n]> (heap g)
                     ++ (nodeFromAsset <$> assets)) g).
Proof.
  intros Hl Hn Ht.
  destruct (assetObjectsOf_fresh assets assets []
              (set_heap (<[l := set_correspondingRequest (Some request) n]>
                           (heap g)) g))
    as (objs & Hobjs & Hall).
  exists objs. split.
  { eapply Forall2_impl; [exact Hall|]. cbn [heap set_heap].
    intros o x [Hat Hlen]. split; [done|]. by rewrite length_insert in Hlen. }
  unfold resolveAssetGroup. unfold bind at 1, getNode at 1. rewrite Hl.
  rewrite (bind_returned _ _ _ _ _ (read_returned _ _ _ Hn)).
  rewrite Ht, bool_decide_eq_true_2 by done.
  unfold bind at 1, invariant at 1, ret at 1.
  rewrite (bind_returned _ _ _ _ _ (write_returned _ _ _ _ Hn)).
  by rewrite (bind_returned _ _ _ _ _ Hobjs).
Qed.

Lemma resolveAssetGroup_returned assetGroup assets request g g1 :
  wellFormed g →
  resolveAssetGroup assetGroup assets request g = (Returned tt, g1) →
  nodes g !! id (nodeFromAssetGroup assetGroup) = None
  ∨ ∃ l n, nodes g !! id (nodeFromAssetGroup assetGroup) = Some l
           ∧ heap g !! l = Some n ∧ type n = asset_group
           ∧ id n = id (nodeFromAssetGroup assetGroup).
Proof.
  intros Hwf Hrun. unfold resolveAssetGroup in Hrun.
  unfold bind at 1, getNode at 1 in Hrun.
  destruct (nodes g !! id (nodeFromAssetGroup assetGroup)) as [l|] eqn:Hl;
    [|by left].
  right. destruct (Hwf _ _ Hl) as (n & Hn & Hid & _).
  rewrite (bind_returned _ _ _ _ _ (read_returned _ _ _ Hn)) in Hrun.
  unfold bind at 1, invariant at 1 in Hrun.
  case_bool_decide as Ht; [|discriminate].
  by exists l, n.
Qed.

End Group.

(** ** Consistency by computation *)

Lemma quiet_sameButUsedSymbolsAt a g g' :
  quiet (λ l, l = a) (λ l, length (heap g) ≤ l) g g' →
  sameButUsedSymbolsAt a g g'.
Proof.
  intros (N & E & _ & Ht). split; [done|]. split; [done|].
  intros l n Hn. destruct (Ht l n Hn) as (n' & Hn' & _ & _ & Hu & Hs).
  apply lookup_lt_Some in Hn.
  exists n'. split; [done|]. split; [apply Hu; lia|].
  intros Hne. apply Hs; [lia|done].
Qed.

Lemma edgesClosedb_correct g : edgesClosedb g = true → edgesClosed g.
Proof.
  unfold edgesClosedb. rewrite forallb_forall. intros Hall p c Hin.
  specialize (Hall (p, c) (proj1 (list_elem_of_In _ _) Hin)).
  apply andb_true_iff in Hall as [Hp Hc].
  split; by eapply bool_decide_eq_true.
Qed.

Lemma consistentb_correct g : consistentb g = true → consistent g.
Proof.
  unfold consistentb. intros [Hwf Hcl]%andb_true_iff.
  split; [by apply wellFormedb_correct|by apply edgesClosedb_correct].
Qed.

Lemma noneRestoredb_correct g g' : noneRestoredb g g' = true → noneRestored g g'.
Proof.
  unfold noneRestoredb. rewrite forallb_forall.
  intros Hall i (l & n & Hl & Hn & Hid) Hst.
  specialize (Hall l (proj1 (list_elem_of_In _ _) Hl)).
  rewrite Hn, Hid in Hall. apply negb_true_iff, bool_decide_eq_false in Hall.
  by destruct Hall.
Qed.

(** ** Calls that return *)

Lemma forEach_returns {A} (P : AssetGraph → Prop) (body : A → Js unit) xs :
  (∀ x g, P g → ∃ g', body x g = (Returned tt, g') ∧ P g') →
  ∀ g, P g → ∃ g', forEach xs body g = (Returned tt, g') ∧ P g'.
Proof.
  intros Hbody. induction xs as [|x xs IH]; intros g HP; [by exists g|].
  destruct (Hbody x g HP) as (g1 & Hx & HP1).
  destruct (IH g1 HP1) as (g' & Hxs & HP').
  exists g'. cbn [forEach]. by rewrite (bind_returned _ _ _ _ _ Hx).
Qed.

(** The cascade reads only stored nodes, so it returns. *)
Lemma removeNode_upto_returns fuel : ∀ node g x,
  consistent g → nodes g !! x = Some node → parentIds x g = [] →
  ∃ g', removeNode_upto fuel node g = (Returned tt, g').
Proof.
  induction fuel as [|fuel IH]; intros node g x Hcons Hx Horphan.
  { by exists g. }
  destruct (proj1 Hcons _ _ Hx) as (n & Hn & Hid & _).
  rewrite removeNode_upto_S.
  rewrite (Graph_removeNode_unfold _ _ _ n) by done.
  rewrite Hid.
  destruct (delete_orphan g x node None Hcons Hx Horphan) as [_ Hcons'].
  destruct (forEach_returns consistent
              (λ c, let* g := get_state in
                    match nodes g !! c with
                    | Some child =>
                        if bool_decide (parentIds c g = [])
                        then removeNode_upto fuel child else ret tt
                    | None => ret tt
                    end)
              (childIds x (set_removedLog (removedLog g ++ [node])
                             (set_hash None g))))
    with (g := set_edges
                 (filter (λ e : string * string, e.1 ≠ x ∧ e.2 ≠ x)
                    (edges g))
                 (set_nodes (delete x (nodes g))
                    (set_removedLog (removedLog g ++ [node])
                       (set_hash None g))))
    as (g' & Hrun & _); [|done|by exists g'].
  intros c s Hs. unfold bind at 1, get_state at 1.
  destruct (nodes s !! c) as [child|] eqn:Hchild; [|by exists s].
  case_bool_decide as Horph; [|by exists s].
  destruct (IH child s c Hs Hchild Horph) as (s' & Hs').
  exists s'. split; [done|].
  pose proof (removeNode_upto_shrunk fuel child s c Hs Hchild Horph) as [_ Hc].
  by rewrite Hs' in Hc.
Qed.

Lemma removeNode_returns node g x :
  consistent g → nodes g !! x = Some node → parentIds x g = [] →
  ∃ g', removeNode node g = (Returned tt, g').
Proof. intros. unfold removeNode. by eapply removeNode_upto_returns. Qed.

Lemma disconnect_returns f cs : ∀ g,
  consistent g →
  ∃ g',
    forEach cs (λ c,
      update_state (removeEdge f c) >>
      let* g := get_state in
      match nodes g !! c with
      | Some child =>
          if bool_decide (parentIds c g = []) then removeNode child else ret tt
      | None => ret tt
      end) g = (Returned tt, g').
Proof.
  intros g Hcons.
  destruct (forEach_returns consistent
              (λ c,
                 update_state (removeEdge f c) >>
                 let* g := get_state in
                 match nodes g !! c with
                 | Some child =>
                     if bool_decide (parentIds c g = [])
                     then removeNode child else ret tt
                 | None => ret tt
                 end) cs) with (g := g) as (g' & Hrun & _);
    [|done|by exists g'].
  intros c s Hs.
  pose proof (disconnect_step f c s Hs) as (_ & Hc & _).
  unfold bind at 1, update_state at 1. unfold bind at 1, get_state at 1.
  unfold bind at 1, update_state at 1 in Hc.
  unfold bind at 1, get_state at 1 in Hc.
  assert (Hr : consistent (removeEdge f c s)).
  { destruct Hs as [Hwf Hcl]. split; [done|]. intros p c' Hin.
    apply list_elem_of_filter in Hin as [_ Hin]. by apply Hcl. }
  destruct (nodes (removeEdge f c s) !! c) as [child|] eqn:Hchild;
    [|by eexists].
  case_bool_decide as Horph; [|by eexists].
  destruct (removeNode_returns child _ c Hr Hchild Horph) as (s' & Hs').
  exists s'. split; [done|]. by rewrite Hs' in Hc.
Qed.

(** [replaceNodesConnectedTo] returns when the parent is stored. *)
Lemma replaceNodesConnectedTo_returns fromNode toNodes from T g :
  consistent g → heap g !! fromNode = Some from → stored (id from) g →
  nodesAt g toNodes T →
  ∃ g', replaceNodesConnectedTo fromNode toNodes g = (Returned tt, g').
Proof.
  intros Hcons Hfrom Hst Hat. unfold replaceNodesConnectedTo.
  rewrite (bind_returned _ _ _ _ _ (read_returned _ _ _ Hfrom)).
  unfold bind at 1, hasNode at 1. rewrite bool_decide_eq_true_2 by done.
  unfold bind at 1, invariant at 1, ret at 1.
  unfold bind at 1, get_state at 1.
  rewrite (bind_returned _ _ _ _ _ (nodesAt_ids _ _ _ Hat)).
  destruct (connect_all (id from) toNodes T g Hcons Hst Hat)
    as (ga & Hadd & Hconn).
  rewrite (bind_returned _ _ _ _ _ Hadd).
  apply disconnect_returns. apply Hconn.
Qed.

(** ** [initialize] *)

Lemma addNode_returned l g n :
  heap g !! l = Some n →
  addNode l g
  = (Returned l, set_nodes (<[id n := l]> (nodes g)) (set_hash None g)).
Proof.
  intros Hn. unfold addNode, Graph_addNode.
  unfold bind at 1, update_state at 1.
  assert (Hn' : heap (set_hash None g) !! l = Some n) by done.
  by rewrite (bind_returned _ _ _ _ _ (read_returned _ _ _ Hn')).
Qed.

Lemma setRootNode_returned l g n :
  heap g !! l = Some n →
  setRootNode l g
  = (Returned tt,
     set_rootNodeId (Some (id n))
       (set_nodes (<[id n := l]> (nodes g)) (set_hash None g))).
Proof.
  intros Hn. unfold setRootNode.
  rewrite (bind_returned _ _ _ _ _ (read_returned _ _ _ Hn)).
  by rewrite (bind_returned _ _ _ _ _ (addNode_returned _ _ _ Hn)).
Qed.

Lemma connect_rootNodeId f toNodes g :
  rootNodeId
    (forEach toNodes (λ toNode,
       let* n := read toNode in
       let* existing := getNode (id n) in
       match existing with
       | Some _ => ret tt
       | None => addNode toNode >> ret tt
       end >>
       update_state (addEdge f (id n))) g).2
  = rootNodeId g.
Proof.
  apply (forEach_state_inv (λ s, rootNodeId s = rootNodeId g)); [|done].
  intros l s Hs. unfold bind at 1, read at 1.
  destruct (heap s !! l) as [n|] eqn:Hn; [|done].
  unfold bind at 1, getNode at 1.
  assert (Hadd : rootNodeId
            ((match nodes s !! id n with
              | Some _ => ret tt
              | None => addNode l >> ret tt
              end) s).2 = rootNodeId g).
  { destruct (nodes s !! id n); [done|].
    by rewrite (bind_returned _ _ _ _ _ (addNode_returned _ _ _ Hn)). }
  unfold bind at 1.
  destruct ((match nodes s !! id n with
             | Some _ => ret tt
             | None => addNode l >> ret tt
             end) s) as [[[]|] s1]; cbn [snd] in Hadd; [|done].
  unfold update_state, addEdge. cbn [snd]. by case_bool_decide.
Qed.

Section Initialize.
Context `{!Md5FromObject AssetGroup}.

Lemma initialize_nodes entries assetGroups g :
  ∃ ns,
    (match entries, assetGroups with
     | Some entries, _ =>
         mapM (λ entry, alloc (nodeFromEntrySpecifier entry)) entries
     | None, Some assetGroups =>
         mapM (λ assetGroup, alloc (nodeFromAssetGroup assetGroup)) assetGroups
     | None, None => ret []
     end) g
    = (Returned (seq (length (heap g)) (length ns)),
       set_heap (heap g ++ ns) g)
    ∧ id <$> ns = initialIds entries assetGroups
    ∧ Forall wfNode ns.
Proof.
  destruct entries as [entries|]; [|destruct assetGroups as [assetGroups|]].
  - exists (nodeFromEntrySpecifier <$> entries).
    rewrite mapM_alloc, length_fmap. split; [done|]. split.
    + by rewrite <- list_fmap_compose.
    + apply Forall_fmap, Forall_forall. intros e _ d Hd. discriminate.
  - exists (nodeFromAssetGroup <$> assetGroups).
    rewrite mapM_alloc, length_fmap. split; [done|]. split.
    + by rewrite <- list_fmap_compose.
    + apply Forall_fmap, Forall_forall. intros e _ d Hd. discriminate.
  - exists []. cbn. by rewrite app_nil_r, set_heap_id.
Qed.

(** X1.  [initialize] on a graph that has no root yet returns; the new root
    is stored under ["@@root"] and is the root node, its children are
    exactly the entry specifiers (the asset groups are looked at only when
    no entries are given), and no node that was stored is removed or
    replaced. *)
Theorem initialize_root entries assetGroups g :
  consistent g → nodes g !! "@@root" = None →
  ∃ g', initialize entries assetGroups g = (Returned tt, g')
    ∧ consistent g'
    ∧ rootNodeId g' = Some "@@root"
    ∧ nodes g' !! "@@root" = Some (length (heap g))
    ∧ heap g' !! length (heap g) = Some (mkNode "@@root" RootValue)
    ∧ (∀ c, ("@@root", c) ∈ edges g' ↔ c ∈ initialIds entries assetGroups)
    ∧ (∀ i l, nodes g !! i = Some l → nodes g' !! i = Some l)
    ∧ (∀ e, e ∈ edges g → e ∈ edges g')
    ∧ removedLog g' = removedLog g.
Proof.
  intros Hcons Hroot. unfold initialize.
  rewrite (bind_returned _ _ _ _ _ (alloc_returned _ _)).
  set (root := mkNode "@@root" RootValue).
  set (L := length (heap g)).
  set (g0 := set_heap (heap g ++ [root]) g).
  assert (H0 : heap g0 !! L = Some root).
  { cbn. by rewrite lookup_app_r, Nat.sub_diag by (unfold L; lia). }
  rewrite (bind_returned _ _ _ _ _ (setRootNode_returned _ _ _ H0)).
  set (gr := set_rootNodeId (Some (id root))
               (set_nodes (<[id root := L]> (nodes g0)) (set_hash None g0))).
  destruct (initialize_nodes entries assetGroups gr) as (ns & Hns & Hids & Hwf).
  rewrite (bind_returned _ _ _ _ _ Hns).
  set (ga := set_heap (heap gr ++ ns) gr).
  assert (Hcons_a : consistent ga).
  { destruct Hcons as [Hwfg Hcl]. split.
    - intros i l. cbn. rewrite lookup_insert_Some.
      intros [[<- <-]|[Hne Hi]].
      + exists root. split; [|done].
        rewrite <- app_assoc, lookup_app_r, Nat.sub_diag by (fold L; lia).
        done.
      + destruct (Hwfg i l Hi) as (n & Hn & Hrest). exists n.
        split; [|done]. rewrite <- app_assoc. by apply lookup_app_l_Some.
    - intros p c Hin. cbn in Hin. destruct (Hcl p c Hin) as [[lp Hp] [lc Hc]].
      unfold stored. cbn. split.
      + exists lp. rewrite lookup_insert_ne; [done|]. intros <-.
        cbn in Hp. congruence.
      + exists lc. rewrite lookup_insert_ne; [done|]. intros <-.
        cbn in Hc. congruence. }
  assert (Hra : heap ga !! L = Some root).
  { cbn. rewrite <- app_assoc, lookup_app_r, Nat.sub_diag by (fold L; lia).
    done. }
  assert (Hst : stored (id root) ga).
  { exists L. cbn. apply lookup_insert_eq. }
  assert (Hat : nodesAt ga (seq (length (heap gr)) (length ns)) (id <$> ns))
    by (by apply (fresh_nodesAt ns (heap gr) ga)).
  assert (Hnone : childIds (id root) ga = []).
  { destruct (childIds (id root) ga) as [|c cs] eqn:Hc; [done|].
    assert (c ∈ childIds (id root) ga) as Hin
      by (rewrite Hc; apply list_elem_of_here).
    apply elem_of_childIds in Hin. cbn in Hin.
    destruct (proj2 Hcons _ _ Hin) as [[l Hl] _]. cbn in Hl. congruence. }
  unfold replaceNodesConnectedTo.
  rewrite (bind_returned _ _ _ _ _ (read_returned _ _ _ Hra)).
  unfold bind at 1, hasNode at 1. rewrite bool_decide_eq_true_2 by done.
  unfold bind at 1, invariant at 1, ret at 1.
  unfold bind at 1, get_state at 1.
  rewrite (bind_returned _ _ _ _ _ (nodesAt_ids _ _ _ Hat)).
  destruct (connect_all (id root) _ _ ga Hcons_a Hst Hat)
    as (g' & Hadd & Hh & Hcons' & Hlog & Hkeep & Hnew & Hedges & Hall).
  rewrite (bind_returned _ _ _ _ _ Hadd).
  rewrite Hnone. cbn [filter list_filter forEach].
  exists g'. split; [done|]. split; [done|].
  split.
  { pose proof (connect_rootNodeId (id root) (seq (length (heap gr)) (length ns))
                  ga) as Hr.
    by rewrite Hadd in Hr. }
  split; [apply Hkeep; cbn; apply lookup_insert_eq|].
  split; [by rewrite Hh|].
  split.
  { intros c. rewrite <- Hids. rewrite Hedges. split.
    - intros [Hin|[_ Hc]]; [|done]. cbn in Hin.
      destruct (proj2 Hcons _ _ Hin) as [[l Hl] _]. congruence.
    - intros Hc. by right. }
  split.
  { intros i l Hi. apply Hkeep. cbn. rewrite lookup_insert_ne; [done|].
    intros <-. cbn in Hi. congruence. }
  split; [intros e He; apply Hedges; by left|done].
Qed.
End Initialize.

(** ** Where the stored objects of a call come from *)

Lemma forEach_state_inv_in {A} (P : AssetGraph → Prop) (body : A → Js unit) xs :
  (∀ x g, x ∈ xs → P g → P (body x g).2) →
  ∀ g, P g → P (forEach xs body g).2.
Proof.
  induction xs as [|x xs IH]; intros Hbody g HP; [done|]. cbn [forEach].
  apply bind_state_inv; [apply Hbody; [apply list_elem_of_here|done]|].
  intros _ g' HP'. apply IH; [|done].
  intros y s Hy. by apply Hbody, list_elem_of_further.
Qed.

Lemma getNode_returned i g : getNode i g = (Returned (nodes g !! i), g).
Proof. done. Qed.

(** What the body of the first loop does to the stored nodes. *)
Lemma connect_body_nodes f toNode s :
  let s' :=
    ((let* n := read toNode in
      let* existing := getNode (id n) in
      match existing with
      | Some _ => ret tt
      | None => addNode toNode >> ret tt
      end >>
      update_state (addEdge f (id n))) s).2 in
  nodes s' = nodes s
  ∨ ∃ n, heap s !! toNode = Some n ∧ nodes s !! id n = None
         ∧ nodes s' = <[id n := toNode]> (nodes s).
Proof.
  cbv zeta. destruct (heap s !! toNode) as [n|] eqn:Hn.
  2:{ left. by rewrite (bind_threw _ _ _ _ (read_threw _ _ Hn)). }
  rewrite (bind_returned _ _ _ _ _ (read_returned _ _ _ Hn)).
  rewrite (bind_returned _ _ _ _ _ (getNode_returned _ _)).
  destruct (nodes s !! id n) as [l0|] eqn:Hl0.
  - left. unfold bind at 1, ret at 1. unfold update_state, addEdge. cbn [snd].
    by case_bool_decide.
  - right. exists n. split; [done|]. split; [done|].
    unfold bind at 1.
    rewrite (bind_returned _ _ _ _ _ (addNode_returned _ _ _ Hn)).
    unfold ret at 1. unfold update_state, addEdge. cbn [snd].
    by case_bool_decide.
Qed.

(** The first loop stores objects of [toNodes] only, and only under ids that
    were not stored. *)
Lemma connect_sources f toNodes g :
  let g' :=
    (forEach toNodes (λ toNode,
       let* n := read toNode in
       let* existing := getNode (id n) in
       match existing with
       | Some _ => ret tt
       | None => addNode toNode >> ret tt
       end >>
       update_state (addEdge f (id n))) g).2 in
  ∀ i l, nodes g' !! i = Some l →
    nodes g !! i = Some l ∨ (nodes g !! i = None ∧ l ∈ toNodes).
Proof.
  intros g'.
  enough ((∀ i l, nodes g !! i = Some l → nodes g' !! i = Some l)
          ∧ ∀ i l, nodes g' !! i = Some l →
              nodes g !! i = Some l ∨ (nodes g !! i = None ∧ l ∈ toNodes))
    as [_ H]; [exact H|].
  apply (forEach_state_inv_in
           (λ s, (∀ i l, nodes g !! i = Some l → nodes s !! i = Some l)
                 ∧ ∀ i l, nodes s !! i = Some l →
                     nodes g !! i = Some l
                     ∨ (nodes g !! i = None ∧ l ∈ toNodes)));
    [|split; [done|by left]].
  intros toNode s Hin [Hkeep Hsrc].
  destruct (connect_body_nodes f toNode s) as [->|(n & Hn & Hnone & ->)];
    [by split|].
  assert (Hg : nodes g !! id n = None).
  { destruct (nodes g !! id n) as [l1|] eqn:E; [|done].
    apply Hkeep in E. congruence. }
  split.
  - intros i l Hi. rewrite lookup_insert_ne; [by apply Hkeep|].
    intros <-. congruence.
  - intros i l. rewrite lookup_insert_Some.
    intros [[<- <-]|[_ Hi]]; [by right|by apply Hsrc].
Qed.

(** A call [replaceNodesConnectedTo] with a stored parent and readable
    children: it returns, and what it has done. *)
Lemma replaceNodesConnectedTo_contract fromNode toNodes from T g :
  consistent g → heap g !! fromNode = Some from → stored (id from) g →
  nodesAt g toNodes T →
  ∃ g', replaceNodesConnectedTo fromNode toNodes g = (Returned tt, g')
    ∧ rewired (id from) T g g'
    ∧ ∀ i l, nodes g' !! i = Some l →
        nodes g !! i = Some l ∨ (nodes g !! i = None ∧ l ∈ toNodes).
Proof.
  intros Hcons Hfrom Hst Hat.
  destruct (replaceNodesConnectedTo_returns _ _ _ _ _ Hcons Hfrom Hst Hat)
    as (g' & Hrun).
  exists g'. split; [done|].
  split; [by eapply replaceNodesConnectedTo_rewired|].
  unfold replaceNodesConnectedTo in Hrun.
  rewrite (bind_returned _ _ _ _ _ (read_returned _ _ _ Hfrom)) in Hrun.
  unfold bind at 1, hasNode at 1 in Hrun.
  rewrite bool_decide_eq_true_2 in Hrun by done.
  unfold bind at 1, invariant at 1, ret at 1 in Hrun.
  unfold bind at 1, get_state at 1 in Hrun.
  rewrite (bind_returned _ _ _ _ _ (nodesAt_ids _ _ _ Hat)) in Hrun.
  destruct (connect_all (id from) toNodes T g Hcons Hst Hat)
    as (ga & Hadd & Hconn).
  rewrite (bind_returned _ _ _ _ _ Hadd) in Hrun.
  pose proof (connect_sources (id from) toNodes g) as Hsrc.
  cbv zeta in Hsrc. rewrite Hadd in Hsrc. cbn [snd] in Hsrc.
  apply disconnect_all in Hrun; [|apply Hconn].
  destruct Hrun as (_ & _ & Hsub & _).
  intros i l Hi. by apply Hsrc, Hsub.
Qed.

(** ** The second call: which objects can be stored *)

Lemma dependencyNodes_kinds dependentAssets deps : ∀ g,
  ∃ r ns,
    dependencyNodes dependentAssets deps g
    = (Returned r, set_heap (heap g ++ ns) g)
    ∧ Forall (λ n, type n ≠ asset_group) ns
    ∧ Forall (λ l, length (heap g) ≤ l < length (heap g) + length ns)
             (r.1 ++ r.2.*2).
Proof.
  induction deps as [|dep rest IH]; intros g.
  { exists ([], []), []. cbn. rewrite app_nil_r, set_heap_id.
    repeat split; constructor. }
  cbn [dependencyNodes].
  rewrite (bind_returned _ _ _ _ _ (alloc_returned _ _)).
  set (L := length (heap g)). set (nd := nodeFromDep dep).
  assert (∃ pre withAsset nd',
    (match find (λ a, bool_decide (uniqueKey a = Some (moduleSpecifier dep)))
                dependentAssets with
     | Some dependentAsset =>
         write L (set_complete (Some true)) >>
         let* assetNode := alloc (nodeFromAsset dependentAsset) in
         ret [(L, assetNode)]
     | None => ret []
     end) (set_heap (heap g ++ [nd]) g)
    = (Returned withAsset, set_heap (heap g ++ nd' :: pre) g)
    ∧ Forall (λ n, type n ≠ asset_group) (nd' :: pre)
    ∧ Forall (λ l, L ≤ l < L + length (nd' :: pre)) withAsset.*2)
    as (pre & withAsset & nd' & Hstep & Hkinds & Hlocs).
  { destruct (find _ dependentAssets) as [da|].
    - assert (Hnd : heap (set_heap (heap g ++ [nd]) g) !! L = Some nd).
      { cbn. by rewrite lookup_app_r, Nat.sub_diag by (unfold L; lia). }
      rewrite (bind_returned _ _ _ _ _ (write_returned _ _ _ _ Hnd)).
      rewrite (bind_returned _ _ _ _ _ (alloc_returned _ _)).
      exists [nodeFromAsset da], [(L, S L)], (set_complete (Some true) nd).
      cbn [heap set_heap]. unfold ret.
      rewrite insert_app_r_alt, Nat.sub_diag by (unfold L; lia).
      cbn [insert list_insert]. rewrite <- app_assoc, length_app.
      cbn [length app]. fold L.
      replace (L + 1) with (S L) by lia.
      split; [done|]. split.
      + constructor; [done|]. constructor; [done|constructor].
      + constructor; [cbn; lia|constructor].
    - exists [], [], nd. split; [done|]. split; [|constructor].
      constructor; [done|constructor]. }
  rewrite (bind_returned _ _ _ _ _ Hstep).
  destruct (IH (set_heap (heap g ++ nd' :: pre) g))
    as (r & ns & Hrest & Hkinds' & Hlocs').
  rewrite (bind_returned _ _ _ _ _ Hrest). unfold ret.
  cbn [heap set_heap] in *.
  exists (L :: r.1, withAsset ++ r.2), ((nd' :: pre) ++ ns).
  rewrite app_assoc. split; [done|]. cbn [fst snd].
  split; [by apply Forall_app|].
  rewrite length_app in Hlocs'. fold L in Hlocs'.
  rewrite fmap_app, length_app.
  apply Forall_app in Hlocs' as [H1 H2].
  apply Forall_cons. split; [cbn in *; lia|].
  apply Forall_app. split; [|apply Forall_app; split].
  - eapply Forall_impl; [exact H1|]. cbn. intros; lia.
  - eapply Forall_impl; [exact Hlocs|]. cbn. intros; lia.
  - eapply Forall_impl; [exact H2|]. cbn. intros; lia.
Qed.

Lemma notGroupAt_fresh (h ns : list Node) g l :
  Forall (λ n, type n ≠ asset_group) ns →
  length h ≤ l < length h + length ns →
  notGroupAt (set_heap (h ++ ns) g) l.
Proof.
  intros Hk Hl. cbn.
  destruct (lookup_lt_is_Some_2 ns (l - length h)) as [n Hn]; [lia|].
  exists n. unfold notGroupAt. cbn [heap set_heap].
  rewrite lookup_app_r by lia. split; [done|].
  by apply (proj1 (Forall_lookup _ _) Hk _ _ Hn).
Qed.

Lemma notGroupAt_touched U W g g' l :
  touched U W (heap g) (heap g') → notGroupAt g l → notGroupAt g' l.
Proof.
  intros Ht (n & Hn & Hk).
  destruct (Ht l n Hn) as (n' & Hn' & _ & Hv & _).
  exists n'. split; [done|]. unfold type in *. by rewrite Hv.
Qed.

Lemma groupsKept_quiet U W g s s' :
  storedObjects s → quiet U W s s' → groupsKept g s → groupsKept g s'.
Proof.
  intros Hst (N & _ & _ & Ht) Hk i l n' Hi Hn' Hty.
  rewrite N in Hi.
  destruct (lookup_lt_is_Some_2 (heap s) l) as [n Hn]; [by eapply Hst|].
  destruct (Ht l n Hn) as (n2 & Hn2 & _ & Hv & _).
  assert (n2 = n') as -> by congruence.
  apply (Hk i l n Hi Hn). unfold type in *. by rewrite <- Hv.
Qed.

Lemma groupsKept_replace g s s' fromNode toNodes from T :
  consistent s → heap s !! fromNode = Some from → nodesAt s toNodes T →
  Forall (notGroupAt s) toNodes →
  replaceNodesConnectedTo fromNode toNodes s = (Returned tt, s') →
  groupsKept g s → groupsKept g s'.
Proof.
  intros Hcons Hfrom Hat Hkinds Hrun Hk.
  destruct (replaceNodesConnectedTo_rewired _ _ _ _ _ _ Hcons Hfrom Hat Hrun)
    as [Hst (Hh & _)].
  destruct (replaceNodesConnectedTo_contract _ _ _ _ _ Hcons Hfrom Hst Hat)
    as (s2 & Hrun2 & _ & Horigin).
  assert (s2 = s') as -> by congruence.
  intros i l n Hi Hn Hty. rewrite Hh in Hn.
  destruct (Horigin i l Hi) as [Hold|[_ Hnew]]; [by eapply Hk|].
  destruct (proj1 (Forall_forall _ _) Hkinds l Hnew) as (n' & Hn' & Hno).
  congruence.
Qed.

Lemma groupsKept_dependents g pairs : ∀ s s',
  consistent s →
  Forall (λ p : loc * loc,
            (∃ i, objectAt s p.1 i) ∧ (∃ T, nodesAt s [p.2] T)
            ∧ notGroupAt s p.2) pairs →
  forEach pairs (λ p, replaceNodesConnectedTo p.1 [p.2]) s
  = (Returned tt, s') →
  groupsKept g s → groupsKept g s'.
Proof.
  induction pairs as [|p pairs IH]; intros s s' Hcons Hall Hrun Hk.
  - by injection Hrun as <-.
  - apply Forall_cons in Hall
      as [([i (n & Hn & _)] & [T Hat] & Hkind) Hrest].
    cbn [forEach] in Hrun.
    apply bind_returned_inv in Hrun as ([] & s1 & Hcall & Hrun).
    destruct (replaceNodesConnectedTo_rewired _ _ _ _ _ _ Hcons Hn Hat Hcall)
      as [_ (Hh & Hcons1 & _)].
    apply (IH s1 s'); [done| |done|].
    + eapply Forall_impl; [exact Hrest|].
      intros q. unfold objectAt, nodesAt, notGroupAt. by rewrite Hh.
    + eapply groupsKept_replace; [exact Hcons|exact Hn|exact Hat| |exact Hcall|
                                  exact Hk].
      by constructor.
Qed.

Lemma groupsKept_resolveAsset g a dependentAssets s s' :
  consistent s →
  resolveAsset a dependentAssets s = (Returned tt, s') →
  groupsKept g s → groupsKept g s'.
Proof.
  intros Hcons Hrun Hk.
  destruct (resolveAsset_returned _ _ _ _ Hrun) as (an & av & Han & Hav).
  unfold resolveAsset in Hrun.
  rewrite (bind_returned _ _ _ _ _ (read_returned _ _ _ Han)), Hav in Hrun.
  destruct (dependencyNodes_fresh dependentAssets
              (JsMap.values (dependencies av)) s)
    as (r & ns & Hnodes & Hdeps & Hfresh & Hpairs).
  destruct (dependencyNodes_kinds dependentAssets
              (JsMap.values (dependencies av)) s)
    as (r' & ns' & Hnodes' & Hkinds & Hlocs).
  rewrite Hnodes in Hnodes'. injection Hnodes' as <- Hns.
  apply app_inv_head in Hns as <-.
  rewrite (bind_returned _ _ _ _ _ Hnodes) in Hrun.
  set (s0 := set_heap (heap s ++ ns) s) in *.
  assert (Hq0 : quiet (λ l, l = a) (λ l, length (heap s) ≤ l) s s0)
    by apply quiet_extend.
  pose proof (quiet_consistent _ _ _ _ Hq0 Hcons) as Hcons0.
  assert (Han0 : heap s0 !! a = Some an) by (by apply lookup_app_l_Some).
  assert (Hkind0 : Forall (notGroupAt s0) (r.1 ++ r.2.*2)).
  { eapply Forall_impl; [exact Hlocs|]. intros l Hl.
    by apply notGroupAt_fresh. }
  apply Forall_app in Hkind0 as [Hk1 Hk2].
  apply bind_returned_inv in Hrun as ([] & s1 & Hcall & Hrun).
  destruct (replaceNodesConnectedTo_rewired _ _ _ _ _ _ Hcons0 Han0 Hdeps Hcall)
    as [Hst Hr].
  pose proof Hr as (Hh1 & Hcons1 & _).
  apply bind_returned_inv in Hrun as ([] & s2 & Hused & Hrun).
  assert (Hq2 : quiet (λ l, l = a) (λ l, length (heap s) ≤ l) s1 s2).
  { replace s2 with (setUsedSymbolsAsset a r.1 s1).2 by (by rewrite Hused).
    apply setUsedSymbolsAsset_quiet; [done|].
    intros l Hl. by apply (proj1 (Forall_forall _ _) Hfresh). }
  pose proof (quiet_consistent _ _ _ _ Hq2 Hcons1) as Hcons2.
  assert (K0 : groupsKept g s0).
  { eapply groupsKept_quiet; [|exact Hq0|exact Hk].
    apply wellFormed_storedObjects, Hcons. }
  assert (K1 : groupsKept g s1)
    by (eapply groupsKept_replace; [exact Hcons0|exact Han0|exact Hdeps|
                                    exact Hk1|exact Hcall|exact K0]).
  assert (K2 : groupsKept g s2).
  { eapply groupsKept_quiet; [|exact Hq2|exact K1].
    apply wellFormed_storedObjects, Hcons1. }
  eapply (groupsKept_dependents g r.2); [exact Hcons2| |exact Hrun|exact K2].
  destruct Hq2 as (_ & _ & _ & Ht2).
  apply Forall_forall. intros p Hp.
  apply list_elem_of_lookup in Hp as [k Hp].
  destruct (Forall2_lookup_l _ _ _ _ _ Hpairs Hp) as (st & _ & Hq & Hq').
  split; [|split].
  - exists st.1. eapply objectAt_touched; [exact Ht2|].
    unfold objectAt in *. by rewrite Hh1.
  - exists st.2. eapply nodesAt_touched; [exact Ht2|].
    unfold nodesAt in *. by rewrite Hh1.
  - eapply notGroupAt_touched; [exact Ht2|].
    unfold notGroupAt. rewrite Hh1.
    apply (proj1 (Forall_forall _ _) Hk2).
    apply list_elem_of_fmap. exists p. split; [done|].
    by eapply list_elem_of_lookup_2.
Qed.

Lemma groupsKept_assets g objs : ∀ s s',
  consistent s →
  forEach objs (λ o, resolveAsset (assetNode o) (dependentAssets o)) s
  = (Returned tt, s') →
  groupsKept g s → groupsKept g s' ∧ consistent s'.
Proof.
  induction objs as [|o objs IH]; intros s s' Hcons Hrun Hk.
  - by injection Hrun as <-.
  - cbn [forEach] in Hrun.
    apply bind_returned_inv in Hrun as ([] & s1 & Hcall & Hrun).
    destruct (resolveAsset_returned _ _ _ _ Hcall) as (an & av & Han & Hav).
    pose proof (resolveAsset_ran _ _ _ _ _ _ Hcons Han Hav Hcall) as Hran.
    destruct (ran_evolved _ _ _ _ _ Hran Hcons) as (Hcons1 & _).
    apply (IH s1 s'); [done|done|].
    exact (groupsKept_resolveAsset g _ _ s s1 Hcons Hcall Hk).
Qed.

Lemma groupsKept_refl g : groupsKept g g.
Proof. by intros i l n Hi _ _. Qed.

Lemma directNodes_kinds g objs plan :
  Forall2 (λ o x, assetObjectAt g o x ∧ True) objs plan →
  Forall (notGroupAt g)
    (map assetNode (filter (λ o, isDirect o = true) objs)).
Proof.
  induction 1 as [|o x objs plan [(Hd & Hi & n & Hn & Hid & Hv) _] _ IH];
    [constructor|].
  rewrite filter_cons. destruct (decide (isDirect o = true)); [|done].
  cbn [map]. constructor; [|done].
  exists n. split; [done|]. unfold type. by rewrite Hv.
Qed.

Section Again.
Context `{!Md5FromObject AssetGroup}.

(** A second call of [resolveAssetGroup], on a graph where the nodes it
    rewires have the children it gives them, changes nothing that the graph
    shows. *)
Lemma resolveAssetGroup_again assetGroup assets request g g1 :
  consistent g →
  resolveAssetGroup assetGroup assets request g = (Returned tt, g1) →
  (∀ p T, (p, T) ∈ groupSteps (id (nodeFromAssetGroup assetGroup)) assets →
          settled p T g1) →
  view (resolveAssetGroup assetGroup assets request g1).2 = view g1.
Proof.
  intros Hcons Hrun Hset.
  destruct (resolveAssetGroup_returned _ _ _ _ _ (proj1 Hcons) Hrun)
    as [Habs|(l & n & Hl & Hn & Ht & Hid)].
  { rewrite resolveAssetGroup_absent in Hrun by done. injection Hrun as <-.
    by rewrite resolveAssetGroup_absent. }
  destruct (resolveAssetGroup_stored _ assets request _ _ _ Hl Hn Ht)
    as (objs & Hall & Heq).
  rewrite Heq in Hrun. clear Heq.
  set (nw := set_correspondingRequest (Some request) n) in *.
  set (gw := set_heap (<[l:=nw]> (heap g)) g).
  set (ga := set_heap (<[l:=nw]> (heap g) ++ (nodeFromAsset <$> assets)) g)
    in *.
  set (L := length (heap g)) in *.
  assert (Hqw : quiet (λ _, True) (λ _, True) g gw)
    by (apply (quiet_write _ _ g l n); auto).
  pose proof (quiet_consistent _ _ _ _ Hqw Hcons) as Hcons_w.
  assert (Hqa : quiet (λ _, False) (λ l, L ≤ l) gw ga)
    by exact (quiet_extend _ _ (nodeFromAsset <$> assets) gw).
  pose proof (quiet_consistent _ _ _ _ Hqa Hcons_w) as Hcons_a.
  assert (Hgw : heap gw !! l = Some nw).
  { apply list_lookup_insert_eq. by eapply lookup_lt_Some. }
  assert (Hga : heap ga !! l = Some nw) by (by apply lookup_app_l_Some).
  apply bind_returned_inv in Hrun as ([] & gr & Hcall & Hrun).
  assert (Hat : nodesAt ga
            (map assetNode (filter (λ o, isDirect o = true) objs))
            ((λ x : Asset * list Asset * bool, asset_id x.1.1)
             <$> filter (λ x : Asset * list Asset * bool, x.2 = true)
                        (assetPlan assets [] assets))).
  { apply directNodes_at. eapply Forall2_impl; [exact Hall|].
    by intros o x [? _]. }
  destruct (replaceNodesConnectedTo_rewired _ _ _ _ _ _ Hcons_a Hga Hat Hcall)
    as [Hst Hr].
  pose proof Hr as (Hhr & Hcons_r & _).
  assert (Hran : ran (λ _, False) (λ l, L ≤ l)
            (groupSteps (id (nodeFromAssetGroup assetGroup)) assets) gw g1).
  { unfold groupSteps. change (?x :: ?s) with ([] ++ [x] ++ s).
    apply (ran_app _ _ _ _ gw ga); [by apply ran_quiet|].
    apply (ran_app _ _ _ _ ga gr).
    - rewrite <- Hid. by apply ran_replace.
    - apply (assets_ran L objs); [done| | |done].
      + rewrite Hhr. unfold ga. cbn [heap set_heap].
        rewrite length_app, length_insert. fold L. lia.
      + eapply Forall2_impl; [exact Hall|].
        intros o x [Hat' ?]. split; [|done].
        unfold assetObjectAt in *. by rewrite Hhr. }
  destruct (ran_evolved _ _ _ _ _ Hran Hcons_w) as (Hcons1 & Ht1 & _).
  assert (Hkept : groupsKept gw g1).
  { assert (Ka : groupsKept gw ga).
    { eapply groupsKept_quiet; [|exact Hqa|apply groupsKept_refl].
      apply wellFormed_storedObjects, Hcons_w. }
    assert (Kr : groupsKept gw gr).
    { eapply groupsKept_replace; [exact Hcons_a|exact Hga|exact Hat| |
                                  exact Hcall|exact Ka].
      apply (directNodes_kinds ga objs (assetPlan assets [] assets)).
      eapply Forall2_impl; [exact Hall|]. by intros o x [? _]. }
    by apply (groupsKept_assets gw objs gr g1). }
  destruct (nodes g1 !! id (nodeFromAssetGroup assetGroup)) as [l'|] eqn:Hl';
    [|by rewrite resolveAssetGroup_absent].
  destruct (proj1 Hcons1 _ _ Hl') as (n' & Hn' & Hid' & _).
  destruct (decide (type n' = asset_group)) as [Hty|Hty].
  2:{ unfold resolveAssetGroup. unfold bind at 1, getNode at 1. rewrite Hl'.
      rewrite (bind_returned _ _ _ _ _ (read_returned _ _ _ Hn')).
      unfold bind at 1, invariant at 1.
      by rewrite bool_decide_eq_false_2. }
  assert (l' = l) as ->.
  { pose proof (Hkept _ _ _ Hl' Hn' Hty) as Hold.
    change (nodes g !! id (nodeFromAssetGroup assetGroup) = Some l') in Hold.
    congruence. }
  assert (Hg1 : heap g1 !! l = Some nw).
  { destruct (Ht1 l nw Hgw) as (n2 & Hn2 & _ & _ & _ & Hsame).
    rewrite Hn2. f_equal. apply Hsame; [|tauto].
    apply lookup_lt_Some in Hn. fold L in Hn. lia. }
  destruct (resolveAssetGroup_stored _ assets request _ _ _ Hl' Hg1 Ht)
    as (objs' & Hall' & Heq').
  rewrite Heq'. clear Heq'.
  replace (set_correspondingRequest (Some request) nw) with nw in * by done.
  rewrite list_insert_id in * by done.
  set (gb := set_heap (heap g1 ++ (nodeFromAsset <$> assets)) g1) in *.
  assert (Hqb : quiet (λ _, False) (λ l, length (heap g1) ≤ l) g1 gb)
    by apply quiet_extend.
  assert (Hgb : heap gb !! l = Some nw) by (by apply lookup_app_l_Some).
  apply fresh_view; [apply Hcons1|].
  eapply quiet_trans; [exact Hqb|].
  apply (bind_state_same
           (quiet (λ _, False) (λ l, length (heap g1) ≤ l) gb)).
  - apply (replaceNodesConnectedTo_absorbed _ _ nw
             ((λ x : Asset * list Asset * bool, asset_id x.1.1)
              <$> filter (λ x : Asset * list Asset * bool, x.2 = true)
                         (assetPlan assets [] assets))); [done| |].
    + apply nodesAt_ids_only, directNodes_at.
      eapply Forall2_impl; [exact Hall'|]. by intros o x [? _].
    + apply (settled_same _ _ g1); [done..|].
      change (id nw) with (id n). rewrite Hid.
      apply Hset, list_elem_of_here.
  - apply quiet_refl.
  - intros _. apply (assets_quiet _ objs' (assetPlan assets [] assets)).
    + unfold gb. cbn [heap set_heap]. rewrite length_app. lia.
    + done.
    + intros p T Hin. apply (settled_same _ _ g1); [done..|].
      by apply Hset, list_elem_of_further.
Qed.
End Again.

(** A second call of [resolveAsset] with the node object of the first. *)
Lemma resolveAsset_again a dependentAssets g g1 an av :
  consistent g →
  resolveAsset a dependentAssets g = (Returned tt, g1) →
  heap g !! a = Some an → value an = AssetValue av →
  (∀ p T, (p, T) ∈ assetSteps (id an) av dependentAssets → settled p T g1) →
  sameButUsedSymbolsAt a g1 (resolveAsset a dependentAssets g1).2.
Proof.
  intros Hcons Hrun Han Hav Hset.
  pose proof (resolveAsset_ran _ _ _ _ _ _ Hcons Han Hav Hrun) as Hran.
  destruct (ran_evolved _ _ _ _ _ Hran Hcons) as (Hcons1 & Ht & _).
  destruct (Ht a an Han) as (an1 & Han1 & Hid1 & Hv1 & _).
  apply quiet_sameButUsedSymbolsAt, resolveAsset_quiet.
  intros an' av' Han' Hav' Hst p T Hin.
  assert (an' = an1) as -> by congruence.
  assert (av' = av) as -> by congruence.
  rewrite Hid1 in Hin. by apply Hset.
Qed.

(** A second call of [resolveAsset] with a new node object of the same
    asset, as [resolveAssetGroup] calls it (line 357). *)
Lemma resolveAsset_again_fresh av dependentAssets g1 :
  wellFormed g1 →
  (∀ p T, (p, T) ∈ assetSteps (asset_id av) av dependentAssets →
          settled p T g1) →
  view ((let* node := alloc (nodeFromAsset av) in
         resolveAsset node dependentAssets) g1).2
  = view g1.
Proof.
  intros Hwf Hset.
  rewrite (bind_returned _ _ _ _ _ (alloc_returned _ _)).
  set (gb := set_heap (heap g1 ++ [nodeFromAsset av]) g1).
  assert (Hqb : quiet (λ l, l = length (heap g1))
                  (λ l, length (heap gb) ≤ l) g1 gb) by apply quiet_extend.
  assert (Hnode : heap gb !! length (heap g1) = Some (nodeFromAsset av)).
  { unfold gb. cbn [heap set_heap]. by rewrite lookup_app_r, Nat.sub_diag. }
  eapply (quiet_view (λ l, l = length (heap g1))
            (λ l, length (heap gb) ≤ l)); [done| |].
  - eapply quiet_trans; [exact Hqb|].
    apply resolveAsset_quiet. intros an' av' Han' Hav' Hst p T Hin.
    rewrite Hnode in Han'. injection Han' as <-. cbn in Hav'.
    injection Hav' as <-. apply (settled_same _ _ g1); [done..|].
    by apply Hset.
  - intros i l Hi. pose proof (wellFormed_stored_lt g1 i l Hwf Hi).
    unfold gb. cbn [heap set_heap]. rewrite length_app. cbn. lia.
Qed.

(** One call [replaceNodesConnectedTo(from, toNodes)] on a stored node
    leaves what the graph shows as it is exactly when the node has the
    children it is given. *)
Lemma replaceNodesConnectedTo_exact fromNode toNodes from T g :
  consistent g → heap g !! fromNode = Some from → stored (id from) g →
  nodesAt g toNodes T →
  view (replaceNodesConnectedTo fromNode toNodes g).2 = view g
  ↔ settled (id from) T g.
Proof.
  intros Hcons Hfrom Hst Hat. split.
  - destruct (replaceNodesConnectedTo_contract _ _ _ _ _ Hcons Hfrom Hst Hat)
      as (g' & -> & (_ & Hcons' & _ & Hown & _) & _).
    cbn [snd]. intros Hview _.
    assert (He : edges g' = edges g) by (by injection Hview).
    assert (Hst' : stored (id from) g').
    { assert (Hn : ((λ l, heap g' !! l) <$> nodes g') !! id from
                   = ((λ l, heap g !! l) <$> nodes g) !! id from)
        by (by injection Hview as ->).
      rewrite !lookup_fmap in Hn. destruct Hst as [l Hl]. rewrite Hl in Hn.
      unfold stored. by destruct (nodes g' !! id from). }
    split.
    + intros c. rewrite <- He. by apply Hown.
    + intros t Ht. apply (proj2 Hcons (id from) t).
      rewrite <- He. by apply Hown.
  - intros Hset.
    by rewrite (replaceNodesConnectedTo_absorbed _ _ from T g Hfrom
                  (nodesAt_ids_only _ _ _ Hat) Hset).
Qed.

(** ** Calling a resolver twice *)

Section Idempotence.
Context `{!Md5FromObject AssetGroup, !Md5FromObject Entry}.
Context `{!CreateDependency}.

(** C6, amended.  On a graph whose stored ids are those of their objects and
    whose edges join stored nodes, a resolver that has returned is called
    again with the same arguments.  For [resolveEntry], [resolveTargets] and
    [resolveDependency] the second call leaves the stored ids, the objects
    stored under them and the edges as the first call left them.  So does
    the second call of [resolveAssetGroup], provided the first call has left
    every node whose children it replaces (the group, the assets and their
    dependencies with a dependent asset) that is still stored with
    exactly the children it gives it.  Under the same proviso a second call
    of [resolveAsset] with a new node object of the same asset, as
    [resolveAssetGroup] makes it, changes nothing either, and a second call
    with the node object of the first call leaves the ids, the edges and
    every object as they were, except for the [usedSymbols] set of that
    node object.  The proviso is what each replacement needs: a call
    [replaceNodesConnectedTo(from, toNodes)] on a stored node leaves what
    the graph shows as it is exactly when the node has the children it is
    given. *)
Theorem resolver_idempotence g :
  consistent g →
  (∀ entry resolved request g1,
     resolveEntry entry resolved request g = (Returned tt, g1) →
     view (resolveEntry entry resolved request g1).2 = view g1)
  ∧ (∀ entry targets request g1,
       resolveTargets entry targets request g = (Returned tt, g1) →
       view (resolveTargets entry targets request g1).2 = view g1)
  ∧ (∀ dep assetGroup request g1,
       resolveDependency dep assetGroup request g = (Returned tt, g1) →
       view (resolveDependency dep assetGroup request g1).2 = view g1)
  ∧ (∀ assetGroup assets request g1,
       resolveAssetGroup assetGroup assets request g = (Returned tt, g1) →
       (∀ p T,
          (p, T) ∈ groupSteps (id (nodeFromAssetGroup assetGroup)) assets →
          settled p T g1) →
       view (resolveAssetGroup assetGroup assets request g1).2 = view g1)
  ∧ (∀ assetNode dependentAssets g1 an a,
       resolveAsset assetNode dependentAssets g = (Returned tt, g1) →
       heap g !! assetNode = Some an → value an = AssetValue a →
       id an = asset_id a →
       (∀ p T, (p, T) ∈ assetSteps (asset_id a) a dependentAssets →
               settled p T g1) →
       view ((let* node := alloc (nodeFromAsset a) in
              resolveAsset node dependentAssets) g1).2
       = view g1
       ∧ sameButUsedSymbolsAt assetNode g1
           (resolveAsset assetNode dependentAssets g1).2)
  ∧ (∀ fromNode toNodes from T,
       heap g !! fromNode = Some from → stored (id from) g →
       nodesAt g toNodes T →
       view (replaceNodesConnectedTo fromNode toNodes g).2 = view g
       ↔ settled (id from) T g).
Proof.
  intros Hcons. split; [|split; [|split; [|split; [|split]]]].
  - intros entry resolved request g1. by apply resolveEntry_twice.
  - intros entry targets request g1. by apply resolveTargets_twice.
  - intros dep assetGroup request g1. by apply resolveDependency_twice.
  - intros assetGroup assets request g1. by apply resolveAssetGroup_again.
  - intros assetNode dependentAssets g1 an a Hrun Han Hav Hid Hset. split.
    + apply resolveAsset_again_fresh; [|done].
      pose proof (resolveAsset_ran _ _ _ _ _ _ Hcons Han Hav Hrun) as Hran.
      by destruct (ran_evolved _ _ _ _ _ Hran Hcons) as ([? _] & _).
    + apply (resolveAsset_again _ _ g g1 an a); try done.
      by rewrite Hid.
  - intros fromNode toNodes from T Hfrom Hst Hat.
    by apply replaceNodesConnectedTo_exact.
Qed.

End Idempotence.

Lemma settledb_correct p T g : settledb p T g = true → settled p T g.
Proof.
  unfold settledb, settled, stored. intros Hb Hst.
  rewrite bool_decide_eq_true_2 in Hb by done.
  apply andb_true_iff in Hb as [He Ht].
  rewrite forallb_forall in He. rewrite forallb_forall in Ht.
  assert (Hall : ∀ t, t ∈ T → (p, t) ∈ edges g ∧ is_Some (nodes g !! t)).
  { intros t Hin. specialize (Ht t (proj1 (list_elem_of_In _ _) Hin)).
    apply andb_true_iff in Ht as [H1 H2].
    split; by eapply bool_decide_eq_true. }
  split.
  - intros c. split; [|intros Hc; by destruct (Hall c Hc)].
    intros Hin. specialize (He (p, c) (proj1 (list_elem_of_In _ _) Hin)).
    cbn in He. rewrite bool_decide_eq_true_2 in He by done.
    by eapply bool_decide_eq_true.
  - intros t Hin. by destruct (Hall t Hin).
Qed.

Lemma all_settled steps g :
  forallb (λ st : string * list string, settledb st.1 st.2 g) steps = true →
  ∀ p T, (p, T) ∈ steps → settled p T g.
Proof.
  rewrite forallb_forall. intros Hall p T Hin.
  apply settledb_correct.
  exact (Hall (p, T) (proj1 (list_elem_of_In _ _) Hin)).
Qed.

(** C6 as stated fails.  For [resolveAssetGroup]: in the batch [Clash.batch]
    the dependencies of [b] and of [c] share the id [d] but name the assets
    [a] and [x]; the first call wires [d] to [a], gives [a] its dependency
    [e], then rewires [d] to [x], which removes [a] and [e], and in the end
    stores [a] again, bare, below [d2].  Both calls return; the second gives
    [a] its dependency [e] back, so the graph it leaves is not the graph of
    the first.  For [resolveAsset] called again with the same node object:
    the asset imports itself; the first call wires its dependency [d] back
    to the asset only after the used symbols have been computed, so the
    second call finds [d] among the incoming dependencies and changes the
    asset's [usedSymbols] from {} to {a}. *)
Lemma resolver_idempotence_counterexample :
  (consistent Clash.started
   ∧ @resolveAssetGroup Example.md5Group Clash.group Clash.batch "request"
       Clash.started
     = (Returned tt, Clash.once)
   ∧ @resolveAssetGroup Example.md5Group Clash.group Clash.batch "request"
       Clash.once
     = (Returned tt, Clash.twice)
   ∧ stored "a" Clash.once ∧ ¬ stored "e" Clash.once
   ∧ ¬ settled "a" ["e"] Clash.once
   ∧ stored "e" Clash.twice
   ∧ view Clash.twice ≠ view Clash.once)
  ∧ resolveAsset 2 [Example.selfAsset] Example.selfWired
    = (Returned tt, Example.selfOnce)
  ∧ resolveAsset 2 [Example.selfAsset] Example.selfOnce
    = (Returned tt, Example.selfTwice)
  ∧ nodes Example.selfOnce !! "self" = Some 2
  ∧ usedSymbols <$> heap Example.selfOnce !! 2 = Some []
  ∧ usedSymbols <$> heap Example.selfTwice !! 2 = Some ["a"]
  ∧ view Example.selfTwice ≠ view Example.selfOnce.
Proof.
  split.
  { assert (Ha : stored "a" Clash.once) by (vm_compute; by eexists).
    assert (He : ¬ stored "e" Clash.once).
    { intros [l Hl]. vm_compute in Hl. discriminate. }
    split; [apply consistentb_correct; vm_compute; reflexivity|].
    split; [vm_compute; reflexivity|]. split; [vm_compute; reflexivity|].
    split; [exact Ha|]. split; [exact He|]. split.
    { intros Hs. destruct (Hs Ha) as [_ Hst]. apply He, Hst.
      apply list_elem_of_here. }
    split; [vm_compute; by eexists|].
    intros Hview.
    assert (Hnode : (view Clash.twice).1 !! "e" = (view Clash.once).1 !! "e")
      by (by rewrite Hview).
    vm_compute in Hnode. discriminate. }
  split; [vm_compute; reflexivity|]. split; [vm_compute; reflexivity|].
  split; [vm_compute; reflexivity|]. split; [vm_compute; reflexivity|].
  split; [vm_compute; reflexivity|].
  intros Hview.
  assert (Hnode : (view Example.selfTwice).1 !! "self"
                  = (view Example.selfOnce).1 !! "self") by (by rewrite Hview).
  vm_compute in Hnode. discriminate.
Qed.

Lemma resolver_idempotence_witness :
  consistent Pipeline.started
  ∧ view (@resolveEntry Example.md5Entry "index" [Pipeline.entry] "request-1"
            Pipeline.withEntry).2
    = view Pipeline.withEntry
  ∧ consistent Pipeline.withEntry
  ∧ view (@resolveTargets Example.md5Entry Example.newDependency
            Pipeline.entry [Pipeline.target] "request-2"
            Pipeline.withTargets).2
    = view Pipeline.withTargets
  ∧ consistent Pipeline.withTargets
  ∧ view (@resolveDependency Example.md5Group
            (@targetDependency Example.newDependency Pipeline.entry
               Pipeline.target)
            (Some Pipeline.group) "request-3" Pipeline.withGroup).2
    = view Pipeline.withGroup
  ∧ consistent Pipeline.withOld
  ∧ (∀ p T, (p, T) ∈ groupSteps "group:/index.js"
                       [Pipeline.main; Pipeline.part] →
            settled p T Pipeline.withMain)
  ∧ view (@resolveAssetGroup Example.md5Group Pipeline.group
            [Pipeline.main; Pipeline.part] "request-5" Pipeline.withMain).2
    = view Pipeline.withMain
  ∧ consistent Example.selfWired
  ∧ (∀ p T, (p, T) ∈ assetSteps "self" Example.selfAsset [Example.selfAsset] →
            settled p T Example.selfOnce)
  ∧ view ((let* node := alloc (nodeFromAsset Example.selfAsset) in
           resolveAsset node [Example.selfAsset]) Example.selfOnce).2
    = view Example.selfOnce
  ∧ sameButUsedSymbolsAt 2 Example.selfOnce Example.selfTwice.
Proof.
  assert (H0 : consistent Pipeline.started)
    by (apply consistentb_correct; vm_compute; reflexivity).
  assert (H1 : consistent Pipeline.withEntry)
    by (apply consistentb_correct; vm_compute; reflexivity).
  assert (H2 : consistent Pipeline.withTargets)
    by (apply consistentb_correct; vm_compute; reflexivity).
  assert (H3 : consistent Pipeline.withOld)
    by (apply consistentb_correct; vm_compute; reflexivity).
  assert (H4 : consistent Example.selfWired)
    by (apply consistentb_correct; vm_compute; reflexivity).
  assert (S3 : ∀ p T, (p, T) ∈ groupSteps "group:/index.js"
                                  [Pipeline.main; Pipeline.part] →
                      settled p T Pipeline.withMain)
    by (apply all_settled; vm_compute; reflexivity).
  assert (S4 : ∀ p T, (p, T) ∈ assetSteps "self" Example.selfAsset
                                  [Example.selfAsset] →
                      settled p T Example.selfOnce)
    by (apply all_settled; vm_compute; reflexivity).
  split; [exact H0|]. split.
  { apply (proj1 (@resolver_idempotence Example.md5Group Example.md5Entry
                    Example.newDependency Pipeline.started H0)).
    vm_compute. reflexivity. }
  split; [exact H1|]. split.
  { apply (proj1 (proj2 (@resolver_idempotence Example.md5Group
                    Example.md5Entry Example.newDependency
                    Pipeline.withEntry H1))).
    vm_compute. reflexivity. }
  split; [exact H2|]. split.
  { apply (proj1 (proj2 (proj2 (@resolver_idempotence Example.md5Group
                    Example.md5Entry Example.newDependency
                    Pipeline.withTargets H2)))).
    vm_compute. reflexivity. }
  split; [exact H3|]. split; [exact S3|]. split.
  { apply (proj1 (proj2 (proj2 (proj2 (@resolver_idempotence Example.md5Group
                    Example.md5Entry Example.newDependency
                    Pipeline.withOld H3))))).
    - vm_compute. reflexivity.
    - exact S3. }
  split; [exact H4|]. split; [exact S4|].
  apply (proj1 (proj2 (proj2 (proj2 (proj2 (@resolver_idempotence
                    Example.md5Group Example.md5Entry Example.newDependency
                    Example.selfWired H4)))))
           2 [Example.selfAsset] Example.selfOnce
           (mkNode "self" (AssetValue Example.selfAsset)) Example.selfAsset).
  - vm_compute. reflexivity.
  - reflexivity.
  - reflexivity.
  - reflexivity.
  - exact S4.
Defined.

(** ** The resolvers of one call: what they do *)

Lemma stamped_replace l n i request ns g :
  consistent g → nodes g !! i = Some l → heap g !! l = Some n →
  Forall wfNode ns →
  ∃ g',
    replaceNodesConnectedTo l (seq (length (heap g)) (length ns))
      (set_heap (<[l := set_correspondingRequest (Some request) n]> (heap g)
                 ++ ns) g)
    = (Returned tt, g')
    ∧ resolvedAt l i request ns g g'.
Proof.
  intros Hcons Hl Hn Hwf.
  destruct (proj1 Hcons _ _ Hl) as (n0 & Hn0 & Hid & _).
  assert (n0 = n) as -> by congruence.
  set (nw := set_correspondingRequest (Some request) n).
  set (ga := set_heap (<[l:=nw]> (heap g) ++ ns) g).
  assert (Hga : heap ga !! l = Some nw).
  { unfold ga. cbn [heap set_heap]. apply lookup_app_l_Some.
    apply list_lookup_insert_eq. by eapply lookup_lt_Some. }
  assert (Hqa : quiet (λ _, True) (λ _, True) g ga).
  { eapply (quiet_trans _ _ _ (set_heap (<[l:=nw]> (heap g)) g));
      [|exact (quiet_extend _ _ ns (set_heap (<[l:=nw]> (heap g)) g))].
    apply (quiet_write _ _ g l n); auto. }
  pose proof (quiet_consistent _ _ _ _ Hqa Hcons) as Hcons_a.
  assert (Hat : nodesAt ga (seq (length (heap g)) (length ns)) (id <$> ns)).
  { replace (length (heap g)) with (length (<[l:=nw]> (heap g)))
      by apply length_insert.
    by apply (fresh_nodesAt _ (<[l:=nw]> (heap g)) ga). }
  assert (Hst : stored (id nw) ga) by (cbn; rewrite Hid; by eexists).
  destruct (replaceNodesConnectedTo_contract _ _ _ _ _ Hcons_a Hga Hst Hat)
    as (g' & Hrun & Hr & Hsrc).
  exists g'. split; [done|].
  destruct Hr as (Hh & Hcons' & _ & Hown & Hother & _ & Hlog).
  change (id nw) with (id n) in *. rewrite Hid in *.
  split; [exists n; by rewrite Hh|]. split; [done|]. split; [done|].
  split; [done|]. split; [|done].
  intros j l' Hj. destruct (Hsrc j l' Hj) as [?|[? Hin]]; [by left|].
  right. split; [done|]. apply elem_of_seq in Hin. lia.
Qed.

Section Contracts.
Context `{!Md5FromObject AssetGroup, !Md5FromObject Entry}.
Context `{!CreateDependency}.

(** X2.  [resolveEntry] on a graph that stores a node under the id of the
    entry specifier: if the node is not an entry specifier the call throws
    and nothing has changed; otherwise it returns, the node carries the
    request, the entry files are new objects at the end of the store, the
    children of the specifier (if it is still stored) are exactly the entry
    files, every other stored node keeps its children, a stored id holds the
    object it held or a new one, and what is no longer stored has been
    reported as removed. *)
Theorem resolveEntry_contract entry resolved request g l n :
  consistent g →
  nodes g !! id (nodeFromEntrySpecifier entry) = Some l →
  heap g !! l = Some n →
  (type n ≠ entry_specifier →
     resolveEntry entry resolved request g = (Threw, g))
  ∧ (type n = entry_specifier →
     ∃ g', resolveEntry entry resolved request g = (Returned tt, g')
       ∧ resolvedAt l (id (nodeFromEntrySpecifier entry)) request
           (nodeFromEntryFile <$> resolved) g g').
Proof.
  intros Hcons Hl Hn. split; intros Ht.
  - unfold resolveEntry.
    rewrite (bind_returned _ _ _ _ _ (getNode_returned _ _)), Hl.
    cbn [nullthrows]. unfold bind at 1, ret at 1.
    rewrite (bind_returned _ _ _ _ _ (read_returned _ _ _ Hn)).
    by rewrite bool_decide_eq_false_2.
  - rewrite (resolveEntry_stored _ _ _ _ _ _ Hl Hn Ht).
    rewrite <- (length_fmap nodeFromEntryFile resolved).
    apply stamped_replace; [done..|apply wfNode_entryFiles].
Qed.

Lemma targetNode_exact (entry : Entry) target g :
  targetNode entry target g
  = (Returned (length (heap g)),
     set_heap (heap g ++ [targetObject entry target]) g).
Proof.
  unfold targetNode, targetObject.
  rewrite (bind_returned _ _ _ _ _ (alloc_returned _ _)).
  fold (targetDependency entry target).
  set (n := nodeFromDep _). set (g1 := set_heap (heap g ++ [n]) g).
  assert (Hn : heap g1 !! length (heap g) = Some n).
  { simpl. by rewrite lookup_app_r, Nat.sub_diag by lia. }
  destruct (isLibrary (target_env target)); [|done].
  rewrite (bind_returned _ _ _ _ _ (write_returned _ _ _ _ Hn)).
  unfold ret. f_equal. unfold g1. cbn [set_heap heap].
  rewrite insert_app_r_alt, Nat.sub_diag by lia. done.
Qed.

Lemma targetNodes_exact (entry : Entry) targets : ∀ g,
  mapM (targetNode entry) targets g
  = (Returned (seq (length (heap g)) (length targets)),
     set_heap (heap g ++ (targetObject entry <$> targets)) g).
Proof.
  induction targets as [|t ts IH]; intros g.
  - cbn. by rewrite app_nil_r, set_heap_id.
  - cbn [mapM].
    rewrite (bind_returned _ _ _ _ _ (targetNode_exact _ _ _)).
    rewrite (bind_returned _ _ _ _ _ (IH _)). unfold ret.
    cbn [heap set_heap length seq fmap list_fmap].
    rewrite length_app, <- app_assoc. cbn [length app].
    by replace (length (heap g) + 1) with (S (length (heap g))) by lia.
Qed.

Lemma wfNode_targetObjects (entry : Entry) targets :
  Forall wfNode (targetObject entry <$> targets).
Proof.
  apply Forall_fmap, Forall_forall. intros t _ d. unfold targetObject.
  destruct (isLibrary (target_env t)); by intros [= <-].
Qed.

(** X3.  [resolveTargets] on a graph that stores a node under the id of the
    entry file: the dependency nodes of the targets are created first, one
    per target, with ['*'] in [usedSymbols] in library mode and an empty set
    otherwise; if the stored node is not an entry file the call throws and
    nothing stored has changed; otherwise the test of line 175 succeeds, the
    call returns and has done for the entry file and the target
    dependencies what [resolveEntry] does for the specifier and the entry
    files.  A dependency whose id was stored keeps the object it had: the
    ['*'] of library mode reaches only the nodes this call stores. *)
Theorem resolveTargets_contract entry targets request g l n :
  consistent g →
  nodes g !! id (nodeFromEntryFile entry) = Some l →
  heap g !! l = Some n →
  (type n ≠ entry_file →
     resolveTargets entry targets request g
     = (Threw, set_heap (heap g ++ (targetObject entry <$> targets)) g))
  ∧ (type n = entry_file →
     ∃ g', resolveTargets entry targets request g = (Returned tt, g')
       ∧ resolvedAt l (id (nodeFromEntryFile entry)) request
           (targetObject entry <$> targets) g g').
Proof.
  intros Hcons Hl Hn. split; intros Ht.
  - unfold resolveTargets.
    rewrite (bind_returned _ _ _ _ _ (targetNodes_exact _ _ _)).
    rewrite (bind_returned _ _ _ _ _ (getNode_returned _ _)).
    cbn [nodes set_heap]. rewrite Hl.
    cbn [nullthrows]. unfold bind at 1, ret at 1.
    assert (Hn' : heap (set_heap (heap g ++ (targetObject entry <$> targets)) g)
                  !! l = Some n) by (by apply lookup_app_l_Some).
    rewrite (bind_returned _ _ _ _ _ (read_returned _ _ _ Hn')).
    by rewrite bool_decide_eq_false_2.
  - destruct (proj1 Hcons _ _ Hl) as (n0 & Hn0 & Hid & _).
    assert (n0 = n) as -> by congruence.
    assert (Hst : stored (id n) g) by (rewrite Hid; by eexists).
    rewrite (resolveTargets_stored _ _ _ _ _ _ _ _
               (targetNodes_exact _ _ _) Hl Hn Ht Hst).
    rewrite <- (length_fmap (targetObject entry) targets).
    apply stamped_replace; [done..|apply wfNode_targetObjects].
Qed.

(** X4.  [resolveDependency] on a graph that stores a node under the id of
    the dependency: if the node is not a dependency the call throws and
    nothing has changed; without an asset group it writes the request on
    the node and does nothing else; with an asset group it returns and has
    made the group the only child of the dependency. *)
Theorem resolveDependency_contract dep request g l n :
  consistent g →
  nodes g !! dep_id dep = Some l → heap g !! l = Some n →
  (type n ≠ dependency →
     ∀ assetGroup, resolveDependency dep assetGroup request g = (Threw, g))
  ∧ (type n = dependency →
     resolveDependency dep None request g
     = (Returned tt,
        set_heap (<[l := set_correspondingRequest (Some request) n]> (heap g))
          g)
     ∧ ∀ assetGroup,
         ∃ g', resolveDependency dep (Some assetGroup) request g
               = (Returned tt, g')
           ∧ resolvedAt l (dep_id dep) request
               [nodeFromAssetGroup assetGroup] g g').
Proof.
  intros Hcons Hl Hn. split; intros Ht.
  - intros assetGroup. unfold resolveDependency.
    rewrite (bind_returned _ _ _ _ _ (getNode_returned _ _)), Hl.
    cbn [nullthrows]. unfold bind at 1, ret at 1.
    rewrite (bind_returned _ _ _ _ _ (read_returned _ _ _ Hn)).
    by rewrite bool_decide_eq_false_2.
  - split; [by rewrite (resolveDependency_stored _ _ _ _ _ _ Hl Hn Ht)|].
    intros assetGroup.
    rewrite (resolveDependency_stored _ _ _ _ _ _ Hl Hn Ht).
    apply (stamped_replace l n (dep_id dep) request
             [nodeFromAssetGroup assetGroup] g); [done..|].
    constructor; [|constructor]. intros d Hd. discriminate.
Qed.

End Contracts.

(** ** [setUsedSymbolsAsset]: what it computes and what it leaves alone *)

Lemma incomingDemand_sound assetSymbols exportSymbols : ∀ acc x,
  (x ∈ (incomingDemand assetSymbols exportSymbols acc).1 →
     x ∈ acc.1
     ∨ (x ∈ exportSymbols
        ∧ (x = "*" ∨ ∃ symbols, assetSymbols = Some symbols
                                ∧ JsMap.has x symbols = true)))
  ∧ (x ∈ (incomingDemand assetSymbols exportSymbols acc).2 →
     x ∈ acc.2 ∨ x ∈ exportSymbols).
Proof.
  induction exportSymbols as [|e rest IH]; intros acc x; [cbn; tauto|].
  cbn [incomingDemand]. case_bool_decide as He.
  - subst e. cbn [fst snd]. rewrite !elem_of_JsSet_add, elem_of_cons. split.
    + intros [->|?]; [|by left]. right. split; [by left|by left].
    + intros [->|?]; [|by left]. right. by left.
  - destruct assetSymbols as [symbols|].
    + destruct (JsMap.has e symbols) eqn:Hhas.
      * destruct (IH (JsSet.add e acc.1, acc.2) x) as [H1 H2].
        cbn [fst snd] in *. rewrite elem_of_JsSet_add in H1.
        rewrite elem_of_cons. split.
        -- intros Hx. destruct (H1 Hx) as [[->|?]|[? ?]]; [|tauto|tauto].
           right. split; [by left|]. right. by exists symbols.
        -- intros Hx. destruct (H2 Hx); tauto.
      * destruct (IH (acc.1, JsSet.add e acc.2) x) as [H1 H2].
        cbn [fst snd] in *. rewrite elem_of_JsSet_add in H2.
        rewrite elem_of_cons. split.
        -- intros Hx. destruct (H1 Hx) as [?|[? ?]]; tauto.
        -- intros Hx. destruct (H2 Hx) as [[->|?]|?]; tauto.
    + destruct (IH (acc.1, JsSet.add e acc.2) x) as [H1 H2].
      cbn [fst snd] in *. rewrite elem_of_JsSet_add in H2.
      rewrite elem_of_cons. split.
      * intros Hx. destruct (H1 Hx) as [?|[? ?]]; tauto.
      * intros Hx. destruct (H2 Hx) as [[->|?]|?]; tauto.
Qed.

Lemma incomingDemands_sound assetSymbols incomingDeps x :
  (x ∈ (incomingDemands assetSymbols incomingDeps).1 →
     (∃ n, n ∈ incomingDeps ∧ x ∈ usedSymbols n)
     ∧ (x = "*" ∨ ∃ symbols, assetSymbols = Some symbols
                             ∧ JsMap.has x symbols = true))
  ∧ (x ∈ (incomingDemands assetSymbols incomingDeps).2 →
     ∃ n, n ∈ incomingDeps ∧ x ∈ usedSymbols n).
Proof.
  unfold incomingDemands.
  enough (∀ acc,
    (x ∈ (foldl (λ acc d, incomingDemand assetSymbols (usedSymbols d) acc)
            acc incomingDeps).1 →
       x ∈ acc.1
       ∨ ((∃ n, n ∈ incomingDeps ∧ x ∈ usedSymbols n)
          ∧ (x = "*" ∨ ∃ symbols, assetSymbols = Some symbols
                                  ∧ JsMap.has x symbols = true)))
    ∧ (x ∈ (foldl (λ acc d, incomingDemand assetSymbols (usedSymbols d) acc)
              acc incomingDeps).2 →
       x ∈ acc.2 ∨ ∃ n, n ∈ incomingDeps ∧ x ∈ usedSymbols n)) as H.
  { destruct (H (JsSet.empty, JsSet.empty)) as [H1 H2]. split.
    - intros Hx. destruct (H1 Hx) as [?%elem_of_nil|?]; done.
    - intros Hx. destruct (H2 Hx) as [?%elem_of_nil|?]; done. }
  induction incomingDeps as [|d ds IH]; intros acc; [cbn; tauto|].
  cbn [foldl].
  destruct (IH (incomingDemand assetSymbols (usedSymbols d) acc)) as [H1 H2].
  destruct (incomingDemand_sound assetSymbols (usedSymbols d) acc x)
    as [S1 S2].
  split.
  - intros Hx. destruct (H1 Hx) as [Hacc|[(n & Hn & Hxn) Hown]].
    + destruct (S1 Hacc) as [?|[Hd Hown]]; [by left|].
      right. split; [|done]. exists d. split; [apply list_elem_of_here|done].
    + right. split; [|done]. exists n. split; [|done].
      by apply list_elem_of_further.
  - intros Hx. destruct (H2 Hx) as [Hacc|(n & Hn & Hxn)].
    + destruct (S2 Hacc) as [?|Hd]; [by left|].
      right. exists d. split; [apply list_elem_of_here|done].
    + right. exists n. split; [|done]. by apply list_elem_of_further.
Qed.

(** A binding step takes names out of the asset's used set; it adds none. *)
Lemma bindingStep_shrinks inverse weak acc binding x :
  x ∈ (bindingStep inverse weak acc binding).1 → x ∈ acc.1.
Proof.
  destruct binding as [symbol local]. unfold bindingStep.
  destruct inverse as [inv|]; [|done].
  destruct (negb (JsSet.has symbol weak)); [done|].
  destruct (JsMap.get local inv) as [reexport|]; [|done].
  destruct (JsSet.has "*" acc.1 || JsSet.has reexport acc.1); [|done].
  cbn [fst]. rewrite elem_of_JsSet_delete. tauto.
Qed.

Lemma bindingSteps_shrink inverse weak bindings x : ∀ acc,
  x ∈ (foldl (bindingStep inverse weak) acc bindings).1 → x ∈ acc.1.
Proof.
  induction bindings as [|b bs IH]; intros acc Hx; [done|].
  cbn [foldl] in Hx. by eapply bindingStep_shrinks, IH.
Qed.

Lemma forwardDemand_shrinks inverse reexported depNode used g used' g' x :
  forwardDemand inverse reexported depNode used g = (Returned used', g') →
  x ∈ used' → x ∈ used.
Proof.
  unfold forwardDemand. intros Hrun.
  apply bind_returned_inv in Hrun as (n & g1 & Hread & Hrun).
  destruct (value n) as [| | |dep| |]; try discriminate.
  destruct (reexportsNamespace dep).
  - apply bind_returned_inv in Hrun as ([] & g2 & _ & Hret).
    injection Hret as <- _. done.
  - apply bind_returned_inv in Hrun as ([] & g2 & _ & Hret).
    injection Hret as <- _. apply bindingSteps_shrink.
Qed.

Lemma forwardDemands_shrink inverse reexported outgoingDeps x :
  ∀ used g used' g',
  forwardDemands inverse reexported outgoingDeps used g = (Returned used', g') →
  x ∈ used' → x ∈ used.
Proof.
  induction outgoingDeps as [|d ds IH]; intros used g used' g' Hrun Hx.
  - injection Hrun as <- _. done.
  - cbn [forwardDemands] in Hrun.
    apply bind_returned_inv in Hrun as (used1 & g1 & Hstep & Hrun).
    eapply forwardDemand_shrinks; [exact Hstep|]. by eapply IH.
Qed.

(** On a well-formed graph the two [invariant]s of [setUsedSymbolsAsset]
    hold and the call returns: the set it writes on the asset node is what
    the loop over the outgoing dependencies leaves of the incoming
    demand. *)
Lemma setUsedSymbolsAsset_returned g (assetNode : loc) an a outgoingDeps :
  wellFormed g →
  heap g !! assetNode = Some an → value an = AssetValue a →
  dependencyNodesAt g outgoingDeps →
  ∃ used' g1,
    forwardDemands (inverseSymbols <$> asset_symbols a)
      (incomingDemands (asset_symbols a) (incomingNodes a g)).2 outgoingDeps
      (incomingDemands (asset_symbols a) (incomingNodes a g)).1 g
    = (Returned used', g1)
    ∧ Forall2 usedSymbolsGrown (heap g) (heap g1)
    ∧ heap g1 !! assetNode = Some an
    ∧ setUsedSymbolsAsset assetNode outgoingDeps g
      = (Returned tt,
         set_heap (<[assetNode := set_usedSymbols used' an]> (heap g1)) g1).
Proof.
  intros Hwf Han Hva Hout.
  destruct (getIncomingDependencies_returns a g Hwf) as (deps & Hdeps & Hall).
  assert (Hin : incomingNodes a g
                = omap (λ d, nodes g !! dep_id d ≫= λ l, heap g !! l) deps).
  { unfold incomingNodes. by rewrite Hdeps. }
  destruct (forwardDemands_returns (inverseSymbols <$> asset_symbols a)
    (incomingDemands (asset_symbols a) (incomingNodes a g)).2 outgoingDeps
    (incomingDemands (asset_symbols a) (incomingNodes a g)).1 g Hout)
    as (used' & g1 & Hfwd & Hgrown & _ & _).
  destruct (heap_grown_lookup _ _ _ _ Hgrown Han) as (an1 & Han1 & Hg1).
  assert (an1 = an) as ->.
  { destruct Hg1 as (_ & _ & Hsame). apply Hsame.
    unfold type. by rewrite Hva. }
  exists used', g1. split; [done|]. split; [done|]. split; [done|].
  unfold setUsedSymbolsAsset.
  rewrite (bind_returned _ _ _ _ _ (read_returned _ _ _ Han)). rewrite Hva.
  rewrite (bind_returned _ _ _ _ _ Hdeps).
  erewrite bind_returned; cycle 1.
  { apply (mapM_returned_omap _
             (λ d, nodes g !! dep_id d ≫= λ l, heap g !! l)).
    intros d Hd. destruct (Hall d Hd) as (l & n & Hl & Hn & Hv).
    exists n. unfold bind, getNode, nullthrows, ret. rewrite Hl. simpl.
    unfold read. rewrite Hn. unfold invariant.
    rewrite bool_decide_eq_true_2 by (unfold type; by rewrite Hv).
    done. }
  rewrite <- Hin. rewrite (bind_returned _ _ _ _ _ Hfwd).
  by rewrite (write_returned _ _ _ _ Han1).
Qed.

(** ** Weak bindings *)

Lemma bindingStep_rule inverse weak used depUsed symbol local :
  (bindingStep inverse weak (used, depUsed) (symbol, local)).1
  = match creditedName inverse weak used symbol local with
    | Some mapped => JsSet.delete mapped used
    | None => used
    end
  ∧ ∀ x, x ∈ (bindingStep inverse weak (used, depUsed) (symbol, local)).2
         ↔ x ∈ depUsed ∨ (x = symbol ∧ marksUsed inverse weak used symbol local).
Proof.
  assert (Hadd : ∀ x, marksUsed inverse weak used symbol local →
    (x ∈ JsSet.add symbol depUsed
     ↔ x ∈ depUsed ∨ (x = symbol ∧ marksUsed inverse weak used symbol local))).
  { intros x Hm. rewrite elem_of_JsSet_add. tauto. }
  unfold bindingStep, creditedName.
  destruct inverse as [inv|]; cbn [fst snd].
  2:{ split; [by case_bool_decide|]. intros x. apply Hadd. by right; left. }
  destruct (JsSet.has symbol weak) eqn:Hweak; cbn [negb fst snd].
  2:{ apply JsSet_has_false in Hweak. rewrite bool_decide_eq_false_2 by done.
      split; [done|]. intros x. apply Hadd. by left. }
  apply JsSet_has_true in Hweak. rewrite bool_decide_eq_true_2 by done.
  destruct (JsMap.get local inv) as [reexport|] eqn:Hget; cbn [fst snd].
  2:{ split; [done|]. intros x. apply Hadd.
      right; right. exists inv. split; [done|by left]. }
  destruct (JsSet.has "*" used || JsSet.has reexport used) eqn:Hsat;
    cbn [fst snd].
  - apply orb_true_iff in Hsat. rewrite !JsSet_has_true in Hsat.
    rewrite bool_decide_eq_true_2 by done. split; [done|].
    intros x. apply Hadd.
    right; right. exists inv. split; [done|]. right.
    destruct Hsat as [?|?]; [by left|right; by exists reexport].
  - apply orb_false_iff in Hsat. rewrite !JsSet_has_false in Hsat.
    rewrite bool_decide_eq_false_2 by tauto. split; [done|].
    intros x. split; [by left|].
    intros [?|[-> Hm]]; [done|]. exfalso.
    destruct Hm as [?|[?|(inv' & [= <-] & [Hnone|[?|(m & Hm & ?)]])]];
      [done|done|congruence|tauto|].
    assert (m = reexport) as -> by congruence. tauto.
Qed.

Lemma usedAfter_app inverse bs1 bs2 used :
  usedAfter inverse (bs1 ++ bs2) used
  = usedAfter inverse bs2 (usedAfter inverse bs1 used).
Proof. unfold usedAfter. apply foldl_app. Qed.

Lemma bindingSteps_rule inverse (l : loc) dep (bs : list (string * string)) : ∀ used depUsed,
  (foldl (bindingStep inverse (weakSymbols dep)) (used, depUsed) bs).1
  = usedAfter inverse ((λ b : string * string, (l, dep, b)) <$> bs) used
  ∧ ∀ x, x ∈ (foldl (bindingStep inverse (weakSymbols dep))
                (used, depUsed) bs).2
         ↔ x ∈ depUsed
           ∨ ∃ k local, bs !! k = Some (x, local)
               ∧ marksUsed inverse (weakSymbols dep)
                   (usedAfter inverse ((λ b : string * string, (l, dep, b)) <$> take k bs) used)
                   x local.
Proof.
  induction bs as [|[symbol local] bs IH]; intros used depUsed.
  { split; [done|]. intros x. split; [by left|].
    intros [?|(k & ? & Hk & _)]; [done|]. by rewrite lookup_nil in Hk. }
  cbn [foldl].
  destruct (bindingStep_rule inverse (weakSymbols dep) used depUsed symbol local)
    as [H1 H2].
  destruct (bindingStep inverse (weakSymbols dep) (used, depUsed)
              (symbol, local)) as [u1 d1] eqn:Hstep.
  cbn [fst snd] in H1, H2.
  destruct (IH u1 d1) as [IH1 IH2]. split.
  - rewrite IH1. cbn [fmap list_fmap usedAfter foldl fst snd]. by rewrite <- H1.
  - intros x. rewrite IH2, H2. split.
    + intros [[?|[-> Hm]]|(k & loc' & Hk & Hm)].
      * by left.
      * right. exists 0, local. done.
      * right. exists (S k), loc'. split; [done|].
        cbn [take fmap list_fmap usedAfter foldl fst snd]. by rewrite <- H1.
    + intros [?|(k & loc' & Hk & Hm)]; [by left; left|].
      destruct k as [|k].
      * injection Hk as -> ->. left; right. done.
      * right. exists k, loc'. split; [done|].
        cbn [take fmap list_fmap usedAfter foldl fst snd] in Hm.
        by rewrite <- H1 in Hm.
Qed.

Lemma bindingsOf_grown g g' l :
  Forall2 usedSymbolsGrown (heap g) (heap g') → bindingsOf g' l = bindingsOf g l.
Proof.
  intros F. unfold bindingsOf.
  destruct (heap g !! l) as [n|] eqn:Hn.
  - destruct (heap_grown_lookup _ _ _ _ F Hn) as (n' & -> & Hg).
    by rewrite (usedSymbolsGrown_value _ _ Hg).
  - apply Forall2_length in F. apply lookup_ge_None in Hn.
    rewrite (proj2 (lookup_ge_None _ _)); [done|lia].
Qed.

Lemma outgoingBindings_grown g g' ls :
  Forall2 usedSymbolsGrown (heap g) (heap g') →
  outgoingBindings g' ls = outgoingBindings g ls.
Proof.
  intros F. unfold outgoingBindings. f_equal.
  apply list_fmap_ext. intros _ l _. by apply bindingsOf_grown.
Qed.

Lemma bindingsOf_at g d k l dep b :
  bindingsOf g d !! k = Some (l, dep, b) →
  l = d ∧ ∃ n, heap g !! d = Some n ∧ value n = DependencyValue dep
               ∧ reexportsNamespace dep = false
               ∧ dep_symbols dep !! k = Some b.
Proof.
  unfold bindingsOf.
  destruct (heap g !! d) as [n|] eqn:Hn; [|by rewrite lookup_nil].
  destruct (value n) as [| | |dep'| |] eqn:Hv; try by rewrite lookup_nil.
  destruct (reexportsNamespace dep') eqn:Hns; [by rewrite lookup_nil|].
  rewrite list_lookup_fmap. intros (b' & Hk & [= -> -> ->])%fmap_Some.
  split; [done|]. by exists n.
Qed.

(** The loop over the outgoing dependencies, binding by binding. *)
Lemma forwardDemands_rule inverse reexported outgoingDeps : ∀ used g,
  dependencyNodesAt g outgoingDeps →
  ∃ g',
    forwardDemands inverse reexported outgoingDeps used g
    = (Returned (usedAfter inverse (outgoingBindings g outgoingDeps) used), g')
    ∧ Forall2 usedSymbolsGrown (heap g) (heap g')
    ∧ ∀ l n dep, heap g !! l = Some n → value n = DependencyValue dep →
        reexportsNamespace dep = false →
        ∃ n', heap g' !! l = Some n'
          ∧ ∀ x, x ∈ usedSymbols n'
              ↔ x ∈ usedSymbols n
                ∨ ∃ k local,
                    outgoingBindings g outgoingDeps !! k
                    = Some (l, dep, (x, local))
                    ∧ marksUsed inverse (weakSymbols dep)
                        (usedAfter inverse
                           (take k (outgoingBindings g outgoingDeps)) used)
                        x local.
Proof.
  induction outgoingDeps as [|d ds IH]; intros used g Hout.
  { exists g. split; [done|]. split.
    - apply Forall2_same_length_lookup_2; [done|].
      intros i x y Hx Hy. rewrite Hx in Hy. inversion Hy; subst.
      apply usedSymbolsGrown_refl.
    - intros l n dep Hn _ _. exists n. split; [done|]. intros x.
      split; [by left|]. intros [?|(k & ? & Hk & _)]; [done|].
      unfold outgoingBindings in Hk. cbn in Hk. by rewrite lookup_nil in Hk. }
  destruct (Hout d) as (nd & depd & Hnd & Hvd); [apply list_elem_of_here|].
  assert (Hstep : ∃ s,
    forwardDemand inverse reexported d used g
    = (Returned (usedAfter inverse (bindingsOf g d) used),
       set_heap (<[d := set_usedSymbols s nd]> (heap g)) g)
    ∧ usedSymbols nd ⊆ s
    ∧ (reexportsNamespace depd = false →
       ∀ x, x ∈ s ↔ x ∈ usedSymbols nd
         ∨ ∃ k local, dep_symbols depd !! k = Some (x, local)
             ∧ marksUsed inverse (weakSymbols depd)
                 (usedAfter inverse (take k (bindingsOf g d)) used) x local)).
  { unfold forwardDemand, bindingsOf.
    rewrite (bind_returned _ _ _ _ _ (read_returned _ _ _ Hnd)).
    rewrite Hnd, Hvd. destruct (reexportsNamespace depd) eqn:Hns.
    - rewrite (bind_returned _ _ _ _ _ (write_returned _ _ _ _ Hnd)).
      eexists. split; [done|]. split; [|done].
      intros x Hx. apply elem_of_JsSet_add_all. by left.
    - rewrite (bind_returned _ _ _ _ _ (write_returned _ _ _ _ Hnd)).
      destruct (bindingSteps_rule inverse d depd (dep_symbols depd) used
                  (usedSymbols nd)) as [H1 H2].
      eexists. split; [by rewrite H1|]. split.
      + intros x Hx. by apply bindingSteps_grow.
      + intros _ x. rewrite H2. by setoid_rewrite fmap_take. }
  destruct Hstep as (s & Hstep & Hsub & Hs).
  cbn [forwardDemands]. rewrite (bind_returned _ _ _ _ _ Hstep).
  set (g1 := set_heap (<[d := set_usedSymbols s nd]> (heap g)) g) in *.
  set (used1 := usedAfter inverse (bindingsOf g d) used) in *.
  assert (Hgrown1 : Forall2 usedSymbolsGrown (heap g) (heap g1)).
  { apply usedSymbolsGrown_write; [done| |done]. unfold type. by rewrite Hvd. }
  assert (Hout1 : dependencyNodesAt g1 ds).
  { intros l Hl.
    destruct (Hout l (list_elem_of_further _ _ _ Hl)) as (m & dm & Hm & Hvm).
    destruct (heap_grown_lookup _ _ _ _ Hgrown1 Hm) as (m' & Hm' & Hg).
    exists m', dm. split; [done|]. by rewrite (usedSymbolsGrown_value _ _ Hg). }
  destruct (IH used1 g1 Hout1) as (g' & Hrun & Hgrown & Hall).
  rewrite (outgoingBindings_grown g g1 ds Hgrown1) in Hrun, Hall.
  assert (Hcons : outgoingBindings g (d :: ds)
                  = bindingsOf g d ++ outgoingBindings g ds) by done.
  exists g'. rewrite Hcons, usedAfter_app. split; [exact Hrun|]. split.
  { eapply Forall2_trans; [|exact Hgrown1|exact Hgrown].
    intros ???. apply usedSymbolsGrown_trans. }
  intros l n dep Hn Hv Hns.
  assert (Hlater : ∀ x k local,
    outgoingBindings g ds !! k = Some (l, dep, (x, local)) →
    marksUsed inverse (weakSymbols dep)
      (usedAfter inverse (take k (outgoingBindings g ds)) used1) x local →
    ∃ k' local',
      (bindingsOf g d ++ outgoingBindings g ds) !! k'
      = Some (l, dep, (x, local'))
      ∧ marksUsed inverse (weakSymbols dep)
          (usedAfter inverse
             (take k' (bindingsOf g d ++ outgoingBindings g ds)) used)
          x local').
  { intros x k local Hk Hm. exists (length (bindingsOf g d) + k), local.
    split.
    - rewrite lookup_app_r by lia. rewrite <- Hk. f_equal. lia.
    - rewrite take_app_add'. by rewrite usedAfter_app. done. }
  assert (Hsplit : ∀ x k local,
    (bindingsOf g d ++ outgoingBindings g ds) !! k
    = Some (l, dep, (x, local)) →
    marksUsed inverse (weakSymbols dep)
      (usedAfter inverse
         (take k (bindingsOf g d ++ outgoingBindings g ds)) used) x local →
    (bindingsOf g d !! k = Some (l, dep, (x, local))
     ∧ marksUsed inverse (weakSymbols dep)
         (usedAfter inverse (take k (bindingsOf g d)) used) x local)
    ∨ ∃ k', outgoingBindings g ds !! k' = Some (l, dep, (x, local))
        ∧ marksUsed inverse (weakSymbols dep)
            (usedAfter inverse (take k' (outgoingBindings g ds)) used1)
            x local).
  { intros x k local Hk Hm.
    apply lookup_app_Some in Hk as [Hk|[Hge Hk]].
    - left. split; [done|].
      rewrite take_app_le in Hm by (apply lookup_lt_Some in Hk; lia). done.
    - right. exists (k - length (bindingsOf g d)). split; [done|].
      rewrite take_app_ge in Hm by lia. by rewrite usedAfter_app in Hm. }
  destruct (decide (l = d)) as [->|Hne].
  - assert (n = nd) as -> by congruence.
    assert (dep = depd) as -> by congruence.
    assert (Hn1 : heap g1 !! d = Some (set_usedSymbols s nd)).
    { unfold g1. cbn [heap set_heap]. apply list_lookup_insert_eq.
      by eapply lookup_lt_Some. }
    destruct (Hall d _ depd Hn1 Hv Hns) as (n' & Hn' & Hiff).
    exists n'. split; [done|]. intros x. rewrite Hiff. cbn [usedSymbols set_usedSymbols].
    rewrite (Hs Hns x). split.
    + intros [[?|(k & local & Hk & Hm)]|(k & local & Hk & Hm)].
      * by left.
      * right. exists k, local. split.
        -- apply lookup_app_l_Some. unfold bindingsOf.
           rewrite Hnd, Hvd, Hns. rewrite list_lookup_fmap.
           apply fmap_Some. by eexists.
        -- rewrite take_app_le; [done|].
           unfold bindingsOf. rewrite Hnd, Hvd, Hns, length_fmap.
           apply lookup_lt_Some in Hk. lia.
      * right. by eapply Hlater.
    + intros [?|(k & local & Hk & Hm)]; [by left; left|].
      destruct (Hsplit x k local Hk Hm) as [[Hk' Hm']|(k' & Hk' & Hm')].
      * left; right. exists k, local. split; [|done].
        by destruct (bindingsOf_at _ _ _ _ _ _ Hk') as (_ & _ & _ & _ & _ & ?).
      * right. by exists k', local.
  - assert (Hn1 : heap g1 !! l = Some n).
    { unfold g1. cbn [heap set_heap]. by rewrite list_lookup_insert_ne. }
    destruct (Hall l n dep Hn1 Hv Hns) as (n' & Hn' & Hiff).
    exists n'. split; [done|]. intros x. rewrite Hiff. split.
    + intros [?|(k & local & Hk & Hm)]; [by left|]. right. by eapply Hlater.
    + intros [?|(k & local & Hk & Hm)]; [by left|].
      destruct (Hsplit x k local Hk Hm) as [[Hk' Hm']|(k' & Hk' & Hm')].
      * by destruct (bindingsOf_at _ _ _ _ _ _ Hk') as [? _].
      * right. by exists k', local.
Qed.

(** C5.  On a well-formed graph [setUsedSymbolsAsset] returns.  The
    bindings of the outgoing dependencies without a wildcard-to-wildcard
    binding are processed in order ([outgoingBindings]), starting from the
    used set the incoming dependencies demand.  For a dependency Dj and a
    pair (exportedName, localBinding) it declares, exportedName is added to
    [Dj.usedSymbols] exactly by the rule of the claim ([marksUsed]), read
    with A's used set as it is when the pair is processed: always if the
    binding is not weak or A has no symbol table, and for a weak binding when
    the inverse table does not map localBinding, or the used set contains
    the wildcard or the mapped name; the names in [Dj.usedSymbols] afterwards
    are the ones that were there and the ones added so.  Processing a pair
    takes a name out of A's used set exactly when the binding is weak, the
    inverse table maps localBinding to that name, and the used set contains
    the wildcard or the name; what is left at the end is the set written on
    A. *)
Theorem weak_binding_forwarding g (assetNode : loc) an a outgoingDeps :
  wellFormed g →
  heap g !! assetNode = Some an → value an = AssetValue a →
  dependencyNodesAt g outgoingDeps →
  let inverse := inverseSymbols <$> asset_symbols a in
  let demanded := (incomingDemands (asset_symbols a) (incomingNodes a g)).1 in
  let bindings := outgoingBindings g outgoingDeps in
  ∃ g' an',
    setUsedSymbolsAsset assetNode outgoingDeps g = (Returned tt, g')
    ∧ heap g' !! assetNode = Some an'
    ∧ usedSymbols an' = usedAfter inverse bindings demanded
    ∧ (∀ l n dep,
         heap g !! l = Some n → value n = DependencyValue dep →
         reexportsNamespace dep = false →
         ∃ n', heap g' !! l = Some n'
           ∧ ∀ exportedName,
               exportedName ∈ usedSymbols n'
               ↔ exportedName ∈ usedSymbols n
                 ∨ ∃ k localBinding,
                     bindings !! k = Some (l, dep, (exportedName, localBinding))
                     ∧ marksUsed inverse (weakSymbols dep)
                         (usedAfter inverse (take k bindings) demanded)
                         exportedName localBinding)
    ∧ (∀ k l dep exportedName localBinding,
         bindings !! k = Some (l, dep, (exportedName, localBinding)) →
         ∀ y, y ∈ usedAfter inverse (take (S k) bindings) demanded
              ↔ y ∈ usedAfter inverse (take k bindings) demanded
                ∧ ¬ (exportedName ∈ weakSymbols dep
                     ∧ (∃ inv, inverse = Some inv
                          ∧ JsMap.get localBinding inv = Some y)
                     ∧ ("*" ∈ usedAfter inverse (take k bindings) demanded
                        ∨ y ∈ usedAfter inverse (take k bindings) demanded))).
Proof.
  intros Hwf Han Hva Hout inverse demanded bindings.
  destruct (setUsedSymbolsAsset_returned g assetNode an a outgoingDeps
              Hwf Han Hva Hout) as (used' & g1 & Hfwd & Hgrown & Han1 & Hrun).
  destruct (forwardDemands_rule inverse
    (incomingDemands (asset_symbols a) (incomingNodes a g)).2 outgoingDeps
    demanded g Hout) as (g2 & Hfwd2 & _ & Hall).
  unfold inverse, demanded in Hfwd2. rewrite Hfwd in Hfwd2.
  injection Hfwd2 as -> <-.
  eexists _, _. split; [exact Hrun|]. split.
  { cbn [heap set_heap]. apply list_lookup_insert_eq. by eapply lookup_lt_Some. }
  split; [done|]. split.
  - intros l n dep Hn Hv Hns.
    destruct (Hall l n dep Hn Hv Hns) as (n' & Hn' & Hiff).
    exists n'. split; [|exact Hiff]. cbn [heap set_heap].
    rewrite list_lookup_insert_ne; [done|].
    intros ->. rewrite Han in Hn. injection Hn as <-. congruence.
  - intros k l dep x local Hk y.
    rewrite (take_S_r _ _ _ Hk), usedAfter_app.
    set (U := usedAfter inverse (take k bindings) demanded).
    cbn [usedAfter foldl fst snd]. unfold creditedName.
    case_bool_decide as Hweak; [|tauto].
    destruct inverse as [inv|] eqn:Hinv;
      [|split; [intros ?; split; [done|]; by intros (_ & (? & ? & _) & _)
               |tauto]].
    destruct (JsMap.get local inv) as [mapped|] eqn:Hget.
    2:{ split; [|tauto]. intros ?. split; [done|].
        intros (_ & (inv' & [= <-] & ?) & _). congruence. }
    case_bool_decide as Hsat.
    + rewrite elem_of_JsSet_delete. split.
      * intros [Hy Hne]. split; [done|].
        intros (_ & (inv' & [= <-] & ?) & _). congruence.
      * intros [Hy Hno]. split; [done|]. intros ->. apply Hno.
        split; [done|]. split; [by exists inv|done].
    + split; [|tauto]. intros Hy. split; [done|].
      intros (_ & (inv' & [= <-] & ?) & Hs).
      assert (mapped = y) as -> by congruence. done.
Qed.

Lemma weak_binding_forwarding_witness :
  wellFormed Barrel.graph ∧ dependencyNodesAt Barrel.graph [3]
  ∧ ∃ g' an' n',
      setUsedSymbolsAsset 2 [3] Barrel.graph = (Returned tt, g')
      ∧ heap g' !! 2 = Some an' ∧ usedSymbols an' = []
      ∧ heap g' !! 3 = Some n'
      ∧ "a" ∈ usedSymbols n' ∧ ("b" ∉ usedSymbols n')
      ∧ "c" ∈ usedSymbols n' ∧ "d" ∈ usedSymbols n'.
Proof.
  assert (Hwf : wellFormed Barrel.graph)
    by (apply wellFormedb_correct; vm_compute; reflexivity).
  assert (Hout : dependencyNodesAt Barrel.graph [3])
    by (apply dependencyNodesAtb_correct; vm_compute; reflexivity).
  split; [exact Hwf|]. split; [exact Hout|].
  destruct (weak_binding_forwarding Barrel.graph 2
              (mkNode "barrel" (AssetValue Barrel.barrel)) Barrel.barrel [3]
              Hwf eq_refl eq_refl Hout)
    as (g' & an' & Hrun & Han' & Hused & Hdeps & _).
  destruct (Hdeps 3 (mkNode "fwd" (DependencyValue Barrel.fwd)) Barrel.fwd
              eq_refl eq_refl eq_refl) as (n' & Hn' & Hiff).
  exists g', an', n'. split; [exact Hrun|]. split; [exact Han'|].
  split; [exact Hused|]. split; [exact Hn'|].
  split; [|split; [|split]].
  - apply (proj2 (Hiff "a")). right. exists 0, "lx". split; [reflexivity|].
    right; right. exists [("lx", "x"); ("ly", "y")]. split; [reflexivity|].
    right; right. exists "x". split; [reflexivity|].
    vm_compute. apply list_elem_of_here.
  - intros [Hin|(k & local & Hk & Hm)]%(proj1 (Hiff "b")).
    + by apply elem_of_nil in Hin.
    + destruct k as [|[|[|[|k]]]]; try discriminate Hk.
      injection Hk as <-.
      destruct Hm as [Hweak|[Hnone|(inv & Hinv & [Hget|[Hstar|(m & Hget & Hm)]])]].
      * apply Hweak. apply list_elem_of_further, list_elem_of_here.
      * discriminate Hnone.
      * injection Hinv as <-. discriminate Hget.
      * vm_compute in Hstar. by apply elem_of_nil in Hstar.
      * vm_compute in Hm. by apply elem_of_nil in Hm.
  - apply (proj2 (Hiff "c")). right. exists 2, "lz". split; [reflexivity|].
    right; right. exists [("lx", "x"); ("ly", "y")]. split; [reflexivity|].
    by left.
  - apply (proj2 (Hiff "d")). right. exists 3, "lw". split; [reflexivity|].
    left. intros Hin. vm_compute in Hin.
    repeat (apply elem_of_cons in Hin as [Hin|Hin]; [discriminate Hin|]).
    by apply elem_of_nil in Hin.
Defined.

(** X5.  Only what is demanded is used: after [setUsedSymbolsAsset] every
    name in the used set of the asset is in the used set of one of its
    incoming dependencies, and it is ['*'] or a name the asset exports
    itself.  An asset without incoming dependencies ends with the empty
    set. *)
Theorem usedSymbols_demanded g (assetNode : loc) an a outgoingDeps :
  wellFormed g →
  heap g !! assetNode = Some an → value an = AssetValue a →
  dependencyNodesAt g outgoingDeps →
  ∃ g' an',
    setUsedSymbolsAsset assetNode outgoingDeps g = (Returned tt, g')
    ∧ heap g' !! assetNode = Some an'
    ∧ (∀ x, x ∈ usedSymbols an' →
         (∃ n, n ∈ incomingNodes a g ∧ x ∈ usedSymbols n)
         ∧ (x = "*" ∨ ∃ symbols, asset_symbols a = Some symbols
                                 ∧ JsMap.has x symbols = true))
    ∧ (incomingNodes a g = [] → usedSymbols an' = []).
Proof.
  intros Hwf Han Hva Hout.
  destruct (setUsedSymbolsAsset_returned g assetNode an a outgoingDeps
              Hwf Han Hva Hout) as (used' & g1 & Hfwd & _ & Han1 & Hrun).
  eexists _, (set_usedSymbols used' an). split; [exact Hrun|].
  split; [cbn; apply list_lookup_insert_eq; by eapply lookup_lt_Some|].
  assert (Hsound : ∀ x, x ∈ used' →
    (∃ n, n ∈ incomingNodes a g ∧ x ∈ usedSymbols n)
    ∧ (x = "*" ∨ ∃ symbols, asset_symbols a = Some symbols
                            ∧ JsMap.has x symbols = true)).
  { intros x Hx.
    apply (incomingDemands_sound (asset_symbols a) (incomingNodes a g) x).
    by eapply forwardDemands_shrink. }
  split; [exact Hsound|].
  intros Hnone. cbn. destruct used' as [|x xs]; [done|].
  destruct (Hsound x (list_elem_of_here _ _)) as [(n & Hn & _) _].
  rewrite Hnone in Hn. by apply elem_of_nil in Hn.
Qed.

(** X6.  [setUsedSymbolsAsset] returns on a well-formed graph and writes
    [usedSymbols] sets only: nodes and edges stay, every object keeps all
    its other fields, the sets of the objects other than the asset node
    only grow, and an object that is neither the asset node nor one of the
    outgoing dependencies is left as it is. *)
Theorem setUsedSymbolsAsset_frame g (assetNode : loc) an a outgoingDeps :
  wellFormed g →
  heap g !! assetNode = Some an → value an = AssetValue a →
  dependencyNodesAt g outgoingDeps →
  ∃ g',
    setUsedSymbolsAsset assetNode outgoingDeps g = (Returned tt, g')
    ∧ nodes g' = nodes g ∧ edges g' = edges g
    ∧ length (heap g') = length (heap g)
    ∧ ∀ l n, heap g !! l = Some n →
        ∃ n', heap g' !! l = Some n'
              ∧ sameButUsedSymbols n n'
              ∧ (l ≠ assetNode → usedSymbols n ⊆ usedSymbols n')
              ∧ (l ≠ assetNode → l ∉ outgoingDeps → n' = n).
Proof.
  intros Hwf Han Hva Hout.
  destruct (setUsedSymbolsAsset_returned g assetNode an a outgoingDeps
              Hwf Han Hva Hout) as (used' & g1 & Hfwd & Hgrown & Han1 & Hrun).
  pose proof (setUsedSymbolsAsset_quiet (λ l, l = assetNode)
                (λ l, l ∈ outgoingDeps) assetNode outgoingDeps g eq_refl
                (λ l Hl, Hl)) as (N & E & _ & Ht).
  rewrite Hrun in N, E, Ht. cbn [snd] in N, E, Ht.
  eexists. split; [exact Hrun|]. split; [done|]. split; [done|].
  split.
  { cbn. rewrite length_insert. symmetry. by eapply Forall2_length. }
  intros l n Hn.
  destruct (Ht l n Hn) as (n' & Hn' & _ & _ & _ & Hsame).
  exists n'. split; [done|].
  destruct (decide (l = assetNode)) as [->|Hne].
  - cbn in Hn'.
    rewrite list_lookup_insert_eq in Hn' by (by eapply lookup_lt_Some).
    injection Hn' as <-. assert (n = an) as -> by congruence.
    split; [done|]. split; [done|done].
  - cbn in Hn'. rewrite list_lookup_insert_ne in Hn' by done.
    destruct (heap_grown_lookup _ _ _ _ Hgrown Hn) as (n1 & Hn1 & Hg1).
    assert (n1 = n') as -> by congruence.
    destruct Hg1 as (Heq & Hsub & _).
    split; [done|]. split; [done|]. intros _ Hout'. by apply Hsame.
Qed.

Lemma bindingSteps_forward inverse weak bindings symbol local : ∀ acc,
  (symbol, local) ∈ bindings →
  inverse = None ∨ symbol ∉ weak
  ∨ (∃ inv, inverse = Some inv ∧ JsMap.get local inv = None) →
  symbol ∈ (foldl (bindingStep inverse weak) acc bindings).2.
Proof.
  induction bindings as [|b bs IH]; intros acc Hin Hcond;
    [by apply elem_of_nil in Hin|].
  cbn [foldl]. apply elem_of_cons in Hin as [<-|Hin]; [|by apply IH].
  apply bindingSteps_grow. unfold bindingStep.
  destruct inverse as [inv|]; [|cbn; apply elem_of_JsSet_add; by left].
  destruct (JsSet.has symbol weak) eqn:Hweak;
    [|cbn; apply elem_of_JsSet_add; by left].
  cbn [negb]. apply JsSet_has_true in Hweak.
  destruct Hcond as [?|[?|(inv' & [= <-] & Hget)]]; [done|done|].
  rewrite Hget. cbn. apply elem_of_JsSet_add. by left.
Qed.

Lemma forwardDemand_forwarded inverse reexported depNode used g n dep :
  heap g !! depNode = Some n → value n = DependencyValue dep →
  ∃ used' s,
    forwardDemand inverse reexported depNode used g
    = (Returned used',
       set_heap (<[depNode := set_usedSymbols s n]> (heap g)) g)
    ∧ usedSymbols n ⊆ s
    ∧ ∀ x, forwardedTo inverse reexported dep x → x ∈ s.
Proof.
  intros Hn Hv. unfold forwardDemand, forwardedTo.
  rewrite (bind_returned _ _ _ _ _ (read_returned _ _ _ Hn)). rewrite Hv.
  destruct (reexportsNamespace dep) eqn:Hns.
  - rewrite (bind_returned _ _ _ _ _ (write_returned _ _ _ _ Hn)).
    eexists used, _. split; [done|]. split.
    + intros x Hx. apply elem_of_JsSet_add_all. by left.
    + intros x Hx. apply elem_of_JsSet_add_all. by right.
  - rewrite (bind_returned _ _ _ _ _ (write_returned _ _ _ _ Hn)).
    eexists _, _. split; [done|]. split.
    + intros x Hx. by apply bindingSteps_grow.
    + intros x (local & Hin & Hcond). by eapply bindingSteps_forward.
Qed.

Lemma forwardDemands_forwarded inverse reexported outgoingDeps :
  ∀ used g,
  dependencyNodesAt g outgoingDeps →
  ∃ used' g',
    forwardDemands inverse reexported outgoingDeps used g = (Returned used', g')
    ∧ Forall2 usedSymbolsGrown (heap g) (heap g')
    ∧ ∀ l n dep x,
        l ∈ outgoingDeps → heap g !! l = Some n →
        value n = DependencyValue dep →
        forwardedTo inverse reexported dep x →
        ∃ n', heap g' !! l = Some n' ∧ x ∈ usedSymbols n'.
Proof.
  induction outgoingDeps as [|d ds IH]; intros used g Hout.
  { exists used, g. split; [done|]. split; [|by intros ???? ?%elem_of_nil].
    apply Forall2_same_length_lookup_2; [done|].
    intros i x y Hx Hy. rewrite Hx in Hy. inversion Hy; subst.
    apply usedSymbolsGrown_refl. }
  destruct (Hout d) as (nd & depd & Hnd & Hvd); [apply list_elem_of_here|].
  destruct (forwardDemand_forwarded inverse reexported d used g nd depd Hnd Hvd)
    as (used1 & s & Hstep & Hsub & Hfw).
  assert (Hgrown1 : Forall2 usedSymbolsGrown (heap g)
                      (<[d := set_usedSymbols s nd]> (heap g))).
  { apply usedSymbolsGrown_write; [done| |done]. unfold type. by rewrite Hvd. }
  destruct (IH used1 (set_heap (<[d := set_usedSymbols s nd]> (heap g)) g))
    as (used' & g' & Hrest & Hgrown & Hall).
  { intros l Hl. destruct (Hout l) as (n & dep & Hn & Hv);
      [by apply list_elem_of_further|].
    destruct (heap_grown_lookup _ _ _ _ Hgrown1 Hn) as (n1 & Hn1 & Hg1).
    exists n1, dep. split; [done|].
    by rewrite (usedSymbolsGrown_value _ _ Hg1). }
  cbn [heap set_heap] in Hgrown.
  exists used', g'. split.
  { cbn [forwardDemands]. by rewrite (bind_returned _ _ _ _ _ Hstep). }
  split.
  { eapply Forall2_trans; [|exact Hgrown1|exact Hgrown].
    intros ???. apply usedSymbolsGrown_trans. }
  intros l n dep x Hl Hn Hv Hx.
  destruct (heap_grown_lookup _ _ _ _ Hgrown1 Hn) as (n1 & Hn1 & Hg1).
  apply elem_of_cons in Hl as [->|Hl].
  - destruct (heap_grown_lookup _ _ _ _ Hgrown Hn1) as (n' & Hn' & Hg').
    exists n'. split; [done|]. destruct Hg' as (_ & Hsub' & _). apply Hsub'.
    assert (n = nd) as -> by congruence.
    assert (dep = depd) as -> by congruence.
    rewrite list_lookup_insert_eq in Hn1 by (by eapply lookup_lt_Some).
    injection Hn1 as <-. cbn. by apply Hfw.
  - apply (Hall l n1 dep x Hl Hn1); [|done].
    by rewrite (usedSymbolsGrown_value _ _ Hg1).
Qed.

Lemma incomingDemand_kept assetSymbols exportSymbols : ∀ acc,
  acc.1 ⊆ (incomingDemand assetSymbols exportSymbols acc).1
  ∧ acc.2 ⊆ (incomingDemand assetSymbols exportSymbols acc).2.
Proof.
  induction exportSymbols as [|e rest IH]; intros acc; [done|].
  cbn [incomingDemand]. case_bool_decide as He.
  - cbn [fst snd]. split; intros x Hx; apply elem_of_JsSet_add; by right.
  - assert (Hown : ∀ acc',
      acc.1 ⊆ acc'.1 → acc.2 ⊆ acc'.2 →
      acc.1 ⊆ (incomingDemand assetSymbols rest acc').1
      ∧ acc.2 ⊆ (incomingDemand assetSymbols rest acc').2).
    { intros acc' S1 S2. destruct (IH acc') as [H1 H2].
      split; (etrans; [eassumption|done]). }
    destruct assetSymbols as [symbols|];
      [destruct (JsMap.has e symbols)|];
      apply Hown; cbn [fst snd]; try done;
      intros x Hx; apply elem_of_JsSet_add; by right.
Qed.

(** The names of one incoming dependency that reach the re-exported set:
    the wildcard, and, when the wildcard is not asked for, every name the
    asset does not export itself. *)
Lemma incomingDemand_reexported assetSymbols exportSymbols x : ∀ acc,
  x ∈ exportSymbols →
  x = "*"
  ∨ (("*" ∉ exportSymbols)
     ∧ ∀ symbols, assetSymbols = Some symbols → JsMap.has x symbols = false) →
  x ∈ (incomingDemand assetSymbols exportSymbols acc).2.
Proof.
  induction exportSymbols as [|e rest IH]; intros acc Hin Hx;
    [by apply elem_of_nil in Hin|].
  cbn [incomingDemand]. case_bool_decide as He.
  - subst e. cbn [snd]. destruct Hx as [->|[Hstar _]].
    + apply elem_of_JsSet_add. by left.
    + exfalso. apply Hstar, list_elem_of_here.
  - apply elem_of_cons in Hin as [->|Hin].
    + destruct Hx as [->|[_ Hown]]; [done|].
      destruct assetSymbols as [symbols|].
      * rewrite (Hown symbols eq_refl).
        apply incomingDemand_kept. cbn [snd]. apply elem_of_JsSet_add.
        by left.
      * apply incomingDemand_kept. cbn [snd]. apply elem_of_JsSet_add.
        by left.
    + assert (Hx' : x = "*"
                ∨ (("*" ∉ rest)
                   ∧ ∀ symbols, assetSymbols = Some symbols →
                       JsMap.has x symbols = false)).
      { destruct Hx as [?|[Hstar ?]]; [by left|right]. split; [|done].
        intros ?. apply Hstar. by apply list_elem_of_further. }
      destruct assetSymbols as [symbols|];
        [destruct (JsMap.has e symbols)|]; by apply IH.
Qed.

Lemma incomingDemands_reexported assetSymbols incomingDeps n x :
  n ∈ incomingDeps → x ∈ usedSymbols n →
  x = "*"
  ∨ (("*" ∉ usedSymbols n)
     ∧ ∀ symbols, assetSymbols = Some symbols → JsMap.has x symbols = false) →
  x ∈ (incomingDemands assetSymbols incomingDeps).2.
Proof.
  unfold incomingDemands. generalize (JsSet.empty, JsSet.empty).
  induction incomingDeps as [|d ds IH]; intros acc Hn Hx Hc;
    [by apply elem_of_nil in Hn|].
  cbn [foldl]. apply elem_of_cons in Hn as [<-|Hn]; [|by apply IH].
  assert (Hkeep : ∀ ds acc, acc.2 ⊆
    (foldl (λ acc d, incomingDemand assetSymbols (usedSymbols d) acc)
       acc ds).2).
  { clear. induction ds as [|d ds IH]; intros acc; [done|]. cbn [foldl].
    etrans; [|apply IH]. apply incomingDemand_kept. }
  apply Hkeep. by apply incomingDemand_reexported.
Qed.

(** X7.  What [setUsedSymbolsAsset] hands to the outgoing dependencies.  A
    dependency that re-exports a namespace receives the wildcard when an
    incoming dependency asks for it, and every name an incoming dependency
    without the wildcard asks for that the asset does not export itself.
    Any other dependency receives each of its own symbols that is not weak,
    or whose local name the asset does not export, or all of them when the
    asset has no symbols. *)
Theorem usedSymbols_forwarded g (assetNode : loc) an a outgoingDeps :
  wellFormed g →
  heap g !! assetNode = Some an → value an = AssetValue a →
  dependencyNodesAt g outgoingDeps →
  ∃ g',
    setUsedSymbolsAsset assetNode outgoingDeps g = (Returned tt, g')
    ∧ ∀ l n dep, l ∈ outgoingDeps → heap g !! l = Some n →
        value n = DependencyValue dep →
        ∃ n', heap g' !! l = Some n'
          ∧ (reexportsNamespace dep = true →
             ∀ n0 x, n0 ∈ incomingNodes a g → x ∈ usedSymbols n0 →
               x = "*"
               ∨ (("*" ∉ usedSymbols n0)
                  ∧ ∀ symbols, asset_symbols a = Some symbols →
                      JsMap.has x symbols = false) →
               x ∈ usedSymbols n')
          ∧ (reexportsNamespace dep = false →
             ∀ symbol local, (symbol, local) ∈ dep_symbols dep →
               asset_symbols a = None
               ∨ symbol ∉ weakSymbols dep
               ∨ (∃ symbols, asset_symbols a = Some symbols
                    ∧ JsMap.get local (inverseSymbols symbols) = None) →
               symbol ∈ usedSymbols n').
Proof.
  intros Hwf Han Hva Hout.
  destruct (setUsedSymbolsAsset_returned g assetNode an a outgoingDeps
              Hwf Han Hva Hout) as (used' & g1 & Hfwd & Hgrown & Han1 & Hrun).
  eexists. split; [exact Hrun|].
  intros l n dep Hl Hn Hv.
  destruct (forwardDemands_forwarded (inverseSymbols <$> asset_symbols a)
    (incomingDemands (asset_symbols a) (incomingNodes a g)).2 outgoingDeps
    (incomingDemands (asset_symbols a) (incomingNodes a g)).1 g Hout)
    as (used2 & g2 & Hfwd2 & _ & Hall).
  rewrite Hfwd in Hfwd2. injection Hfwd2 as <- <-.
  destruct (heap_grown_lookup _ _ _ _ Hgrown Hn) as (n1 & Hn1 & Hg1).
  assert (Hne : l ≠ assetNode).
  { intros ->. rewrite Han in Hn. injection Hn as <-. congruence. }
  exists n1. split.
  { cbn. by rewrite list_lookup_insert_ne. }
  split.
  - intros Hns n0 x Hn0 Hx Hc.
    destruct (Hall l n dep x Hl Hn Hv) as (n' & Hn' & Hin).
    { unfold forwardedTo. rewrite Hns.
      by eapply incomingDemands_reexported. }
    congruence.
  - intros Hns symbol local Hin Hc.
    destruct (Hall l n dep symbol Hl Hn Hv) as (n' & Hn' & Hin').
    { unfold forwardedTo. rewrite Hns. exists local. split; [done|].
      destruct (asset_symbols a) as [symbols|]; [|by left].
      destruct Hc as [?|[?|(s' & [= <-] & Hget)]]; [done|by right; left|].
      right; right. by exists (inverseSymbols symbols). }
    congruence.
Qed.

(** ** Traversal: which nodes a walk comes to *)

Lemma reachesThrough_from expands kids node c l :
  expands node = true → c ∈ kids node →
  reachesThrough expands kids c l → reachesThrough expands kids node l.
Proof.
  intros Hexp Hc Hl. induction Hl as [|p c' Hp IH Hexp' Hc'].
  - eapply reaches_next; [apply reaches_start|done|done].
  - by eapply reaches_next.
Qed.

Section DfsReach.
Context {C X : Type}.
Variable getChildren : loc → AssetGraph → list loc.
Variable visit : loc → option C → X → Js (Visit C X).
Variable g : AssetGraph.
Variable expands : loc → bool.
Hypothesis visit_state : ∀ node context x r g',
  visit node context x g = (r, g') → g' = g.
Hypothesis visit_spec : ∀ node context x v g',
  visit node context x g = (Returned v, g') →
  skipChildren v = negb (expands node) ∧ stop v = false.

Lemma walkChildren_reaches
    (rec : loc → option C → Walk X → WalkResult X) :
  (∀ c context w w',
      graph w = g → rec c context w = Done w' →
      graph w' = g
      ∧ ∀ l, l ∈ visited w' →
          l ∈ visited w
          ∨ reachesThrough expands (λ l, getChildren l g) c l) →
  ∀ children context w w',
    graph w = g → walkChildren rec context children w = Done w' →
    graph w' = g
    ∧ ∀ l, l ∈ visited w' →
        l ∈ visited w
        ∨ ∃ c, c ∈ children
               ∧ reachesThrough expands (λ l, getChildren l g) c l.
Proof.
  intros Hrec children context.
  induction children as [|c cs IH]; intros w w' Hg Hw; simpl in Hw.
  - inversion Hw; subst. split; [done|]. by left.
  - case_bool_decide as Hin.
    + destruct (IH _ _ Hg Hw) as [Hg' Hall]. split; [done|].
      intros l Hl. destruct (Hall l Hl) as [?|(c' & Hc' & Hr)]; [by left|].
      right. exists c'. split; [by apply list_elem_of_further|done].
    + destruct (rec c context w) as [w1| |] eqn:Hc; try done.
      destruct (Hrec _ _ _ _ Hg Hc) as [Hg1 Hall1].
      assert (Hrest : graph w' = g
        ∧ ∀ l, l ∈ visited w' →
            l ∈ visited w1
            ∨ ∃ c, c ∈ cs
                   ∧ reachesThrough expands (λ l, getChildren l g) c l).
      { destruct (stopped w1); [|by apply IH].
        inversion Hw; subst w'. split; [done|]. by left. }
      destruct Hrest as [Hg' Hall]. split; [done|].
      intros l Hl. destruct (Hall l Hl) as [Hl1|(c' & Hc' & Hr)].
      * destruct (Hall1 l Hl1) as [?|Hr]; [by left|].
        right. exists c. split; [apply list_elem_of_here|done].
      * right. exists c'. split; [by apply list_elem_of_further|done].
Qed.

Lemma walk_reaches fuel : ∀ node context w w',
  graph w = g → walk getChildren visit fuel node context w = Done w' →
  graph w' = g
  ∧ ∀ l, l ∈ visited w' →
      l ∈ visited w ∨ reachesThrough expands (λ l, getChildren l g) node l.
Proof.
  induction fuel as [|fuel IH]; intros node context w w' Hg Hw; [done|].
  rewrite walk_S, Hg in Hw.
  destruct (visit node context (closure w) g) as [[v|] g'] eqn:Hv; [|done].
  pose proof (visit_state _ _ _ _ _ Hv) as ->.
  destruct (visit_spec _ _ _ _ _ Hv) as [Hskip Hstop].
  assert (Hown : ∀ l, l ∈ visited (entered node v g w) →
    l ∈ visited w ∨ reachesThrough expands (λ l, getChildren l g) node l).
  { intros l [?|Hl%list_elem_of_singleton]%elem_of_app; [by left|].
    subst l. right. apply reaches_start. }
  rewrite Hskip in Hw. destruct (expands node) eqn:Hexp; simpl in Hw;
    [|inversion Hw; by subst w'].
  destruct (stopped w || stop v); [inversion Hw; by subst w'|].
  eapply walkChildren_reaches in Hw; [| |done].
  - destruct Hw as [Hg' Hall]. split; [done|].
    intros l Hl. destruct (Hall l Hl) as [Hl0|(c & Hc & Hr)].
    + by apply Hown.
    + right. by eapply reachesThrough_from.
  - intros c context' w1 w1' ? ?. by eapply IH.
Qed.

(** The nodes a finished walk has visited are the ones it comes to. *)
Lemma walk_reached fuel start x w :
  walk getChildren visit fuel start None (start_of x g) = Done w →
  ∀ l, l ∈ visited w
       ↔ reachesThrough expands (λ l, getChildren l g) start l.
Proof.
  intros Hw l. split.
  - intros Hl.
    destruct (walk_reaches fuel start None (start_of x g) w eq_refl Hw)
      as [_ Hall].
    destruct (Hall l Hl) as [?%elem_of_nil|?]; done.
  - destruct (walk_closed getChildren visit (λ s, s = g) expands
                (λ l, getChildren l g)) with (fuel := fuel) (node := start)
      (context := @None C) (w := start_of x g) (w' := w)
      as (_ & _ & Hsub & Hcl); [| | |done|done|done|].
    + intros node context x0 s r s' -> Hv. by eapply visit_state.
    + by intros node s ->.
    + intros node context x0 s v s' -> Hv. by eapply visit_spec.
    + intros Hr. induction Hr as [|p c Hp IH Hexp Hc].
      * apply Hsub. simpl. apply list_elem_of_here.
      * eapply (Hcl p); [done|by intros ?%elem_of_nil|done|done].
Qed.
End DfsReach.

Lemma traverse_root {C X} (visit : loc → option C → X → Js (Visit C X))
    x g r start :
  rootNodeId g = Some r → nodes g !! r = Some start →
  traverse visit None x g = dfs getNodesConnectedFrom visit start x g.
Proof.
  intros Hr Hstart. unfold traverse.
  assert (Hs : (let* r := getRootNode in nullthrows r) g = (Returned start, g)).
  { js_unfold. rewrite Hr. simpl. by rewrite Hstart. }
  by rewrite (bind_returned _ _ _ _ _ Hs).
Qed.

Lemma hasType_true t g l :
  hasType t g l = true ↔ ∃ n, heap g !! l = Some n ∧ type n = t.
Proof.
  unfold hasType. destruct (heap g !! l) as [n|]; split.
  - intros ?%bool_decide_eq_true. eauto.
  - intros (n' & [= <-] & ?). by apply bool_decide_eq_true.
  - done.
  - by intros (? & ? & _).
Qed.

Lemma valid_object g start l :
  wellFormed g → start < length (heap g) →
  l = start ∨ l ∈ storedNodes g → is_Some (heap g !! l).
Proof.
  intros Hwf Hstart HV. apply lookup_lt_is_Some.
  destruct HV as [->|Hs]; [done|].
  apply elem_of_storedNodes in Hs as [i Hi].
  by eapply (wellFormed_storedObjects g Hwf).
Qed.

Lemma NoDup_push {A} (xs : list A) x : NoDup xs → x ∉ xs → NoDup (xs ++ [x]).
Proof.
  intros Hnd Hx. apply NoDup_app. split; [done|].
  split; [|apply NoDup_singleton].
  intros y Hy ->%list_elem_of_singleton. done.
Qed.

(** X8.  On a well-formed graph with a root, [getEntryAssetGroupNodes]
    returns, leaves the graph as it is, and its result lists, each once,
    exactly the asset-group nodes that a path from the root reaches without
    going through another asset group. *)
Theorem getEntryAssetGroupNodes_exact g r start :
  wellFormed g → rootNodeId g = Some r → nodes g !! r = Some start →
  ∃ entryNodes,
    getEntryAssetGroupNodes g = (Returned entryNodes, g)
    ∧ NoDup entryNodes
    ∧ ∀ l, l ∈ entryNodes
           ↔ hasType asset_group g l = true
             ∧ reachesThrough (λ l, negb (hasType asset_group g l))
                 (λ l, getNodesConnectedFrom l g) start l.
Proof.
  intros Hwf Hr Hstart. unfold getEntryAssetGroupNodes.
  rewrite (traverse_root _ _ _ _ _ Hr Hstart).
  match goal with |- context [dfs _ ?v _ _ _] => set (visit := v) end.
  assert (Hlt : start < length (heap g))
    by (by eapply (wellFormed_storedObjects g Hwf)).
  assert (Hvisit : ∀ node context x n,
    heap g !! node = Some n →
    visit node context x g
    = (Returned (if hasType asset_group g node
                 then skip (x ++ [node]) else continue x), g)).
  { intros node context x n Hn. unfold visit, hasType.
    rewrite (bind_returned _ _ _ _ _ (read_returned _ _ _ Hn)), Hn.
    by case_bool_decide. }
  assert (Hstate : ∀ node context x r' g',
    visit node context x g = (r', g') → g' = g).
  { intros node context x r' g'. unfold visit. js_unfold.
    destruct (heap g !! node) as [n|]; [|by intros [= _ <-]].
    case_bool_decide; by intros [= _ <-]. }
  assert (Hspec : ∀ node context x v g',
    visit node context x g = (Returned v, g') →
    skipChildren v = negb (negb (hasType asset_group g node))
    ∧ stop v = false).
  { intros node context x v g' Hv.
    destruct (heap g !! node) as [n|] eqn:Hn.
    - rewrite (Hvisit _ _ _ _ Hn) in Hv. injection Hv as <- _.
      by destruct (hasType asset_group g node).
    - unfold visit in Hv. js_unfold. by rewrite Hn in Hv. }
  destruct (walk_total getNodesConnectedFrom visit g start
    (λ g', g' = g)
    (λ w, NoDup (visited w)
          ∧ closure w
            = filter (λ l, hasType asset_group g l = true) (visited w)))
    with (x := @nil loc) as (w & Hw & Hg & Hnd & Hclosure).
  - intros node ctx x g1 r' g2 -> _ Hv. by eapply Hstate.
  - intros node g1 c -> Hc. by eapply getNodesConnectedFrom_stored.
  - intros node ctx x g1 -> HV.
    destruct (valid_object g start node Hwf Hlt HV) as [n Hn].
    by rewrite (Hvisit _ _ _ _ Hn).
  - intros node ctx w0 v g' [Hnd Hc] Hg0 HV Hnew Hv. simpl.
    destruct (valid_object g start node Hwf Hlt HV) as [n Hn].
    rewrite Hg0, (Hvisit _ _ _ _ Hn) in Hv. injection Hv as <- <-.
    split; [by apply NoDup_push|].
    rewrite filter_app, filter_cons, filter_nil.
    destruct (hasType asset_group g node) eqn:Ht; simpl.
    + by rewrite Hc.
    + by rewrite Hc, app_nil_r.
  - done.
  - simpl. split; [apply NoDup_nil_2|done].
  - exists (closure w). split.
    { unfold dfs. unfold start_of in Hw. by rewrite Hw, Hg. }
    rewrite Hclosure. split; [by apply NoDup_filter|].
    intros l. rewrite list_elem_of_filter.
    by rewrite (walk_reached getNodesConnectedFrom visit g
                  (λ l, negb (hasType asset_group g l)) Hstate Hspec
                  _ _ _ _ Hw l).
Qed.

(** X9.  On a well-formed graph with a root, [getEntryAssets] returns,
    leaves the graph as it is, and its result holds exactly the assets of
    the asset nodes that a path from the root reaches without going through
    another asset node. *)
Theorem getEntryAssets_exact g r start :
  wellFormed g → rootNodeId g = Some r → nodes g !! r = Some start →
  ∃ entries,
    getEntryAssets g = (Returned entries, g)
    ∧ ∀ a, a ∈ entries
           ↔ ∃ l n, heap g !! l = Some n ∧ value n = AssetValue a
                    ∧ reachesThrough (λ l, negb (hasType asset g l))
                        (λ l, getNodesConnectedFrom l g) start l.
Proof.
  intros Hwf Hr Hstart.
  unfold getEntryAssets, traverseAssets, filteredTraverse.
  rewrite (traverse_root _ _ _ _ _ Hr Hstart).
  match goal with |- context [dfs _ ?v _ _ _] => set (visit := v) end.
  set (assetAt := λ l, heap g !! l ≫= λ n,
         match value n with AssetValue a => Some a | _ => None end).
  assert (Hlt : start < length (heap g))
    by (by eapply (wellFormed_storedObjects g Hwf)).
  assert (Hvisit : ∀ node context x n,
    heap g !! node = Some n →
    visit node context x g
    = (Returned (match assetAt node with
                 | Some a => skip (x ++ [a])
                 | None => continue x
                 end), g)
    ∧ hasType asset g node = bool_decide (is_Some (assetAt node))).
  { intros node context x n Hn. unfold visit, hasType, assetAt.
    rewrite (bind_returned _ _ _ _ _ (read_returned _ _ _ Hn)), Hn. simpl.
    unfold type. destruct (value n); (split; [done|]); simpl; try done. }
  assert (Hstate : ∀ node context x r' g',
    visit node context x g = (r', g') → g' = g).
  { intros node context x r' g'. unfold visit. js_unfold.
    destruct (heap g !! node) as [n|]; [|by intros [= _ <-]].
    destruct (value n); by intros [= _ <-]. }
  assert (Hspec : ∀ node context x v g',
    visit node context x g = (Returned v, g') →
    skipChildren v = negb (negb (hasType asset g node)) ∧ stop v = false).
  { intros node context x v g' Hv.
    destruct (heap g !! node) as [n|] eqn:Hn.
    - destruct (Hvisit node context x n Hn) as [Hret Ht].
      rewrite Hret in Hv. injection Hv as <- _. rewrite Ht.
      by destruct (assetAt node).
    - unfold visit in Hv. js_unfold. by rewrite Hn in Hv. }
  destruct (walk_total getNodesConnectedFrom visit g start
    (λ g', g' = g) (λ w, closure w = omap assetAt (visited w)))
    with (x := @nil Asset) as (w & Hw & Hg & Hclosure).
  - intros node ctx x g1 r' g2 -> _ Hv. by eapply Hstate.
  - intros node g1 c -> Hc. by eapply getNodesConnectedFrom_stored.
  - intros node ctx x g1 -> HV.
    destruct (valid_object g start node Hwf Hlt HV) as [n Hn].
    by rewrite (proj1 (Hvisit _ ctx x _ Hn)).
  - intros node ctx w0 v g' Hc Hg0 HV Hnew Hv. simpl.
    destruct (valid_object g start node Hwf Hlt HV) as [n Hn].
    rewrite Hg0, (proj1 (Hvisit _ ctx (closure w0) _ Hn)) in Hv.
    injection Hv as <- <-.
    rewrite omap_app. simpl.
    destruct (assetAt node); simpl; [by rewrite Hc|by rewrite Hc, app_nil_r].
  - done.
  - done.
  - exists (closure w). split.
    { unfold dfs. unfold start_of in Hw. by rewrite Hw, Hg. }
    rewrite Hclosure. intros a. rewrite list_elem_of_omap.
    split.
    + intros (l & Hl & Ha). unfold assetAt in Ha.
      destruct (heap g !! l) as [n|] eqn:Hn; [|done]. simpl in Ha.
      exists l, n. split; [done|].
      split; [by destruct (value n); simplify_eq|].
      by apply (walk_reached getNodesConnectedFrom visit g
                  (λ l, negb (hasType asset g l)) Hstate Hspec
                  _ _ _ _ Hw l).
    + intros (l & n & Hn & Hv & Hreach). exists l. split.
      * by apply (walk_reached getNodesConnectedFrom visit g
                    (λ l, negb (hasType asset g l)) Hstate Hspec
                    _ _ _ _ Hw l).
      * unfold assetAt. rewrite Hn. simpl. by rewrite Hv.
Qed.

(** X10.  With no hash cached, [getHash] throws when a path from the root
    reaches an asset node that has no output hash: nothing is cached, and
    the graph is left as it is. *)
Theorem getHash_unhashed_asset `{!JsonStringify Target, !Md5Digest}
    g r start l n a :
  hash g = None → rootNodeId g = Some r → nodes g !! r = Some start →
  reachesThrough (λ _, true) (λ l, getNodesConnectedFrom l g) start l →
  heap g !! l = Some n → value n = AssetValue a → outputHash a = None →
  getHash g = (Threw, g).
Proof.
  intros Hhash Hr Hstart Hreach Hn Hv Hout.
  rewrite (getHash_uncached g Hhash).
  enough ((traverse hashVisitor None [] g).1 = Threw) as -> by done.
  rewrite (traverse_root _ _ _ _ _ Hr Hstart). unfold dfs.
  destruct (walk _ _ _ _ _ _) as [w| |] eqn:Hw; [exfalso|done|done].
  assert (Hstate : ∀ node context x r' g',
    hashVisitor node context x g = (r', g') → g' = g).
  { intros node context x r' g' Hvis.
    pose proof (hashVisitor_state node context x g) as Hs.
    by rewrite Hvis in Hs. }
  assert (Hspec : ∀ node context x v g',
    hashVisitor node context x g = (Returned v, g') →
    skipChildren v = negb true ∧ stop v = false).
  { intros node context x v g' Hvis.
    by destruct (hashVisitor_plain _ _ _ _ _ _ Hvis) as (? & ? & _). }
  assert (HJ : graph w = g
    ∧ ∀ l, l ∈ visited w →
        ∃ x v, hashVisitor l None x g = (Returned v, g)).
  { apply (walk_invariant getNodesConnectedFrom hashVisitor
      (λ w, graph w = g
            ∧ ∀ l, l ∈ visited w →
                ∃ x v, hashVisitor l None x g = (Returned v, g))
      (λ _, True))
      with (fuel := S (size (nodes g))) (node := start) (context := @None unit)
           (w := start_of [] g); [| |split|done|by intros ?%elem_of_nil|done].
    - intros node context w0 v g' [Hg0 Hall] _ Hnew Hvis. rewrite Hg0 in Hvis.
      pose proof (Hstate _ _ _ _ _ Hvis) as ->. split; [done|].
      simpl. intros l' [?|Hl']%elem_of_app; [by apply Hall|].
      apply list_elem_of_singleton in Hl' as ->.
      destruct context as [[]|]; [|by eauto].
      exists (closure w0), v. rewrite <- Hvis. unfold hashVisitor. done.
    - done.
    - done.
    - by intros ? ?%elem_of_nil. }
  destruct HJ as [_ Hall].
  destruct (Hall l) as (x & v & Hvis).
  { by apply (walk_reached getNodesConnectedFrom hashVisitor g
                (λ _, true) Hstate Hspec _ _ _ _ Hw l). }
  unfold hashVisitor in Hvis.
  rewrite (bind_returned _ _ _ _ _ (read_returned _ _ _ Hn)), Hv in Hvis.
  rewrite Hout in Hvis. by js_unfold.
Qed.

Lemma collectVisitor_returned fn g node context res n :
  heap g !! node = Some n →
  collectVisitor fn node context res g
  = (Returned (continue (if fn n then res ++ [node] else res)), g).
Proof.
  intros Hn. unfold collectVisitor.
  by rewrite (bind_returned _ _ _ _ _ (read_returned _ _ _ Hn)).
Qed.

(** X11.  [getIncomingDependencies] returns the empty list for an asset
    that has no node in the graph.  For an asset with a node, on a
    well-formed graph, it returns exactly the dependencies of the dependency
    nodes among the ancestors of that node, at any distance; the graph is
    left as it is. *)
Theorem getIncomingDependencies_exact a g :
  (nodes g !! asset_id a = None →
     getIncomingDependencies a g = (Returned [], g))
  ∧ (wellFormed g → ∀ start, nodes g !! asset_id a = Some start →
     ∃ deps,
       getIncomingDependencies a g = (Returned deps, g)
       ∧ ∀ dep, dep ∈ deps
           ↔ ∃ l n, heap g !! l = Some n ∧ value n = DependencyValue dep
                    ∧ reachesThrough (λ _, true)
                        (λ l, getNodesConnectedTo l g) start l).
Proof.
  split.
  { intros Hnone. unfold getIncomingDependencies.
    by rewrite (bind_returned _ _ _ _ _ (getNode_returned _ _)), Hnone. }
  intros Hwf start Hstart. unfold getIncomingDependencies.
  rewrite (bind_returned _ _ _ _ _ (getNode_returned _ _)), Hstart.
  set (fn := λ n, bool_decide (type n = dependency)).
  set (depAt := λ l, heap g !! l ≫= λ n,
         match value n with DependencyValue dep => Some dep | _ => None end).
  assert (Hlt : start < length (heap g))
    by (by eapply (wellFormed_storedObjects g Hwf)).
  assert (Hstate : ∀ node (context : option unit) x r' g',
    collectVisitor fn node context x g = (r', g') → g' = g).
  { intros node context x r' g' Hv. by eapply collectVisitor_state. }
  assert (Hspec : ∀ node (context : option unit) x v g',
    collectVisitor fn node context x g = (Returned v, g') →
    skipChildren v = negb true ∧ stop v = false).
  { intros node context x v g'. unfold collectVisitor. js_unfold.
    destruct (heap g !! node); [|done]. by intros [= <- _]. }
  destruct (walk_total getNodesConnectedTo (collectVisitor fn) g start
    (λ g', g' = g)
    (λ w, closure w = filter (λ l, hasType dependency g l = true) (visited w)))
    with (x := @nil loc) as (w & Hw & Hg & Hclosure).
  - intros node ctx x g1 r' g2 -> _ Hv. by eapply Hstate.
  - intros node g1 c -> Hc. by eapply getNodesConnectedTo_stored.
  - intros node ctx x g1 -> HV.
    destruct (valid_object g start node Hwf Hlt HV) as [n Hn].
    by rewrite (collectVisitor_returned _ _ _ _ _ _ Hn).
  - intros node ctx w0 v g' Hc Hg0 HV Hnew Hv. simpl.
    destruct (valid_object g start node Hwf Hlt HV) as [n Hn].
    rewrite Hg0, (collectVisitor_returned _ _ _ _ _ _ Hn) in Hv.
    injection Hv as <- <-. simpl.
    rewrite filter_app, filter_cons, filter_nil.
    assert (Ht : hasType dependency g node = fn n)
      by (unfold hasType; by rewrite Hn).
    rewrite Ht.
    destruct (fn n); simpl; [by rewrite Hc|by rewrite Hc, app_nil_r].
  - done.
  - done.
  - assert (Hfind : findAncestors start fn g = (Returned (closure w), g)).
    { unfold findAncestors, traverseAncestors, dfs.
      unfold start_of in Hw. by rewrite Hw, Hg. }
    rewrite (bind_returned _ _ _ _ _ Hfind).
    exists (omap depAt (closure w)). split.
    { apply mapM_returned_omap. intros l Hl. rewrite Hclosure in Hl.
      apply list_elem_of_filter in Hl as [Ht _].
      apply hasType_true in Ht as (n & Hn & Ht).
      assert (∃ dep, value n = DependencyValue dep) as [dep Hdep].
      { unfold type in Ht. destruct (value n); try done. eauto. }
      exists dep.
      rewrite (bind_returned _ _ _ _ _ (read_returned _ _ _ Hn)), Hdep.
      split; [done|]. unfold depAt. rewrite Hn. simpl. by rewrite Hdep. }
    intros dep. rewrite list_elem_of_omap. split.
    + intros (l & Hl & Hd). rewrite Hclosure in Hl.
      apply list_elem_of_filter in Hl as [_ Hl].
      unfold depAt in Hd. destruct (heap g !! l) as [n|] eqn:Hn; [|done].
      simpl in Hd. exists l, n. split; [done|].
      split; [by destruct (value n); simplify_eq|].
      by apply (walk_reached getNodesConnectedTo (collectVisitor fn) g
                  (λ _, true) Hstate Hspec _ _ _ _ Hw l).
    + intros (l & n & Hn & Hv & Hreach). exists l. split.
      * rewrite Hclosure. apply list_elem_of_filter. split.
        -- apply hasType_true. exists n. split; [done|].
           unfold type. by rewrite Hv.
        -- by apply (walk_reached getNodesConnectedTo (collectVisitor fn) g
                       (λ _, true) Hstate Hspec _ _ _ _ Hw l).
      * unfold depAt. rewrite Hn. simpl. by rewrite Hv.
Qed.

(** ** [removeNode]: the cascade *)

Lemma shrunk_size g g' : shrunk g g' → size (nodes g') ≤ size (nodes g).
Proof.
  intros (_ & Hn & _). apply map_subseteq_size, map_subseteq_spec.
  intros i l. apply Hn.
Qed.

(** The loop of the cascade over the children [cs] of a deleted node: when
    it ends, no stored node is left without a parent, unless it had none in
    [g0]. *)
Lemma cascade_complete (rec : loc → Js unit) (g0 : AssetGraph)
    (bound : nat) cs : ∀ s,
  (∀ child s c,
      consistent s → nodes s !! c = Some child → parentIds c s = [] →
      size (nodes s) ≤ bound →
      ∃ s', rec child s = (Returned tt, s')
            ∧ shrunk s s' ∧ consistent s'
            ∧ nodes s' !! c = None
            ∧ ∀ c', stored c' s' → parentIds c' s' = [] →
                    parentIds c' s = []) →
  consistent s → size (nodes s) ≤ bound →
  (∀ c, stored c s → parentIds c s = [] → parentIds c g0 = [] ∨ c ∈ cs) →
  ∃ s',
    forEach cs (λ c,
      let* g := get_state in
      match nodes g !! c with
      | Some child =>
          if bool_decide (parentIds c g = []) then rec child else ret tt
      | None => ret tt
      end) s = (Returned tt, s')
    ∧ shrunk s s' ∧ consistent s'
    ∧ ∀ c, stored c s' → parentIds c s' = [] → parentIds c g0 = [].
Proof.
  induction cs as [|c1 rest IH]; intros s Hrec Hcons Hsize Hpending.
  { exists s. split; [done|]. split; [apply shrunk_refl|]. split; [done|].
    intros c Hc Horph.
    by destruct (Hpending c Hc Horph) as [?|?%elem_of_nil]. }
  cbn [forEach]. unfold bind at 1. unfold bind at 1, get_state at 1.
  assert (Hskip : (¬ stored c1 s ∨ parentIds c1 s ≠ []) →
    ∀ c, stored c s → parentIds c s = [] → parentIds c g0 = [] ∨ c ∈ rest).
  { intros Hc1 c Hc Horph.
    destruct (Hpending c Hc Horph) as [?|Hin]; [by left|].
    apply elem_of_cons in Hin as [->|?]; [|by right].
    destruct Hc1; done. }
  destruct (nodes s !! c1) as [child|] eqn:Hchild.
  - case_bool_decide as Horph1.
    + destruct (Hrec child s c1 Hcons Hchild Horph1 Hsize)
        as (s1 & Hrun & Hshr & Hcons1 & Hgone & Hall).
      rewrite Hrun.
      destruct (IH s1 Hrec Hcons1) as (s' & Hrest & Hshr' & Hcons' & Hdone).
      { pose proof (shrunk_size _ _ Hshr). lia. }
      { intros c Hc Horph.
        assert (Hcs : stored c s).
        { destruct Hc as [l Hl]. exists l.
          by apply (proj1 (proj2 Hshr)). }
        destruct (Hpending c Hcs (Hall c Hc Horph)) as [?|Hin]; [by left|].
        apply elem_of_cons in Hin as [->|?]; [|by right].
        destruct Hc as [l Hl]. congruence. }
      exists s'. split; [done|]. split; [by eapply shrunk_trans|done].
    + destruct (IH s Hrec Hcons Hsize) as (s' & Hrest & ?);
        [apply Hskip; by right|].
      exists s'. by split.
  - destruct (IH s Hrec Hcons Hsize) as (s' & Hrest & ?).
    { apply Hskip. left. intros [? ?]. congruence. }
    exists s'. by split.
Qed.

Lemma removeNode_upto_cascade fuel : ∀ node g x,
  consistent g → nodes g !! x = Some node → parentIds x g = [] →
  size (nodes g) ≤ fuel →
  ∃ g', removeNode_upto fuel node g = (Returned tt, g')
        ∧ shrunk g g' ∧ consistent g'
        ∧ nodes g' !! x = None
        ∧ ∀ c, stored c g' → parentIds c g' = [] → parentIds c g = [].
Proof.
  induction fuel as [|fuel IH]; intros node g x Hcons Hx Horphan Hfuel.
  { exfalso. assert (size (nodes g) ≠ 0); [|lia].
    by apply (map_size_ne_0_lookup_2 _ x). }
  destruct (proj1 Hcons _ _ Hx) as (n & Hn & Hid & _).
  rewrite removeNode_upto_S.
  rewrite (Graph_removeNode_unfold _ _ _ n) by done.
  rewrite Hid.
  destruct (delete_orphan g x node None Hcons Hx Horphan) as [Hshr Hcons'].
  set (gd := set_edges
               (filter (λ e : string * string, e.1 ≠ x ∧ e.2 ≠ x) (edges g))
               (set_nodes (delete x (nodes g))
                  (set_removedLog (removedLog g ++ [node])
                     (set_hash None g)))) in *.
  assert (Hsize : size (nodes gd) ≤ fuel).
  { unfold gd. simpl. rewrite map_size_delete_Some by eauto. lia. }
  destruct (cascade_complete (removeNode_upto fuel) g fuel
              (childIds x (set_removedLog (removedLog g ++ [node])
                             (set_hash None g))) gd)
    as (g' & Hrun & Hshr' & Hcons'' & Hdone); [|done|done| |].
  - intros child s c Hs Hc Horph Hle. by apply (IH child s c).
  - intros c Hc Horph.
    destruct (decide ((x, c) ∈ edges g)) as [Hin|Hnin].
    { right. by apply elem_of_childIds. }
    left. apply parentIds_nil. intros p Hp.
    apply (proj1 (parentIds_nil c gd) Horph p).
    unfold gd. simpl. apply list_elem_of_filter. split; [|done]. simpl.
    split; [intros ->; done|].
    intros ->. destruct Hc as [l Hl]. unfold gd in Hl. simpl in Hl.
    by rewrite lookup_delete_eq in Hl.
  - exists g'. split; [done|]. split; [by eapply shrunk_trans|].
    split; [done|]. split; [|done].
    destruct (nodes g' !! x) as [l|] eqn:Hl; [|done].
    apply (proj1 (proj2 Hshr')) in Hl. unfold gd in Hl. simpl in Hl.
    by rewrite lookup_delete_eq in Hl.
Qed.

(** X12.  Removing a stored node without parents from a consistent graph
    returns and leaves a consistent graph in which the node is no longer
    stored.  Node objects are untouched, the nodes that stay keep their
    outgoing edges, every node that is gone has been reported to the
    observer, and the cascade is complete: no stored node is left without a
    parent unless it had none before. *)
Theorem removeNode_orphan node g x :
  consistent g → nodes g !! x = Some node → parentIds x g = [] →
  ∃ g', removeNode node g = (Returned tt, g')
        ∧ consistent g' ∧ shrunk g g'
        ∧ nodes g' !! x = None
        ∧ ∀ c, stored c g' → parentIds c g' = [] → parentIds c g = [].
Proof.
  intros Hcons Hx Horphan. unfold removeNode.
  destruct (removeNode_upto_cascade (S (size (nodes g))) node g x
              Hcons Hx Horphan) as (g' & Hrun & Hshr & Hcons' & Hgone & Hall);
    [lia|].
  exists g'. done.
Qed.

(** ** [resolveAssetGroup] and [resolveAsset]: what they leave behind *)

(** The second loop of [replaceNodesConnectedTo] leaves no orphan behind:
    a stored node without a parent had none before the loop. *)
Lemma disconnect_complete f cs : ∀ g,
  consistent g →
  ∃ g',
    forEach cs (λ c,
      update_state (removeEdge f c) >>
      let* g := get_state in
      match nodes g !! c with
      | Some child =>
          if bool_decide (parentIds c g = []) then removeNode child else ret tt
      | None => ret tt
      end) g = (Returned tt, g')
    ∧ consistent g'
    ∧ ∀ c, stored c g' → parentIds c g' = [] → parentIds c g = [].
Proof.
  induction cs as [|c1 rest IH]; intros g Hcons.
  { exists g. done. }
  cbn [forEach]. unfold bind at 1. unfold bind at 1, update_state at 1.
  unfold bind at 1, get_state at 1.
  set (s1 := removeEdge f c1 g).
  assert (Hcons1 : consistent s1).
  { destruct Hcons as [Hwf Hcl]. split; [done|]. intros p c Hin.
    apply list_elem_of_filter in Hin as [_ Hin]. by apply Hcl. }
  assert (Hpend : ∀ c, parentIds c s1 = [] → c ≠ c1 → parentIds c g = []).
  { intros c Horph Hne. apply parentIds_nil. intros p Hp.
    apply (proj1 (parentIds_nil c s1) Horph p).
    unfold s1, removeEdge. cbn. apply list_elem_of_filter. split; [|done].
    intros [= _ ->]. done. }
  assert (Hskip : (nodes s1 !! c1 = None ∨ parentIds c1 s1 ≠ []) →
    ∃ g', forEach rest (λ c,
            update_state (removeEdge f c) >>
            let* g := get_state in
            match nodes g !! c with
            | Some child =>
                if bool_decide (parentIds c g = [])
                then removeNode child else ret tt
            | None => ret tt
            end) s1 = (Returned tt, g')
          ∧ consistent g'
          ∧ ∀ c, stored c g' → parentIds c g' = [] → parentIds c g = []).
  { intros Hc1. destruct (IH s1 Hcons1) as (g' & Hrun & Hcons' & Hall).
    exists g'. split; [done|]. split; [done|].
    intros c Hc Horph. specialize (Hall c Hc Horph).
    apply Hpend; [done|]. intros ->.
    destruct Hc1 as [Hnone|Hpar]; [|done].
    destruct (disconnect_all f rest s1 g' Hcons1 Hrun) as (_ & _ & Hsub & _).
    destruct Hc as [l Hl]. apply Hsub in Hl. congruence. }
  destruct (nodes s1 !! c1) as [child|] eqn:Hchild; [|apply Hskip; by left].
  case_bool_decide as Horph1; [|apply Hskip; by right].
  destruct (removeNode_upto_cascade (S (size (nodes s1))) child s1 c1
              Hcons1 Hchild Horph1) as (s2 & Hrun2 & Hshr & Hcons2 & Hgone & Hall2);
    [lia|].
  unfold removeNode at 1. rewrite Hrun2.
  destruct (IH s2 Hcons2) as (g' & Hrun & Hcons' & Hall).
  exists g'. split; [done|]. split; [done|].
  intros c Hc Horph.
  assert (Hc2 : stored c s2).
  { destruct (disconnect_all f rest s2 g' Hcons2 Hrun) as (_ & _ & Hsub & _).
    destruct Hc as [l Hl]. exists l. by apply Hsub. }
  specialize (Hall c Hc Horph). specialize (Hall2 c Hc2 Hall).
  apply Hpend; [done|]. intros ->. destruct Hc2 as [l Hl]. congruence.
Qed.

Lemma replaceNodesConnectedTo_complete fromNode toNodes from T g :
  consistent g → heap g !! fromNode = Some from → stored (id from) g →
  nodesAt g toNodes T →
  ∃ g', replaceNodesConnectedTo fromNode toNodes g = (Returned tt, g')
    ∧ ∀ c, stored c g' → parentIds c g' = [] → parentIds c g = [].
Proof.
  intros Hcons Hfrom Hst Hat.
  unfold replaceNodesConnectedTo.
  rewrite (bind_returned _ _ _ _ _ (read_returned _ _ _ Hfrom)).
  unfold bind at 1, hasNode at 1.
  rewrite bool_decide_eq_true_2 by done.
  unfold bind at 1, invariant at 1, ret at 1.
  unfold bind at 1, get_state at 1.
  rewrite (bind_returned _ _ _ _ _ (nodesAt_ids _ _ _ Hat)).
  destruct (connect_all (id from) toNodes T g Hcons Hst Hat)
    as (ga & Hadd & Hconn).
  rewrite (bind_returned _ _ _ _ _ Hadd).
  destruct Hconn as (_ & Hcons_a & _ & _ & _ & Hedges & _).
  destruct (disconnect_complete (id from)
              (filter (λ c, c ∉ T) (childIds (id from) g)) ga Hcons_a)
    as (g' & Hrun & _ & Hall).
  exists g'. split; [done|].
  intros c Hc Horph. specialize (Hall c Hc Horph).
  apply parentIds_nil. intros p Hp.
  apply (proj1 (parentIds_nil c ga) Hall p). apply Hedges. by left.
Qed.

Section GroupContract.
Context `{!Md5FromObject AssetGroup}.

(** X13.  [resolveAssetGroup] on a stored node that is not an asset group
    throws and leaves the graph as it is.  On a stored asset group, with no
    assets, it returns: the request is recorded on the node, all the assets
    of the group are disconnected (the group has no child left), every
    former child that had no other parent is no longer stored, and so on
    down the graph: no stored node is left without a parent unless it had
    none before the call. *)
Theorem resolveAssetGroup_contract assetGroup request g l n :
  consistent g →
  nodes g !! id (nodeFromAssetGroup assetGroup) = Some l →
  heap g !! l = Some n →
  (type n ≠ asset_group →
     ∀ assets, resolveAssetGroup assetGroup assets request g = (Threw, g))
  ∧ (type n = asset_group →
     ∃ g', resolveAssetGroup assetGroup [] request g = (Returned tt, g')
       ∧ resolvedAt l (id (nodeFromAssetGroup assetGroup)) request [] g g'
       ∧ (∀ c, (id (nodeFromAssetGroup assetGroup), c) ∉ edges g')
       ∧ (∀ c, (id (nodeFromAssetGroup assetGroup), c) ∈ edges g →
            (∀ p, (p, c) ∈ edges g → p = id (nodeFromAssetGroup assetGroup)) →
            ¬ stored c g')
       ∧ (∀ c, stored c g' → parentIds c g' = [] → parentIds c g = [])).
Proof.
  intros Hcons Hl Hn. split; intros Ht.
  - intros assets. unfold resolveAssetGroup.
    rewrite (bind_returned _ _ _ _ _ (getNode_returned _ _)), Hl.
    rewrite (bind_returned _ _ _ _ _ (read_returned _ _ _ Hn)).
    by rewrite bool_decide_eq_false_2.
  - destruct (resolveAssetGroup_stored assetGroup [] request g l n Hl Hn Ht)
      as (objs & Hall & Heq).
    inversion Hall; subst. rewrite Heq. cbn [filter map forEach].
    set (i := id (nodeFromAssetGroup assetGroup)) in *.
    destruct (stamped_replace l n i request [] g Hcons Hl Hn)
      as (g' & Hrun & Hres); [constructor|].
    exists g'. cbn [length seq fmap list_fmap] in Hrun.
    split; [by rewrite (bind_returned _ _ _ _ _ Hrun)|]. split; [done|].
    pose proof Hres as (_ & Hcons' & Hown & Hother & _).
    assert (Hnone : ∀ c, (i, c) ∉ edges g').
    { intros c Hin. destruct (proj2 Hcons' _ _ Hin) as [Hst _].
      apply (Hown Hst) in Hin. cbn in Hin. by apply elem_of_nil in Hin. }
    assert (Hall' : ∀ c, stored c g' → parentIds c g' = [] →
                        parentIds c g = []).
    { set (nw := set_correspondingRequest (Some request) n) in *.
      set (ga := set_heap (<[l:=nw]> (heap g) ++ []) g) in *.
      destruct (proj1 Hcons _ _ Hl) as (n0 & Hn0 & Hid & _).
      assert (n0 = n) as -> by congruence.
      assert (Hga : heap ga !! l = Some nw).
      { unfold ga. cbn [heap set_heap]. apply lookup_app_l_Some.
        apply list_lookup_insert_eq. by eapply lookup_lt_Some. }
      assert (Hcons_a : consistent ga).
      { eapply quiet_consistent; [|exact Hcons].
        eapply (quiet_trans _ _ _ (set_heap (<[l:=nw]> (heap g)) g));
          [|exact (quiet_extend _ _ [] (set_heap (<[l:=nw]> (heap g)) g))].
        apply (quiet_write (λ _, True) (λ _, True) g l n); auto. }
      assert (Hst : stored (id nw) ga) by (cbn; rewrite Hid; by eexists).
      destruct (replaceNodesConnectedTo_complete l [] nw [] ga Hcons_a Hga Hst)
        as (g'' & Hrun' & Hc); [constructor|].
      rewrite Hrun in Hrun'. by injection Hrun' as <-. }
    split; [done|]. split; [|done].
    intros c Hin Honly Hst.
    assert (Horph : parentIds c g' = []).
    { apply parentIds_nil. intros p Hp.
      destruct (decide (p = i)) as [->|Hne]; [by apply (Hnone c)|].
      destruct (proj2 Hcons' _ _ Hp) as [Hstp _].
      apply (Hother p c Hne Hstp) in Hp. by apply Hne, Honly. }
    by apply (proj1 (parentIds_nil c g) (Hall' c Hst Horph) i).
Qed.

Lemma removedIds_same_log i g gw g1 :
  removedLog gw = removedLog g → removedIds gw g1 i → removedIds g g1 i.
Proof.
  intros Hlog (l & n & Hin & Hn & Hi). exists l, n. split; [|done].
  unfold removedSince in *. by rewrite <- Hlog.
Qed.

(** X14.  After a call of [resolveAssetGroup] that returned, on a stored
    group that the call has not itself removed, every node the call has
    rewired is stored with exactly the children it was given: the group the
    assets no earlier asset of the list imports, each asset its
    dependencies, each dependency that names an asset of the list that
    asset.  (The rewired nodes are taken to have distinct ids, each one
    below the group.) *)
Theorem resolveAssetGroup_wired assetGroup assets request g g' :
  consistent g →
  stored (id (nodeFromAssetGroup assetGroup)) g →
  resolveAssetGroup assetGroup assets request g = (Returned tt, g') →
  NoDup (groupSteps (id (nodeFromAssetGroup assetGroup)) assets).*1 →
  chainedFrom [id (nodeFromAssetGroup assetGroup)]
    (groupSteps (id (nodeFromAssetGroup assetGroup)) assets) = true →
  ¬ removedIds g g' (id (nodeFromAssetGroup assetGroup)) →
  consistent g'
  ∧ inPlace (groupSteps (id (nodeFromAssetGroup assetGroup)) assets) g'.
Proof.
  intros Hcons [l0 Hl0] Hrun Hnd Hch Hnot.
  destruct (resolveAssetGroup_returned _ _ _ _ _ (proj1 Hcons) Hrun)
    as [Habs|(l & n & Hl & Hn & Ht & Hid)]; [congruence|].
  destruct (resolveAssetGroup_stored _ assets request _ _ _ Hl Hn Ht)
    as (objs & Hall & Heq).
  rewrite Heq in Hrun. clear Heq.
  set (nw := set_correspondingRequest (Some request) n) in *.
  set (gw := set_heap (<[l:=nw]> (heap g)) g).
  set (ga := set_heap (<[l:=nw]> (heap g) ++ (nodeFromAsset <$> assets)) g)
    in *.
  set (L := length (heap g)) in *.
  assert (Hqw : quiet (λ _, True) (λ _, True) g gw)
    by (apply (quiet_write _ _ g l n); auto).
  pose proof (quiet_consistent _ _ _ _ Hqw Hcons) as Hcons_w.
  assert (Hqa : quiet (λ _, False) (λ l, L ≤ l) gw ga)
    by exact (quiet_extend _ _ (nodeFromAsset <$> assets) gw).
  pose proof (quiet_consistent _ _ _ _ Hqa Hcons_w) as Hcons_a.
  assert (Hgw : heap gw !! l = Some nw).
  { apply list_lookup_insert_eq. by eapply lookup_lt_Some. }
  assert (Hga : heap ga !! l = Some nw) by (by apply lookup_app_l_Some).
  apply bind_returned_inv in Hrun as ([] & gr & Hcall & Hrun).
  assert (Hat : nodesAt ga
            (map assetNode (filter (λ o, isDirect o = true) objs))
            ((λ x : Asset * list Asset * bool, asset_id x.1.1)
             <$> filter (λ x : Asset * list Asset * bool, x.2 = true)
                        (assetPlan assets [] assets))).
  { apply directNodes_at. eapply Forall2_impl; [exact Hall|].
    by intros o x [? _]. }
  destruct (replaceNodesConnectedTo_rewired _ _ _ _ _ _ Hcons_a Hga Hat Hcall)
    as [Hst Hr].
  pose proof Hr as (Hhr & Hcons_r & _).
  assert (Hran : ran (λ _, False) (λ l, L ≤ l)
            (groupSteps (id (nodeFromAssetGroup assetGroup)) assets) gw g').
  { unfold groupSteps. change (?x :: ?s) with ([] ++ [x] ++ s).
    apply (ran_app _ _ _ _ gw ga); [by apply ran_quiet|].
    apply (ran_app _ _ _ _ ga gr).
    - rewrite <- Hid. by apply ran_replace.
    - apply (assets_ran L objs); [done| | |done].
      + rewrite Hhr. unfold ga. cbn [heap set_heap].
        rewrite length_app, length_insert. fold L. lia.
      + eapply Forall2_impl; [exact Hall|].
        intros o x [Hat' ?]. split; [|done].
        unfold assetObjectAt in *. by rewrite Hhr. }
  destruct (ran_evolved _ _ _ _ _ Hran Hcons_w) as (Hcons1 & _).
  split; [done|].
  apply (ran_chained _ _ _ _ _ Hran (id (nodeFromAssetGroup assetGroup)) []);
    [done|done|done|by eexists| |apply inPlace_nil].
  intros Hrem. apply Hnot. by apply (removedIds_same_log _ g gw g').
Qed.
End GroupContract.

(** X15.  After a call of [resolveAsset] that returned, on an asset node
    that the call has not itself removed, the asset has exactly its
    dependencies as children, and each dependency that names one of the
    dependent assets has exactly that asset as child.  (The asset and its
    dependencies are taken to have distinct ids.) *)
Theorem resolveAsset_wired a dependentAssets g g' an av :
  consistent g →
  heap g !! a = Some an → value an = AssetValue av →
  resolveAsset a dependentAssets g = (Returned tt, g') →
  NoDup (assetSteps (id an) av dependentAssets).*1 →
  ¬ removedIds g g' (id an) →
  consistent g'
  ∧ inPlace (assetSteps (id an) av dependentAssets) g'.
Proof.
  intros Hcons Han Hav Hrun Hnd Hnot.
  pose proof (resolveAsset_ran _ _ _ _ _ _ Hcons Han Hav Hrun) as Hran.
  destruct (ran_evolved _ _ _ _ _ Hran Hcons) as (Hcons1 & _).
  split; [done|].
  apply (ran_chained _ _ _ _ _ Hran (id an) []);
    [done|done| | |done|apply inPlace_nil].
  - apply chainedFrom_assetSteps.
  - by apply (ran_head_stored _ _ _ _ _ Hran (id an, _) _ eq_refl).
Qed.

Lemma assetObjectsOf_direct assets : ∀ todo keys g,
  ∃ objs,
    assetObjectsOf assets keys todo g
    = (Returned objs, set_heap (heap g ++ (nodeFromAsset <$> todo)) g)
    ∧ length objs = length todo
    ∧ ∀ k a o, todo !! k = Some a → objs !! k = Some o →
        assetNode o = length (heap g) + k
        ∧ dependentAssets o = dependentAssetsOf assets a
        ∧ (isDirect o = true
           ↔ (uniqueKey a ∉ keys)
             ∧ ∀ b d, b ∈ take k todo → d ∈ dependentAssetsOf assets b →
                      uniqueKey d ≠ uniqueKey a).
Proof.
  induction todo as [|a rest IH]; intros keys g.
  { exists []. cbn. rewrite app_nil_r, set_heap_id. split; [done|].
    split; [done|]. intros k a o Hk. by rewrite lookup_nil in Hk. }
  cbn [assetObjectsOf].
  rewrite (bind_returned _ _ _ _ _ (alloc_returned _ _)).
  destruct (IH (keys ++ map uniqueKey (dependentAssetsOf assets a))
               (set_heap (heap g ++ [nodeFromAsset a]) g))
    as (objs & Hobjs & Hlen & Hall).
  rewrite (bind_returned _ _ _ _ _ Hobjs). unfold ret.
  cbn [heap set_heap fmap list_fmap] in *.
  rewrite <- app_assoc in *. cbn [app] in *.
  eexists. split; [done|]. split; [cbn; by rewrite Hlen|].
  intros [|k] a' o Ha' Ho.
  - injection Ha' as <-. injection Ho as <-. cbn.
    split; [lia|]. split; [done|].
    rewrite negb_true_iff, bool_decide_eq_false. split.
    + intros Hk. split; [done|]. by intros b d ?%elem_of_nil.
    + by intros [? _].
  - cbn in Ha', Ho.
    destruct (Hall k a' o Ha' Ho) as (Hnode & Hdeps & Hdirect).
    rewrite length_app in Hnode. cbn in Hnode.
    split; [lia|]. split; [done|].
    rewrite Hdirect, not_elem_of_app. cbn [take].
    split.
    + intros [[Hk Hnew] Hearlier]. split; [done|].
      intros b d [->|Hb]%elem_of_cons Hd.
      * intros Heq. apply Hnew. rewrite <- Heq.
        apply list_elem_of_fmap. by exists d.
      * by eapply Hearlier.
    + intros [Hk Hearlier]. split; [split; [done|]|].
      * intros (d & Heq & Hd)%list_elem_of_fmap.
        apply (Hearlier a d); [apply list_elem_of_here|done|done].
      * intros b d Hb. apply Hearlier. by apply list_elem_of_further.
Qed.

(** X16.  The loop of [resolveAssetGroup] over the assets (lines 347-372)
    creates one node object per asset, in order, each with the assets of the
    list that the asset's dependencies name.  An asset counts as direct
    exactly when no asset before it in the list has a dependency that names
    an asset with its unique key: an import by a later asset of the list
    does not count. *)
Theorem isDirect_by_earlier_assets assets g :
  ∃ objs,
    assetObjectsOf assets [] assets g
    = (Returned objs, set_heap (heap g ++ (nodeFromAsset <$> assets)) g)
    ∧ length objs = length assets
    ∧ ∀ k a o, assets !! k = Some a → objs !! k = Some o →
        (heap g ++ (nodeFromAsset <$> assets)) !! assetNode o
        = Some (nodeFromAsset a)
        ∧ dependentAssets o = dependentAssetsOf assets a
        ∧ (isDirect o = true
           ↔ ∀ b d, b ∈ take k assets → d ∈ dependentAssetsOf assets b →
                    uniqueKey d ≠ uniqueKey a).
Proof.
  destruct (assetObjectsOf_direct assets assets [] g)
    as (objs & Hrun & Hlen & Hall).
  exists objs. split; [done|]. split; [done|].
  intros k a o Ha Ho. destruct (Hall k a o Ha Ho) as (-> & Hdeps & Hdirect).
  split; [|split; [done|]].
  - rewrite lookup_app_r by lia.
    replace (length (heap g) + k - length (heap g)) with k by lia.
    by rewrite list_lookup_fmap, Ha.
  - rewrite Hdirect. split; [by intros [_ ?]|].
    intros ?. split; [by intros ?%elem_of_nil|done].
Qed.

(** X17.  The ids of entry nodes: distinct entry specifiers have distinct
    ids, and the id of an entry-specifier node is never that of an
    entry-file node or of the root. *)
Theorem entry_ids_apart `{!Md5FromObject Entry} :
  (∀ e1 e2, id (nodeFromEntrySpecifier e1) = id (nodeFromEntrySpecifier e2) →
            e1 = e2)
  ∧ (∀ e f, id (nodeFromEntrySpecifier e) ≠ id (nodeFromEntryFile f))
  ∧ (∀ e, id (nodeFromEntrySpecifier e) ≠ "@@root")
  ∧ (∀ f, id (nodeFromEntryFile f) ≠ "@@root").
Proof.
  split; [|split; [|split]].
  - intros e1 e2. simpl. intros H. by simplify_eq/=.
  - intros e f. simpl. discriminate.
  - intros e. simpl. discriminate.
  - intros f. simpl. discriminate.
Qed.

(** ** The further properties on the example graphs *)

Lemma initialize_root_witness :
  consistent emptyGraph
  ∧ ∃ g', @initialize Example.md5Group (Some ["index"]) None emptyGraph
          = (Returned tt, g')
      ∧ rootNodeId g' = Some "@@root".
Proof.
  assert (H0 : consistent emptyGraph)
    by (apply consistentb_correct; vm_compute; reflexivity).
  split; [exact H0|].
  destruct (@initialize_root Example.md5Group (Some ["index"]) None emptyGraph
              H0 eq_refl) as (g' & Hrun & _ & Hroot & _).
  exists g'. split; [exact Hrun|exact Hroot].
Defined.

Lemma resolveEntry_contract_witness :
  consistent Pipeline.started
  ∧ ∃ g', @resolveEntry Example.md5Entry "index" [Pipeline.entry] "request-1"
            Pipeline.started = (Returned tt, g')
      ∧ resolvedAt 1 "entry_specifier:index" "request-1"
          [@nodeFromEntryFile Example.md5Entry Pipeline.entry]
          Pipeline.started g'.
Proof.
  assert (H0 : consistent Pipeline.started)
    by (apply consistentb_correct; vm_compute; reflexivity).
  split; [exact H0|].
  apply (proj2 (@resolveEntry_contract Example.md5Entry "index"
                  [Pipeline.entry] "request-1" Pipeline.started 1
                  (nodeFromEntrySpecifier "index") H0
                  ltac:(vm_compute; reflexivity)
                  ltac:(vm_compute; reflexivity))).
  reflexivity.
Defined.

Lemma resolveTargets_contract_witness :
  consistent Pipeline.withEntry
  ∧ ∃ g', @resolveTargets Example.md5Entry Example.newDependency
            Pipeline.entry [Pipeline.target] "request-2" Pipeline.withEntry
          = (Returned tt, g')
      ∧ resolvedAt 2 "entry_file:entry:/index.js" "request-2"
          [@targetObject Example.newDependency Pipeline.entry Pipeline.target]
          Pipeline.withEntry g'.
Proof.
  assert (H1 : consistent Pipeline.withEntry)
    by (apply consistentb_correct; vm_compute; reflexivity).
  split; [exact H1|].
  apply (proj2 (@resolveTargets_contract Example.md5Entry
                  Example.newDependency Pipeline.entry [Pipeline.target]
                  "request-2" Pipeline.withEntry 2
                  (@nodeFromEntryFile Example.md5Entry Pipeline.entry) H1
                  ltac:(vm_compute; reflexivity)
                  ltac:(vm_compute; reflexivity))).
  reflexivity.
Defined.

Lemma resolveDependency_contract_witness :
  consistent Pipeline.withTargets
  ∧ ∃ g', @resolveDependency Example.md5Group
            (@targetDependency Example.newDependency Pipeline.entry
               Pipeline.target)
            (Some Pipeline.group) "request-3" Pipeline.withTargets
          = (Returned tt, g')
      ∧ resolvedAt 3 "dep:/index.js" "request-3"
          [@nodeFromAssetGroup Example.md5Group Pipeline.group]
          Pipeline.withTargets g'.
Proof.
  assert (H2 : consistent Pipeline.withTargets)
    by (apply consistentb_correct; vm_compute; reflexivity).
  split; [exact H2|].
  apply (proj2 (proj2 (@resolveDependency_contract Example.md5Group
                  (@targetDependency Example.newDependency Pipeline.entry
                     Pipeline.target)
                  "request-3" Pipeline.withTargets 3
                  (nodeFromDep (@targetDependency Example.newDependency
                                  Pipeline.entry Pipeline.target)) H2
                  ltac:(vm_compute; reflexivity)
                  ltac:(vm_compute; reflexivity)) eq_refl)).
Defined.

Lemma usedSymbols_demanded_witness :
  wellFormed Example.library
  ∧ dependencyNodesAt Example.library [4]
  ∧ ∃ g' an', setUsedSymbolsAsset 3 [4] Example.library = (Returned tt, g')
      ∧ heap g' !! 3 = Some an'
      ∧ ∀ x, x ∈ usedSymbols an' →
          ∃ n, n ∈ incomingNodes Example.lib Example.library
               ∧ x ∈ usedSymbols n.
Proof.
  assert (Hwf : wellFormed Example.library)
    by (apply wellFormedb_correct; vm_compute; reflexivity).
  assert (Hout : dependencyNodesAt Example.library [4])
    by (apply dependencyNodesAtb_correct; vm_compute; reflexivity).
  split; [exact Hwf|]. split; [exact Hout|].
  destruct (usedSymbols_demanded Example.library 3
              (mkNode "lib" (AssetValue Example.lib)) Example.lib [4] Hwf
              eq_refl eq_refl Hout) as (g' & an' & Hrun & Han' & Hall & _).
  exists g', an'. split; [exact Hrun|]. split; [exact Han'|].
  intros x Hx. exact (proj1 (Hall x Hx)).
Defined.

Lemma setUsedSymbolsAsset_frame_witness :
  wellFormed Example.library
  ∧ dependencyNodesAt Example.library [4]
  ∧ ∃ g', setUsedSymbolsAsset 3 [4] Example.library = (Returned tt, g')
      ∧ nodes g' = nodes Example.library
      ∧ edges g' = edges Example.library.
Proof.
  assert (Hwf : wellFormed Example.library)
    by (apply wellFormedb_correct; vm_compute; reflexivity).
  assert (Hout : dependencyNodesAt Example.library [4])
    by (apply dependencyNodesAtb_correct; vm_compute; reflexivity).
  split; [exact Hwf|]. split; [exact Hout|].
  destruct (setUsedSymbolsAsset_frame Example.library 3
              (mkNode "lib" (AssetValue Example.lib)) Example.lib [4] Hwf
              eq_refl eq_refl Hout) as (g' & Hrun & Hn & He & _).
  exists g'. split; [exact Hrun|]. split; [exact Hn|exact He].
Defined.

Lemma usedSymbols_forwarded_witness :
  wellFormed Example.library
  ∧ dependencyNodesAt Example.library [4]
  ∧ ∃ g' n', setUsedSymbolsAsset 3 [4] Example.library = (Returned tt, g')
      ∧ heap g' !! 4 = Some n' ∧ "*" ∈ usedSymbols n'.
Proof.
  assert (Hwf : wellFormed Example.library)
    by (apply wellFormedb_correct; vm_compute; reflexivity).
  assert (Hout : dependencyNodesAt Example.library [4])
    by (apply dependencyNodesAtb_correct; vm_compute; reflexivity).
  split; [exact Hwf|]. split; [exact Hout|].
  destruct (usedSymbols_forwarded Example.library 3
              (mkNode "lib" (AssetValue Example.lib)) Example.lib [4] Hwf
              eq_refl eq_refl Hout) as (g' & Hrun & Hall).
  destruct (Hall 4 (mkNode "out" (DependencyValue Example.out)) Example.out
              (list_elem_of_here _ _) eq_refl eq_refl)
    as (n' & Hn' & Hns & _).
  exists g', n'. split; [exact Hrun|]. split; [exact Hn'|].
  apply (Hns eq_refl Example.starImport "*").
  - vm_compute. apply list_elem_of_further, list_elem_of_here.
  - apply list_elem_of_here.
  - left. reflexivity.
Defined.

Lemma getEntryAssetGroupNodes_exact_witness :
  wellFormed Example.cycle
  ∧ ∃ entryNodes,
      getEntryAssetGroupNodes Example.cycle = (Returned entryNodes, Example.cycle)
      ∧ NoDup entryNodes.
Proof.
  assert (Hwf : wellFormed Example.cycle)
    by (apply wellFormedb_correct; vm_compute; reflexivity).
  split; [exact Hwf|].
  destruct (getEntryAssetGroupNodes_exact Example.cycle "@@root" 0 Hwf
              eq_refl eq_refl) as (entryNodes & Hrun & Hnd & _).
  exists entryNodes. split; [exact Hrun|exact Hnd].
Defined.

Lemma getEntryAssets_exact_witness :
  wellFormed Example.cycle
  ∧ ∃ entries,
      getEntryAssets Example.cycle = (Returned entries, Example.cycle)
      ∧ Example.cycleA ∈ entries.
Proof.
  assert (Hwf : wellFormed Example.cycle)
    by (apply wellFormedb_correct; vm_compute; reflexivity).
  split; [exact Hwf|].
  destruct (getEntryAssets_exact Example.cycle "@@root" 0 Hwf
              eq_refl eq_refl) as (entries & Hrun & Hall).
  exists entries. split; [exact Hrun|].
  apply Hall. exists 1, (mkNode "a" (AssetValue Example.cycleA)).
  split; [reflexivity|]. split; [reflexivity|].
  apply (reaches_next _ _ _ 0 1); [apply reaches_start|reflexivity|].
  vm_compute. apply list_elem_of_here.
Defined.

Lemma getHash_unhashed_asset_witness :
  reachesThrough (λ _, true)
    (λ l, getNodesConnectedFrom l Samples.unhashed) 0 1
  ∧ @getHash Example.json Example.digest Samples.unhashed
    = (Threw, Samples.unhashed).
Proof.
  assert (Hreach : reachesThrough (λ _, true)
            (λ l, getNodesConnectedFrom l Samples.unhashed) 0 1).
  { apply (reaches_next _ _ _ 0 1); [apply reaches_start|reflexivity|].
    vm_compute. apply list_elem_of_here. }
  split; [exact Hreach|].
  exact (@getHash_unhashed_asset Example.json Example.digest Samples.unhashed
           "@@root" 0 1 (mkNode "pending" (AssetValue Samples.pending))
           Samples.pending eq_refl eq_refl eq_refl Hreach eq_refl eq_refl
           eq_refl).
Defined.

Lemma getIncomingDependencies_exact_witness :
  wellFormed Example.library
  ∧ ∃ deps,
      getIncomingDependencies Example.lib Example.library
      = (Returned deps, Example.library)
      ∧ ∀ dep, dep ∈ deps
          ↔ ∃ l n, heap Example.library !! l = Some n
                   ∧ value n = DependencyValue dep
                   ∧ reachesThrough (λ _, true)
                       (λ l, getNodesConnectedTo l Example.library) 3 l.
Proof.
  assert (Hwf : wellFormed Example.library)
    by (apply wellFormedb_correct; vm_compute; reflexivity).
  split; [exact Hwf|].
  exact (proj2 (getIncomingDependencies_exact Example.lib Example.library)
           Hwf 3 eq_refl).
Defined.

Lemma removeNode_orphan_witness :
  consistent Pipeline.started
  ∧ parentIds "@@root" Pipeline.started = []
  ∧ ∃ g', removeNode 0 Pipeline.started = (Returned tt, g')
      ∧ consistent g' ∧ nodes g' !! "@@root" = None.
Proof.
  assert (H0 : consistent Pipeline.started)
    by (apply consistentb_correct; vm_compute; reflexivity).
  assert (Horphan : parentIds "@@root" Pipeline.started = [])
    by (vm_compute; reflexivity).
  split; [exact H0|]. split; [exact Horphan|].
  destruct (removeNode_orphan 0 Pipeline.started "@@root" H0
              ltac:(vm_compute; reflexivity) Horphan)
    as (g' & Hrun & Hcons & _ & Hgone & _).
  exists g'. split; [exact Hrun|]. split; [exact Hcons|exact Hgone].
Defined.

Lemma resolveAssetGroup_contract_witness :
  consistent Pipeline.withOld
  ∧ ∃ g', @resolveAssetGroup Example.md5Group Pipeline.group [] "request-5"
            Pipeline.withOld = (Returned tt, g')
      ∧ resolvedAt 4 "group:/index.js" "request-5" [] Pipeline.withOld g'
      ∧ ("group:/index.js", "old") ∈ edges Pipeline.withOld
      ∧ ¬ stored "old" g'.
Proof.
  assert (H4 : consistent Pipeline.withOld)
    by (apply consistentb_correct; vm_compute; reflexivity).
  split; [exact H4|].
  assert (Hin : ("group:/index.js", "old") ∈ edges Pipeline.withOld)
    by (apply (bool_decide_unpack _); vm_compute; exact I).
  assert (Honly : ∀ p, (p, "old") ∈ edges Pipeline.withOld →
                       p = "group:/index.js").
  { intros p Hp.
    assert (Hall : Forall (λ e : string * string,
                             e.2 = "old" → e.1 = "group:/index.js")
                     (edges Pipeline.withOld))
      by (apply (bool_decide_unpack _); vm_compute; exact I).
    by apply (proj1 (Forall_forall _ _) Hall (p, "old") Hp). }
  destruct (proj2 (@resolveAssetGroup_contract Example.md5Group Pipeline.group
                     "request-5" Pipeline.withOld 4
                     (set_correspondingRequest (Some "request-4")
                        (@nodeFromAssetGroup Example.md5Group Pipeline.group))
                     H4
                     ltac:(vm_compute; reflexivity)
                     ltac:(vm_compute; reflexivity))
              ltac:(reflexivity))
    as (g' & Hrun & Hres & _ & Hgone & _).
  exists g'. split; [exact Hrun|]. split; [exact Hres|].
  split; [exact Hin|]. exact (Hgone "old" Hin Honly).
Defined.

Lemma resolveAssetGroup_wired_witness :
  consistent Pipeline.withOld
  ∧ ¬ removedIds Pipeline.withOld Pipeline.withMain "group:/index.js"
  ∧ inPlace [("group:/index.js", ["main"]); ("main", ["main-dep"]);
             ("main-dep", ["part"]); ("part", [])]
      Pipeline.withMain.
Proof.
  assert (H3 : consistent Pipeline.withOld)
    by (apply consistentb_correct; vm_compute; reflexivity).
  assert (N3 : ¬ removedIds Pipeline.withOld Pipeline.withMain
                   "group:/index.js").
  { apply (noneRestored_notRestored "group:/index.js").
    - apply noneRestoredb_correct. vm_compute. reflexivity.
    - exists 4. vm_compute. reflexivity. }
  split; [exact H3|]. split; [exact N3|].
  apply (@resolveAssetGroup_wired Example.md5Group Pipeline.group
           [Pipeline.main; Pipeline.part] "request-5" Pipeline.withOld
           Pipeline.withMain H3).
  - exists 4. vm_compute. reflexivity.
  - vm_compute. reflexivity.
  - apply (bool_decide_unpack _). vm_compute. exact I.
  - vm_compute. reflexivity.
  - exact N3.
Defined.

Lemma resolveAsset_wired_witness :
  consistent Example.selfWired
  ∧ ¬ removedIds Example.selfWired Example.selfOnce "self"
  ∧ inPlace [("self", ["d"]); ("d", ["self"])] Example.selfOnce.
Proof.
  assert (H4 : consistent Example.selfWired)
    by (apply consistentb_correct; vm_compute; reflexivity).
  assert (N4 : ¬ removedIds Example.selfWired Example.selfOnce "self").
  { apply (noneRestored_notRestored "self").
    - apply noneRestoredb_correct. vm_compute. reflexivity.
    - exists 2. vm_compute. reflexivity. }
  split; [exact H4|]. split; [exact N4|].
  apply (resolveAsset_wired 2 [Example.selfAsset] Example.selfWired
           Example.selfOnce (mkNode "self" (AssetValue Example.selfAsset))
           Example.selfAsset H4).
  - vm_compute. reflexivity.
  - reflexivity.
  - vm_compute. reflexivity.
  - apply (bool_decide_unpack _). vm_compute. exact I.
  - exact N4.
Defined.
